(** * Clinical-zone classification of a FLAME head mesh

    A shallow embedding of the zone-classification core of
    [scripts/convert_flame_to_web.py]: the helper [_compute_vertex_stats],
    the mask-guided subdivider [subdivide_flame_masks_to_clinical_zones]
    and the position-only classifier [_position_only_regions].

    Conventions of the embedding.
    - A coordinate is a rational number ([Q]); float rounding is not
      modelled, the thresholds [0.15], [0.30], ... are the rationals they
      denote.  A float quotient whose divisor may be zero is an [fnum],
      which also has the IEEE values nan and +-inf.
    - A vertex index is an integer ([Z]): an int64 index array may hold
      negative or too large values.
    - A Python exception is [None] in the [option] monad ([ValueError] of
      [min] on an empty array, [IndexError] of an out-of-range index).
    - A Python [dict] keyed by names is a [gmap string _]; a Python [set]
      of indices is a [gset Z]. *)

From Stdlib Require Import QArith Qabs Qround Lqa.
From stdpp Require Import gmap strings list fin_maps sorting.

Local Open Scope string_scope.
Local Open Scope list_scope.
Local Open Scope Z_scope.

(** ** Numbers *)

Definition Qltb (a b : Q) : bool := negb (Qle_bool b a).
Definition Qgtb (a b : Q) : bool := Qltb b a.
Definition Qleb (a b : Q) : bool := Qle_bool a b.
Definition Qgeb (a b : Q) : bool := Qle_bool b a.

#[global] Instance Qle_dec : RelDecision Qle.
Proof. intros a b. unfold Qle. apply _. Defined.

(** The result of a float division: finite, +inf, -inf or nan. *)
Inductive fnum : Type :=
  | Fin (q : Q)
  | PInf
  | NInf
  | NaN.

(** [a / b] on numpy float scalars: a zero divisor gives nan or an
    infinity (with a warning), never an exception. *)
Definition fdiv (a b : Q) : fnum :=
  if Qeq_bool b 0%Q then
    if Qltb 0%Q a then PInf else if Qltb a 0%Q then NInf else NaN
  else Fin (a / b)%Q.

(** [a < b]; every comparison with nan is false. *)
Definition flt (a b : fnum) : bool :=
  match a, b with
  | NaN, _ | _, NaN => false
  | Fin p, Fin q => Qltb p q
  | NInf, Fin _ | NInf, PInf | Fin _, PInf => true
  | _, _ => false
  end.

Definition fabs (a : fnum) : fnum :=
  match a with
  | Fin q => Fin (Qabs q)
  | PInf | NInf => PInf
  | NaN => NaN
  end.

(** [a - c] for a finite [c]. *)
Definition fsubq (a : fnum) (c : Q) : fnum :=
  match a with
  | Fin q => Fin (q - c)%Q
  | other => other
  end.

(** ** numpy arrays as lists *)

(** [a.min()] and [a.max()]: a [ValueError] on an empty array. *)
Definition Qmin2 (a b : Q) : Q := if Qle_bool a b then a else b.
Definition Qmax2 (a b : Q) : Q := if Qle_bool a b then b else a.

Definition np_min (a : list Q) : option Q :=
  match a with
  | [] => None
  | q :: r => Some (foldl Qmin2 q r)
  end.

Definition np_max (a : list Q) : option Q :=
  match a with
  | [] => None
  | q :: r => Some (foldl Qmax2 q r)
  end.

(** [a[i]] for an integer [i]: negative indices count from the end, any
    other index outside the array is an [IndexError]. *)
Definition np_index (a : list Q) (i : Z) : option Q :=
  let n := Z.of_nat (length a) in
  if (0 <=? i) && (i <? n) then a !! Z.to_nat i
  else if (- n <=? i) && (i <? 0) then a !! Z.to_nat (n + i)
  else None.

(** [a[idx]] for an index array [idx]. *)
Definition np_take (a : list Q) (idx : list Z) : option (list Q) :=
  mapM (np_index a) idx.

(** [idx[mask]] for a boolean array [mask] of the same length. *)
Fixpoint np_select (idx : list Z) (mask : list bool) : list Z :=
  match idx, mask with
  | i :: idx', b :: mask' =>
      if b then i :: np_select idx' mask' else np_select idx' mask'
  | _, _ => []
  end.

(** Element-wise comparisons of an array with a scalar, and [&], [~]. *)
Definition vgt (a : list Q) (t : Q) : list bool := (λ v, Qgtb v t) <$> a.
Definition vlt (a : list Q) (t : Q) : list bool := (λ v, Qltb v t) <$> a.
Definition vge (a : list Q) (t : Q) : list bool := (λ v, Qgeb v t) <$> a.
Definition vle (a : list Q) (t : Q) : list bool := (λ v, Qleb v t) <$> a.
Definition vand (m1 m2 : list bool) : list bool := zip_with andb m1 m2.
Definition vnot (m : list bool) : list bool := negb <$> m.
(** [np.abs(a - c)]. *)
Definition vabsdiff (a : list Q) (c : Q) : list Q := (λ v, Qabs (v - c)%Q) <$> a.

(** [sorted(l)] on a list of ints. *)
Definition sorted (l : list Z) : list Z := merge_sort Z.le l.

(** [np.median]: the middle element of the sorted array, or the mean of
    the two middle ones. *)
Definition np_median (a : list Q) : Q :=
  let s := merge_sort Qle a in
  let n := length a in
  if Nat.even n
  then ((nth (n / 2 - 1)%nat s 0 + nth (n / 2)%nat s 0) / 2)%Q
  else nth (n / 2)%nat s 0%Q.

(** [np.percentile(a, pct)] with the default linear interpolation between
    the two neighbours of the position [pct/100 * (n-1)]. *)
Definition np_percentile (a : list Q) (pct : Z) : Q :=
  let s := merge_sort Qle a in
  let n := Z.of_nat (length a) in
  let pos := ((pct # 100) * inject_Z (n - 1))%Q in
  let j := Qfloor pos in
  let g := (pos - inject_Z j)%Q in
  let lo := nth (Z.to_nat j) s 0%Q in
  let hi := nth (Z.to_nat (Z.min (j + 1) (n - 1))) s 0%Q in
  (lo + g * (hi - lo))%Q.


(** [len(a) > 0]. *)
Definition nonempty {A} (a : list A) : bool :=
  match a with
  | [] => false
  | _ :: _ => true
  end.

(** A [for] loop whose body may raise. *)
Fixpoint for_each {S A} (body : S → A → option S) (s : S) (l : list A)
  : option S :=
  match l with
  | [] => Some s
  | a :: l' => s' ← body s a; for_each body s' l'
  end.

(** ** Data model *)

(** A vertex of the template mesh: its x, y and z coordinates. *)
Record vertex : Type := Vertex { vx : Q; vy : Q; vz : Q }.

(** The value of one entry of the FLAME mask dictionary, as [_to_numpy]
    sees it: [None], a one-dimensional boolean array, or a
    one-dimensional integer array. *)
Inductive mask_val : Type :=
  | MaskNone
  | MaskBool (m : list bool)
  | MaskInt (a : list Z).

(** The zone map: zone name to list of vertex indices. *)
Abbreviation zones := (gmap string (list Z)).

Definition ALL_CLINICAL_ZONES : list string :=
  [ "full_face";
    "forehead"; "forehead_left"; "forehead_right"; "forehead_center";
    "brow_left"; "brow_right"; "brow_inner_left"; "brow_inner_right";
    "eye_left_upper"; "eye_left_lower"; "eye_right_upper"; "eye_right_lower";
    "eye_left_corner_inner"; "eye_left_corner_outer";
    "eye_right_corner_inner"; "eye_right_corner_outer";
    "under_eye_left"; "under_eye_right";
    "tear_trough_left"; "tear_trough_right";
    "nose_bridge"; "nose_bridge_upper"; "nose_bridge_lower";
    "nose_tip"; "nose_tip_left"; "nose_tip_right";
    "nostril_left"; "nostril_right"; "nose_dorsum";
    "cheek_left"; "cheek_right"; "cheekbone_left"; "cheekbone_right";
    "cheek_hollow_left"; "cheek_hollow_right";
    "nasolabial_left"; "nasolabial_right";
    "lip_upper"; "lip_upper_left"; "lip_upper_right"; "lip_upper_center";
    "lip_lower"; "lip_lower_left"; "lip_lower_right"; "lip_lower_center";
    "lip_corner_left"; "lip_corner_right";
    "chin"; "chin_center"; "chin_left"; "chin_right";
    "jaw_left"; "jaw_right"; "jawline_left"; "jawline_right";
    "temple_left"; "temple_right";
    "ear_left"; "ear_right";
    "neck" ].

(** [{name: [] for name in ALL_CLINICAL_ZONES}]. *)
Definition init_regions : zones :=
  list_to_map ((λ name, (name, [])) <$> ALL_CLINICAL_ZONES).

(** [regions[name].append(vi)]; a [KeyError] on a name that is no key. *)
Definition zone_append (name : string) (vi : Z) (regions : zones)
  : option zones :=
  l ← regions !! name; Some (<[name := l ++ [vi]]> regions).

(** ** [_compute_vertex_stats] *)

Record vertex_stats : Type := VertexStats {
  st_x : list Q; st_y : list Q; st_z : list Q;
  st_y_min : Q; st_y_max : Q;
  st_x_min : Q; st_x_max : Q;
  st_z_min : Q; st_z_max : Q;
  st_y_range : Q; st_x_range : Q;
  st_yn : list Q; st_xn : list Q
}.

Definition _compute_vertex_stats (v_template : list vertex)
  : option vertex_stats :=
  let x := vx <$> v_template in
  let y := vy <$> v_template in
  let z := vz <$> v_template in
  y_min ← np_min y; y_max ← np_max y;
  x_min ← np_min x; x_max ← np_max x;
  z_min ← np_min z; z_max ← np_max z;
  let y_range := (y_max - y_min)%Q in
  let x_range := (x_max - x_min)%Q in
  Some {|
    st_x := x; st_y := y; st_z := z;
    st_y_min := y_min; st_y_max := y_max;
    st_x_min := x_min; st_x_max := x_max;
    st_z_min := z_min; st_z_max := z_max;
    st_y_range := y_range; st_x_range := x_range;
    st_yn := (λ v, (v - y_min) / (if Qgtb y_range 0 then y_range else 1))%Q <$> y;
    st_xn := (λ v, (v - x_min) / (if Qgtb x_range 0 then x_range else 1))%Q <$> x
  |}.

(** ** [_mask_to_indices] *)

(** [np.where(arr)[0]]: the positions of the true entries. *)
Fixpoint np_where_from (i : Z) (m : list bool) : list Z :=
  match m with
  | [] => []
  | b :: m' => if b then i :: np_where_from (i + 1) m'
               else np_where_from (i + 1) m'
  end.
Definition np_where (m : list bool) : list Z := np_where_from 0 m.

(** [arr.max()] of a non-empty integer array. *)
Definition Zmax_list (a : list Z) : Z :=
  match a with
  | [] => 0
  | i :: r => foldl Z.max i r
  end.

Definition _mask_to_indices (n_verts : nat) (mask_val : mask_val) : list Z :=
  match mask_val with
  | MaskNone => []
  | MaskBool m => np_where m
  | MaskInt a =>
      if negb (nonempty a) then []
      else if (length a =? n_verts)%nat && (Zmax_list a <=? 1)
      then np_where ((λ i, negb (i =? 0)) <$> a)
      else a
  end.

(** ** The mask-guided subdivider *)

Inductive eye_side_name : Type := LeftEye | RightEye.

Section Subdivider.
(** The order in which a Python [set] of indices is iterated. *)
Context (set_order : gset Z → list Z).
(** The coordinate columns of the template. *)
Context (x y : list Q).

Local Open Scope Q_scope.

(** *** Helpers of the closure

    [_filter_x_range] and [_filter_y_range] are defined by the source
    and never called. *)

Definition _split_lr (indices : list Z) (threshold : Q)
  : option (list Z * list Z) :=
  if negb (nonempty indices) then Some ([], [])
  else
    xs ← np_take x indices;
    let mask_left := vgt xs threshold in
    Some (np_select indices mask_left, np_select indices (vnot mask_left)).

Definition _split_upper_lower (indices : list Z) (threshold : Q)
  : option (list Z * list Z) :=
  if negb (nonempty indices) then Some ([], [])
  else
    ys ← np_take y indices;
    let mask_upper := vgt ys threshold in
    Some (np_select indices mask_upper, np_select indices (vnot mask_upper)).

Definition _filter_x_range (indices : list Z) (x_lo x_hi : Q)
  : option (list Z) :=
  if negb (nonempty indices) then Some []
  else
    xs_lo ← np_take x indices;
    xs_hi ← np_take x indices;
    let mask := vand (vge xs_lo x_lo) (vle xs_hi x_hi) in
    Some (np_select indices mask).

Definition _filter_y_range (indices : list Z) (y_lo y_hi : Q)
  : option (list Z) :=
  if negb (nonempty indices) then Some []
  else
    ys_lo ← np_take y indices;
    ys_hi ← np_take y indices;
    let mask := vand (vge ys_lo y_lo) (vle ys_hi y_hi) in
    Some (np_select indices mask).

Definition _median_y (idx : list Z) : option Q :=
  if negb (nonempty idx) then Some 0
  else ys ← np_take y idx; Some (np_median ys).

Definition _median_x (idx : list Z) : option Q :=
  if negb (nonempty idx) then Some 0
  else xs ← np_take x idx; Some (np_median xs).

Definition _percentile_y (idx : list Z) (pct : Z) : option Q :=
  if negb (nonempty idx) then Some 0
  else ys ← np_take y idx; Some (np_percentile ys pct).

Definition _percentile_x (idx : list Z) (pct : Z) : option Q :=
  if negb (nonempty idx) then Some 0
  else xs ← np_take x idx; Some (np_percentile xs pct).

(** [idx[mask(x[idx])]], [idx[mask(y[idx])]] and
    [idx[mask(x[idx], y[idx])]]: the boolean-mask selections the source
    writes inline. *)
Definition where_x (idx : list Z) (mask : list Q → list bool)
  : option (list Z) :=
  xs ← np_take x idx; Some (np_select idx (mask xs)).

Definition where_y (idx : list Z) (mask : list Q → list bool)
  : option (list Z) :=
  ys ← np_take y idx; Some (np_select idx (mask ys)).

Definition where_xy (idx : list Z) (mask : list Q → list Q → list bool)
  : option (list Z) :=
  xs ← np_take x idx; ys ← np_take y idx; Some (np_select idx (mask xs ys)).

(** *** The broad regions and the landmarks *)
Context (nose_idx lips_idx forehead_idx left_eye_idx right_eye_idx
         face_idx neck_idx left_ear_idx right_ear_idx scalp_idx
         left_eyeball_idx right_eyeball_idx face_remainder : list Z).
Context (nose_med_y midline_x : Q).

(** *** FOREHEAD subdivision *)

Definition forehead_loop (center_lo center_hi : Q)
    (regions : zones) (vi : Z) : option zones :=
  vx ← np_index x vi;
  vy ← np_index y vi;
  if Qgtb vx center_hi then zone_append "forehead_left" vi regions
  else if Qltb vx center_lo then zone_append "forehead_right" vi regions
  else zone_append "forehead_center" vi regions.

Definition forehead_stage (regions : zones) : option zones :=
  if nonempty forehead_idx then
    fh_y_med ← _median_y forehead_idx;
    fh_y_lo ← _percentile_y forehead_idx 15;
    fh_x_lo ← _percentile_x forehead_idx 25;
    fh_x_hi ← _percentile_x forehead_idx 75;
    let fh_third_width := (fh_x_hi - fh_x_lo) / 3.0 in
    let center_lo := fh_x_lo + fh_third_width in
    let center_hi := fh_x_hi - fh_third_width in
    let regions := <["forehead" := sorted forehead_idx]> regions in
    regions ← for_each (forehead_loop center_lo center_hi) regions forehead_idx;
    (* Brows *)
    let brow_y_threshold := fh_y_lo + (fh_y_med - fh_y_lo) * 0.3 in
    brow_candidates ← where_y forehead_idx (λ ys, vle ys brow_y_threshold);
    '(brow_left_cands, brow_right_cands) ← _split_lr brow_candidates midline_x;
    let regions := <["brow_left" := sorted brow_left_cands]> regions in
    let regions := <["brow_right" := sorted brow_right_cands]> regions in
    (* Inner brows *)
    let inner_brow_x_range := (fh_x_hi - fh_x_lo) * 0.15 in
    regions ←
      (if nonempty brow_left_cands then
         inner ← where_x brow_left_cands
                   (λ xs, vlt xs (midline_x + inner_brow_x_range));
         Some (<["brow_inner_left" := sorted inner]> regions)
       else Some regions);
    regions ←
      (if nonempty brow_right_cands then
         inner ← where_x brow_right_cands
                   (λ xs, vgt xs (midline_x - inner_brow_x_range));
         Some (<["brow_inner_right" := sorted inner]> regions)
       else Some regions);
    (* Temples *)
    temple_x_threshold_hi ← _percentile_x forehead_idx 85;
    temple_x_threshold_lo ← _percentile_x forehead_idx 15;
    temple_y_lo ← _percentile_y forehead_idx 10;
    temple_y_hi ← _percentile_y forehead_idx 70;
    temple_candidates ← where_y forehead_idx
      (λ ys, vand (vge ys temple_y_lo) (vle ys temple_y_hi));
    if nonempty temple_candidates then
      t_left ← where_x temple_candidates (λ xs, vgt xs temple_x_threshold_hi);
      let regions := <["temple_left" := sorted t_left]> regions in
      t_right ← where_x temple_candidates (λ xs, vlt xs temple_x_threshold_lo);
      Some (<["temple_right" := sorted t_right]> regions)
    else Some regions
  else Some regions.

(** *** EYE REGION subdivision: one turn of the loop over the sides *)

Definition eye_skin (side : eye_side_name) (eye_idx : list Z) : list Z :=
  let eyeball_set : gset Z :=
    match side with
    | LeftEye =>
        if nonempty left_eyeball_idx then list_to_set left_eyeball_idx else ∅
    | RightEye =>
        if nonempty right_eyeball_idx then list_to_set right_eyeball_idx else ∅
    end in
  let eye_skin_idx := filter (λ vi, vi ∉ eyeball_set) eye_idx in
  if negb (nonempty eye_skin_idx) then eye_idx else eye_skin_idx.

Definition eye_turn (side : eye_side_name) (eye_idx : list Z)
    (prefix_upper prefix_lower corner_inner corner_outer
     under_eye_name tear_trough_name : string)
    (regions : zones) : option zones :=
  if negb (nonempty eye_idx) then Some regions
  else
    eye_med_y ← _median_y eye_idx;
    eye_med_x ← _median_x eye_idx;
    eye_x_lo ← _percentile_x eye_idx 10;
    eye_x_hi ← _percentile_x eye_idx 90;
    eye_y_lo ← _percentile_y eye_idx 10;
    eye_y_hi ← _percentile_y eye_idx 90;
    let eye_skin_idx := eye_skin side eye_idx in
    '(upper_eye, lower_eye) ← _split_upper_lower eye_skin_idx eye_med_y;
    let regions := <[prefix_upper := sorted upper_eye]> regions in
    let regions := <[prefix_lower := sorted lower_eye]> regions in
    (* Eye corners *)
    corner_band ← where_y eye_skin_idx
      (λ ys, vlt (vabsdiff ys eye_med_y) ((eye_y_hi - eye_y_lo) * 0.3));
    regions ←
      (if nonempty corner_band then
         match side with
         | LeftEye =>
             inner_thresh ← _percentile_x corner_band 15;
             outer_thresh ← _percentile_x corner_band 85;
             inner ← where_x corner_band (λ xs, vle xs inner_thresh);
             let regions := <[corner_inner := sorted inner]> regions in
             outer ← where_x corner_band (λ xs, vge xs outer_thresh);
             Some (<[corner_outer := sorted outer]> regions)
         | RightEye =>
             inner_thresh ← _percentile_x corner_band 85;
             outer_thresh ← _percentile_x corner_band 15;
             inner ← where_x corner_band (λ xs, vge xs inner_thresh);
             let regions := <[corner_inner := sorted inner]> regions in
             outer ← where_x corner_band (λ xs, vle xs outer_thresh);
             Some (<[corner_outer := sorted outer]> regions)
         end
       else Some regions);
    (* Under-eye *)
    let under_eye_candidates := lower_eye in
    let regions := <[under_eye_name := sorted under_eye_candidates]> regions in
    (* Tear trough *)
    if nonempty under_eye_candidates then
      ue_med_x ← _median_x under_eye_candidates;
      match side with
      | LeftEye =>
          t ← where_x under_eye_candidates (λ xs, vlt xs ue_med_x);
          Some (<[tear_trough_name := sorted t]> regions)
      | RightEye =>
          t ← where_x under_eye_candidates (λ xs, vgt xs ue_med_x);
          Some (<[tear_trough_name := sorted t]> regions)
      end
    else Some regions.

Definition eye_stage (regions : zones) : option zones :=
  regions ← eye_turn LeftEye left_eye_idx "eye_left_upper" "eye_left_lower"
              "eye_left_corner_inner" "eye_left_corner_outer"
              "under_eye_left" "tear_trough_left" regions;
  eye_turn RightEye right_eye_idx "eye_right_upper" "eye_right_lower"
    "eye_right_corner_inner" "eye_right_corner_outer"
    "under_eye_right" "tear_trough_right" regions.

(** *** NOSE subdivision *)

Definition nose_stage (regions : zones) : option zones :=
  if nonempty nose_idx then
    nose_y_lo ← _percentile_y nose_idx 5;
    nose_y_hi ← _percentile_y nose_idx 95;
    let nose_y_range := nose_y_hi - nose_y_lo in
    nose_x_lo ← _percentile_x nose_idx 10;
    nose_x_hi ← _percentile_x nose_idx 90;
    (* Nose bridge *)
    let bridge_y_thresh := nose_y_lo + nose_y_range * 0.40 in
    let bridge_x_half := (nose_x_hi - nose_x_lo) * 0.35 in
    bridge_cands ← where_xy nose_idx
      (λ xs ys, vand (vgt ys bridge_y_thresh)
                     (vlt (vabsdiff xs midline_x) bridge_x_half));
    let regions := <["nose_bridge" := sorted bridge_cands]> regions in
    let regions := <["nose_dorsum" := sorted bridge_cands]> regions in
    bridge_mid_y ←
      (if nonempty bridge_cands then _median_y bridge_cands
       else Some nose_med_y);
    regions ←
      (if nonempty bridge_cands then
         upper ← where_y bridge_cands (λ ys, vgt ys bridge_mid_y);
         let regions := <["nose_bridge_upper" := sorted upper]> regions in
         lower ← where_y bridge_cands (λ ys, vle ys bridge_mid_y);
         Some (<["nose_bridge_lower" := sorted lower]> regions)
       else Some regions);
    (* Nose tip *)
    let tip_y_thresh := nose_y_lo + nose_y_range * 0.30 in
    tip_cands ← where_y nose_idx
      (λ ys, vand (vle ys tip_y_thresh)
                  (vgt ys (nose_y_lo + nose_y_range * 0.10)));
    tip_cands ←
      (if nonempty tip_cands then
         let tip_x_half := (nose_x_hi - nose_x_lo) * 0.35 in
         where_x tip_cands (λ xs, vlt (vabsdiff xs midline_x) tip_x_half)
       else Some tip_cands);
    let regions := <["nose_tip" := sorted tip_cands]> regions in
    regions ←
      (if nonempty tip_cands then
         t_left ← where_x tip_cands (λ xs, vgt xs midline_x);
         let regions := <["nose_tip_left" := sorted t_left]> regions in
         t_right ← where_x tip_cands (λ xs, vle xs midline_x);
         Some (<["nose_tip_right" := sorted t_right]> regions)
       else Some regions);
    (* Nostrils *)
    let nostril_y_thresh := nose_y_lo + nose_y_range * 0.30 in
    nostril_cands ← where_y nose_idx (λ ys, vle ys nostril_y_thresh);
    let nostril_x_inner := (nose_x_hi - nose_x_lo) * 0.15 in
    if nonempty nostril_cands then
      n_left ← where_x nostril_cands
                 (λ xs, vgt xs (midline_x + nostril_x_inner));
      let regions := <["nostril_left" := sorted n_left]> regions in
      n_right ← where_x nostril_cands
                  (λ xs, vlt xs (midline_x - nostril_x_inner));
      Some (<["nostril_right" := sorted n_right]> regions)
    else Some regions
  else Some regions.

(** *** LIPS subdivision *)

(** The three x-bands of one lip half; the source writes this block
    out once for the upper and once for the lower lip. *)
Definition lip_thirds (lip : list Z) (center_lo_x center_hi_x : Q)
    (name_left name_right name_center : string) (regions : zones)
  : option zones :=
  if nonempty lip then
    l ← where_x lip (λ xs, vgt xs center_hi_x);
    let regions := <[name_left := sorted l]> regions in
    r ← where_x lip (λ xs, vlt xs center_lo_x);
    let regions := <[name_right := sorted r]> regions in
    c ← where_x lip (λ xs, vand (vge xs center_lo_x) (vle xs center_hi_x));
    Some (<[name_center := sorted c]> regions)
  else Some regions.

Definition lips_stage (regions : zones) : option zones :=
  if nonempty lips_idx then
    lips_y_med ← _median_y lips_idx;
    lips_x_lo ← _percentile_x lips_idx 5;
    lips_x_hi ← _percentile_x lips_idx 95;
    let lips_x_third := (lips_x_hi - lips_x_lo) / 3.0 in
    '(upper_lip, lower_lip) ← _split_upper_lower lips_idx lips_y_med;
    let regions := <["lip_upper" := sorted upper_lip]> regions in
    let regions := <["lip_lower" := sorted lower_lip]> regions in
    let center_lo_x := lips_x_lo + lips_x_third in
    let center_hi_x := lips_x_hi - lips_x_third in
    regions ← lip_thirds upper_lip center_lo_x center_hi_x
                "lip_upper_left" "lip_upper_right" "lip_upper_center" regions;
    regions ← lip_thirds lower_lip center_lo_x center_hi_x
                "lip_lower_left" "lip_lower_right" "lip_lower_center" regions;
    (* Lip corners *)
    lips_y ← np_take y lips_idx;
    y_hi ← np_max lips_y;
    y_lo ← np_min lips_y;
    let corner_band_y := (lips_y_med - (y_hi - y_lo) * 0.20,
                          lips_y_med + (y_hi - y_lo) * 0.20) in
    corner_cands ← where_y lips_idx
      (λ ys, vand (vge ys corner_band_y.1) (vle ys corner_band_y.2));
    if nonempty corner_cands then
      corner_x_thresh_hi ← _percentile_x corner_cands 85;
      corner_x_thresh_lo ← _percentile_x corner_cands 15;
      c_left ← where_x corner_cands (λ xs, vgt xs corner_x_thresh_hi);
      let regions := <["lip_corner_left" := sorted c_left]> regions in
      c_right ← where_x corner_cands (λ xs, vlt xs corner_x_thresh_lo);
      Some (<["lip_corner_right" := sorted c_right]> regions)
    else Some regions
  else Some regions.

(** *** FACE remainder: chin, jaw, cheeks, nasolabial folds *)

(** The upper and lower part of one cheek; written out once per side
    in the source. *)
Definition cheek_split (cheek : list Z) (cheek_mid_y : Q)
    (name_bone name_hollow : string) (regions : zones) : option zones :=
  if nonempty cheek then
    bone ← where_y cheek (λ ys, vgt ys cheek_mid_y);
    let regions := <[name_bone := sorted bone]> regions in
    hollow ← where_y cheek (λ ys, vle ys cheek_mid_y);
    Some (<[name_hollow := sorted hollow]> regions)
  else Some regions.

(** The lower edge of one jaw side; written out once per side in the
    source. *)
Definition jawline (jaw : list Z) (name : string) (regions : zones)
  : option zones :=
  if nonempty jaw then
    j_y_thresh ← _percentile_y jaw 35;
    line ← where_y jaw (λ ys, vlt ys j_y_thresh);
    Some (<[name := sorted line]> regions)
  else Some regions.

Definition face_stage (regions : zones) : option zones :=
  if nonempty face_remainder then
    fr_y ← np_take y face_remainder;
    fr_x ← np_take x face_remainder;
    fr_y_lo ← _percentile_y face_remainder 5;
    fr_y_hi ← _percentile_y face_remainder 95;
    let fr_y_range := fr_y_hi - fr_y_lo in
    (* Chin *)
    let chin_y_thresh := fr_y_lo + fr_y_range * 0.25 in
    fr_x_max ← np_max fr_x;
    fr_x_min ← np_min fr_x;
    let chin_x_half := (fr_x_max - fr_x_min) * 0.25 in
    let chin_cands := np_select face_remainder
      (vand (vle fr_y chin_y_thresh)
            (vlt (vabsdiff fr_x midline_x) chin_x_half)) in
    let regions := <["chin" := sorted chin_cands]> regions in
    regions ←
      (if nonempty chin_cands then
         let chin_third := chin_x_half * 2 / 3 in
         c ← where_x chin_cands
               (λ xs, vlt (vabsdiff xs midline_x) (chin_third / 2));
         let regions := <["chin_center" := sorted c]> regions in
         l ← where_x chin_cands (λ xs, vgt xs (midline_x + chin_third / 2));
         let regions := <["chin_left" := sorted l]> regions in
         r ← where_x chin_cands (λ xs, vlt xs (midline_x - chin_third / 2));
         Some (<["chin_right" := sorted r]> regions)
       else Some regions);
    (* Jaw *)
    let jaw_y_thresh := fr_y_lo + fr_y_range * 0.40 in
    let jaw_x_inner := chin_x_half in
    let jaw_cands := np_select face_remainder
      (vand (vle fr_y jaw_y_thresh)
            (vge (vabsdiff fr_x midline_x) jaw_x_inner)) in
    '(jaw_left, jaw_right) ← _split_lr jaw_cands midline_x;
    let regions := <["jaw_left" := sorted jaw_left]> regions in
    let regions := <["jaw_right" := sorted jaw_right]> regions in
    (* Jawline *)
    regions ← jawline jaw_left "jawline_left" regions;
    regions ← jawline jaw_right "jawline_right" regions;
    (* Cheeks *)
    let cheek_y_lo := fr_y_lo + fr_y_range * 0.25 in
    let cheek_y_hi := fr_y_lo + fr_y_range * 0.70 in
    let cheek_x_inner := (fr_x_max - fr_x_min) * 0.10 in
    let cheek_cands := np_select face_remainder
      (vand (vand (vge fr_y cheek_y_lo) (vle fr_y cheek_y_hi))
            (vgt (vabsdiff fr_x midline_x) cheek_x_inner)) in
    '(cheek_left, cheek_right) ← _split_lr cheek_cands midline_x;
    let regions := <["cheek_left" := sorted cheek_left]> regions in
    let regions := <["cheek_right" := sorted cheek_right]> regions in
    (* Cheekbone and cheek hollow *)
    cheek_mid_y ←
      (if nonempty cheek_cands then _median_y cheek_cands
       else Some ((cheek_y_lo + cheek_y_hi) / 2));
    regions ← cheek_split cheek_left cheek_mid_y
                "cheekbone_left" "cheek_hollow_left" regions;
    regions ← cheek_split cheek_right cheek_mid_y
                "cheekbone_right" "cheek_hollow_right" regions;
    (* Nasolabial folds *)
    if nonempty nose_idx && nonempty lips_idx then
      nl_y_lo ← _percentile_y lips_idx 50;
      nl_y_hi ← _percentile_y nose_idx 30;
      nose_x_90 ← _percentile_x nose_idx 90;
      nose_x_10 ← _percentile_x nose_idx 10;
      let nose_x_range := nose_x_90 - nose_x_10 in
      let nl_x_inner := nose_x_range * 0.4 in
      let nl_x_outer := nose_x_range * 0.9 in
      let nl_cands := np_select face_remainder
        (vand (vand (vand (vge fr_y nl_y_lo) (vle fr_y nl_y_hi))
                    (vge (vabsdiff fr_x midline_x) nl_x_inner))
              (vle (vabsdiff fr_x midline_x) nl_x_outer)) in
      '(nl_left, nl_right) ← _split_lr nl_cands midline_x;
      let regions := <["nasolabial_left" := sorted nl_left]> regions in
      Some (<["nasolabial_right" := sorted nl_right]> regions)
    else Some regions
  else Some regions.

(** *** Ears and neck: pass-through *)

Definition pass_stage (regions : zones) : zones :=
  let regions := <["ear_left" := sorted left_ear_idx]> regions in
  let regions := <["ear_right" := sorted right_ear_idx]> regions in
  <["neck" := sorted neck_idx]> regions.

(** *** Temples from the scalp, when the forehead gave none *)

Definition scalp_stage (regions : zones) : option zones :=
  temple_left ← regions !! "temple_left";
  if negb (nonempty temple_left) && nonempty scalp_idx then
    scalp_y_lo ← _percentile_y scalp_idx 5;
    scalp_y_med ← _median_y scalp_idx;
    scalp_low ← where_y scalp_idx (λ ys, vlt ys scalp_y_med);
    if nonempty scalp_low then
      temple_x_thresh ← _percentile_x scalp_low 70;
      t_left ← where_x scalp_low (λ xs, vgt xs temple_x_thresh);
      let regions := <["temple_left" := sorted t_left]> regions in
      temple_x_thresh_r ← _percentile_x scalp_low 30;
      t_right ← where_x scalp_low (λ xs, vlt xs temple_x_thresh_r);
      Some (<["temple_right" := sorted t_right]> regions)
    else Some regions
  else Some regions.

(** *** full_face: union of all facial regions *)

Definition exclude_from_full : list string :=
  ["neck"; "ear_left"; "ear_right"; "full_face"].

Definition full_face_loop (regions : zones) (full_face_set : gset Z)
    (name : string) : option (gset Z) :=
  if bool_decide (name ∈ exclude_from_full) then Some full_face_set
  else l ← regions !! name; Some (full_face_set ∪ list_to_set l).

(** [if len(a) > 0: s.update(a.tolist())]. *)
Definition update_if_any (a : list Z) (s : gset Z) : gset Z :=
  if nonempty a then s ∪ list_to_set a else s.

Definition full_face_stage (regions : zones) : option zones :=
  full_face_set ← for_each (full_face_loop regions) ∅ ALL_CLINICAL_ZONES;
  let full_face_set := update_if_any face_idx full_face_set in
  let full_face_set := update_if_any forehead_idx full_face_set in
  let full_face_set := update_if_any nose_idx full_face_set in
  let full_face_set := update_if_any lips_idx full_face_set in
  let full_face_set := update_if_any left_eye_idx full_face_set in
  let full_face_set := update_if_any right_eye_idx full_face_set in
  Some (<["full_face" := sorted (set_order full_face_set)]> regions).

(** *** The stages in the order of the source *)

Definition subdivide_stages : option zones :=
  let regions := init_regions in
  regions ← forehead_stage regions;
  regions ← eye_stage regions;
  regions ← nose_stage regions;
  regions ← lips_stage regions;
  regions ← face_stage regions;
  let regions := pass_stage regions in
  regions ← scalp_stage regions;
  full_face_stage regions.

End Subdivider.

(** [fm.get(key, np.array([]))]. *)
Definition fm_get (fm : gmap string (list Z)) (key : string) : list Z :=
  default [] (fm !! key).

Definition specific_keys : list string :=
  ["nose"; "lips"; "forehead"; "left_eye_region"; "right_eye_region";
   "neck"; "left_ear"; "right_ear"; "left_eyeball"; "right_eyeball"].

(** The subdivider for a given iteration order of Python sets. *)
Definition subdivide_with (set_order : gset Z → list Z)
    (v_template : list vertex) (flame_masks : gmap string mask_val)
  : option zones :=
  let n_verts := length v_template in
  stats ← _compute_vertex_stats v_template;
  let x := st_x stats in
  let y := st_y stats in
  let fm := _mask_to_indices n_verts <$> flame_masks in
  let nose_idx := fm_get fm "nose" in
  let lips_idx := fm_get fm "lips" in
  let forehead_idx := fm_get fm "forehead" in
  let left_eye_idx := fm_get fm "left_eye_region" in
  let right_eye_idx := fm_get fm "right_eye_region" in
  let face_idx := fm_get fm "face" in
  let neck_idx := fm_get fm "neck" in
  let left_ear_idx := fm_get fm "left_ear" in
  let right_ear_idx := fm_get fm "right_ear" in
  let scalp_idx := fm_get fm "scalp" in
  let left_eyeball_idx := fm_get fm "left_eyeball" in
  let right_eyeball_idx := fm_get fm "right_eyeball" in
  let specific_regions : gset Z :=
    foldl (λ s key, match fm !! key with
                    | Some a => s ∪ list_to_set a
                    | None => s
                    end) ∅ specific_keys in
  let face_remainder :=
    if nonempty face_idx
    then sorted (set_order (list_to_set face_idx ∖ specific_regions))
    else [] in
  nose_med_y ← _median_y y nose_idx;
  nose_med_x ← _median_x x nose_idx;
  lips_med_y ← _median_y y lips_idx;
  midline_x ←
    (if nonempty nose_idx then xs ← np_take x nose_idx; Some (np_median xs)
     else Some 0%Q);
  subdivide_stages set_order x y
    nose_idx lips_idx forehead_idx left_eye_idx right_eye_idx
    face_idx neck_idx left_ear_idx right_ear_idx scalp_idx
    left_eyeball_idx right_eyeball_idx face_remainder
    nose_med_y midline_x.

(** The subdivider as run: a set is iterated in the order of its
    element list. *)
Definition subdivide_flame_masks_to_clinical_zones
    (v_template : list vertex) (flame_masks : gmap string mask_val)
  : option zones :=
  subdivide_with elements v_template flame_masks.

(** ** The position-only classifier *)

(** Comparisons of a float with a literal, and the chained comparison
    [lo < a < hi]. *)
Definition fltq (a : fnum) (c : Q) : bool := flt a (Fin c).
Definition fgtq (a : fnum) (c : Q) : bool := flt (Fin c) a.
Definition between (lo : Q) (a : fnum) (hi : Q) : bool :=
  fgtq a lo && fltq a hi.

Section PositionOnly.
Local Open Scope Q_scope.

(** The normalized coordinates of the vertex and its index. *)
Context (yn xn : fnum) (vi : Z).

Definition pos_forehead (regions : zones) : option zones :=
  if fgtq yn 0.75 then
    regions ← zone_append "forehead" vi regions;
    if fgtq xn 0.15 then zone_append "forehead_left" vi regions
    else if fltq xn (-0.15) then zone_append "forehead_right" vi regions
    else zone_append "forehead_center" vi regions
  else Some regions.

Definition pos_brows (regions : zones) : option zones :=
  if between 0.65 yn 0.75 then
    regions ←
      (if fgtq xn 0.10 then
         regions ← zone_append "brow_left" vi regions;
         if fltq xn 0.30 then zone_append "brow_inner_left" vi regions
         else Some regions
       else Some regions);
    if fltq xn (-0.10) then
      regions ← zone_append "brow_right" vi regions;
      if fgtq xn (-0.30) then zone_append "brow_inner_right" vi regions
      else Some regions
    else Some regions
  else Some regions.

Definition pos_eye_left (regions : zones) : option zones :=
  if between 0.15 xn 0.55 then
    regions ←
      (if fgtq yn 0.62 then zone_append "eye_left_upper" vi regions
       else zone_append "eye_left_lower" vi regions);
    regions ←
      (if fltq xn 0.25 then zone_append "eye_left_corner_inner" vi regions
       else Some regions);
    if fgtq xn 0.45 then zone_append "eye_left_corner_outer" vi regions
    else Some regions
  else Some regions.

Definition pos_eye_right (regions : zones) : option zones :=
  if between (-0.55) xn (-0.15) then
    regions ←
      (if fgtq yn 0.62 then zone_append "eye_right_upper" vi regions
       else zone_append "eye_right_lower" vi regions);
    regions ←
      (if fgtq xn (-0.25) then zone_append "eye_right_corner_inner" vi regions
       else Some regions);
    if fltq xn (-0.45) then zone_append "eye_right_corner_outer" vi regions
    else Some regions
  else Some regions.

Definition pos_eyes (regions : zones) : option zones :=
  if between 0.55 yn 0.68 then
    regions ← pos_eye_left regions;
    pos_eye_right regions
  else Some regions.

Definition pos_under_eye (regions : zones) : option zones :=
  if between 0.48 yn 0.58 then
    regions ←
      (if between 0.10 xn 0.50 then
         regions ← zone_append "under_eye_left" vi regions;
         if fltq xn 0.30 then zone_append "tear_trough_left" vi regions
         else Some regions
       else Some regions);
    if between (-0.50) xn (-0.10) then
      regions ← zone_append "under_eye_right" vi regions;
      if fgtq xn (-0.30) then zone_append "tear_trough_right" vi regions
      else Some regions
    else Some regions
  else Some regions.

Definition pos_nose_bridge (regions : zones) : option zones :=
  if between 0.35 yn 0.60 && fltq (fabs xn) 0.15 then
    regions ← zone_append "nose_bridge" vi regions;
    regions ← zone_append "nose_dorsum" vi regions;
    if fgtq yn 0.48 then zone_append "nose_bridge_upper" vi regions
    else zone_append "nose_bridge_lower" vi regions
  else Some regions.

Definition pos_nose_tip (regions : zones) : option zones :=
  if between 0.30 yn 0.40 && fltq (fabs xn) 0.15 then
    regions ← zone_append "nose_tip" vi regions;
    if fgtq xn 0 then zone_append "nose_tip_left" vi regions
    else zone_append "nose_tip_right" vi regions
  else Some regions.

Definition pos_nostrils (regions : zones) : option zones :=
  if between 0.28 yn 0.38 then
    regions ←
      (if between 0.08 xn 0.22 then zone_append "nostril_left" vi regions
       else Some regions);
    if between (-0.22) xn (-0.08) then zone_append "nostril_right" vi regions
    else Some regions
  else Some regions.

Definition pos_cheeks (regions : zones) : option zones :=
  if between 0.30 yn 0.55 && fgtq (fabs xn) 0.25 then
    if fgtq xn 0 then
      regions ← zone_append "cheek_left" vi regions;
      if fgtq yn 0.42 then zone_append "cheekbone_left" vi regions
      else zone_append "cheek_hollow_left" vi regions
    else
      regions ← zone_append "cheek_right" vi regions;
      if fgtq yn 0.42 then zone_append "cheekbone_right" vi regions
      else zone_append "cheek_hollow_right" vi regions
  else Some regions.

Definition pos_nasolabial (regions : zones) : option zones :=
  if between 0.28 yn 0.48 && between 0.15 (fabs xn) 0.28 then
    if fgtq xn 0 then zone_append "nasolabial_left" vi regions
    else zone_append "nasolabial_right" vi regions
  else Some regions.

Definition pos_lips (regions : zones) : option zones :=
  if between 0.22 yn 0.32 && fltq (fabs xn) 0.25 then
    regions ←
      (if fgtq yn 0.27 then
         regions ← zone_append "lip_upper" vi regions;
         if fgtq xn 0.06 then zone_append "lip_upper_left" vi regions
         else if fltq xn (-0.06) then zone_append "lip_upper_right" vi regions
         else zone_append "lip_upper_center" vi regions
       else
         regions ← zone_append "lip_lower" vi regions;
         if fgtq xn 0.06 then zone_append "lip_lower_left" vi regions
         else if fltq xn (-0.06) then zone_append "lip_lower_right" vi regions
         else zone_append "lip_lower_center" vi regions);
    if fltq (fabs (fsubq yn 0.27)) 0.03 && fgtq (fabs xn) 0.18 then
      if fgtq xn 0 then zone_append "lip_corner_left" vi regions
      else zone_append "lip_corner_right" vi regions
    else Some regions
  else Some regions.

Definition pos_chin (regions : zones) : option zones :=
  if between 0.12 yn 0.24 && fltq (fabs xn) 0.30 then
    regions ← zone_append "chin" vi regions;
    if fltq (fabs xn) 0.10 then zone_append "chin_center" vi regions
    else if fgtq xn 0 then zone_append "chin_left" vi regions
    else zone_append "chin_right" vi regions
  else Some regions.

Definition pos_jaw (regions : zones) : option zones :=
  if between 0.10 yn 0.30 && fgtq (fabs xn) 0.25 then
    if fgtq xn 0 then
      regions ← zone_append "jaw_left" vi regions;
      if fltq yn 0.18 then zone_append "jawline_left" vi regions
      else Some regions
    else
      regions ← zone_append "jaw_right" vi regions;
      if fltq yn 0.18 then zone_append "jawline_right" vi regions
      else Some regions
  else Some regions.

Definition pos_temples (regions : zones) : option zones :=
  if between 0.60 yn 0.78 && fgtq (fabs xn) 0.50 then
    if fgtq xn 0 then zone_append "temple_left" vi regions
    else zone_append "temple_right" vi regions
  else Some regions.

Definition pos_ears (regions : zones) : option zones :=
  if between 0.40 yn 0.70 && fgtq (fabs xn) 0.80 then
    if fgtq xn 0 then zone_append "ear_left" vi regions
    else zone_append "ear_right" vi regions
  else Some regions.

(** The body of the loop for one vertex, after its coordinates are
    read. *)
Definition classify_vertex (is_front : bool) (regions : zones)
  : option zones :=
  if fltq yn 0.10 then zone_append "neck" vi regions
  else if negb is_front then Some regions
  else
    regions ←
      (if fgtq yn 0.10 then zone_append "full_face" vi regions
       else Some regions);
    regions ← pos_forehead regions;
    regions ← pos_brows regions;
    regions ← pos_eyes regions;
    regions ← pos_under_eye regions;
    regions ← pos_nose_bridge regions;
    regions ← pos_nose_tip regions;
    regions ← pos_nostrils regions;
    regions ← pos_cheeks regions;
    regions ← pos_nasolabial regions;
    regions ← pos_lips regions;
    regions ← pos_chin regions;
    regions ← pos_jaw regions;
    regions ← pos_temples regions;
    pos_ears regions.

End PositionOnly.

(** The quantities [_position_only_regions] derives from the bounding
    box before its loop. *)
Record box : Type := Box {
  bx_y_min : Q; bx_y_range : Q; bx_midline : Q; bx_x_range : Q; bx_z_mid : Q
}.

Definition bounding_box (v_template : list vertex) : option box :=
  let x := vx <$> v_template in
  let y := vy <$> v_template in
  let z := vz <$> v_template in
  y_min ← np_min y; y_max ← np_max y;
  x_min ← np_min x; x_max ← np_max x;
  z_min ← np_min z; z_max ← np_max z;
  let y_range := (y_max - y_min)%Q in
  let x_range := (x_max - x_min)%Q in
  let midline := ((x_min + x_max) / 2.0)%Q in
  let z_mid := ((z_min + z_max) / 2.0)%Q in
  Some (Box y_min y_range midline x_range z_mid).

(** [yn], [xn] and [is_front] of one vertex. *)
Definition norm_y (b : box) (v : vertex) : fnum :=
  fdiv (vy v - bx_y_min b)%Q (bx_y_range b).
Definition norm_x (b : box) (v : vertex) : fnum :=
  fdiv (vx v - bx_midline b)%Q (bx_x_range b / 2.0)%Q.
Definition front (b : box) (v : vertex) : bool :=
  Qgtb (vz v) (bx_z_mid b).

(** [v_template[vi]] for [vi] in [range(n_verts)]. *)
Definition vertex_at (v_template : list vertex) (vi : Z) : option vertex :=
  if 0 <=? vi then v_template !! Z.to_nat vi else None.

Definition position_loop (v_template : list vertex) (b : box)
    (regions : zones) (vi : Z) : option zones :=
  v ← vertex_at v_template vi;
  classify_vertex (norm_y b v) (norm_x b v) vi (front b v) regions.

Definition _position_only_regions (v_template : list vertex)
  : option zones :=
  let n_verts := length v_template in
  b ← bounding_box v_template;
  for_each (position_loop v_template b) init_regions
    (seqZ 0 (Z.of_nat n_verts)).

(** ** The dispatch of [convert_flame_model] between the two components:
    the subdivider when a mask dictionary was loaded, the position-only
    classifier otherwise. *)
Definition clinical_regions (v_template : list vertex)
    (flame_masks : option (gmap string mask_val)) : option zones :=
  match flame_masks with
  | Some masks => subdivide_flame_masks_to_clinical_zones v_template masks
  | None => _position_only_regions v_template
  end.

(** ** The region file

    [convert_flame_model] writes the zone map to [flame_regions.json]:
    the number of zone names, the number of vertices and, for every
    name of [ALL_CLINICAL_ZONES], the index list
    [clinical_regions.get(name, [])] with its length.  The position-only
    branch adds a note.  The list of the mask names, kept in the order
    of the loaded dictionary, is left out. *)

Record zone_entry : Type := ZoneEntry {
  vertex_indices : list Z;
  entry_vertex_count : nat
}.

Record regions_file : Type := RegionsFile {
  zone_count : nat;
  vertex_count : nat;
  file_zones : gmap string zone_entry;
  note : option string
}.

(** [for name in ALL_CLINICAL_ZONES: regions_json['zones'][name] = ...]. *)
Definition zone_entries (clinical_regions : zones)
  : gmap string zone_entry :=
  foldl (λ entries name,
           let indices := default [] (clinical_regions !! name) in
           <[name := ZoneEntry indices (length indices)]> entries)
        ∅ ALL_CLINICAL_ZONES.

Definition regions_json (v_template : list vertex)
    (flame_masks : option (gmap string mask_val)) : option regions_file :=
  regions ← clinical_regions v_template flame_masks;
  Some (RegionsFile (length ALL_CLINICAL_ZONES) (length v_template)
          (zone_entries regions)
          match flame_masks with
          | Some _ => None
          | None =>
              Some "Position-only classification (no FLAME masks available)"
          end).

(** * Properties *)

(** [np.median([3, 1, 2, 5])] is [2.5] and
    [np.percentile([3, 1, 2, 5], 25)] is [1.75]. *)
Example np_median_ex : Qeq_bool (np_median [3; 1; 2; 5]%Q) 2.5 = true.
Proof. reflexivity. Qed.

Example np_percentile_ex :
  Qeq_bool (np_percentile [3; 1; 2; 5]%Q 25) 1.75 = true.
Proof. reflexivity. Qed.

(** ** Lists of indices *)

(** Strictly increasing: sorted ascending with no duplicates. *)
Definition increasing (l : list Z) : Prop := StronglySorted Z.lt l.

(** Every index is a valid vertex index. *)
Definition in_range (n : nat) (l : list Z) : Prop :=
  Forall (λ i, 0 ≤ i < Z.of_nat n) l.

(** [a[i]] does not raise. *)
Definition indexable (n : nat) (l : list Z) : Prop :=
  Forall (λ i, - Z.of_nat n ≤ i < Z.of_nat n) l.

Lemma in_range_indexable n l : in_range n l → indexable n l.
Proof. intros H. eapply Forall_impl; [exact H|]. simpl. lia. Qed.

Lemma sublist_Forall {A} (P : A → Prop) (l k : list A) :
  sublist l k → Forall P k → Forall P l.
Proof.
  intros Hs Hk. apply Forall_forall. intros a Ha.
  rewrite Forall_forall in Hk. apply Hk. by eapply elem_of_sublist.
Qed.

Lemma increasing_sublist l k : sublist l k → increasing k → increasing l.
Proof.
  unfold increasing. induction 1 as [|a l k Hs IH|a l k Hs IH]; intros Hk.
  - constructor.
  - apply StronglySorted_inv in Hk as [Hk Ha]. constructor; [by apply IH|].
    eapply sublist_Forall; done.
  - apply StronglySorted_inv in Hk as [Hk _]. by apply IH.
Qed.

Lemma increasing_NoDup l : increasing l → NoDup l.
Proof.
  unfold increasing. induction 1 as [|a l Hl IH Ha]; constructor; [|done].
  intros Hin. rewrite Forall_forall in Ha. specialize (Ha _ Hin). lia.
Qed.

Lemma sorted_Permutation l : sorted l ≡ₚ l.
Proof. apply merge_sort_Permutation. Qed.

Lemma elem_of_sorted i l : i ∈ sorted l ↔ i ∈ l.
Proof. by rewrite sorted_Permutation. Qed.

Lemma sorted_le l : StronglySorted Z.le (sorted l).
Proof. apply StronglySorted_merge_sort; apply _. Qed.

Lemma le_NoDup_increasing l :
  StronglySorted Z.le l → NoDup l → increasing l.
Proof.
  unfold increasing. induction 1 as [|a l Hl IH Ha]; intros Hnd; [constructor|].
  apply NoDup_cons in Hnd as [Hna Hnd]. constructor; [by apply IH|].
  rewrite Forall_forall in Ha |- *. intros i Hi.
  pose proof (Ha _ Hi). assert (a ≠ i) by (by intros ->). lia.
Qed.

Lemma sorted_increasing l : NoDup l → increasing (sorted l).
Proof.
  intros Hnd. apply le_NoDup_increasing; [apply sorted_le|].
  by rewrite sorted_Permutation.
Qed.

Lemma sorted_in_range n l : in_range n l → in_range n (sorted l).
Proof. unfold in_range. by rewrite sorted_Permutation. Qed.

Lemma sorted_nil : sorted [] = [].
Proof. reflexivity. Qed.

(** Two sorted lists with the same elements are the same list: the order
    in which a set is iterated does not show after [sorted]. *)
Lemma sorted_perm_eq l k : l ≡ₚ k → sorted l = sorted k.
Proof.
  intros Hp. apply (Sorted_unique Z.le).
  - apply Sorted_merge_sort; apply _.
  - apply Sorted_merge_sort; apply _.
  - unfold sorted. by rewrite !merge_sort_Permutation.
Qed.

Lemma np_select_sublist idx mask : sublist (np_select idx mask) idx.
Proof.
  revert mask. induction idx as [|i idx IH]; intros [|[] mask]; simpl;
    try apply sublist_nil_l.
  - by apply sublist_skip.
  - by apply sublist_cons.
Qed.

Lemma np_select_vnot_Permutation idx mask :
  length mask = length idx →
  np_select idx mask ++ np_select idx (vnot mask) ≡ₚ idx.
Proof.
  revert mask. induction idx as [|i idx IH]; intros [|b mask] Hlen;
    simplify_eq/=; [done|].
  destruct b; simpl.
  - by rewrite IH.
  - rewrite <-Permutation_middle. by rewrite IH.
Qed.

Lemma np_where_from_spec i m :
  increasing (np_where_from i m) ∧
  Forall (λ j, i ≤ j < i + Z.of_nat (length m)) (np_where_from i m).
Proof.
  revert i. induction m as [|b m IH]; intros i; simpl.
  - split; constructor.
  - destruct (IH (i + 1)) as [Hs Hr].
    assert (Forall (λ j, i < j < i + Z.of_nat (S (length m)))
              (np_where_from (i + 1) m)) as Hr'.
    { eapply Forall_impl; [exact Hr|]. simpl. lia. }
    destruct b.
    + split.
      * constructor; [done|]. eapply Forall_impl; [exact Hr'|]. simpl; lia.
      * constructor; [lia|]. eapply Forall_impl; [exact Hr'|]. simpl; lia.
    + split; [done|]. eapply Forall_impl; [exact Hr'|]. simpl; lia.
Qed.

Lemma np_where_increasing m : increasing (np_where m).
Proof. apply np_where_from_spec. Qed.

Lemma np_where_in_range n m :
  (length m ≤ n)%nat → in_range n (np_where m).
Proof.
  intros Hn. eapply Forall_impl; [apply (np_where_from_spec 0 m)|].
  simpl. lia.
Qed.

(** ** Indexing *)

Lemma np_index_is_Some a i :
  - Z.of_nat (length a) ≤ i < Z.of_nat (length a) → is_Some (np_index a i).
Proof.
  intros Hi. unfold np_index.
  destruct (decide (0 ≤ i)).
  - rewrite (proj2 (Z.leb_le _ _)), (proj2 (Z.ltb_lt _ _)) by lia. simpl.
    apply lookup_lt_is_Some. lia.
  - rewrite (proj2 (Z.leb_gt _ _)) by lia. simpl.
    rewrite (proj2 (Z.leb_le _ _)), (proj2 (Z.ltb_lt _ _)) by lia. simpl.
    apply lookup_lt_is_Some. lia.
Qed.

Lemma np_take_is_Some a idx :
  indexable (length a) idx → is_Some (np_take a idx).
Proof.
  intros Hidx. apply mapM_is_Some. eapply Forall_impl; [exact Hidx|].
  intros i Hi. by apply np_index_is_Some.
Qed.

Lemma np_take_length a idx vs : np_take a idx = Some vs → length vs = length idx.
Proof. intros H. symmetry. by eapply length_mapM. Qed.

Lemma for_each_is_Some {S A} (I : S → Prop) (body : S → A → option S) s l :
  I s →
  (∀ s a, I s → a ∈ l → ∃ s', body s a = Some s' ∧ I s') →
  ∃ s', for_each body s l = Some s' ∧ I s'.
Proof.
  revert s. induction l as [|a l IH]; intros s Hs Hbody; simpl; [by eauto|].
  destruct (Hbody s a Hs) as (s' & -> & Hs'); [by left|]. simpl.
  apply IH; [done|]. intros s0 a0 ? ?. apply Hbody; [done|by right].
Qed.

Lemma nonempty_false {A} (l : list A) : nonempty l = false → l = [].
Proof. by destruct l. Qed.

Section SubdividerHelpers.
Context (x y : list Q).

Lemma where_x_sublist idx mask l : where_x x idx mask = Some l → sublist l idx.
Proof.
  unfold where_x. intros H. apply bind_Some in H as (xs & _ & H).
  simplify_eq. apply np_select_sublist.
Qed.

Lemma where_y_sublist idx mask l : where_y y idx mask = Some l → sublist l idx.
Proof.
  unfold where_y. intros H. apply bind_Some in H as (xs & _ & H).
  simplify_eq. apply np_select_sublist.
Qed.

Lemma where_xy_sublist idx mask l :
  where_xy x y idx mask = Some l → sublist l idx.
Proof.
  unfold where_xy. intros H. apply bind_Some in H as (xs & _ & H).
  apply bind_Some in H as (ys & _ & H).
  simplify_eq. apply np_select_sublist.
Qed.

Lemma _split_lr_sublist idx t a b :
  _split_lr x idx t = Some (a, b) → sublist a idx ∧ sublist b idx.
Proof.
  unfold _split_lr. destruct (nonempty idx); simpl; intros H.
  - apply bind_Some in H as (xs & _ & H). simplify_eq.
    split; apply np_select_sublist.
  - simplify_eq. split; apply sublist_nil_l.
Qed.

Lemma _split_upper_lower_sublist idx t a b :
  _split_upper_lower y idx t = Some (a, b) → sublist a idx ∧ sublist b idx.
Proof.
  unfold _split_upper_lower. destruct (nonempty idx); simpl; intros H.
  - apply bind_Some in H as (xs & _ & H). simplify_eq.
    split; apply np_select_sublist.
  - simplify_eq. split; apply sublist_nil_l.
Qed.

Lemma _split_upper_lower_Permutation idx t a b :
  _split_upper_lower y idx t = Some (a, b) → a ++ b ≡ₚ idx.
Proof.
  unfold _split_upper_lower.
  destruct (nonempty idx) eqn:Hne; cbn [negb]; intros H.
  - apply bind_Some in H as (ys & Hys & H). simplify_eq.
    apply np_take_length in Hys.
    apply np_select_vnot_Permutation.
    unfold vgt. by rewrite length_fmap.
  - apply nonempty_false in Hne. by simplify_eq.
Qed.

(** On indexable arrays nothing raises. *)
Context (n : nat) (Hx : length x = n) (Hy : length y = n).

Lemma where_x_is_Some idx mask :
  indexable n idx → is_Some (where_x x idx mask).
Proof.
  intros Hi. unfold where_x.
  destruct (np_take_is_Some x idx) as [xs ->]; [by rewrite Hx|]. by eexists.
Qed.

Lemma where_y_is_Some idx mask :
  indexable n idx → is_Some (where_y y idx mask).
Proof.
  intros Hi. unfold where_y.
  destruct (np_take_is_Some y idx) as [ys ->]; [by rewrite Hy|]. by eexists.
Qed.

Lemma where_xy_is_Some idx mask :
  indexable n idx → is_Some (where_xy x y idx mask).
Proof.
  intros Hi. unfold where_xy.
  destruct (np_take_is_Some x idx) as [xs ->]; [by rewrite Hx|].
  destruct (np_take_is_Some y idx) as [ys ->]; [by rewrite Hy|]. by eexists.
Qed.

Lemma _split_lr_is_Some idx t :
  indexable n idx → is_Some (_split_lr x idx t).
Proof.
  intros Hi. unfold _split_lr. destruct (nonempty idx); simpl; [|by eexists].
  destruct (np_take_is_Some x idx) as [xs ->]; [by rewrite Hx|]. by eexists.
Qed.

Lemma _split_upper_lower_is_Some idx t :
  indexable n idx → is_Some (_split_upper_lower y idx t).
Proof.
  intros Hi. unfold _split_upper_lower.
  destruct (nonempty idx); simpl; [|by eexists].
  destruct (np_take_is_Some y idx) as [ys ->]; [by rewrite Hy|]. by eexists.
Qed.

Lemma _median_x_is_Some idx : indexable n idx → is_Some (_median_x x idx).
Proof.
  intros Hi. unfold _median_x. destruct (nonempty idx); simpl; [|by eexists].
  destruct (np_take_is_Some x idx) as [xs ->]; [by rewrite Hx|]. by eexists.
Qed.

Lemma _median_y_is_Some idx : indexable n idx → is_Some (_median_y y idx).
Proof.
  intros Hi. unfold _median_y. destruct (nonempty idx); simpl; [|by eexists].
  destruct (np_take_is_Some y idx) as [ys ->]; [by rewrite Hy|]. by eexists.
Qed.

Lemma _percentile_x_is_Some idx pct :
  indexable n idx → is_Some (_percentile_x x idx pct).
Proof.
  intros Hi. unfold _percentile_x.
  destruct (nonempty idx); simpl; [|by eexists].
  destruct (np_take_is_Some x idx) as [xs ->]; [by rewrite Hx|]. by eexists.
Qed.

Lemma _percentile_y_is_Some idx pct :
  indexable n idx → is_Some (_percentile_y y idx pct).
Proof.
  intros Hi. unfold _percentile_y.
  destruct (nonempty idx); simpl; [|by eexists].
  destruct (np_take_is_Some y idx) as [ys ->]; [by rewrite Hy|]. by eexists.
Qed.
End SubdividerHelpers.

Lemma np_min_is_Some a : a ≠ [] → is_Some (np_min a).
Proof. destruct a; [done|]. by eexists. Qed.

Lemma np_max_is_Some a : a ≠ [] → is_Some (np_max a).
Proof. destruct a; [done|]. by eexists. Qed.

(** ** Writes to the zone map *)

(** [writes P r r']: [r'] is [r] after a sequence of assignments
    [regions[k] = v], each with [P k v]. *)
Inductive writes (P : string → list Z → Prop) : zones → zones → Prop :=
  | writes_refl r : writes P r r
  | writes_insert r r' k v :
      writes P r r' → P k v → writes P r (<[k := v]> r').

Lemma writes_trans P r1 r2 r3 :
  writes P r1 r2 → writes P r2 r3 → writes P r1 r3.
Proof. intros H12 H23. induction H23; [done|]. constructor; auto. Qed.

Lemma writes_mono (P Q : string → list Z → Prop) r r' :
  (∀ k v, P k v → Q k v) → writes P r r' → writes Q r r'.
Proof. intros HPQ. induction 1; constructor; auto. Qed.

Lemma writes_lookup P r r' k v :
  writes P r r' → r' !! k = Some v → r !! k = Some v ∨ P k v.
Proof.
  induction 1 as [|r r' k' v' Hw IH HP]; [by left|].
  destruct (decide (k' = k)) as [->|Hne].
  - rewrite lookup_insert_eq. intros [= ->]. by right.
  - rewrite lookup_insert_ne by done. apply IH.
Qed.

Lemma writes_frame P r r' k :
  writes P r r' → (∀ v, ¬ P k v) → r' !! k = r !! k.
Proof.
  intros Hw HP. induction Hw as [|r r' k' v' Hw IH HP']; [done|].
  rewrite lookup_insert_ne; [done|]. intros ->. by eapply HP.
Qed.

Lemma writes_dom P r r' :
  writes P r r' → (∀ k v, P k v → k ∈ dom r) → dom r' = dom r.
Proof.
  intros Hw HP. induction Hw as [|r r' k' v' Hw IH HP']; [done|].
  rewrite dom_insert_L, IH by done. apply subseteq_union_1_L.
  apply singleton_subseteq_l. by eapply HP.
Qed.

(** The three zones the forehead loop fills by [append]. *)
Definition forehead_thirds : list string :=
  ["forehead_left"; "forehead_right"; "forehead_center"].

(** What a stage assigns: a key among [keys], and as value the sorted
    form of a selection [s] from the index array [src] (for the forehead
    thirds, the selection itself in the order of [src]). *)
Definition zone_from (keys : list string) (src : list Z)
    (k : string) (v : list Z) : Prop :=
  k ∈ keys ∧
  ∃ s, sublist s src ∧ (v = sorted s ∨ (v = s ∧ k ∈ forehead_thirds)).

Lemma zone_from_mono keys keys' src src' k v :
  keys ⊆ keys' → sublist src src' →
  zone_from keys src k v → zone_from keys' src' k v.
Proof.
  intros Hk Hs (Hin & s & Hsub & Hv). split; [by apply Hk|].
  exists s. split; [by etrans|done].
Qed.

Lemma zone_from_sorted keys src k s :
  k ∈ keys → sublist s src → zone_from keys src k (sorted s).
Proof. intros ??. split; [done|]. exists s. auto. Qed.

(** ** What each stage of the subdivider writes *)

(** Membership of a literal name in a literal list of names. *)
Ltac solve_name :=
  apply (bool_decide_unpack _); vm_compute; exact I.

(** Membership in a list whose entries are variables. *)
Ltac in_list :=
  repeat first [ by (apply elem_of_cons; left) | (apply elem_of_cons; right) ].

(** Inclusion of one literal list of names in another. *)
Ltac solve_names :=
  let k := fresh "k" in
  let Hk := fresh "Hk" in
  intros k Hk;
  repeat (apply elem_of_cons in Hk as [->|Hk]; [solve_name|]);
  apply elem_of_nil in Hk; destruct Hk.

(** A selection from a selection is a selection. *)
Ltac solve_sub :=
  repeat first
    [ reflexivity
    | assumption
    | apply np_select_sublist
    | apply sublist_nil_l
    | (etrans; [eassumption|])
    | (etrans; [apply np_select_sublist|]) ].

Ltac solve_zone :=
  first [ assumption
        | apply zone_from_sorted; [solve_name | solve_sub] ].

(** Take a successful run of a stage apart: one case per path through
    the stage, with the selections it made as hypotheses. *)
Ltac crunch :=
  repeat match goal with
  | H : Some _ = Some _ |- _ => apply (inj Some) in H; subst
  | H : None = Some _ |- _ => discriminate H
  | H : (if negb ?c then _ else _) = Some _ |- _ =>
      destruct c eqn:?; cbn [negb] in H
  | H : (if ?c then _ else _) = Some _ |- _ => destruct c eqn:?
  | H : (_ ≫= _) = Some _ |- _ => apply bind_Some in H as (? & ? & H)
  | H : (let '(_, _) := ?p in _) = Some _ |- _ => destruct p
  | H : match ?s with LeftEye => _ | RightEye => _ end = Some _ |- _ =>
      destruct s
  | H : where_x _ _ _ = Some _ |- _ => apply where_x_sublist in H
  | H : where_y _ _ _ = Some _ |- _ => apply where_y_sublist in H
  | H : where_xy _ _ _ _ = Some _ |- _ => apply where_xy_sublist in H
  | H : _split_lr _ _ _ = Some _ |- _ => apply _split_lr_sublist in H as [??]
  | H : _split_upper_lower _ _ _ = Some _ |- _ =>
      apply _split_upper_lower_sublist in H as [??]
  end.

Ltac solve_writes :=
  repeat first
    [ apply writes_refl
    | assumption
    | (apply writes_insert; [|solve_zone])
    | (eapply writes_trans; [|eassumption]) ].

Section StageWrites.
Context (x y : list Q).

Lemma forehead_loop_writes lo hi l r r' :
  for_each (forehead_loop x y lo hi) r l = Some r' →
  writes (λ k v, k ∈ forehead_thirds ∧
                 ∃ s, sublist s l ∧ v = default [] (r !! k) ++ s) r r'.
Proof.
  revert r. induction l as [|a l IH]; intros r Hrun; simplify_eq/=.
  { constructor. }
  apply bind_Some in Hrun as (r1 & Hstep & Hrun).
  apply IH in Hrun. clear IH.
  unfold forehead_loop in Hstep.
  apply bind_Some in Hstep as (vx & _ & Hstep).
  apply bind_Some in Hstep as (vy & _ & Hstep).
  assert (∃ k prev, k ∈ forehead_thirds ∧ r !! k = Some prev ∧
                    r1 = <[k := prev ++ [a]]> r) as (k & prev & Hk & Hprev & ->).
  { unfold zone_append in Hstep.
    repeat match type of Hstep with
           | (if ?c then _ else _) = Some _ => destruct c
           end;
      apply bind_Some in Hstep as (prev & Hprev & Hstep); simplify_eq;
      eexists _, prev; (split; last done); solve_name. }
  eapply writes_trans.
  - apply writes_insert; [apply writes_refl|].
    split; [done|]. exists [a]. rewrite Hprev. split; [|done].
    apply sublist_skip, sublist_nil_l.
  - eapply writes_mono; [|exact Hrun].
    intros k' v (Hk' & s & Hs & ->). split; [done|].
    destruct (decide (k = k')) as [->|Hne].
    + rewrite lookup_insert_eq, Hprev. simpl. exists (a :: s).
      split; [by apply sublist_skip|]. by rewrite <-app_assoc.
    + rewrite lookup_insert_ne by done. exists s.
      split; [by apply sublist_cons|done].
Qed.

Context (nose_idx lips_idx forehead_idx left_eye_idx right_eye_idx
         face_idx neck_idx left_ear_idx right_ear_idx scalp_idx
         left_eyeball_idx right_eyeball_idx face_remainder : list Z).
Context (nose_med_y midline_x : Q).

Definition forehead_keys : list string :=
  ["forehead"; "forehead_left"; "forehead_right"; "forehead_center";
   "brow_left"; "brow_right"; "brow_inner_left"; "brow_inner_right";
   "temple_left"; "temple_right"].

Lemma forehead_stage_writes r r' :
  (∀ k, k ∈ forehead_thirds → r !! k = Some []) →
  forehead_stage x y forehead_idx midline_x r = Some r' →
  writes (zone_from forehead_keys forehead_idx) r r'.
Proof.
  intros Hnil Hrun. unfold forehead_stage in Hrun. cbv zeta in Hrun.
  destruct (nonempty forehead_idx); [|crunch; constructor].
  do 4 (apply bind_Some in Hrun as (? & _ & Hrun)).
  apply bind_Some in Hrun as (r1 & Hloop & Hrun).
  apply forehead_loop_writes in Hloop.
  assert (writes (zone_from forehead_keys forehead_idx) r r1) as Hr1.
  { apply (writes_trans _ _ (<["forehead" := sorted forehead_idx]> r));
      [apply writes_insert; [apply writes_refl|solve_zone]|].
    eapply writes_mono; [|exact Hloop].
    intros k v (Hk & s & Hs & ->). split.
    - revert k Hk. solve_names.
    - exists s. split; [done|]. right. split; [|done].
      rewrite lookup_insert_ne, Hnil; [done|done|].
      intros <-. revert Hk. by apply (bool_decide_unpack _). }
  clear Hloop. crunch; solve_writes.
Qed.

Lemma eye_skin_sublist side eye_idx :
  sublist (eye_skin left_eyeball_idx right_eyeball_idx side eye_idx) eye_idx.
Proof.
  unfold eye_skin. cbv zeta.
  destruct (nonempty (filter _ eye_idx)); cbn [negb]; [|done].
  apply sublist_filter.
Qed.

Lemma eye_turn_writes side eye_idx pu pl ci co ue tt r r' :
  eye_turn x y left_eyeball_idx right_eyeball_idx side eye_idx
    pu pl ci co ue tt r = Some r' →
  writes (zone_from [pu; pl; ci; co; ue; tt] eye_idx) r r'.
Proof.
  intros Hrun. unfold eye_turn in Hrun. cbv zeta in Hrun.
  pose proof (eye_skin_sublist side eye_idx).
  crunch;
    repeat first
      [ apply writes_refl
      | (apply writes_insert;
         [|apply zone_from_sorted; [in_list|solve_sub]]) ].
Qed.

Definition eye_left_keys : list string :=
  ["eye_left_upper"; "eye_left_lower";
   "eye_left_corner_inner"; "eye_left_corner_outer";
   "under_eye_left"; "tear_trough_left"].

Definition eye_right_keys : list string :=
  ["eye_right_upper"; "eye_right_lower";
   "eye_right_corner_inner"; "eye_right_corner_outer";
   "under_eye_right"; "tear_trough_right"].

Definition nose_keys : list string :=
  ["nose_bridge"; "nose_dorsum"; "nose_bridge_upper"; "nose_bridge_lower";
   "nose_tip"; "nose_tip_left"; "nose_tip_right";
   "nostril_left"; "nostril_right"].

Lemma nose_stage_writes r r' :
  nose_stage x y nose_idx nose_med_y midline_x r = Some r' →
  writes (zone_from nose_keys nose_idx) r r'.
Proof.
  intros Hrun. unfold nose_stage in Hrun. cbv zeta in Hrun.
  crunch; solve_writes.
Qed.

Lemma lip_thirds_writes lip lo hi n1 n2 n3 r r' :
  lip_thirds x lip lo hi n1 n2 n3 r = Some r' →
  writes (zone_from [n1; n2; n3] lip) r r'.
Proof.
  intros Hrun. unfold lip_thirds in Hrun. cbv zeta in Hrun.
  crunch;
    repeat first
      [ apply writes_refl
      | (apply writes_insert;
         [|apply zone_from_sorted; [in_list|solve_sub]]) ].
Qed.

Definition lips_keys : list string :=
  ["lip_upper"; "lip_lower";
   "lip_upper_left"; "lip_upper_right"; "lip_upper_center";
   "lip_lower_left"; "lip_lower_right"; "lip_lower_center";
   "lip_corner_left"; "lip_corner_right"].

Lemma lips_stage_writes r r' :
  lips_stage x y lips_idx r = Some r' →
  writes (zone_from lips_keys lips_idx) r r'.
Proof.
  intros Hrun. unfold lips_stage in Hrun. cbv zeta in Hrun.
  crunch;
    repeat match goal with
    | H : lip_thirds _ _ _ _ _ _ _ _ = Some _ |- _ =>
        apply lip_thirds_writes in H;
        apply (writes_mono _ (zone_from lips_keys lips_idx)) in H;
        [|intros ??; apply zone_from_mono; [solve_names|eassumption]]
    end;
    solve_writes.
Qed.

Lemma cheek_split_writes cheek mid n1 n2 r r' :
  cheek_split y cheek mid n1 n2 r = Some r' →
  writes (zone_from [n1; n2] cheek) r r'.
Proof.
  intros Hrun. unfold cheek_split in Hrun. cbv zeta in Hrun.
  crunch;
    repeat first
      [ apply writes_refl
      | (apply writes_insert;
         [|apply zone_from_sorted; [in_list|solve_sub]]) ].
Qed.

Lemma jawline_writes jaw name r r' :
  jawline y jaw name r = Some r' →
  writes (zone_from [name] jaw) r r'.
Proof.
  intros Hrun. unfold jawline in Hrun. cbv zeta in Hrun.
  crunch;
    repeat first
      [ apply writes_refl
      | (apply writes_insert;
         [|apply zone_from_sorted; [in_list|solve_sub]]) ].
Qed.

Definition face_keys : list string :=
  ["chin"; "chin_center"; "chin_left"; "chin_right";
   "jaw_left"; "jaw_right"; "jawline_left"; "jawline_right";
   "cheek_left"; "cheek_right"; "cheekbone_left"; "cheekbone_right";
   "cheek_hollow_left"; "cheek_hollow_right";
   "nasolabial_left"; "nasolabial_right"].

Lemma face_stage_writes r r' :
  face_stage x y nose_idx lips_idx face_remainder midline_x r = Some r' →
  writes (zone_from face_keys face_remainder) r r'.
Proof.
  intros Hrun. unfold face_stage in Hrun. cbv zeta in Hrun.
  crunch;
    repeat match goal with
    | H : cheek_split _ _ _ _ _ _ = Some _ |- _ =>
        apply cheek_split_writes in H;
        apply (writes_mono _ (zone_from face_keys face_remainder)) in H;
        [|intros ??; apply zone_from_mono; [solve_names|solve_sub]]
    | H : jawline _ _ _ _ = Some _ |- _ =>
        apply jawline_writes in H;
        apply (writes_mono _ (zone_from face_keys face_remainder)) in H;
        [|intros ??; apply zone_from_mono; [solve_names|solve_sub]]
    end;
    solve_writes.
Qed.

Definition pass_keys : list string := ["ear_left"; "ear_right"; "neck"].

Definition scalp_keys : list string := ["temple_left"; "temple_right"].

Lemma scalp_stage_writes r r' :
  scalp_stage x y scalp_idx r = Some r' →
  writes (zone_from scalp_keys scalp_idx) r r'.
Proof.
  intros Hrun. unfold scalp_stage in Hrun. cbv zeta in Hrun.
  crunch; solve_writes.
Qed.

Lemma pass_stage_writes r :
  writes (λ k v, zone_from ["ear_left"] left_ear_idx k v ∨
                 zone_from ["ear_right"] right_ear_idx k v ∨
                 zone_from ["neck"] neck_idx k v)
    r (pass_stage neck_idx left_ear_idx right_ear_idx r).
Proof.
  unfold pass_stage. cbv zeta.
  repeat (apply writes_insert; [|]); [apply writes_refl|..].
  - left. by apply zone_from_sorted; [solve_name|].
  - right; left. by apply zone_from_sorted; [solve_name|].
  - right; right. by apply zone_from_sorted; [solve_name|].
Qed.

(** The index arrays the zones are selected from, with the zones each
    one feeds. *)
Definition stage_sources : list (list string * list Z) :=
  [ (forehead_keys, forehead_idx);
    (eye_left_keys, left_eye_idx);
    (eye_right_keys, right_eye_idx);
    (nose_keys, nose_idx);
    (lips_keys, lips_idx);
    (face_keys, face_remainder);
    (["ear_left"], left_ear_idx);
    (["ear_right"], right_ear_idx);
    (["neck"], neck_idx);
    (scalp_keys, scalp_idx) ].

Definition zone_src (k : string) (v : list Z) : Prop :=
  ∃ keys src, (keys, src) ∈ stage_sources ∧ zone_from keys src k v.

Lemma zone_src_intro keys src k v :
  (keys, src) ∈ stage_sources → zone_from keys src k v → zone_src k v.
Proof. intros ??. by exists keys, src. Qed.

(** The zones before [full_face] is computed. *)
Definition before_full_face (r7 : zones) : Prop :=
  ∃ r1 r2 r3 r4 r5 r6,
    forehead_stage x y forehead_idx midline_x init_regions = Some r1 ∧
    eye_turn x y left_eyeball_idx right_eyeball_idx LeftEye left_eye_idx
      "eye_left_upper" "eye_left_lower"
      "eye_left_corner_inner" "eye_left_corner_outer"
      "under_eye_left" "tear_trough_left" r1 = Some r2 ∧
    eye_turn x y left_eyeball_idx right_eyeball_idx RightEye right_eye_idx
      "eye_right_upper" "eye_right_lower"
      "eye_right_corner_inner" "eye_right_corner_outer"
      "under_eye_right" "tear_trough_right" r2 = Some r3 ∧
    nose_stage x y nose_idx nose_med_y midline_x r3 = Some r4 ∧
    lips_stage x y lips_idx r4 = Some r5 ∧
    face_stage x y nose_idx lips_idx face_remainder midline_x r5 = Some r6 ∧
    scalp_stage x y scalp_idx
      (pass_stage neck_idx left_ear_idx right_ear_idx r6) = Some r7.

Lemma subdivide_stages_inv set_order r :
  subdivide_stages set_order x y
    nose_idx lips_idx forehead_idx left_eye_idx right_eye_idx
    face_idx neck_idx left_ear_idx right_ear_idx scalp_idx
    left_eyeball_idx right_eyeball_idx face_remainder
    nose_med_y midline_x = Some r ↔
  ∃ r7, before_full_face r7 ∧
        full_face_stage set_order nose_idx lips_idx forehead_idx
          left_eye_idx right_eye_idx face_idx r7 = Some r.
Proof.
  unfold subdivide_stages, before_full_face, eye_stage. cbv zeta. split.
  - intros H.
    apply bind_Some in H as (r1 & H1 & H).
    apply bind_Some in H as (r3 & H23 & H).
    apply bind_Some in H23 as (r2 & H2 & H3).
    apply bind_Some in H as (r4 & H4 & H).
    apply bind_Some in H as (r5 & H5 & H).
    apply bind_Some in H as (r6 & H6 & H).
    apply bind_Some in H as (r7 & H7 & H).
    exists r7. split; [|done]. by exists r1, r2, r3, r4, r5, r6.
  - intros (r7 & (r1 & r2 & r3 & r4 & r5 & r6 & H1 & H2 & H3 & H4 & H5 & H6 & H7) & H8).
    rewrite H1. simpl. rewrite H2. simpl. rewrite H3. simpl.
    rewrite H4. simpl. rewrite H5. simpl. rewrite H6. simpl.
    rewrite H7. simpl. done.
Qed.

Lemma init_regions_lookup k :
  init_regions !! k =
    if bool_decide (k ∈ ALL_CLINICAL_ZONES) then Some [] else None.
Proof.
  unfold init_regions. case_bool_decide as Hk.
  - apply elem_of_list_to_map_1'.
    + intros l Hl. apply list_elem_of_fmap in Hl as (? & ? & ?).
      by simplify_eq.
    + apply list_elem_of_fmap. by exists k.
  - apply not_elem_of_list_to_map_1. rewrite <-list_fmap_compose.
    by rewrite list_fmap_id.
Qed.

Lemma before_full_face_writes r7 :
  before_full_face r7 → writes zone_src init_regions r7.
Proof.
  intros (r1 & r2 & r3 & r4 & r5 & r6 & H1 & H2 & H3 & H4 & H5 & H6 & H7).
  apply forehead_stage_writes in H1.
  2:{ intros k Hk. rewrite init_regions_lookup.
      rewrite bool_decide_eq_true_2; [done|]. revert k Hk. solve_names. }
  apply eye_turn_writes in H2, H3.
  apply nose_stage_writes in H4. apply lips_stage_writes in H5.
  apply face_stage_writes in H6. apply scalp_stage_writes in H7.
  pose proof (pass_stage_writes r6) as Hp.
  repeat match goal with
  | H : writes (zone_from ?keys ?src) _ _ |- _ =>
      apply (writes_mono _ zone_src) in H;
      [|intros ??; apply (zone_src_intro keys src);
        unfold stage_sources; in_list]
  end.
  apply (writes_mono _ zone_src) in Hp.
  2:{ intros k v [H|[H|H]]; eapply zone_src_intro; try exact H;
        unfold stage_sources; in_list. }
  repeat (eapply writes_trans; [eassumption|]). apply writes_refl.
Qed.

(** The fixed set of zone names. *)
Definition zone_names : gset string := list_to_set ALL_CLINICAL_ZONES.

Lemma dom_init_regions : dom init_regions = zone_names.
Proof.
  unfold init_regions, zone_names. rewrite dom_list_to_map_L.
  rewrite <-list_fmap_compose. by rewrite list_fmap_id.
Qed.

Lemma zone_src_name k v : zone_src k v → k ∈ ALL_CLINICAL_ZONES.
Proof.
  intros (keys & src & Hin & Hk & _). revert k Hk.
  unfold stage_sources in Hin.
  repeat (apply elem_of_cons in Hin as [[= -> ->]|Hin]; [solve_names|]).
  by apply elem_of_nil in Hin.
Qed.

Lemma before_full_face_dom r7 : before_full_face r7 → dom r7 = zone_names.
Proof.
  intros H. apply before_full_face_writes in H.
  rewrite <-dom_init_regions. eapply writes_dom; [done|].
  intros k v Hk%zone_src_name. rewrite dom_init_regions.
  by apply elem_of_list_to_set.
Qed.

(** Every list of the zone map before [full_face] is empty or selected
    from one of the index arrays. *)
Lemma before_full_face_lookup r7 k v :
  before_full_face r7 → r7 !! k = Some v → v = [] ∨ zone_src k v.
Proof.
  intros H Hk. apply before_full_face_writes in H.
  destruct (writes_lookup _ _ _ _ _ H Hk) as [Hinit|?]; [|by right].
  rewrite init_regions_lookup in Hinit. case_bool_decide; simplify_eq.
  by left.
Qed.

Lemma elem_of_update_if_any a s i :
  i ∈ update_if_any a s ↔ i ∈ s ∨ i ∈ a.
Proof.
  unfold update_if_any. destruct a as [|j a]; cbn [nonempty].
  - rewrite elem_of_nil. tauto.
  - rewrite elem_of_union, elem_of_list_to_set. tauto.
Qed.

Lemma full_face_loop_spec r names s s' :
  for_each (full_face_loop r) s names = Some s' →
  ∀ i, i ∈ s' ↔
       i ∈ s ∨ (∃ k l, k ∈ names ∧ (k ∉ exclude_from_full) ∧
                       r !! k = Some l ∧ i ∈ l).
Proof.
  revert s. induction names as [|name names IH]; intros s Hrun i;
    simplify_eq/=.
  { split; [by left|]. intros [?|(k & l & Hk & _)]; [done|].
    by apply elem_of_nil in Hk. }
  apply bind_Some in Hrun as (s1 & Hstep & Hrun).
  rewrite (IH _ Hrun i). clear IH Hrun. unfold full_face_loop in Hstep.
  case_bool_decide as Hex; simplify_eq.
  - split.
    + intros [?|(k & l & Hk & ?)]; [by left|].
      right. exists k, l. split; [by right|done].
    + intros [?|(k & l & Hk & Hnex & ?)]; [by left|].
      apply elem_of_cons in Hk as [->|Hk]; [done|].
      right. by exists k, l.
  - apply bind_Some in Hstep as (l0 & Hl0 & Hstep). simplify_eq.
    rewrite elem_of_union, elem_of_list_to_set. split.
    + intros [[?|?]|(k & l & Hk & ?)]; [by left| |].
      * right. exists name, l0. split; [by left|done].
      * right. exists k, l. split; [by right|done].
    + intros [?|(k & l & Hk & Hnex & Hl & Hi)]; [by left; left|].
      apply elem_of_cons in Hk as [->|Hk].
      * simplify_eq. by left; right.
      * right. by exists k, l.
Qed.

Lemma full_face_loop_is_Some r names s :
  (∀ k, k ∈ names → is_Some (r !! k)) →
  is_Some (for_each (full_face_loop r) s names).
Proof.
  revert s. induction names as [|name names IH]; intros s Hdom;
    cbn [for_each]; [by eexists|].
  assert (is_Some (full_face_loop r s name)) as [s1 ->].
  { unfold full_face_loop. destruct (bool_decide _); [by eexists|].
    destruct (Hdom name) as [l ->]; [by left|]. by eexists. }
  cbn [mbind option_bind]. apply IH. intros k Hk. apply Hdom. by right.
Qed.

(** The coarse sets that are added to [full_face] as they are. *)
Definition raw_face_sets : list (list Z) :=
  [face_idx; forehead_idx; nose_idx; lips_idx; left_eye_idx; right_eye_idx].

Lemma full_face_stage_inv set_order r7 r :
  full_face_stage set_order nose_idx lips_idx forehead_idx
    left_eye_idx right_eye_idx face_idx r7 = Some r →
  ∃ s : gset Z,
    r = <["full_face" := sorted (set_order s)]> r7 ∧
    ∀ i, i ∈ s ↔
         (∃ k l, k ∈ ALL_CLINICAL_ZONES ∧ (k ∉ exclude_from_full) ∧
                 r7 !! k = Some l ∧ i ∈ l) ∨
         (∃ a, a ∈ raw_face_sets ∧ i ∈ a).
Proof.
  unfold full_face_stage. cbv zeta. intros H.
  apply bind_Some in H as (s0 & Hloop & H). simplify_eq.
  eexists. split; [done|]. intros i.
  rewrite !elem_of_update_if_any, (full_face_loop_spec _ _ _ _ Hloop i).
  rewrite elem_of_empty. unfold raw_face_sets. split.
  - intros [[[[[[[[]|?]|?]|?]|?]|?]|?]|?]; [by left|right..];
      eexists; (split; [|eassumption]); in_list.
  - intros [?|(a & Ha & Hi)]; [tauto|].
    repeat (apply elem_of_cons in Ha as [->|Ha]; [tauto|]).
    by apply elem_of_nil in Ha.
Qed.

Lemma full_face_stage_is_Some set_order r7 :
  dom r7 = zone_names →
  is_Some (full_face_stage set_order nose_idx lips_idx forehead_idx
             left_eye_idx right_eye_idx face_idx r7).
Proof.
  intros Hdom. unfold full_face_stage.
  destruct (full_face_loop_is_Some r7 ALL_CLINICAL_ZONES ∅) as [s ->];
    [|by eexists].
  intros k Hk. apply elem_of_dom. rewrite Hdom.
  by apply elem_of_list_to_set.
Qed.
End StageWrites.

(** ** No stage raises on indexable arrays *)

Lemma bind_is_Some_intro {A B} (m : option A) (f : A → option B) :
  is_Some m → (∀ a, m = Some a → is_Some (f a)) → is_Some (m ≫= f).
Proof. intros [a ->] Hf. simpl. by apply Hf. Qed.

Lemma np_max_take_is_Some a idx vs :
  np_take a idx = Some vs → nonempty idx = true → is_Some (np_max vs).
Proof.
  intros Ht Hne. apply np_take_length in Ht. apply np_max_is_Some.
  intros ->. by destruct idx.
Qed.

Lemma np_min_take_is_Some a idx vs :
  np_take a idx = Some vs → nonempty idx = true → is_Some (np_min vs).
Proof.
  intros Ht Hne. apply np_take_length in Ht. apply np_min_is_Some.
  intros ->. by destruct idx.
Qed.

Section StageTotal.
Context (x y : list Q) (n : nat).
Context (Hx : length x = n) (Hy : length y = n).

(** An array selected from an indexable array is indexable. *)
Ltac solve_idx :=
  first
    [ assumption
    | match goal with
      | H : indexable n ?src |- indexable n _ =>
          apply (sublist_Forall _ _ src); [solve [solve_sub]|exact H]
      end ].

(** Walk through a stage, showing that each step returns. *)
Ltac march :=
  repeat match goal with
  | |- is_Some (Some _) => by eexists
  | H : where_x _ _ _ = Some _ |- _ => apply where_x_sublist in H
  | H : where_y _ _ _ = Some _ |- _ => apply where_y_sublist in H
  | H : where_xy _ _ _ _ = Some _ |- _ => apply where_xy_sublist in H
  | H : _split_lr _ _ _ = Some (_, _) |- _ =>
      apply _split_lr_sublist in H as [??]
  | H : _split_upper_lower _ _ _ = Some (_, _) |- _ =>
      apply _split_upper_lower_sublist in H as [??]
  | H : (if ?c then _ else _) = Some _ |- _ => destruct c eqn:?
  | H : Some ?u = Some ?v |- _ =>
      apply (inj Some) in H; first [subst v|subst u]
  | H : true = false |- _ => discriminate H
  | H : false = true |- _ => discriminate H
  | |- is_Some (if negb ?c then _ else _) => destruct c eqn:?; cbn [negb]
  | |- is_Some (if ?c then _ else _) => destruct c eqn:?
  | |- is_Some (match ?s with LeftEye => _ | RightEye => _ end) =>
      destruct s
  | |- is_Some (let '(_, _) := ?p in _) => destruct p
  | |- is_Some (_ ≫= _) =>
      apply bind_is_Some_intro;
      [|let a := fresh "a" in
        let Ha := fresh "Ha" in
        intros a Ha;
        try match type of a with gmap _ _ => clear Ha end;
        try match type of a with Q => clear Ha end]
  | |- is_Some (where_x _ _ _) => apply (where_x_is_Some _ n); [done|solve_idx]
  | |- is_Some (where_y _ _ _) => apply (where_y_is_Some _ n); [done|solve_idx]
  | |- is_Some (where_xy _ _ _ _) =>
      apply (where_xy_is_Some _ _ n); [done|done|solve_idx]
  | |- is_Some (_split_lr _ _ _) =>
      apply (_split_lr_is_Some _ n); [done|solve_idx]
  | |- is_Some (_split_upper_lower _ _ _) =>
      apply (_split_upper_lower_is_Some _ n); [done|solve_idx]
  | |- is_Some (_median_x _ _) =>
      apply (_median_x_is_Some _ n); [done|solve_idx]
  | |- is_Some (_median_y _ _) =>
      apply (_median_y_is_Some _ n); [done|solve_idx]
  | |- is_Some (_percentile_x _ _ _) =>
      apply (_percentile_x_is_Some _ n); [done|solve_idx]
  | |- is_Some (_percentile_y _ _ _) =>
      apply (_percentile_y_is_Some _ n); [done|solve_idx]
  | |- is_Some (np_take x _) =>
      apply np_take_is_Some; rewrite Hx; solve_idx
  | |- is_Some (np_take y _) =>
      apply np_take_is_Some; rewrite Hy; solve_idx
  | |- is_Some (np_max _) => eapply np_max_take_is_Some; eassumption
  | |- is_Some (np_min _) => eapply np_min_take_is_Some; eassumption
  end.

Lemma forehead_loop_is_Some lo hi l r :
  indexable n l →
  (∀ k, k ∈ forehead_thirds → is_Some (r !! k)) →
  is_Some (for_each (forehead_loop x y lo hi) r l).
Proof.
  intros Hl Hr.
  destruct (for_each_is_Some
              (λ r : zones, ∀ k, k ∈ forehead_thirds → is_Some (r !! k))
              (forehead_loop x y lo hi) r l) as (r' & -> & _);
    [exact Hr| |by eexists].
  intros s a Hs Ha. unfold indexable in Hl.
  rewrite Forall_forall in Hl. specialize (Hl _ Ha).
  unfold forehead_loop.
  destruct (np_index_is_Some x a) as [? ->]; [by rewrite Hx|].
  destruct (np_index_is_Some y a) as [? ->]; [by rewrite Hy|]. simpl.
  assert (∀ k, k ∈ forehead_thirds →
            ∃ s', zone_append k a s = Some s' ∧
                  ∀ k, k ∈ forehead_thirds → is_Some (s' !! k)) as Happ.
  { intros k Hk. unfold zone_append. destruct (Hs k Hk) as [l0 ->]. simpl.
    eexists. split; [done|]. intros k' Hk'.
    rewrite lookup_insert. case_decide; [by eexists|by apply Hs]. }
  repeat match goal with |- context [if ?c then _ else _] => destruct c end;
    apply Happ; solve_name.
Qed.

Context (nose_idx lips_idx forehead_idx scalp_idx face_remainder
         left_eyeball_idx right_eyeball_idx : list Z).
Context (nose_med_y midline_x : Q).

Lemma forehead_stage_is_Some r :
  indexable n forehead_idx →
  (∀ k, k ∈ forehead_thirds → is_Some (r !! k)) →
  is_Some (forehead_stage x y forehead_idx midline_x r).
Proof.
  intros Hi Hr. unfold forehead_stage. cbv zeta.
  destruct (nonempty forehead_idx); [|by eexists].
  do 4 (apply bind_is_Some_intro; [march|intros ? _]).
  apply bind_is_Some_intro.
  - apply forehead_loop_is_Some; [done|]. intros k Hk.
    rewrite lookup_insert. case_decide; [by eexists|by apply Hr].
  - intros r1 _. march.
Qed.

Lemma eye_turn_is_Some side eye_idx pu pl ci co ue tt r :
  indexable n eye_idx →
  is_Some (eye_turn x y left_eyeball_idx right_eyeball_idx side eye_idx
             pu pl ci co ue tt r).
Proof.
  intros Hi. unfold eye_turn. cbv zeta.
  pose proof (eye_skin_sublist left_eyeball_idx right_eyeball_idx
                side eye_idx).
  march.
Qed.

Lemma nose_stage_is_Some r :
  indexable n nose_idx →
  is_Some (nose_stage x y nose_idx nose_med_y midline_x r).
Proof. intros Hi. unfold nose_stage. cbv zeta. march. Qed.

Lemma lip_thirds_is_Some lip lo hi n1 n2 n3 r :
  indexable n lip → is_Some (lip_thirds x lip lo hi n1 n2 n3 r).
Proof. intros Hi. unfold lip_thirds. cbv zeta. march. Qed.

Lemma lips_stage_is_Some r :
  indexable n lips_idx → is_Some (lips_stage x y lips_idx r).
Proof.
  intros Hi. unfold lips_stage. cbv zeta.
  march; apply lip_thirds_is_Some; solve_idx.
Qed.

Lemma cheek_split_is_Some cheek mid n1 n2 r :
  indexable n cheek → is_Some (cheek_split y cheek mid n1 n2 r).
Proof. intros Hi. unfold cheek_split. cbv zeta. march. Qed.

Lemma jawline_is_Some jaw name r :
  indexable n jaw → is_Some (jawline y jaw name r).
Proof. intros Hi. unfold jawline. cbv zeta. march. Qed.

Lemma face_stage_is_Some r :
  indexable n face_remainder → indexable n nose_idx → indexable n lips_idx →
  is_Some (face_stage x y nose_idx lips_idx face_remainder midline_x r).
Proof.
  intros Hi Hn Hl. unfold face_stage. cbv zeta.
  march;
    first [ apply cheek_split_is_Some | apply jawline_is_Some ]; solve_idx.
Qed.

Lemma scalp_stage_is_Some r :
  indexable n scalp_idx → is_Some (r !! "temple_left") →
  is_Some (scalp_stage x y scalp_idx r).
Proof.
  intros Hi [tl Htl]. unfold scalp_stage. rewrite Htl. cbv zeta. simpl.
  march.
Qed.
End StageTotal.

(** ** The subdivider as a whole *)

(** [fm]: the mask dictionary after [_mask_to_indices]. *)
Definition index_arrays (v_template : list vertex)
    (flame_masks : gmap string mask_val) : gmap string (list Z) :=
  _mask_to_indices (length v_template) <$> flame_masks.

(** The index array of one broad region, empty when the key is absent. *)
Definition region (v_template : list vertex)
    (flame_masks : gmap string mask_val) (key : string) : list Z :=
  fm_get (index_arrays v_template flame_masks) key.

(** The face remainder: the face mask minus the specific sub-regions. *)
Definition face_rest (set_order : gset Z → list Z) (v_template : list vertex)
    (flame_masks : gmap string mask_val) : list Z :=
  let fm := index_arrays v_template flame_masks in
  let specific_regions : gset Z :=
    foldl (λ s key, match fm !! key with
                    | Some a => s ∪ list_to_set a
                    | None => s
                    end) ∅ specific_keys in
  if nonempty (fm_get fm "face")
  then sorted (set_order (list_to_set (fm_get fm "face") ∖ specific_regions))
  else [].

Lemma _compute_vertex_stats_Some v st :
  _compute_vertex_stats v = Some st →
  v ≠ [] ∧ st_x st = vx <$> v ∧ st_y st = vy <$> v.
Proof.
  unfold _compute_vertex_stats. cbv zeta. intros H.
  repeat (apply bind_Some in H as (? & ? & H)). simplify_eq.
  split; [|done]. by intros ->.
Qed.

Lemma _compute_vertex_stats_is_Some v :
  v ≠ [] → is_Some (_compute_vertex_stats v).
Proof.
  intros Hv. unfold _compute_vertex_stats. cbv zeta.
  repeat (apply bind_is_Some_intro;
          [first [apply np_min_is_Some|apply np_max_is_Some];
           by destruct v|intros ? _]).
  by eexists.
Qed.

(** The subdivider is its stages, run on the coordinate columns and the
    index arrays of the broad regions. *)
Lemma subdivide_with_Some set_order v fm r :
  subdivide_with set_order v fm = Some r ↔
  v ≠ [] ∧
  ∃ nose_med_y nose_med_x lips_med_y midline_x,
    _median_y (vy <$> v) (region v fm "nose") = Some nose_med_y ∧
    _median_x (vx <$> v) (region v fm "nose") = Some nose_med_x ∧
    _median_y (vy <$> v) (region v fm "lips") = Some lips_med_y ∧
    (if nonempty (region v fm "nose")
     then xs ← np_take (vx <$> v) (region v fm "nose"); Some (np_median xs)
     else Some 0%Q) = Some midline_x ∧
    subdivide_stages set_order (vx <$> v) (vy <$> v)
      (region v fm "nose") (region v fm "lips") (region v fm "forehead")
      (region v fm "left_eye_region") (region v fm "right_eye_region")
      (region v fm "face") (region v fm "neck")
      (region v fm "left_ear") (region v fm "right_ear")
      (region v fm "scalp")
      (region v fm "left_eyeball") (region v fm "right_eyeball")
      (face_rest set_order v fm) nose_med_y midline_x = Some r.
Proof.
  unfold subdivide_with. cbv zeta. split.
  - intros H. apply bind_Some in H as (st & Hst & H).
    apply _compute_vertex_stats_Some in Hst as (Hv & Hx & Hy).
    rewrite Hx, Hy in H. split; [done|].
    apply bind_Some in H as (nose_med_y & H1 & H).
    apply bind_Some in H as (nose_med_x & H2 & H).
    apply bind_Some in H as (lips_med_y & H3 & H).
    apply bind_Some in H as (midline_x & H4 & H).
    by exists nose_med_y, nose_med_x, lips_med_y, midline_x.
  - intros (Hv & nose_med_y & nose_med_x & lips_med_y & midline_x &
            H1 & H2 & H3 & H4 & H).
    destruct (_compute_vertex_stats_is_Some v Hv) as [st Hst].
    rewrite Hst. simpl.
    apply _compute_vertex_stats_Some in Hst as (_ & Hx & Hy).
    rewrite Hx, Hy.
    fold (index_arrays v fm). fold (region v fm "nose").
    fold (region v fm "lips").
    rewrite H1. simpl. rewrite H2. simpl. rewrite H3. simpl.
    rewrite H4. simpl. exact H.
Qed.

Section Run.
Context (v : list vertex) (fm : gmap string mask_val).

(** The zones before [full_face], in a run on [v] and [fm]. *)
Definition run_before (nose_med_y midline_x : Q) (r7 : zones) : Prop :=
  before_full_face (vx <$> v) (vy <$> v)
    (region v fm "nose") (region v fm "lips") (region v fm "forehead")
    (region v fm "left_eye_region") (region v fm "right_eye_region")
    (region v fm "neck") (region v fm "left_ear") (region v fm "right_ear")
    (region v fm "scalp")
    (region v fm "left_eyeball") (region v fm "right_eyeball")
    (face_rest elements v fm) nose_med_y midline_x r7.

(** The index arrays of a run, with the zones each one feeds. *)
Definition run_sources : list (list string * list Z) :=
  stage_sources
    (region v fm "nose") (region v fm "lips") (region v fm "forehead")
    (region v fm "left_eye_region") (region v fm "right_eye_region")
    (region v fm "neck") (region v fm "left_ear") (region v fm "right_ear")
    (region v fm "scalp") (face_rest elements v fm).

(** The coarse sets a run adds to [full_face] as they are. *)
Definition run_raw_face_sets : list (list Z) :=
  raw_face_sets
    (region v fm "nose") (region v fm "lips") (region v fm "forehead")
    (region v fm "left_eye_region") (region v fm "right_eye_region")
    (region v fm "face").

Lemma subdivide_inv r :
  subdivide_flame_masks_to_clinical_zones v fm = Some r →
  v ≠ [] ∧
  ∃ nose_med_y midline_x r7 (s : gset Z),
    run_before nose_med_y midline_x r7 ∧
    r = <["full_face" := sorted (elements s)]> r7 ∧
    ∀ i, i ∈ s ↔
         (∃ k l, k ∈ ALL_CLINICAL_ZONES ∧ (k ∉ exclude_from_full) ∧
                 r7 !! k = Some l ∧ i ∈ l) ∨
         (∃ a, a ∈ run_raw_face_sets ∧ i ∈ a).
Proof.
  unfold subdivide_flame_masks_to_clinical_zones. intros H.
  apply subdivide_with_Some in H
    as (Hv & nose_med_y & _ & _ & midline_x & _ & _ & _ & _ & H).
  split; [done|].
  apply subdivide_stages_inv in H as (r7 & Hr7 & H).
  apply full_face_stage_inv in H as (s & -> & Hs).
  by exists nose_med_y, midline_x, r7, s.
Qed.

(** Every zone of the result except [full_face] is empty or selected
    from one of the index arrays. *)
Lemma run_before_lookup nose_med_y midline_x r7 k l :
  run_before nose_med_y midline_x r7 → r7 !! k = Some l →
  l = [] ∨
  ∃ keys src, (keys, src) ∈ run_sources ∧ zone_from keys src k l.
Proof. apply before_full_face_lookup. Qed.

Lemma subdivide_dom r :
  subdivide_flame_masks_to_clinical_zones v fm = Some r →
  dom r = zone_names.
Proof.
  intros H. apply subdivide_inv in H
    as (_ & nose_med_y & midline_x & r7 & s & Hr7 & -> & _).
  apply before_full_face_dom in Hr7.
  rewrite dom_insert_L, Hr7. apply subseteq_union_1_L.
  apply singleton_subseteq_l, elem_of_list_to_set. solve_name.
Qed.

(** [full_face] holds every index of every other zone but the neck
    and the ears. *)
Lemma subdivide_full_face r k l i :
  subdivide_flame_masks_to_clinical_zones v fm = Some r →
  k ∉ ["neck"; "ear_left"; "ear_right"] →
  r !! k = Some l → i ∈ l →
  ∃ ff, r !! "full_face" = Some ff ∧ i ∈ ff.
Proof.
  intros H Hk Hl Hi. pose proof (subdivide_dom _ H) as Hdom.
  apply subdivide_inv in H
    as (_ & nose_med_y & midline_x & r7 & s & Hr7 & -> & Hs).
  rewrite lookup_insert_eq. eexists. split; [done|].
  destruct (decide (k = "full_face")) as [->|Hne].
  { rewrite lookup_insert_eq in Hl. by simplify_eq. }
  rewrite lookup_insert_ne in Hl by done.
  apply elem_of_sorted, elem_of_elements, Hs. left. exists k, l.
  split_and!; [|  |done|done].
  - apply before_full_face_dom in Hr7.
    assert (k ∈ dom r7) as Hin by (apply elem_of_dom; eauto).
    rewrite Hr7 in Hin. by apply elem_of_list_to_set in Hin.
  - unfold exclude_from_full. intros Hex. apply Hk.
    apply elem_of_cons in Hex as [->|Hex]; [in_list|].
    apply elem_of_cons in Hex as [->|Hex]; [in_list|].
    apply elem_of_cons in Hex as [->|Hex]; [in_list|].
    apply elem_of_cons in Hex as [->|Hex]; [done|].
    by apply elem_of_nil in Hex.
Qed.
End Run.

(** ** Well-formed masks *)

(** A supplied region whose indices are vertex indices, each at most
    once: a boolean mask no longer than the mesh, or an index list
    without duplicates and within the mesh. *)
Definition mask_ok (n : nat) (mv : mask_val) : Prop :=
  match mv with
  | MaskNone => True
  | MaskBool m => (length m ≤ n)%nat
  | MaskInt a => NoDup a ∧ in_range n a
  end.

(** A supplied region that can be indexed without an [IndexError]. *)
Definition mask_indexable (n : nat) (mv : mask_val) : Prop :=
  match mv with
  | MaskNone => True
  | MaskBool m => (length m ≤ n)%nat
  | MaskInt a => indexable n a
  end.

Lemma mask_ok_indices n mv :
  mask_ok n mv →
  NoDup (_mask_to_indices n mv) ∧ in_range n (_mask_to_indices n mv).
Proof.
  destruct mv as [|m|a]; simpl.
  - intros _. split; constructor.
  - intros Hm. split; [|by apply np_where_in_range].
    apply increasing_NoDup, np_where_increasing.
  - intros [Hnd Hr]. destruct (nonempty a); cbn [negb]; [|split; constructor].
    destruct (_ && _) eqn:Hmask; [|done].
    apply andb_true_iff in Hmask as [Hlen%Nat.eqb_eq _]. split.
    + apply increasing_NoDup, np_where_increasing.
    + apply np_where_in_range. rewrite length_fmap. lia.
Qed.

Lemma mask_indexable_indices n mv :
  mask_indexable n mv → indexable n (_mask_to_indices n mv).
Proof.
  destruct mv as [|m|a]; simpl.
  - intros _. constructor.
  - intros Hm. by apply in_range_indexable, np_where_in_range.
  - intros Hr. destruct (nonempty a); cbn [negb]; [|constructor].
    destruct (_ && _) eqn:Hmask; [|done].
    apply andb_true_iff in Hmask as [Hlen%Nat.eqb_eq _].
    apply in_range_indexable, np_where_in_range. rewrite length_fmap. lia.
Qed.

Lemma region_lookup v fm key :
  region v fm key =
    match fm !! key with
    | Some mv => _mask_to_indices (length v) mv
    | None => []
    end.
Proof.
  unfold region, fm_get, index_arrays. rewrite lookup_fmap.
  by destruct (fm !! key).
Qed.

Lemma region_ok v fm key :
  from_option (mask_ok (length v)) True (fm !! key) →
  NoDup (region v fm key) ∧ in_range (length v) (region v fm key).
Proof.
  intros Hok. rewrite region_lookup. destruct (fm !! key) as [mv|] eqn:Hk.
  - by apply mask_ok_indices.
  - split; constructor.
Qed.

Lemma region_indexable v fm key :
  from_option (mask_indexable (length v)) True (fm !! key) →
  indexable (length v) (region v fm key).
Proof.
  intros Hok. rewrite region_lookup. destruct (fm !! key) as [mv|] eqn:Hk.
  - by apply mask_indexable_indices.
  - constructor.
Qed.

(** The keys of the mask dictionary whose index arrays feed the zones. *)
Definition zone_source_keys : list string :=
  ["nose"; "lips"; "forehead"; "left_eye_region"; "right_eye_region";
   "face"; "neck"; "left_ear"; "right_ear"; "scalp"].

(** The keys whose index arrays are used to index the coordinates. *)
Definition indexed_keys : list string :=
  ["nose"; "lips"; "forehead"; "left_eye_region"; "right_eye_region";
   "face"; "scalp"].

(** Every region that feeds a zone is well formed, when supplied. *)
Definition well_formed_masks (v : list vertex)
    (fm : gmap string mask_val) : Prop :=
  Forall (λ key, from_option (mask_ok (length v)) True (fm !! key))
    zone_source_keys.

(** Every region that is used as an index can be, when supplied. *)
Definition indexable_masks (v : list vertex)
    (fm : gmap string mask_val) : Prop :=
  Forall (λ key, from_option (mask_indexable (length v)) True (fm !! key))
    indexed_keys.

Lemma elem_of_face_rest v fm i :
  i ∈ face_rest elements v fm → i ∈ region v fm "face".
Proof.
  unfold face_rest. cbv zeta. fold (region v fm "face").
  destruct (nonempty (region v fm "face")); [|by intros ?%elem_of_nil].
  rewrite elem_of_sorted, elem_of_elements, elem_of_difference.
  rewrite elem_of_list_to_set. tauto.
Qed.

Lemma face_rest_increasing v fm : increasing (face_rest elements v fm).
Proof.
  unfold face_rest. cbv zeta.
  destruct (nonempty _); [|constructor].
  apply sorted_increasing, NoDup_elements.
Qed.

Lemma face_rest_Forall (P : Z → Prop) v fm :
  Forall P (region v fm "face") → Forall P (face_rest elements v fm).
Proof.
  rewrite !Forall_forall. intros H i Hi. by apply H, elem_of_face_rest.
Qed.

(** ** The lists of the result on well-formed masks *)

Section WellFormed.
Context (v : list vertex) (fm : gmap string mask_val).
Context (Hok : well_formed_masks v fm).

Lemma source_ok key :
  key ∈ zone_source_keys →
  NoDup (region v fm key) ∧ in_range (length v) (region v fm key).
Proof.
  intros Hkey. apply region_ok.
  unfold well_formed_masks in Hok. rewrite Forall_forall in Hok.
  by apply Hok.
Qed.

Lemma run_sources_ok keys src :
  (keys, src) ∈ run_sources v fm → NoDup src ∧ in_range (length v) src.
Proof.
  unfold run_sources, stage_sources. intros Hin.
  repeat (apply elem_of_cons in Hin as [[= -> ->]|Hin];
          [first [ (apply source_ok; solve_name)
                 | split;
                   [apply increasing_NoDup, face_rest_increasing
                   |apply face_rest_Forall, source_ok; solve_name] ]|]).
  by apply elem_of_nil in Hin.
Qed.

(** The forehead thirds are selected from the forehead array only. *)
Lemma run_sources_thirds keys src k :
  (keys, src) ∈ run_sources v fm → k ∈ keys → k ∈ forehead_thirds →
  src = region v fm "forehead".
Proof.
  unfold run_sources, stage_sources. intros Hin Hk Hth.
  apply elem_of_cons in Hin as [[= -> ->]|Hin]; [done|].
  exfalso.
  assert (∀ keys', (∀ k', k' ∈ forehead_thirds → k' ∉ keys') →
                   keys = keys' → False) as Hno.
  { intros keys' Hdisj ->. by eapply Hdisj. }
  repeat (apply elem_of_cons in Hin as [[= -> ->]|Hin];
          [eapply Hno; [|done]; solve_names|]).
  by apply elem_of_nil in Hin.
Qed.

Lemma zone_from_ok keys src k l :
  (keys, src) ∈ run_sources v fm → zone_from keys src k l →
  in_range (length v) l ∧ NoDup l ∧
  (k ∉ forehead_thirds ∨ increasing (region v fm "forehead") →
   increasing l).
Proof.
  intros Hin (Hk & s & Hs & Hl).
  destruct (run_sources_ok _ _ Hin) as [Hnd Hr].
  assert (NoDup s) by (by eapply sublist_NoDup).
  assert (in_range (length v) s) by (by eapply sublist_Forall).
  destruct Hl as [->|[-> Hth]].
  - split_and!.
    + by apply sorted_in_range.
    + by rewrite sorted_Permutation.
    + intros _. by apply sorted_increasing.
  - split_and!; [done..|]. intros [?|Hinc]; [done|].
    rewrite (run_sources_thirds _ _ _ Hin Hk Hth) in Hs.
    by eapply increasing_sublist.
Qed.

Lemma subdivide_lists_ok r k l :
  subdivide_flame_masks_to_clinical_zones v fm = Some r →
  r !! k = Some l →
  in_range (length v) l ∧ NoDup l ∧
  (k ∉ forehead_thirds ∨ increasing (region v fm "forehead") →
   increasing l).
Proof.
  intros H Hl. apply subdivide_inv in H
    as (_ & nose_med_y & midline_x & r7 & s & Hr7 & -> & Hs).
  assert (∀ k l, r7 !! k = Some l →
            in_range (length v) l ∧ NoDup l ∧
            (k ∉ forehead_thirds ∨ increasing (region v fm "forehead") →
             increasing l)) as Hr7ok.
  { intros k' l' Hl'.
    destruct (run_before_lookup _ _ _ _ _ _ _ Hr7 Hl')
      as [->|(keys & src & Hin & Hz)]; [|by eapply zone_from_ok].
    split_and!; constructor. }
  destruct (decide (k = "full_face")) as [->|Hne].
  - rewrite lookup_insert_eq in Hl. simplify_eq.
    assert (increasing (sorted (elements s))) as Hinc
      by apply sorted_increasing, NoDup_elements.
    split_and!; [|by apply increasing_NoDup|done].
    apply sorted_in_range, Forall_forall. intros i Hi%elem_of_elements.
    apply Hs in Hi as [(k' & l' & _ & _ & Hl' & Hi)|(a & Ha & Hi)].
    + destruct (Hr7ok _ _ Hl') as (Hr & _).
      unfold in_range in Hr. rewrite Forall_forall in Hr. by apply Hr.
    + unfold run_raw_face_sets, raw_face_sets in Ha.
      assert (in_range (length v) a) as Hr.
      { repeat (apply elem_of_cons in Ha as [->|Ha];
                [apply source_ok; solve_name|]).
        by apply elem_of_nil in Ha. }
      unfold in_range in Hr. rewrite Forall_forall in Hr. by apply Hr.
  - rewrite lookup_insert_ne in Hl by done. by eapply Hr7ok.
Qed.
End WellFormed.

(** ** The subdivider returns on indexable masks *)

Lemma writes_zone_from_dom keys src r r' :
  keys ⊆ ALL_CLINICAL_ZONES →
  writes (zone_from keys src) r r' → dom r = zone_names → dom r' = zone_names.
Proof.
  intros Hkeys Hw Hdom. rewrite <-Hdom. eapply writes_dom; [done|].
  intros k l [Hk _]. rewrite Hdom. by apply elem_of_list_to_set, Hkeys.
Qed.

Lemma writes_zone_from_frame keys src r r' k :
  writes (zone_from keys src) r r' → k ∉ keys → r' !! k = r !! k.
Proof. intros Hw Hk. eapply writes_frame; [done|]. by intros l [? _]. Qed.

Lemma zone_names_lookup (r : zones) k :
  dom r = zone_names → k ∈ ALL_CLINICAL_ZONES → is_Some (r !! k).
Proof.
  intros Hdom Hk. apply elem_of_dom. rewrite Hdom.
  by apply elem_of_list_to_set.
Qed.

Lemma pass_stage_dom neck_idx left_ear_idx right_ear_idx r :
  dom r = zone_names →
  dom (pass_stage neck_idx left_ear_idx right_ear_idx r) = zone_names.
Proof.
  intros Hdom. rewrite <-Hdom.
  eapply writes_dom; [apply pass_stage_writes|].
  intros k l Hk. rewrite Hdom. apply elem_of_list_to_set.
  destruct Hk as [[Hk _]|[[Hk _]|[Hk _]]]; revert k Hk; solve_names.
Qed.

Section Total.
Context (v : list vertex) (fm : gmap string mask_val).
Context (Hv : v ≠ []).
Context (Hok : indexable_masks v fm).

Lemma indexed_ok key :
  key ∈ indexed_keys → indexable (length v) (region v fm key).
Proof.
  intros Hkey. apply region_indexable.
  unfold indexable_masks in Hok. rewrite Forall_forall in Hok.
  by apply Hok.
Qed.

Local Abbreviation n := (length v).

Lemma length_xs : length (vx <$> v) = n.
Proof. apply length_fmap. Qed.

Lemma length_ys : length (vy <$> v) = n.
Proof. apply length_fmap. Qed.

Lemma face_rest_indexable : indexable n (face_rest elements v fm).
Proof. apply face_rest_Forall, indexed_ok. solve_name. Qed.

Lemma midline_is_Some :
  is_Some (if nonempty (region v fm "nose")
           then xs ← np_take (vx <$> v) (region v fm "nose");
                Some (np_median xs)
           else Some 0%Q).
Proof.
  destruct (nonempty _); [|by eexists].
  destruct (np_take_is_Some (vx <$> v) (region v fm "nose")) as [xs ->];
    [|by eexists].
  rewrite length_xs. apply indexed_ok. solve_name.
Qed.

Lemma subdivide_is_Some :
  is_Some (subdivide_flame_masks_to_clinical_zones v fm).
Proof.
  pose proof length_xs as Hx. pose proof length_ys as Hy.
  pose proof (indexed_ok "nose" ltac:(solve_name)) as Hnose.
  pose proof (indexed_ok "lips" ltac:(solve_name)) as Hlips.
  pose proof (indexed_ok "forehead" ltac:(solve_name)) as Hforehead.
  pose proof (indexed_ok "left_eye_region" ltac:(solve_name)) as Hleft.
  pose proof (indexed_ok "right_eye_region" ltac:(solve_name)) as Hright.
  pose proof (indexed_ok "scalp" ltac:(solve_name)) as Hscalp.
  pose proof face_rest_indexable as Hrest.
  destruct (_median_y_is_Some (vy <$> v) n Hy (region v fm "nose"))
    as [nose_med_y Hmy]; [done|].
  destruct (_median_x_is_Some (vx <$> v) n Hx (region v fm "nose"))
    as [nose_med_x Hmx]; [done|].
  destruct (_median_y_is_Some (vy <$> v) n Hy (region v fm "lips"))
    as [lips_med_y Hly]; [done|].
  destruct midline_is_Some as [midline_x Hmid].
  (* the stages, one after the other *)
  destruct (forehead_stage_is_Some (vx <$> v) (vy <$> v) n Hx Hy
              (region v fm "forehead") midline_x init_regions)
    as [r1 H1]; [done| |].
  { intros k Hk. rewrite init_regions_lookup.
    rewrite bool_decide_eq_true_2; [by eexists|]. revert k Hk. solve_names. }
  destruct (eye_turn_is_Some (vx <$> v) (vy <$> v) n Hx Hy
              (region v fm "left_eyeball") (region v fm "right_eyeball")
              LeftEye (region v fm "left_eye_region")
              "eye_left_upper" "eye_left_lower"
              "eye_left_corner_inner" "eye_left_corner_outer"
              "under_eye_left" "tear_trough_left" r1) as [r2 H2]; [done|].
  destruct (eye_turn_is_Some (vx <$> v) (vy <$> v) n Hx Hy
              (region v fm "left_eyeball") (region v fm "right_eyeball")
              RightEye (region v fm "right_eye_region")
              "eye_right_upper" "eye_right_lower"
              "eye_right_corner_inner" "eye_right_corner_outer"
              "under_eye_right" "tear_trough_right" r2) as [r3 H3]; [done|].
  destruct (nose_stage_is_Some (vx <$> v) (vy <$> v) n Hx Hy
              (region v fm "nose") nose_med_y midline_x r3)
    as [r4 H4]; [done|].
  destruct (lips_stage_is_Some (vx <$> v) (vy <$> v) n Hx Hy
              (region v fm "lips") r4) as [r5 H5]; [done|].
  destruct (face_stage_is_Some (vx <$> v) (vy <$> v) n Hx Hy
              (region v fm "nose") (region v fm "lips")
              (face_rest elements v fm) midline_x r5)
    as [r6 H6]; [done..|].
  assert (dom r6 = zone_names) as Hdom6.
  { pose proof dom_init_regions as Hd0.
    pose proof H1 as W1. apply forehead_stage_writes in W1.
    2:{ intros k Hk. rewrite init_regions_lookup.
        rewrite bool_decide_eq_true_2; [done|]. revert k Hk. solve_names. }
    pose proof (eye_turn_writes _ _ _ _ _ _ _ _ _ _ _ _ _ _ H2) as W2.
    pose proof (eye_turn_writes _ _ _ _ _ _ _ _ _ _ _ _ _ _ H3) as W3.
    pose proof (nose_stage_writes _ _ _ _ _ _ _ H4) as W4.
    pose proof (lips_stage_writes _ _ _ _ _ H5) as W5.
    pose proof (face_stage_writes _ _ _ _ _ _ _ _ H6) as W6.
    eapply writes_zone_from_dom; [|exact W6|]; [solve_names|].
    eapply writes_zone_from_dom; [|exact W5|]; [solve_names|].
    eapply writes_zone_from_dom; [|exact W4|]; [solve_names|].
    eapply writes_zone_from_dom; [|exact W3|]; [solve_names|].
    eapply writes_zone_from_dom; [|exact W2|]; [solve_names|].
    eapply writes_zone_from_dom; [|exact W1|]; [solve_names|done]. }
  pose proof (pass_stage_dom (region v fm "neck") (region v fm "left_ear")
                (region v fm "right_ear") r6 Hdom6) as Hdomp.
  destruct (scalp_stage_is_Some (vx <$> v) (vy <$> v) n Hx Hy
              (region v fm "scalp")
              (pass_stage (region v fm "neck") (region v fm "left_ear")
                 (region v fm "right_ear") r6)) as [r7 H7]; [done| |].
  { apply zone_names_lookup; [done|solve_name]. }
  assert (run_before v fm nose_med_y midline_x r7) as Hr7.
  { by exists r1, r2, r3, r4, r5, r6. }
  destruct (full_face_stage_is_Some
              (region v fm "nose") (region v fm "lips")
              (region v fm "forehead") (region v fm "left_eye_region")
              (region v fm "right_eye_region") (region v fm "face")
              elements r7) as [r H8].
  { by eapply before_full_face_dom. }
  exists r. unfold subdivide_flame_masks_to_clinical_zones.
  apply subdivide_with_Some. split; [done|].
  exists nose_med_y, nose_med_x, lips_med_y, midline_x.
  split_and!; [done..|].
  apply subdivide_stages_inv. by exists r7.
Qed.
End Total.

(** ** Empty regions give empty zones *)

Lemma insert_init_regions_nil k :
  k ∈ ALL_CLINICAL_ZONES → <[k := []]> init_regions = init_regions.
Proof.
  intros Hk. apply insert_id. rewrite init_regions_lookup.
  by rewrite bool_decide_eq_true_2.
Qed.

Lemma subdivide_stages_nil set_order x y nose_med_y midline_x :
  (∀ s, set_order s ≡ₚ elements s) →
  subdivide_stages set_order x y [] [] [] [] [] [] [] [] [] [] [] [] []
    nose_med_y midline_x = Some init_regions.
Proof.
  intros Horder. apply subdivide_stages_inv. exists init_regions.
  split.
  - exists init_regions, init_regions, init_regions, init_regions,
      init_regions, init_regions.
    split_and!; reflexivity.
  - destruct (full_face_stage_is_Some [] [] [] [] [] [] set_order init_regions
                dom_init_regions) as [r Hr].
    rewrite Hr. f_equal.
    apply full_face_stage_inv in Hr as (s & -> & Hs).
    assert (s = ∅) as ->.
    { apply set_eq. intros i. rewrite Hs, elem_of_empty. split; [|done].
      intros [(k & l & Hk & _ & Hl & Hi)|(a & Ha & Hi)].
      - rewrite init_regions_lookup in Hl. case_bool_decide; simplify_eq.
        by apply elem_of_nil in Hi.
      - unfold raw_face_sets in Ha.
        repeat (apply elem_of_cons in Ha as [->|Ha];
                [by apply elem_of_nil in Hi|]).
        by apply elem_of_nil in Ha. }
    assert (set_order ∅ = []) as ->.
    { apply Permutation_nil_r. by rewrite Horder, elements_empty. }
    rewrite sorted_nil. apply insert_init_regions_nil. solve_name.
Qed.

(** When every broad region is absent or empty, every zone is empty. *)
Lemma subdivide_all_empty v fm :
  v ≠ [] → (∀ key, region v fm key = []) →
  subdivide_flame_masks_to_clinical_zones v fm = Some init_regions.
Proof.
  intros Hv Hreg. unfold subdivide_flame_masks_to_clinical_zones.
  apply subdivide_with_Some. split; [done|].
  exists 0%Q, 0%Q, 0%Q, 0%Q. rewrite !Hreg.
  split_and!; try reflexivity.
  assert (face_rest elements v fm = []) as ->.
  { unfold face_rest. cbv zeta. fold (region v fm "face").
    by rewrite Hreg. }
  by apply subdivide_stages_nil.
Qed.

(** ** The iteration order of sets does not show *)

Lemma full_face_stage_order set_order
    nose_idx lips_idx forehead_idx left_eye_idx right_eye_idx face_idx r :
  (∀ s, set_order s ≡ₚ elements s) →
  full_face_stage set_order nose_idx lips_idx forehead_idx
    left_eye_idx right_eye_idx face_idx r =
  full_face_stage elements nose_idx lips_idx forehead_idx
    left_eye_idx right_eye_idx face_idx r.
Proof.
  intros Horder. unfold full_face_stage.
  destruct (for_each _ _ _) as [s|]; [|done]. cbv zeta. simpl.
  do 2 f_equal. by apply sorted_perm_eq.
Qed.

Lemma subdivide_stages_order set_order x y
    nose_idx lips_idx forehead_idx left_eye_idx right_eye_idx
    face_idx neck_idx left_ear_idx right_ear_idx scalp_idx
    left_eyeball_idx right_eyeball_idx face_remainder nose_med_y midline_x :
  (∀ s, set_order s ≡ₚ elements s) →
  subdivide_stages set_order x y
    nose_idx lips_idx forehead_idx left_eye_idx right_eye_idx
    face_idx neck_idx left_ear_idx right_ear_idx scalp_idx
    left_eyeball_idx right_eyeball_idx face_remainder nose_med_y midline_x =
  subdivide_stages elements x y
    nose_idx lips_idx forehead_idx left_eye_idx right_eye_idx
    face_idx neck_idx left_ear_idx right_ear_idx scalp_idx
    left_eyeball_idx right_eyeball_idx face_remainder nose_med_y midline_x.
Proof.
  intros Horder. unfold subdivide_stages. cbv zeta.
  repeat (match goal with
          | |- ?m ≫= _ = ?m ≫= _ => destruct m; [cbn [mbind option_bind]|done]
          end).
  by apply full_face_stage_order.
Qed.

Lemma face_rest_order set_order v fm :
  (∀ s, set_order s ≡ₚ elements s) →
  face_rest set_order v fm = face_rest elements v fm.
Proof.
  intros Horder. unfold face_rest. cbv zeta.
  destruct (nonempty _); [|done]. by apply sorted_perm_eq.
Qed.

Lemma subdivide_with_order set_order v fm :
  (∀ s, set_order s ≡ₚ elements s) →
  subdivide_with set_order v fm = subdivide_with elements v fm.
Proof.
  intros Horder.
  destruct (subdivide_with elements v fm) as [r|] eqn:Hrun.
  - apply subdivide_with_Some. apply subdivide_with_Some in Hrun
      as (Hv & a & b & c & d & H1 & H2 & H3 & H4 & H).
    split; [done|]. exists a, b, c, d. split_and!; [done..|].
    by rewrite face_rest_order, subdivide_stages_order.
  - destruct (subdivide_with set_order v fm) as [r|] eqn:Hrun2; [|done].
    apply subdivide_with_Some in Hrun2
      as (Hv & a & b & c & d & H1 & H2 & H3 & H4 & H).
    rewrite face_rest_order, subdivide_stages_order in H by done.
    assert (subdivide_with elements v fm = Some r) as Hr; [|congruence].
    apply subdivide_with_Some. split; [done|]. by exists a, b, c, d.
Qed.

(** ** The eye zones *)

Section EyeTurn.
Context (x y : list Q) (left_eyeball_idx right_eyeball_idx : list Z).

(** One turn of the eye loop on a non-empty eye region: the upper and
    the lower zone split the eye skin between them, the under-eye zone
    is the lower zone, and the other zones are selected from the eye
    skin. *)
Lemma eye_turn_zones side eye_idx pu pl ci co ue tt r r' :
  eye_turn x y left_eyeball_idx right_eyeball_idx side eye_idx
    pu pl ci co ue tt r = Some r' →
  nonempty eye_idx = true →
  pu ∉ [pl; ci; co; ue; tt] → pl ∉ [ci; co; ue; tt] → ue ≠ tt →
  writes (zone_from [pu; pl; ci; co; ue; tt]
            (eye_skin left_eyeball_idx right_eyeball_idx side eye_idx))
    r r' ∧
  ∃ upper lower,
    upper ++ lower ≡ₚ
      eye_skin left_eyeball_idx right_eyeball_idx side eye_idx ∧
    r' !! pu = Some (sorted upper) ∧
    r' !! pl = Some (sorted lower) ∧
    r' !! ue = Some (sorted lower).
Proof.
  intros Hrun Hne Hpu Hpl Hue. unfold eye_turn in Hrun.
  rewrite Hne in Hrun. cbn [negb] in Hrun. cbv zeta in Hrun.
  do 6 (apply bind_Some in Hrun as (? & _ & Hrun)).
  apply bind_Some in Hrun as ([upper lower] & Hsplit & Hrun).
  pose proof (_split_upper_lower_Permutation _ _ _ _ _ Hsplit) as Hperm.
  assert (∀ a b : string, b ∈ [pl; ci; co; ue; tt] → a = b → pu ≠ a)
    as Hpu'.
  { intros a b Hb -> ->. by apply Hpu. }
  assert (∀ a b : string, b ∈ [ci; co; ue; tt] → a = b → pl ≠ a) as Hpl'.
  { intros a b Hb -> ->. by apply Hpl. }
  crunch;
    (split;
     [repeat first
        [ apply writes_refl
        | (apply writes_insert;
           [|apply zone_from_sorted; [in_list|solve_sub]]) ]
     |exists upper, lower; split_and!; [done|..];
      repeat first
        [ apply lookup_insert_eq
        | (rewrite lookup_insert_ne;
           [|first [ done
                   | (apply not_eq_sym; eapply Hpu'; [|reflexivity]; in_list)
                   | (apply not_eq_sym; eapply Hpl'; [|reflexivity]; in_list)
                   | by apply not_eq_sym ]]) ]]).
Qed.
End EyeTurn.

Definition eye_region_key (side : eye_side_name) : string :=
  match side with LeftEye => "left_eye_region" | RightEye => "right_eye_region" end.
Definition eyeball_key (side : eye_side_name) : string :=
  match side with LeftEye => "left_eyeball" | RightEye => "right_eyeball" end.
Definition eye_upper (side : eye_side_name) : string :=
  match side with LeftEye => "eye_left_upper" | RightEye => "eye_right_upper" end.
Definition eye_lower (side : eye_side_name) : string :=
  match side with LeftEye => "eye_left_lower" | RightEye => "eye_right_lower" end.
Definition eye_corner_inner (side : eye_side_name) : string :=
  match side with
  | LeftEye => "eye_left_corner_inner" | RightEye => "eye_right_corner_inner"
  end.
Definition eye_corner_outer (side : eye_side_name) : string :=
  match side with
  | LeftEye => "eye_left_corner_outer" | RightEye => "eye_right_corner_outer"
  end.
Definition under_eye (side : eye_side_name) : string :=
  match side with LeftEye => "under_eye_left" | RightEye => "under_eye_right" end.
Definition tear_trough (side : eye_side_name) : string :=
  match side with
  | LeftEye => "tear_trough_left" | RightEye => "tear_trough_right"
  end.

(** The eye region of one side after the eyeball indices are removed. *)
Definition eye_without_ball (v : list vertex) (fm : gmap string mask_val)
    (side : eye_side_name) : list Z :=
  filter (λ vi, vi ∉ region v fm (eyeball_key side))
         (region v fm (eye_region_key side)).

(** The eye skin of one side as the spec words it: the eye region
    without the eyeball, or the whole eye region when nothing is left. *)
Definition eye_skin_spec (v : list vertex) (fm : gmap string mask_val)
    (side : eye_side_name) : list Z :=
  match eye_without_ball v fm side with
  | [] => region v fm (eye_region_key side)
  | rest => rest
  end.

Lemma eye_skin_eq v fm side :
  eye_skin (region v fm "left_eyeball") (region v fm "right_eyeball") side
    (region v fm (eye_region_key side)) = eye_skin_spec v fm side.
Proof.
  unfold eye_skin, eye_skin_spec, eye_without_ball. cbv zeta.
  assert (∀ (ball l : list Z),
            filter (λ vi, vi ∉ (if nonempty ball
                                then list_to_set ball else ∅ : gset Z)) l =
            filter (λ vi, vi ∉ ball) l) as Hfilter.
  { intros ball l. apply list_filter_iff. intros i.
    destruct ball as [|j ball]; cbn [nonempty].
    - rewrite elem_of_nil. set_solver.
    - by rewrite elem_of_list_to_set. }
  destruct side; cbn [eyeball_key eye_region_key]; rewrite Hfilter;
    by destruct (filter _ _).
Qed.

(** The zones written after the eye loop. *)
Definition keys_after_eyes : list string :=
  nose_keys ++ lips_keys ++ face_keys ++ pass_keys ++ scalp_keys ++
  ["full_face"].

Lemma frame_after_eyes x y nose_idx lips_idx face_remainder scalp_idx
    neck_idx left_ear_idx right_ear_idx nose_med_y midline_x
    r3 r4 r5 r6 r7 ff k :
  nose_stage x y nose_idx nose_med_y midline_x r3 = Some r4 →
  lips_stage x y lips_idx r4 = Some r5 →
  face_stage x y nose_idx lips_idx face_remainder midline_x r5 = Some r6 →
  scalp_stage x y scalp_idx
    (pass_stage neck_idx left_ear_idx right_ear_idx r6) = Some r7 →
  k ∉ keys_after_eyes →
  <["full_face" := ff]> r7 !! k = r3 !! k.
Proof.
  intros H4 H5 H6 H7 Hk.
  apply nose_stage_writes in H4. apply lips_stage_writes in H5.
  apply face_stage_writes in H6. apply scalp_stage_writes in H7.
  unfold keys_after_eyes in Hk. rewrite !not_elem_of_app in Hk.
  destruct Hk as (Hk4 & Hk5 & Hk6 & Hkp & Hk7 & Hkf).
  rewrite lookup_insert_ne by (intros <-; apply Hkf; in_list).
  rewrite (writes_zone_from_frame _ _ _ _ _ H7 Hk7).
  unfold pass_stage. cbv zeta.
  rewrite !lookup_insert_ne by (intros <-; apply Hkp; in_list).
  rewrite (writes_zone_from_frame _ _ _ _ _ H6 Hk6).
  rewrite (writes_zone_from_frame _ _ _ _ _ H5 Hk5).
  by rewrite (writes_zone_from_frame _ _ _ _ _ H4 Hk4).
Qed.

Lemma zone_from_subseteq keys src k l : zone_from keys src k l → l ⊆ src.
Proof.
  intros (_ & s & Hs & [->| [-> _]]) i Hi.
  - rewrite elem_of_sorted in Hi. exact (elem_of_sublist _ _ _ Hi Hs).
  - exact (elem_of_sublist _ _ _ Hi Hs).
Qed.

(** The eye zones of the result, for a non-empty eye region. *)
Lemma eye_zones v fm r side :
  subdivide_flame_masks_to_clinical_zones v fm = Some r →
  region v fm (eye_region_key side) ≠ [] →
  ∃ upper lower,
    upper ++ lower ≡ₚ eye_skin_spec v fm side ∧
    r !! eye_upper side = Some (sorted upper) ∧
    r !! eye_lower side = Some (sorted lower) ∧
    r !! under_eye side = Some (sorted lower) ∧
    ∀ k l, k ∈ [eye_corner_inner side; eye_corner_outer side;
                tear_trough side] →
           r !! k = Some l → l ⊆ eye_skin_spec v fm side.
Proof.
  intros H Hne. apply subdivide_inv in H
    as (_ & nose_med_y & midline_x & r7 & s & Hr7 & -> & _).
  destruct Hr7
    as (r1 & r2 & r3 & r4 & r5 & r6 & H1 & H2 & H3 & H4 & H5 & H6 & H7).
  pose proof (λ k, frame_after_eyes _ _ _ _ _ _ _ _ _ _ _ _ _ _ _ _
                     (sorted (elements s)) k H4 H5 H6 H7) as Hframe.
  apply forehead_stage_writes in H1.
  2:{ intros k Hk. rewrite init_regions_lookup.
      rewrite bool_decide_eq_true_2; [done|]. revert k Hk. solve_names. }
  assert (nonempty (region v fm (eye_region_key side)) = true) as Hne'
    by (by destruct (region v fm (eye_region_key side))).
  rewrite <-eye_skin_eq.
  destruct side; cbn [eye_region_key eye_upper eye_lower under_eye
                        eye_corner_inner eye_corner_outer tear_trough] in *.
  - (* left: then the right turn leaves the left zones alone *)
    apply eye_turn_zones in H2
      as (W2 & upper & lower & Hperm & Hu & Hl & Hue);
      [|done|solve_name..].
    apply eye_turn_writes in H3.
    exists upper, lower. split; [done|].
    rewrite !Hframe by solve_name.
    rewrite !(writes_zone_from_frame _ _ _ _ _ H3) by solve_name.
    split_and!; [done..|].
    intros k l Hk Hkl.
    repeat (apply elem_of_cons in Hk as [->|Hk]);
      [..|by apply elem_of_nil in Hk];
      (rewrite Hframe in Hkl by solve_name;
       rewrite (writes_zone_from_frame _ _ _ _ _ H3) in Hkl by solve_name;
       destruct (writes_lookup _ _ _ _ _ W2 Hkl) as [Hold|Hz];
       [|by eapply zone_from_subseteq];
       rewrite (writes_zone_from_frame _ _ _ _ _ H1) in Hold by solve_name;
       rewrite init_regions_lookup in Hold; case_bool_decide; simplify_eq;
       by intros i ?%elem_of_nil).
  - (* right: the left turn comes first *)
    apply eye_turn_writes in H2.
    apply eye_turn_zones in H3
      as (W3 & upper & lower & Hperm & Hu & Hl & Hue);
      [|done|solve_name..].
    exists upper, lower. split; [done|].
    rewrite !Hframe by solve_name.
    split_and!; [done..|].
    intros k l Hk Hkl.
    repeat (apply elem_of_cons in Hk as [->|Hk]);
      [..|by apply elem_of_nil in Hk];
      (rewrite Hframe in Hkl by solve_name;
       destruct (writes_lookup _ _ _ _ _ W3 Hkl) as [Hold|Hz];
       [|by eapply zone_from_subseteq];
       rewrite (writes_zone_from_frame _ _ _ _ _ H2) in Hold by solve_name;
       rewrite (writes_zone_from_frame _ _ _ _ _ H1) in Hold by solve_name;
       rewrite init_regions_lookup in Hold; case_bool_decide; simplify_eq;
       by intros i ?%elem_of_nil).
Qed.

(** ** Ears and neck *)

Lemma pass_through v fm r :
  subdivide_flame_masks_to_clinical_zones v fm = Some r →
  r !! "neck" = Some (sorted (region v fm "neck")) ∧
  r !! "ear_left" = Some (sorted (region v fm "left_ear")) ∧
  r !! "ear_right" = Some (sorted (region v fm "right_ear")).
Proof.
  intros H. apply subdivide_inv in H
    as (_ & nose_med_y & midline_x & r7 & s & Hr7 & -> & _).
  destruct Hr7
    as (r1 & r2 & r3 & r4 & r5 & r6 & _ & _ & _ & _ & _ & _ & H7).
  apply scalp_stage_writes in H7.
  rewrite !lookup_insert_ne by done.
  rewrite !(writes_zone_from_frame _ _ _ _ _ H7) by solve_name.
  unfold pass_stage. cbv zeta. split_and!.
  - by rewrite lookup_insert_eq.
  - rewrite !lookup_insert_ne by done. by rewrite lookup_insert_eq.
  - rewrite lookup_insert_ne by done. by rewrite lookup_insert_eq.
Qed.

(** An integer array is taken for a 0/1 mask when it has one entry per
    vertex and no entry above 1. *)
Definition taken_for_mask (n : nat) (a : list Z) : Prop :=
  length a = n ∧ Zmax_list a ≤ 1.

Lemma index_list_kept n a :
  ¬ taken_for_mask n a → _mask_to_indices n (MaskInt a) = a.
Proof.
  intros Hno. unfold _mask_to_indices.
  destruct a as [|i a]; [done|]. cbn [nonempty negb].
  destruct (_ && _) eqn:Hm; [|done]. exfalso. apply Hno.
  apply andb_true_iff in Hm as [Hlen%Nat.eqb_eq Hmax%Z.leb_le]. by split.
Qed.

(** ** The position-only classifier: what one vertex appends *)

(** [appended vi ks r r']: [r'] is [r] after [vi] was appended to the
    zones [ks], in this order. *)
Inductive appended (vi : Z) : list string → zones → zones → Prop :=
  | appended_nil r : appended vi [] r r
  | appended_cons k ks r l r' :
      r !! k = Some l →
      appended vi ks (<[k := l ++ [vi]]> r) r' →
      appended vi (k :: ks) r r'.

Lemma appended_app vi ks1 ks2 r r1 r2 :
  appended vi ks1 r r1 → appended vi ks2 r1 r2 →
  appended vi (ks1 ++ ks2) r r2.
Proof.
  induction 1 as [|k ks r l r' Hl _ IH]; intros H2; [done|].
  simpl. econstructor; [done|]. by apply IH.
Qed.

Lemma appended_dom vi ks r r' : appended vi ks r r' → dom r' = dom r.
Proof.
  induction 1 as [|k ks r l r' Hl _ IH]; [done|].
  rewrite IH, dom_insert_L. apply subseteq_union_1_L, singleton_subseteq_l.
  apply elem_of_dom. by eexists.
Qed.

Lemma appended_lookup_ne vi ks r r' k :
  appended vi ks r r' → k ∉ ks → r' !! k = r !! k.
Proof.
  induction 1 as [|k' ks r l r' Hl _ IH]; intros Hk; [done|].
  apply not_elem_of_cons in Hk as [Hne Hk].
  rewrite IH by done. by rewrite lookup_insert_ne.
Qed.

Lemma appended_lookup vi ks r r' k :
  appended vi ks r r' → NoDup ks → k ∈ ks →
  r' !! k = (λ l, l ++ [vi]) <$> r !! k.
Proof.
  induction 1 as [|k' ks r l r' Hl Happ IH]; intros Hnd Hk.
  { by apply elem_of_nil in Hk. }
  apply NoDup_cons in Hnd as [Hk' Hnd].
  apply elem_of_cons in Hk as [->|Hk].
  - rewrite (appended_lookup_ne _ _ _ _ _ Happ Hk').
    by rewrite lookup_insert_eq, Hl.
  - rewrite IH by done. rewrite lookup_insert_ne; [done|].
    by intros ->.
Qed.

Lemma zone_append_appended k vi r r' :
  zone_append k vi r = Some r' → appended vi [k] r r'.
Proof.
  unfold zone_append. intros H. apply bind_Some in H as (l & Hl & H).
  simplify_eq. econstructor; [done|]. constructor.
Qed.

(** [m] returns a zone map with the fixed names as keys. *)
Definition keeps_names (m : option zones) : Prop :=
  ∃ r, m = Some r ∧ dom r = zone_names.

Lemma keeps_names_Some r : dom r = zone_names → keeps_names (Some r).
Proof. intros. by exists r. Qed.

Lemma keeps_names_bind (m : option zones) (f : zones → option zones) :
  keeps_names m → (∀ r, dom r = zone_names → keeps_names (f r)) →
  keeps_names (m ≫= f).
Proof. intros (r & -> & Hr) Hf. simpl. by apply Hf. Qed.

Lemma keeps_names_zone_append k vi r :
  k ∈ ALL_CLINICAL_ZONES → dom r = zone_names →
  keeps_names (zone_append k vi r).
Proof.
  intros Hk Hdom. unfold zone_append.
  destruct (zone_names_lookup r k Hdom Hk) as [l Hl]. rewrite Hl. simpl.
  eexists. split; [done|]. rewrite dom_insert_L, Hdom.
  apply subseteq_union_1_L, singleton_subseteq_l.
  by apply elem_of_list_to_set.
Qed.

(** Walk through a block of the loop body: every [append] finds its
    zone. *)
Ltac names_kept :=
  repeat match goal with
  | |- keeps_names (Some _) => by apply keeps_names_Some
  | |- keeps_names (zone_append _ _ _) =>
      apply keeps_names_zone_append; [solve_name|assumption]
  | |- keeps_names (if ?c then _ else _) => destruct c
  | |- keeps_names (_ ≫= _) =>
      apply keeps_names_bind;
      [|let r := fresh "r" in let Hr := fresh "Hr" in intros r Hr]
  end.

(** [0.10 < yn] follows from [lo < yn] for a bound [lo] of at least
    [0.10]. *)
Lemma fgtq_weaken (a : fnum) (lo : Q) :
  fgtq a lo = true → (0.10 <= lo)%Q → fgtq a 0.10 = true.
Proof.
  unfold fgtq, flt, Qltb. destruct a as [q| | |]; try done.
  rewrite !negb_true_iff, <-!not_true_iff_false, !Qle_bool_iff.
  intros Hlo Hle Hq. apply Hlo. by apply (Qle_trans _ 0.10).
Qed.

Lemma between_lower lo a hi : between lo a hi = true → fgtq a lo = true.
Proof. unfold between. by intros [? _]%andb_true_iff. Qed.

Lemma between_and_lower lo a hi c :
  between lo a hi && c = true → fgtq a lo = true.
Proof. intros [? _]%andb_true_iff. by eapply between_lower. Qed.

(** Take a successful run of a block apart: one case per path, with the
    appends it made. *)
Ltac unblock :=
  repeat match goal with
  | H : Some _ = Some _ |- _ => apply (inj Some) in H; subst
  | H : (if ?c then _ else _) = Some _ |- _ => destruct c eqn:?
  | H : (_ ≫= _) = Some _ |- _ => apply bind_Some in H as (? & ? & H)
  | H : zone_append _ _ _ = Some _ |- _ =>
      unfold zone_append in H; apply bind_Some in H as (? & ? & H)
  end.

Ltac solve_appended :=
  repeat first [ apply appended_nil | (eapply appended_cons; [eassumption|]) ].

Ltac solve_order :=
  repeat first [ apply sublist_nil_l | apply sublist_skip | apply sublist_cons ].

(** The lower bound on [yn] of the path taken. *)
Ltac solve_above yn :=
  match goal with
  | H : fgtq yn ?lo = true |- _ =>
      apply (fgtq_weaken yn lo H); by vm_compute
  | H : between ?lo yn _ = true |- _ =>
      apply (fgtq_weaken yn lo (between_lower _ _ _ H)); by vm_compute
  | H : between ?lo yn _ && _ = true |- _ =>
      apply (fgtq_weaken yn lo (between_and_lower _ _ _ _ H)); by vm_compute
  end.

(** A block appends [vi] to some of its zones, in the order of the
    source, and only when [yn] is above [0.10]. *)
Definition block_spec (yn : fnum) (vi : Z) (order : list string)
    (block : zones → option zones) : Prop :=
  ∀ r r', block r = Some r' →
    ∃ ks, appended vi ks r r' ∧ sublist ks order ∧
          (ks ≠ [] → fgtq yn 0.10 = true).

Ltac solve_block yn :=
  let r := fresh "r" in
  let r' := fresh "r'" in
  let H := fresh "H" in
  intros r r' H; cbv beta in H; unblock;
  (eexists; split; [solve_appended|]);
  (split; [solve_order|]);
  first [ (intros _; reflexivity)
        | (intros _; solve_above yn)
        | (intros Hks; by destruct Hks) ].

Section PositionBlocks.
Context (yn xn : fnum) (vi : Z).

Definition forehead_order : list string :=
  ["forehead"; "forehead_left"; "forehead_right"; "forehead_center"].
Definition brows_order : list string :=
  ["brow_left"; "brow_inner_left"; "brow_right"; "brow_inner_right"].
Definition eyes_order : list string :=
  ["eye_left_upper"; "eye_left_lower";
   "eye_left_corner_inner"; "eye_left_corner_outer";
   "eye_right_upper"; "eye_right_lower";
   "eye_right_corner_inner"; "eye_right_corner_outer"].
Definition under_eye_order : list string :=
  ["under_eye_left"; "tear_trough_left";
   "under_eye_right"; "tear_trough_right"].
Definition nose_bridge_order : list string :=
  ["nose_bridge"; "nose_dorsum"; "nose_bridge_upper"; "nose_bridge_lower"].
Definition nose_tip_order : list string :=
  ["nose_tip"; "nose_tip_left"; "nose_tip_right"].
Definition nostrils_order : list string :=
  ["nostril_left"; "nostril_right"].
Definition cheeks_order : list string :=
  ["cheek_left"; "cheekbone_left"; "cheek_hollow_left";
   "cheek_right"; "cheekbone_right"; "cheek_hollow_right"].
Definition nasolabial_order : list string :=
  ["nasolabial_left"; "nasolabial_right"].
Definition lips_order : list string :=
  ["lip_upper"; "lip_upper_left"; "lip_upper_right"; "lip_upper_center";
   "lip_lower"; "lip_lower_left"; "lip_lower_right"; "lip_lower_center";
   "lip_corner_left"; "lip_corner_right"].
Definition chin_order : list string :=
  ["chin"; "chin_center"; "chin_left"; "chin_right"].
Definition jaw_order : list string :=
  ["jaw_left"; "jawline_left"; "jaw_right"; "jawline_right"].
Definition temples_order : list string := ["temple_left"; "temple_right"].
Definition ears_order : list string := ["ear_left"; "ear_right"].

Lemma pos_forehead_spec :
  block_spec yn vi forehead_order (pos_forehead yn xn vi).
Proof. unfold pos_forehead. solve_block yn. Qed.

Lemma pos_brows_spec : block_spec yn vi brows_order (pos_brows yn xn vi).
Proof. unfold pos_brows. solve_block yn. Qed.

Lemma pos_eyes_spec : block_spec yn vi eyes_order (pos_eyes yn xn vi).
Proof. unfold pos_eyes, pos_eye_left, pos_eye_right. solve_block yn. Qed.

Lemma pos_under_eye_spec :
  block_spec yn vi under_eye_order (pos_under_eye yn xn vi).
Proof. unfold pos_under_eye. solve_block yn. Qed.

Lemma pos_nose_bridge_spec :
  block_spec yn vi nose_bridge_order (pos_nose_bridge yn xn vi).
Proof. unfold pos_nose_bridge. solve_block yn. Qed.

Lemma pos_nose_tip_spec :
  block_spec yn vi nose_tip_order (pos_nose_tip yn xn vi).
Proof. unfold pos_nose_tip. solve_block yn. Qed.

Lemma pos_nostrils_spec :
  block_spec yn vi nostrils_order (pos_nostrils yn xn vi).
Proof. unfold pos_nostrils. solve_block yn. Qed.

Lemma pos_cheeks_spec : block_spec yn vi cheeks_order (pos_cheeks yn xn vi).
Proof. unfold pos_cheeks. solve_block yn. Qed.

Lemma pos_nasolabial_spec :
  block_spec yn vi nasolabial_order (pos_nasolabial yn xn vi).
Proof. unfold pos_nasolabial. solve_block yn. Qed.

Lemma pos_lips_spec : block_spec yn vi lips_order (pos_lips yn xn vi).
Proof. unfold pos_lips. solve_block yn. Qed.

Lemma pos_chin_spec : block_spec yn vi chin_order (pos_chin yn xn vi).
Proof. unfold pos_chin. solve_block yn. Qed.

Lemma pos_jaw_spec : block_spec yn vi jaw_order (pos_jaw yn xn vi).
Proof. unfold pos_jaw. solve_block yn. Qed.

Lemma pos_temples_spec :
  block_spec yn vi temples_order (pos_temples yn xn vi).
Proof. unfold pos_temples. solve_block yn. Qed.

Lemma pos_ears_spec : block_spec yn vi ears_order (pos_ears yn xn vi).
Proof. unfold pos_ears. solve_block yn. Qed.

(** The zones of the feature blocks, in the order of the source. *)
Definition features_order : list string :=
  forehead_order ++ brows_order ++ eyes_order ++
  under_eye_order ++ nose_bridge_order ++ nose_tip_order ++
  nostrils_order ++ cheeks_order ++ nasolabial_order ++ lips_order ++
  chin_order ++ jaw_order ++ temples_order ++ ears_order.

(** The zones of the facial part of the loop body. *)
Definition face_order : list string := "full_face" :: features_order.

Lemma block_spec_seq order1 order2 block1 block2 :
  block_spec yn vi order1 block1 → block_spec yn vi order2 block2 →
  block_spec yn vi (order1 ++ order2) (λ r, r1 ← block1 r; block2 r1).
Proof.
  intros H1 H2 r r' H. apply bind_Some in H as (r1 & Hr1 & Hr').
  destruct (H1 _ _ Hr1) as (ks1 & Ha1 & Hs1 & Hy1).
  destruct (H2 _ _ Hr') as (ks2 & Ha2 & Hs2 & Hy2).
  exists (ks1 ++ ks2). split_and!.
  - by eapply appended_app.
  - by apply sublist_app.
  - intros Hne. destruct ks1; [|by apply Hy1]. by apply Hy2.
Qed.

(** The feature blocks of the loop body, from the forehead to the
    ears. *)
Definition classify_features (regions : zones) : option zones :=
  regions ← pos_forehead yn xn vi regions;
  regions ← pos_brows yn xn vi regions;
  regions ← pos_eyes yn xn vi regions;
  regions ← pos_under_eye yn xn vi regions;
  regions ← pos_nose_bridge yn xn vi regions;
  regions ← pos_nose_tip yn xn vi regions;
  regions ← pos_nostrils yn xn vi regions;
  regions ← pos_cheeks yn xn vi regions;
  regions ← pos_nasolabial yn xn vi regions;
  regions ← pos_lips yn xn vi regions;
  regions ← pos_chin yn xn vi regions;
  regions ← pos_jaw yn xn vi regions;
  regions ← pos_temples yn xn vi regions;
  pos_ears yn xn vi regions.

Lemma classify_features_spec :
  block_spec yn vi features_order classify_features.
Proof.
  unfold classify_features, features_order.
  repeat (apply block_spec_seq;
          [first [ apply pos_forehead_spec
                 | apply pos_brows_spec | apply pos_eyes_spec
                 | apply pos_under_eye_spec | apply pos_nose_bridge_spec
                 | apply pos_nose_tip_spec | apply pos_nostrils_spec
                 | apply pos_cheeks_spec | apply pos_nasolabial_spec
                 | apply pos_lips_spec | apply pos_chin_spec
                 | apply pos_jaw_spec | apply pos_temples_spec ]|]).
  apply pos_ears_spec.
Qed.

(** The facial part of the loop body: what runs for a front-facing
    vertex above the neck. *)
Definition classify_face (regions : zones) : option zones :=
  regions ←
    (if fgtq yn 0.10 then zone_append "full_face" vi regions
     else Some regions);
  classify_features regions.

(** Whenever the facial part appends to a zone, it appends to
    [full_face]. *)
Lemma classify_face_spec r r' :
  classify_face r = Some r' →
  ∃ ks, appended vi ks r r' ∧ sublist ks face_order ∧
        (ks ≠ [] → "full_face" ∈ ks).
Proof.
  unfold classify_face. intros H.
  apply bind_Some in H as (r0 & Hff & Hfeat).
  apply classify_features_spec in Hfeat as (ks & Happ & Hsub & Hy).
  destruct (fgtq yn 0.10).
  - apply zone_append_appended in Hff. exists ("full_face" :: ks).
    split_and!.
    + by apply (appended_app _ ["full_face"] ks _ r0).
    + by apply sublist_skip.
    + intros _. by left.
  - simplify_eq. destruct ks as [|k ks]; [|by discriminate Hy].
    exists []. split_and!; [done|apply sublist_nil_l|done].
Qed.

Lemma classify_vertex_unfold is_front r :
  classify_vertex yn xn vi is_front r =
    if fltq yn 0.10 then zone_append "neck" vi r
    else if negb is_front then Some r
    else classify_face r.
Proof. reflexivity. Qed.

Lemma classify_face_keeps_names r :
  dom r = zone_names → keeps_names (classify_face r).
Proof.
  intros Hr. unfold classify_face, classify_features,
    pos_forehead, pos_brows, pos_eyes,
    pos_eye_left, pos_eye_right, pos_under_eye, pos_nose_bridge,
    pos_nose_tip, pos_nostrils, pos_cheeks, pos_nasolabial, pos_lips,
    pos_chin, pos_jaw, pos_temples, pos_ears.
  names_kept.
Qed.
End PositionBlocks.

(** ** The position-only classifier: one turn of the loop *)

Lemma face_order_NoDup : NoDup face_order.
Proof. apply (bool_decide_unpack _). by vm_compute. Qed.

Lemma neck_not_in_face_order : "neck" ∉ face_order.
Proof. apply (bool_decide_unpack _). by vm_compute. Qed.

(** What one turn appends: the neck alone for a vertex at the bottom,
    nothing for another vertex at the back, and facial zones with
    [full_face] among them for a vertex at the front. *)
Lemma classify_vertex_spec yn xn vi is_front r r' :
  classify_vertex yn xn vi is_front r = Some r' →
  ∃ ks, appended vi ks r r' ∧ NoDup ks ∧
        (fltq yn 0.10 = true → ks = ["neck"]) ∧
        (fltq yn 0.10 = false →
           ("neck" ∉ ks) ∧ (ks ≠ [] → is_front = true ∧ "full_face" ∈ ks)).
Proof.
  rewrite classify_vertex_unfold. intros H.
  destruct (fltq yn 0.10) eqn:Hneck.
  { apply zone_append_appended in H. exists ["neck"].
    split_and!; [done|apply NoDup_singleton|done|done]. }
  destruct is_front; cbn [negb] in H.
  2:{ simplify_eq. exists []. split_and!; [constructor..|done|].
      intros _. split; [apply not_elem_of_nil|done]. }
  apply classify_face_spec in H as (ks & Happ & Hsub & Hff).
  exists ks. split_and!; [done| |done|].
  { eapply sublist_NoDup; [apply face_order_NoDup|done]. }
  intros _. split.
  - intros Hin. apply neck_not_in_face_order.
    exact (elem_of_sublist _ _ _ Hin Hsub).
  - intros Hne. split; [done|by apply Hff].
Qed.

Lemma classify_vertex_keeps_names yn xn vi is_front r :
  dom r = zone_names → keeps_names (classify_vertex yn xn vi is_front r).
Proof.
  intros Hr. rewrite classify_vertex_unfold.
  destruct (fltq yn 0.10).
  { apply keeps_names_zone_append; [solve_name|done]. }
  destruct (negb is_front); [by apply keeps_names_Some|].
  by apply classify_face_keeps_names.
Qed.

Lemma increasing_snoc l k :
  increasing l → Forall (λ i, i < k) l → increasing (l ++ [k]).
Proof.
  unfold increasing. intros Hl Hk. apply StronglySorted_app_2; [|done|].
  - intros i j Hi Hj. apply list_elem_of_singleton in Hj as ->.
    rewrite Forall_forall in Hk. by apply Hk.
  - repeat constructor.
Qed.

Lemma vertex_at_is_Some v vi :
  0 ≤ vi < Z.of_nat (length v) → is_Some (vertex_at v vi).
Proof.
  intros Hvi. unfold vertex_at. rewrite (proj2 (Z.leb_le _ _)) by lia.
  apply lookup_lt_is_Some. lia.
Qed.

Lemma for_each_seqZ_inv {St} (I : Z → St → Prop) (body : St → Z → option St)
    s (len : nat) s' m :
  for_each body s (seqZ m (Z.of_nat len)) = Some s' →
  I m s →
  (∀ i s s', m ≤ i < m + Z.of_nat len → I i s → body s i = Some s' →
             I (i + 1) s') →
  I (m + Z.of_nat len) s'.
Proof.
  revert s m. induction len as [|len IH]; intros s m Hrun Hs Hbody.
  { simpl in Hrun. simplify_eq. by rewrite Z.add_0_r. }
  rewrite seqZ_cons in Hrun by lia. cbn [for_each] in Hrun.
  apply bind_Some in Hrun as (s1 & Hs1 & Hrun).
  replace (Z.pred (Z.of_nat (S len))) with (Z.of_nat len) in Hrun by lia.
  replace (m + Z.of_nat (S len)) with (Z.succ m + Z.of_nat len) by lia.
  apply (IH s1 (Z.succ m)); [done| |].
  - replace (Z.succ m) with (m + 1) by lia.
    apply (Hbody m s s1); [lia|done|done].
  - intros i s0 s0' Hi. apply Hbody. lia.
Qed.

(** ** The position-only classifier: the loop *)

Section PositionRun.
Context (v : list vertex) (b : box).

(** The vertex [i] lies at the bottom: [yn < 0.10]. *)
Definition at_bottom (i : Z) : Prop :=
  ∃ vert, vertex_at v i = Some vert ∧ fltq (norm_y b vert) 0.10 = true.

(** The vertex [i] is front-facing and not at the bottom. *)
Definition at_front (i : Z) : Prop :=
  ∃ vert, vertex_at v i = Some vert ∧ front b vert = true ∧
          fltq (norm_y b vert) 0.10 = false.

(** The state of the zone map when the vertices below [k] have been
    classified. *)
Record loop_inv (k : Z) (r : zones) : Prop := LoopInv {
  inv_dom : dom r = zone_names;
  inv_lists : ∀ name l, r !! name = Some l →
                increasing l ∧ Forall (λ i, 0 ≤ i < k) l;
  inv_face : ∀ name l i, r !! name = Some l → i ∈ l → name ≠ "neck" →
               at_front i ∧ ∃ ff, r !! "full_face" = Some ff ∧ i ∈ ff;
  inv_neck : ∀ l i, r !! "neck" = Some l →
               i ∈ l ↔ 0 ≤ i < k ∧ at_bottom i
}.

Lemma loop_inv_init : loop_inv 0 init_regions.
Proof.
  split.
  - apply dom_init_regions.
  - intros name l Hl. rewrite init_regions_lookup in Hl.
    case_bool_decide; simplify_eq. split; constructor.
  - intros name l i Hl Hi. rewrite init_regions_lookup in Hl.
    case_bool_decide; simplify_eq. by apply elem_of_nil in Hi.
  - intros l i Hl. rewrite init_regions_lookup in Hl.
    case_bool_decide; simplify_eq. rewrite elem_of_nil. split; [done|lia].
Qed.

Lemma loop_inv_step k r r' :
  0 ≤ k → loop_inv k r → position_loop v b r k = Some r' →
  loop_inv (k + 1) r'.
Proof.
  intros Hk [Hdom Hlists Hface Hneck] Hrun. unfold position_loop in Hrun.
  apply bind_Some in Hrun as (vert & Hvert & Hrun).
  apply classify_vertex_spec in Hrun
    as (ks & Happ & Hnd & Hbottom & Hother).
  (* every list of [r'] is a list of [r], with [k] at its end for the
     zones of [ks] *)
  assert (∀ name l', r' !! name = Some l' →
            ∃ l, r !! name = Some l ∧
                 ((name ∈ ks ∧ l' = l ++ [k]) ∨ ((name ∉ ks) ∧ l' = l)))
    as Hr'.
  { intros name l' Hl'. destruct (decide (name ∈ ks)) as [Hin|Hnotin].
    - rewrite (appended_lookup _ _ _ _ _ Happ Hnd Hin) in Hl'.
      destruct (r !! name) as [l|]; simplify_eq/=. eauto.
    - rewrite (appended_lookup_ne _ _ _ _ _ Happ Hnotin) in Hl'. eauto. }
  assert (∀ name l, r !! name = Some l →
            ∃ l', r' !! name = Some l' ∧ l ⊆ l') as Hgrow.
  { intros name l Hl. destruct (decide (name ∈ ks)) as [Hin|Hnotin].
    - rewrite (appended_lookup _ _ _ _ _ Happ Hnd Hin), Hl. simpl.
      eexists. split; [done|]. intros i Hi. apply elem_of_app. by left.
    - rewrite (appended_lookup_ne _ _ _ _ _ Happ Hnotin), Hl.
      by eexists. }
  split.
  - by rewrite (appended_dom _ _ _ _ Happ).
  - intros name l' Hl'.
    destruct (Hr' _ _ Hl') as (l & Hl & [[_ ->]|[_ ->]]);
      destruct (Hlists _ _ Hl) as [Hinc Hrange].
    + split.
      * apply increasing_snoc; [done|].
        eapply Forall_impl; [exact Hrange|]. simpl. lia.
      * apply Forall_app. split; [|repeat constructor; lia].
        eapply Forall_impl; [exact Hrange|]. simpl. lia.
    + split; [done|]. eapply Forall_impl; [exact Hrange|]. simpl. lia.
  - intros name l' i Hl' Hi Hname.
    destruct (Hr' _ _ Hl') as (l & Hl & Hcase).
    assert (i ∈ l ∨ (name ∈ ks ∧ i = k)) as [Hold|[Hin ->]].
    { destruct Hcase as [[Hin ->]|[_ ->]]; [|by left].
      apply elem_of_app in Hi as [?|Hi]; [by left|].
      apply list_elem_of_singleton in Hi. by right. }
    + destruct (Hface _ _ _ Hl Hold Hname) as [Hfront (ff & Hff & Hiff)].
      split; [done|]. destruct (Hgrow _ _ Hff) as (ff' & Hff' & Hsub).
      exists ff'. split; [done|]. by apply Hsub.
    + destruct (fltq (norm_y b vert) 0.10) eqn:Hyn.
      { rewrite (Hbottom eq_refl) in Hin.
        by apply list_elem_of_singleton in Hin. }
      destruct (Hother eq_refl) as [_ Hks].
      destruct Hks as [Hfront Hff]; [by intros ->; apply elem_of_nil in Hin|].
      split; [by exists vert|].
      rewrite (appended_lookup _ _ _ _ _ Happ Hnd Hff).
      destruct (zone_names_lookup r "full_face" Hdom) as [ff Hr];
        [solve_name|].
      rewrite Hr. simpl. eexists. split; [done|].
      apply elem_of_app. right. by apply list_elem_of_singleton.
  - intros l' i Hl'. destruct (Hr' _ _ Hl') as (l & Hl & Hcase).
    specialize (Hneck l i Hl).
    destruct (fltq (norm_y b vert) 0.10) eqn:Hyn.
    + rewrite (Hbottom eq_refl) in Hcase.
      destruct Hcase as [[_ ->]|[Hno _]];
        [|by exfalso; apply Hno, list_elem_of_singleton].
      rewrite elem_of_app, list_elem_of_singleton, Hneck. split.
      * intros [[? ?]| ->]; [split; [lia|done]|].
        split; [lia|]. by exists vert.
      * intros [Hi Hb]. destruct (decide (i = k)); [by right|].
        left. split; [lia|done].
    + destruct (Hother eq_refl) as [Hno _].
      destruct Hcase as [[Hin _]|[_ ->]]; [done|].
      rewrite Hneck. split.
      * intros [? ?]. split; [lia|done].
      * intros [Hi (vert' & Hv' & Hb)]. split; [|by exists vert'].
        destruct (decide (i = k)) as [->|]; [|lia].
        rewrite Hvert in Hv'. simplify_eq. congruence.
Qed.

Lemma position_loop_inv r :
  for_each (position_loop v b) init_regions
    (seqZ 0 (Z.of_nat (length v))) = Some r →
  loop_inv (Z.of_nat (length v)) r.
Proof.
  intros Hrun.
  apply (for_each_seqZ_inv loop_inv _ _ _ _ 0 Hrun); [apply loop_inv_init|].
  intros i s s' Hi Hs Hstep. apply (loop_inv_step i s s'); [lia|done..].
Qed.

Lemma position_loop_is_Some :
  is_Some (for_each (position_loop v b) init_regions
             (seqZ 0 (Z.of_nat (length v)))).
Proof.
  destruct (for_each_is_Some (λ r : zones, dom r = zone_names)
              (position_loop v b) init_regions
              (seqZ 0 (Z.of_nat (length v)))) as (r & -> & _);
    [apply dom_init_regions| |by eexists].
  intros r vi Hr Hvi. apply elem_of_seqZ in Hvi.
  unfold position_loop.
  destruct (vertex_at_is_Some v vi) as [vert ->]; [lia|]. simpl.
  by apply classify_vertex_keeps_names.
Qed.
End PositionRun.

(** ** The position-only classifier as a whole *)

Lemma bounding_box_is_Some v : v ≠ [] → is_Some (bounding_box v).
Proof.
  intros Hv. unfold bounding_box. cbv zeta.
  repeat (apply bind_is_Some_intro;
          [first [apply np_min_is_Some|apply np_max_is_Some];
           by destruct v|intros ? _]).
  by eexists.
Qed.

Lemma _position_only_regions_Some v r :
  _position_only_regions v = Some r ↔
  ∃ b, bounding_box v = Some b ∧
       for_each (position_loop v b) init_regions
         (seqZ 0 (Z.of_nat (length v))) = Some r.
Proof.
  unfold _position_only_regions. cbv zeta. split.
  - intros H. apply bind_Some in H as (b & Hb & H). by exists b.
  - intros (b & -> & H). done.
Qed.

(** The classifier returns on every mesh with a vertex. *)
Lemma _position_only_regions_is_Some v :
  v ≠ [] → is_Some (_position_only_regions v).
Proof.
  intros Hv. destruct (bounding_box_is_Some v Hv) as [b Hb].
  destruct (position_loop_is_Some v b) as [r Hr].
  exists r. apply _position_only_regions_Some. by exists b.
Qed.

Lemma _position_only_regions_inv v r :
  _position_only_regions v = Some r →
  ∃ b, bounding_box v = Some b ∧ loop_inv v b (Z.of_nat (length v)) r.
Proof.
  intros H. apply _position_only_regions_Some in H as (b & Hb & H).
  exists b. split; [done|]. by apply position_loop_inv.
Qed.

(** A vertex at or behind the z-midpoint is not front-facing. *)
Lemma front_false b vert : (vz vert <= bx_z_mid b)%Q → front b vert = false.
Proof.
  intros Hz. unfold front, Qgtb, Qltb. apply negb_false_iff.
  by apply Qle_bool_iff.
Qed.

(** ** A single-vertex mesh *)

Lemma Qltb_irrefl_eq (a b : Q) : (a == b)%Q → Qltb a b = false.
Proof.
  intros Heq. unfold Qltb. apply negb_false_iff, Qle_bool_iff.
  rewrite Heq. apply Qle_refl.
Qed.

Lemma fdiv_zero_zero (a b : Q) : (a == 0)%Q → (b == 0)%Q → fdiv a b = NaN.
Proof.
  intros Ha Hb. unfold fdiv.
  rewrite (proj2 (Qeq_bool_iff b 0) Hb).
  rewrite (Qltb_irrefl_eq 0 a) by (by symmetry).
  by rewrite (Qltb_irrefl_eq a 0).
Qed.

Lemma single_vertex_box p :
  ∃ b, bounding_box [p] = Some b ∧
       norm_y b p = NaN ∧ norm_x b p = NaN ∧ front b p = false.
Proof.
  eexists. split; [reflexivity|]. split_and!.
  - unfold norm_y. cbn. apply fdiv_zero_zero; ring.
  - unfold norm_x. cbn. apply fdiv_zero_zero; field.
  - apply front_false. cbn. apply Qle_lteq. right. field.
Qed.

(** Without a fallback divisor the only vertex has no normalized
    coordinates, and it is put into no zone. *)
Lemma single_vertex_unclassified p :
  _position_only_regions [p] = Some init_regions.
Proof.
  apply _position_only_regions_Some.
  destruct (single_vertex_box p) as (b & Hb & Hy & Hx & Hf).
  exists b. split; [done|].
  assert (position_loop [p] b init_regions 0 = Some init_regions) as Hstep.
  { change (classify_vertex (norm_y b p) (norm_x b p) 0 (front b p)
              init_regions = Some init_regions).
    rewrite Hy, Hx, Hf. reflexivity. }
  change (seqZ 0 (Z.of_nat (length [p]))) with [0].
  cbn [for_each]. rewrite Hstep. reflexivity.
Qed.

(** ** The fallback divisor of [_compute_vertex_stats] *)

Lemma Qmin2_le_l a b : (Qmin2 a b <= a)%Q.
Proof.
  unfold Qmin2. destruct (Qle_bool a b) eqn:H; [apply Qle_refl|].
  apply Qlt_le_weak, Qnot_le_lt. intros Hab.
  apply Qle_bool_iff in Hab. congruence.
Qed.

Lemma Qmin2_le_r a b : (Qmin2 a b <= b)%Q.
Proof.
  unfold Qmin2. destruct (Qle_bool a b) eqn:H; [|apply Qle_refl].
  by apply Qle_bool_iff.
Qed.

Lemma Qmax2_ge_l a b : (a <= Qmax2 a b)%Q.
Proof.
  unfold Qmax2. destruct (Qle_bool a b) eqn:H; [|apply Qle_refl].
  by apply Qle_bool_iff.
Qed.

Lemma Qmax2_ge_r a b : (b <= Qmax2 a b)%Q.
Proof.
  unfold Qmax2. destruct (Qle_bool a b) eqn:H; [apply Qle_refl|].
  apply Qlt_le_weak, Qnot_le_lt. intros Hab.
  apply Qle_bool_iff in Hab. congruence.
Qed.

Lemma foldl_Qmin2_le q r e :
  e ∈ q :: r → (foldl Qmin2 q r <= e)%Q.
Proof.
  revert q e. induction r as [|a r IH]; intros q e He; simpl.
  - apply list_elem_of_singleton in He as ->. apply Qle_refl.
  - apply elem_of_cons in He as [->|He].
    + eapply Qle_trans; [apply IH; by left|apply Qmin2_le_l].
    + apply elem_of_cons in He as [->|He].
      * eapply Qle_trans; [apply IH; by left|apply Qmin2_le_r].
      * apply IH. by right.
Qed.

Lemma foldl_Qmax2_ge q r e :
  e ∈ q :: r → (e <= foldl Qmax2 q r)%Q.
Proof.
  revert q e. induction r as [|a r IH]; intros q e He; simpl.
  - apply list_elem_of_singleton in He as ->. apply Qle_refl.
  - apply elem_of_cons in He as [->|He].
    + eapply Qle_trans; [apply Qmax2_ge_l|apply IH; by left].
    + apply elem_of_cons in He as [->|He].
      * eapply Qle_trans; [apply Qmax2_ge_r|apply IH; by left].
      * apply IH. by right.
Qed.

Lemma np_min_le a m e : np_min a = Some m → e ∈ a → (m <= e)%Q.
Proof.
  destruct a as [|q r]; [done|]. intros [= <-]. apply foldl_Qmin2_le.
Qed.

Lemma np_max_ge a m e : np_max a = Some m → e ∈ a → (e <= m)%Q.
Proof.
  destruct a as [|q r]; [done|]. intros [= <-]. apply foldl_Qmax2_ge.
Qed.

(** The normalization of [_compute_vertex_stats]: with a range of zero
    the divisor is 1 and every normalized coordinate is zero. *)
Lemma normalize_degenerate (a : list Q) lo hi :
  np_min a = Some lo → np_max a = Some hi → ¬ (0 < hi - lo)%Q →
  Forall (λ q, q == 0)%Q
    ((λ v, (v - lo) / (if Qgtb (hi - lo) 0 then hi - lo else 1))%Q <$> a).
Proof.
  intros Hlo Hhi Hrange. apply Forall_fmap, Forall_forall. intros e He.
  simpl. pose proof (np_min_le _ _ _ Hlo He). pose proof (np_max_ge _ _ _ Hhi He).
  assert (Qgtb (hi - lo) 0 = false) as ->.
  { unfold Qgtb, Qltb. apply negb_false_iff, Qle_bool_iff.
    by apply Qnot_lt_le. }
  apply Qnot_lt_le in Hrange.
  assert (e == lo)%Q as ->; [|field].
  apply Qle_antisym; [|done]. lra.
Qed.

Lemma _compute_vertex_stats_degenerate v st :
  _compute_vertex_stats v = Some st →
  (¬ (0 < st_y_range st)%Q → Forall (λ q, q == 0)%Q (st_yn st)) ∧
  (¬ (0 < st_x_range st)%Q → Forall (λ q, q == 0)%Q (st_xn st)).
Proof.
  unfold _compute_vertex_stats. cbv zeta. intros H.
  apply bind_Some in H as (y_min & Hymin & H).
  apply bind_Some in H as (y_max & Hymax & H).
  apply bind_Some in H as (x_min & Hxmin & H).
  apply bind_Some in H as (x_max & Hxmax & H).
  apply bind_Some in H as (z_min & _ & H).
  apply bind_Some in H as (z_max & _ & H).
  simplify_eq. cbn [st_y_range st_x_range st_yn st_xn].
  split; intros Hr; by apply normalize_degenerate.
Qed.

(** * The properties of the specification *)

#[global] Instance mask_ok_dec n mv : Decision (mask_ok n mv).
Proof. destruct mv; simpl; apply _. Defined.

#[global] Instance mask_indexable_dec n mv : Decision (mask_indexable n mv).
Proof. destruct mv; simpl; unfold indexable; apply _. Defined.

#[global] Instance well_formed_masks_dec v fm : Decision (well_formed_masks v fm).
Proof.
  unfold well_formed_masks. apply Forall_dec. intros key.
  destruct (fm !! key); simpl; apply _.
Defined.

#[global] Instance indexable_masks_dec v fm : Decision (indexable_masks v fm).
Proof.
  unfold indexable_masks. apply Forall_dec. intros key.
  destruct (fm !! key); simpl; apply _.
Defined.

(** A small mesh and a mask dictionary for the examples: five vertices,
    index lists (one of them unsorted) and boolean masks. *)
Definition demo_mesh : list vertex :=
  [ Vertex 0 0 1; Vertex 1 1 1; Vertex (-1) 2 1;
    Vertex 0.5 3 1; Vertex (-0.5) 4 0 ]%Q.

Definition demo_masks : gmap string mask_val :=
  {[ "forehead" := MaskInt [3; 1; 2];
     "neck" := MaskBool [true; false; false; false; false];
     "left_eye_region" := MaskInt [1; 2];
     "left_eyeball" := MaskInt [2; 1; 4];
     "face" := MaskBool [true; true; true; true; true];
     "nose" := MaskInt [1];
     "left_ear" := MaskInt [4; 0] ]}.

(** The zone map of the subdivider on the example. *)
Definition demo_zones : zones :=
  Eval vm_compute in
    default ∅ (subdivide_flame_masks_to_clinical_zones demo_mesh demo_masks).

Lemma demo_run :
  subdivide_flame_masks_to_clinical_zones demo_mesh demo_masks =
    Some demo_zones.
Proof. vm_cast_no_check (eq_refl (Some demo_zones)). Qed.

(** The zone map of the position-only classifier on the example. *)
Definition demo_position_zones : zones :=
  Eval vm_compute in default ∅ (_position_only_regions demo_mesh).

Lemma demo_position_run :
  _position_only_regions demo_mesh = Some demo_position_zones.
Proof. vm_cast_no_check (eq_refl (Some demo_position_zones)). Qed.

Example demo_zones_eye_left_lower :
  demo_zones !! "eye_left_lower" = Some [1].
Proof. vm_compute. reflexivity. Qed.

Example demo_position_zones_neck :
  demo_position_zones !! "neck" = Some [0].
Proof. vm_compute. reflexivity. Qed.

(** The forehead thirds keep the order of the supplied index list: they
    are filled by [append] in a loop over it and never sorted. *)
Example demo_zones_forehead_left :
  demo_zones !! "forehead_left" = Some [3; 1].
Proof. vm_compute. reflexivity. Qed.

(** ** C1: the keys of the zone map *)

(** C1.  Whichever component runs, the zone map it returns has exactly
    the 61 fixed zone names as keys. *)
Theorem zone_map_keys v masks r :
  clinical_regions v masks = Some r →
  dom r = list_to_set ALL_CLINICAL_ZONES ∧ size (dom r) = 61%nat.
Proof.
  intros H.
  assert (dom r = zone_names) as Hdom.
  { destruct masks as [fm|]; simpl in H.
    - by eapply subdivide_dom.
    - apply _position_only_regions_inv in H as (b & _ & Hinv).
      by destruct Hinv. }
  split; [done|]. rewrite Hdom. by vm_compute.
Qed.

Lemma zone_map_keys_witness :
  clinical_regions demo_mesh (Some demo_masks) = Some demo_zones ∧
  dom demo_zones = list_to_set ALL_CLINICAL_ZONES ∧
  size (dom demo_zones) = 61%nat.
Proof.
  split; [exact demo_run|].
  exact (zone_map_keys demo_mesh (Some demo_masks) demo_zones demo_run).
Defined.

(** ** C2: the index lists *)

(** Not every input gives strictly increasing lists: on an index list
    with a repeated index the neck zone is the supplied list, sorted but
    not deduplicated. *)
Definition repeated_neck : gmap string mask_val :=
  {[ "neck" := MaskInt [0; 0] ]}.

Definition repeated_neck_zones : zones :=
  Eval vm_compute in
    default ∅ (subdivide_flame_masks_to_clinical_zones
                 [Vertex 0 0 0] repeated_neck).

Lemma repeated_neck_run :
  subdivide_flame_masks_to_clinical_zones [Vertex 0 0 0] repeated_neck =
    Some repeated_neck_zones.
Proof. vm_cast_no_check (eq_refl (Some repeated_neck_zones)). Qed.

Lemma zone_lists_counterexample :
  ¬ (∀ v fm r k l,
       subdivide_flame_masks_to_clinical_zones v fm = Some r →
       r !! k = Some l →
       increasing l ∧ in_range (length v) l).
Proof.
  intros Hclaim.
  destruct (Hclaim [Vertex 0 0 0] repeated_neck repeated_neck_zones
              "neck" [0; 0] repeated_neck_run) as [Hinc _].
  { vm_compute. reflexivity. }
  apply increasing_NoDup, NoDup_cons in Hinc as [Hin _].
  apply Hin. by left.
Qed.

(** C2 (amended).  When every supplied region that feeds a zone is a
    boolean mask no longer than the mesh or an index list of distinct
    vertex indices, every index list of the subdivider holds distinct
    indices within [0, N); it is strictly increasing for every zone but
    the three forehead thirds, and for these when the forehead index
    array is strictly increasing.  Every index list of the position-only
    classifier is strictly increasing within [0, N). *)
Theorem zone_lists_well_formed v :
  (∀ fm r k l,
     well_formed_masks v fm →
     subdivide_flame_masks_to_clinical_zones v fm = Some r →
     r !! k = Some l →
     in_range (length v) l ∧ NoDup l ∧
     (k ∉ forehead_thirds ∨ increasing (region v fm "forehead") →
      increasing l)) ∧
  (∀ r k l,
     _position_only_regions v = Some r →
     r !! k = Some l →
     in_range (length v) l ∧ increasing l).
Proof.
  split.
  - intros fm r k l Hok Hrun Hl.
    by apply (subdivide_lists_ok v fm Hok r k l).
  - intros r k l Hrun Hl.
    apply _position_only_regions_inv in Hrun as (b & _ & Hinv).
    destruct (inv_lists _ _ _ _ Hinv _ _ Hl) as [Hinc Hrange].
    split; [|done]. eapply Forall_impl; [exact Hrange|]. simpl. lia.
Qed.

Lemma zone_lists_well_formed_witness :
  (in_range 5 [1; 2; 3] ∧ NoDup [1; 2; 3] ∧
   ("forehead" ∉ forehead_thirds ∨
    increasing (region demo_mesh demo_masks "forehead") →
    increasing [1; 2; 3])) ∧
  (in_range 5 [0] ∧ increasing [0]).
Proof.
  destruct (zone_lists_well_formed demo_mesh) as [Hsub Hpos]. split.
  - apply (Hsub demo_masks demo_zones "forehead" [1; 2; 3]).
    + apply (bool_decide_unpack _). vm_compute. exact I.
    + exact demo_run.
    + vm_compute. reflexivity.
  - apply (Hpos demo_position_zones "neck" [0]).
    + exact demo_position_run.
    + vm_compute. reflexivity.
Defined.

(** ** C3: full_face *)

(** C3.  In both components [full_face] holds every index of every zone
    other than [neck], [ear_left] and [ear_right]. *)
Theorem full_face_superset v masks r k l i :
  clinical_regions v masks = Some r →
  k ∉ ["neck"; "ear_left"; "ear_right"] →
  r !! k = Some l → i ∈ l →
  ∃ full_face, r !! "full_face" = Some full_face ∧ i ∈ full_face.
Proof.
  intros Hrun Hk Hl Hi. destruct masks as [fm|]; simpl in Hrun.
  - by eapply subdivide_full_face.
  - apply _position_only_regions_inv in Hrun as (b & _ & Hinv).
    eapply (inv_face _ _ _ _ Hinv); [done..|].
    intros ->. apply Hk. by left.
Qed.

Lemma full_face_superset_witness :
  ∃ full_face, demo_zones !! "full_face" = Some full_face ∧ 2 ∈ full_face.
Proof.
  apply (full_face_superset demo_mesh (Some demo_masks) demo_zones
           "eye_left_upper" [2] 2).
  - exact demo_run.
  - apply (bool_decide_unpack _). vm_compute. exact I.
  - vm_compute. reflexivity.
  - apply (bool_decide_unpack _). vm_compute. exact I.
Defined.

(** ** C4: an eyeball mask that covers the eye region *)

(** The eye zones are not empty when the eyeball mask covers the whole
    eye region: the subdivider falls back to the whole eye region, and
    the only eye vertex lands in the lower and the under-eye zone. *)
Definition covered_eye : gmap string mask_val :=
  {[ "left_eye_region" := MaskInt [0]; "left_eyeball" := MaskInt [0] ]}.

Definition covered_eye_mesh : list vertex :=
  [Vertex 0 0 0; Vertex 1 1 1].

Definition covered_eye_zones : zones :=
  Eval vm_compute in
    default ∅ (subdivide_flame_masks_to_clinical_zones
                 covered_eye_mesh covered_eye).

Lemma covered_eye_run :
  subdivide_flame_masks_to_clinical_zones covered_eye_mesh covered_eye =
    Some covered_eye_zones.
Proof. vm_cast_no_check (eq_refl (Some covered_eye_zones)). Qed.

Lemma covered_eye_counterexample :
  ¬ (∀ v fm r,
       subdivide_flame_masks_to_clinical_zones v fm = Some r →
       region v fm "left_eye_region" ≠ [] →
       region v fm "left_eye_region" ⊆ region v fm "left_eyeball" →
       ∀ k, k ∈ eye_left_keys → r !! k = Some []).
Proof.
  intros Hclaim.
  assert (covered_eye_zones !! "eye_left_lower" = Some []) as Habs.
  { apply (Hclaim covered_eye_mesh covered_eye covered_eye_zones
             covered_eye_run).
    - by vm_compute.
    - apply (bool_decide_unpack _). vm_compute. exact I.
    - apply (bool_decide_unpack _). vm_compute. exact I. }
  by vm_compute in Habs.
Qed.

(** C4 (amended).  When the left eye region is not empty and the left
    eyeball mask covers it, the subdivider computes the eye zones of
    that side from the whole eye region: [eye_left_upper] and
    [eye_left_lower] split its indices between them, so one of the two
    is not empty, and [under_eye_left] is [eye_left_lower]. *)
Theorem covered_eye_uses_whole_region v fm r :
  subdivide_flame_masks_to_clinical_zones v fm = Some r →
  region v fm "left_eye_region" ≠ [] →
  region v fm "left_eye_region" ⊆ region v fm "left_eyeball" →
  ∃ upper lower,
    r !! "eye_left_upper" = Some upper ∧
    r !! "eye_left_lower" = Some lower ∧
    r !! "under_eye_left" = Some lower ∧
    upper ++ lower ≡ₚ region v fm "left_eye_region" ∧
    (upper ≠ [] ∨ lower ≠ []).
Proof.
  intros Hrun Hne Hcover.
  destruct (eye_zones v fm r LeftEye Hrun Hne)
    as (upper & lower & Hperm & Hu & Hl & Hue & _).
  assert (eye_skin_spec v fm LeftEye = region v fm "left_eye_region")
    as Hskin.
  { unfold eye_skin_spec, eye_without_ball.
    cbn [eyeball_key eye_region_key].
    assert (filter (λ vi, vi ∉ region v fm "left_eyeball")
              (region v fm "left_eye_region") = []) as ->; [|done].
    destruct (filter _ _) as [|i rest] eqn:Hf; [done|].
    assert (i ∈ filter (λ vi, vi ∉ region v fm "left_eyeball")
                  (region v fm "left_eye_region")) as Hi
      by (rewrite Hf; by left).
    apply list_elem_of_filter in Hi as [Hno Hi]. by apply Hcover in Hi. }
  rewrite Hskin in Hperm. cbn [eye_upper eye_lower under_eye] in *.
  exists (sorted upper), (sorted lower). split_and!; [done..| |].
  - by rewrite !sorted_Permutation.
  - destruct upper as [|i upper]; [|left].
    + destruct lower as [|j lower]; [|right].
      * simpl in Hperm. apply Permutation_nil_l in Hperm. by symmetry in Hperm.
      * intros Hnil. apply (f_equal length) in Hnil.
        rewrite (Permutation_length (sorted_Permutation _)) in Hnil.
        discriminate Hnil.
    + intros Hnil. apply (f_equal length) in Hnil.
      rewrite (Permutation_length (sorted_Permutation _)) in Hnil.
      discriminate Hnil.
Qed.

Lemma covered_eye_uses_whole_region_witness :
  ∃ upper lower,
    covered_eye_zones !! "eye_left_upper" = Some upper ∧
    covered_eye_zones !! "eye_left_lower" = Some lower ∧
    covered_eye_zones !! "under_eye_left" = Some lower ∧
    upper ++ lower ≡ₚ region covered_eye_mesh covered_eye "left_eye_region" ∧
    (upper ≠ [] ∨ lower ≠ []).
Proof.
  apply (covered_eye_uses_whole_region covered_eye_mesh covered_eye).
  - exact covered_eye_run.
  - by vm_compute.
  - apply (bool_decide_unpack _). vm_compute. exact I.
Defined.

(** ** C5: the fallback to the whole eye region *)

(** The six index lists of one side. *)
Record eye_lists : Type := EyeLists {
  el_upper : list Z;
  el_lower : list Z;
  el_corner_inner : list Z;
  el_corner_outer : list Z;
  el_under_eye : list Z;
  el_tear_trough : list Z
}.

(** The eye zones of one side as computed from a given eye skin: what
    one turn of the eye loop assigns once [eye_skin_idx] is fixed, with
    the thresholds of the eye region [eye_idx].  A zone the turn does
    not assign is empty. *)
Definition eye_lists_from (x y : list Q) (side : eye_side_name)
    (eye_idx eye_skin_idx : list Z) : option eye_lists :=
  eye_med_y ← _median_y y eye_idx;
  eye_y_lo ← _percentile_y y eye_idx 10;
  eye_y_hi ← _percentile_y y eye_idx 90;
  '(upper_eye, lower_eye) ← _split_upper_lower y eye_skin_idx eye_med_y;
  corner_band ← where_y y eye_skin_idx
    (λ ys, vlt (vabsdiff ys eye_med_y) ((eye_y_hi - eye_y_lo) * 0.3)%Q);
  '(inner, outer) ←
    (if nonempty corner_band then
       match side with
       | LeftEye =>
           inner_thresh ← _percentile_x x corner_band 15;
           outer_thresh ← _percentile_x x corner_band 85;
           inner ← where_x x corner_band (λ xs, vle xs inner_thresh);
           outer ← where_x x corner_band (λ xs, vge xs outer_thresh);
           Some (sorted inner, sorted outer)
       | RightEye =>
           inner_thresh ← _percentile_x x corner_band 85;
           outer_thresh ← _percentile_x x corner_band 15;
           inner ← where_x x corner_band (λ xs, vge xs inner_thresh);
           outer ← where_x x corner_band (λ xs, vle xs outer_thresh);
           Some (sorted inner, sorted outer)
       end
     else Some ([], []));
  tear ←
    (if nonempty lower_eye then
       ue_med_x ← _median_x x lower_eye;
       match side with
       | LeftEye =>
           t ← where_x x lower_eye (λ xs, vlt xs ue_med_x); Some (sorted t)
       | RightEye =>
           t ← where_x x lower_eye (λ xs, vgt xs ue_med_x); Some (sorted t)
       end
     else Some []);
  Some (EyeLists (sorted upper_eye) (sorted lower_eye) inner outer
          (sorted lower_eye) tear).

Section EyeLists.
Context (x y : list Q) (left_eyeball_idx right_eyeball_idx : list Z).

(** One turn of the eye loop assigns the lists of [eye_lists_from] on
    the eye skin. *)
Lemma eye_turn_lists side eye_idx r r' :
  eye_turn x y left_eyeball_idx right_eyeball_idx side eye_idx
    (eye_upper side) (eye_lower side)
    (eye_corner_inner side) (eye_corner_outer side)
    (under_eye side) (tear_trough side) r = Some r' →
  nonempty eye_idx = true →
  r !! eye_corner_inner side = Some [] →
  r !! eye_corner_outer side = Some [] →
  r !! tear_trough side = Some [] →
  ∃ zs,
    eye_lists_from x y side eye_idx
      (eye_skin left_eyeball_idx right_eyeball_idx side eye_idx) = Some zs ∧
    r' !! eye_upper side = Some (el_upper zs) ∧
    r' !! eye_lower side = Some (el_lower zs) ∧
    r' !! eye_corner_inner side = Some (el_corner_inner zs) ∧
    r' !! eye_corner_outer side = Some (el_corner_outer zs) ∧
    r' !! under_eye side = Some (el_under_eye zs) ∧
    r' !! tear_trough side = Some (el_tear_trough zs).
Proof.
  intros Hrun Hne Hci Hco Htt. unfold eye_turn in Hrun.
  rewrite Hne in Hrun. cbn [negb] in Hrun. cbv zeta in Hrun.
  unfold eye_lists_from.
  apply bind_Some in Hrun as (eye_med_y & E1 & Hrun).
  apply bind_Some in Hrun as (eye_med_x & _ & Hrun).
  apply bind_Some in Hrun as (eye_x_lo & _ & Hrun).
  apply bind_Some in Hrun as (eye_x_hi & _ & Hrun).
  apply bind_Some in Hrun as (eye_y_lo & E2 & Hrun).
  apply bind_Some in Hrun as (eye_y_hi & E3 & Hrun).
  apply bind_Some in Hrun as ([upper lower] & E4 & Hrun).
  apply bind_Some in Hrun as (band & E5 & Hrun).
  apply bind_Some in Hrun as (r3 & Hc & Hrun).
  rewrite E1. cbn [mbind option_bind]. rewrite E2. cbn [mbind option_bind].
  rewrite E3. cbn [mbind option_bind]. rewrite E4. cbn [mbind option_bind].
  rewrite E5. cbn [mbind option_bind]. clear E1 E2 E3 E4 E5.
  destruct side;
    cbn [eye_upper eye_lower eye_corner_inner eye_corner_outer under_eye
         tear_trough] in *;
    destruct (nonempty band);
    repeat match type of Hc with
    | (_ ≫= _) = Some _ =>
        let H := fresh "H" in
        apply bind_Some in Hc as (? & H & Hc); rewrite H;
        cbn [mbind option_bind]
    end;
    apply (inj Some) in Hc as <-;
    destruct (nonempty lower);
    repeat match type of Hrun with
    | (_ ≫= _) = Some _ =>
        let H := fresh "H" in
        apply bind_Some in Hrun as (? & H & Hrun); rewrite H;
        cbn [mbind option_bind]
    end;
    apply (inj Some) in Hrun as <-;
    (eexists; split; [reflexivity|]);
    cbn [el_upper el_lower el_corner_inner el_corner_outer el_under_eye
         el_tear_trough];
    split_and!;
    repeat first
      [ rewrite lookup_insert_eq
      | rewrite lookup_insert_ne by (apply (bool_decide_unpack _); vm_compute; exact I) ];
    done.
Qed.
End EyeLists.

(** The eye zones of the result are the lists of [eye_lists_from] on
    the eye skin: the later stages leave them alone. *)
Lemma eye_zone_lists v fm r side :
  subdivide_flame_masks_to_clinical_zones v fm = Some r →
  region v fm (eye_region_key side) ≠ [] →
  ∃ zs,
    eye_lists_from (vx <$> v) (vy <$> v) side
      (region v fm (eye_region_key side)) (eye_skin_spec v fm side)
      = Some zs ∧
    r !! eye_upper side = Some (el_upper zs) ∧
    r !! eye_lower side = Some (el_lower zs) ∧
    r !! eye_corner_inner side = Some (el_corner_inner zs) ∧
    r !! eye_corner_outer side = Some (el_corner_outer zs) ∧
    r !! under_eye side = Some (el_under_eye zs) ∧
    r !! tear_trough side = Some (el_tear_trough zs).
Proof.
  intros H Hne. apply subdivide_inv in H
    as (_ & nose_med_y & midline_x & r7 & s & Hr7 & -> & _).
  destruct Hr7
    as (r1 & r2 & r3 & r4 & r5 & r6 & H1 & H2 & H3 & H4 & H5 & H6 & H7).
  pose proof (λ k, frame_after_eyes _ _ _ _ _ _ _ _ _ _ _ _ _ _ _ _
                     (sorted (elements s)) k H4 H5 H6 H7) as Hframe.
  apply forehead_stage_writes in H1.
  2:{ intros k Hk. rewrite init_regions_lookup.
      rewrite bool_decide_eq_true_2; [done|]. revert k Hk. solve_names. }
  assert (nonempty (region v fm (eye_region_key side)) = true) as Hne'
    by (by destruct (region v fm (eye_region_key side))).
  assert (∀ k, k ∈ ALL_CLINICAL_ZONES → k ∉ forehead_keys →
               r1 !! k = Some []) as Hr1.
  { intros k Hk Hno. rewrite (writes_zone_from_frame _ _ _ _ _ H1 Hno).
    rewrite init_regions_lookup. by rewrite bool_decide_eq_true_2. }
  rewrite <-eye_skin_eq.
  destruct side.
  - (* left: then the right turn leaves the left zones alone *)
    apply (eye_turn_lists _ _ _ _ LeftEye) in H2;
      [|done|apply Hr1; solve_name..].
    destruct H2 as (zs & Hzs & Hz).
    apply eye_turn_writes in H3.
    exists zs. split; [done|].
    cbn [eye_upper eye_lower eye_corner_inner eye_corner_outer under_eye
         tear_trough] in *.
    rewrite !Hframe by solve_name.
    by rewrite !(writes_zone_from_frame _ _ _ _ _ H3) by solve_name.
  - (* right: the left turn comes first *)
    apply eye_turn_writes in H2.
    apply (eye_turn_lists _ _ _ _ RightEye) in H3.
    2:{ done. }
    2,3,4: cbn [eye_corner_inner eye_corner_outer tear_trough];
      rewrite (writes_zone_from_frame _ _ _ _ _ H2) by solve_name;
      apply Hr1; solve_name.
    destruct H3 as (zs & Hzs & Hz).
    exists zs. split; [done|].
    cbn [eye_upper eye_lower eye_corner_inner eye_corner_outer under_eye
         tear_trough] in *.
    by rewrite !Hframe by solve_name.
Qed.

(** A mesh whose left eye region is covered by the eyeball, with its
    zone map: the removal leaves nothing and the eye zones are those of
    the whole eye region. *)
Definition fallback_mesh : list vertex :=
  [ Vertex 0 0 1; Vertex 1 2 1; Vertex 2 2 1; Vertex 3 2 1; Vertex 4 4 1 ]%Q.

Definition fallback_masks : gmap string mask_val :=
  {[ "left_eye_region" := MaskBool [true; true; true; true; true];
     "left_eyeball" := MaskInt [0; 1; 2; 3; 4; 4] ]}.

Definition fallback_zones : zones :=
  Eval vm_compute in
    default ∅ (subdivide_flame_masks_to_clinical_zones fallback_mesh
                 fallback_masks).

Lemma fallback_run :
  subdivide_flame_masks_to_clinical_zones fallback_mesh fallback_masks =
    Some fallback_zones.
Proof. vm_cast_no_check (eq_refl (Some fallback_zones)). Qed.

Example fallback_zones_eye :
  eye_without_ball fallback_mesh fallback_masks LeftEye = [] ∧
  fallback_zones !! "eye_left_upper" = Some [4] ∧
  fallback_zones !! "eye_left_lower" = Some [0; 1; 2; 3] ∧
  fallback_zones !! "eye_left_corner_inner" = Some [1] ∧
  fallback_zones !! "eye_left_corner_outer" = Some [3] ∧
  fallback_zones !! "under_eye_left" = Some [0; 1; 2; 3] ∧
  fallback_zones !! "tear_trough_left" = Some [0; 1].
Proof. split_and!; vm_compute; reflexivity. Qed.

(** C5.  For each side with a non-empty eye region, every eye zone of
    the result is computed from the eye skin: the eye region without the
    eyeball indices, or the whole eye region (eyeball vertices included)
    exactly when nothing is left.  The upper and the lower zone split
    the eye skin between them, the under-eye zone is the lower zone, and
    the six zones are the lists that [eye_lists_from] computes from the
    eye skin: the corners from the band of the eye skin around the
    median height of the eye region, the tear trough from the lower
    part of the eye skin. *)
Theorem eye_fallback v fm r side :
  subdivide_flame_masks_to_clinical_zones v fm = Some r →
  region v fm (eye_region_key side) ≠ [] →
  ∃ skin upper lower zs,
    (eye_without_ball v fm side = [] →
     skin = region v fm (eye_region_key side)) ∧
    (eye_without_ball v fm side ≠ [] →
     skin = eye_without_ball v fm side) ∧
    upper ++ lower ≡ₚ skin ∧
    r !! eye_upper side = Some (sorted upper) ∧
    r !! eye_lower side = Some (sorted lower) ∧
    r !! under_eye side = Some (sorted lower) ∧
    (∀ k l, k ∈ [eye_corner_inner side; eye_corner_outer side;
                 tear_trough side] →
            r !! k = Some l → l ⊆ skin) ∧
    eye_lists_from (vx <$> v) (vy <$> v) side
      (region v fm (eye_region_key side)) skin = Some zs ∧
    r !! eye_upper side = Some (el_upper zs) ∧
    r !! eye_lower side = Some (el_lower zs) ∧
    r !! eye_corner_inner side = Some (el_corner_inner zs) ∧
    r !! eye_corner_outer side = Some (el_corner_outer zs) ∧
    r !! under_eye side = Some (el_under_eye zs) ∧
    r !! tear_trough side = Some (el_tear_trough zs).
Proof.
  intros Hrun Hne.
  destruct (eye_zones v fm r side Hrun Hne)
    as (upper & lower & Hperm & Hu & Hl & Hue & Hrest).
  destruct (eye_zone_lists v fm r side Hrun Hne) as (zs & Hzs & Hz).
  exists (eye_skin_spec v fm side), upper, lower, zs.
  split_and!; [| |done..|apply Hz|apply Hz|apply Hz|apply Hz|apply Hz|apply Hz].
  - unfold eye_skin_spec. by intros ->.
  - unfold eye_skin_spec. by destruct (eye_without_ball v fm side).
Qed.

Lemma eye_fallback_witness :
  ∃ skin upper lower zs,
    (eye_without_ball fallback_mesh fallback_masks LeftEye = [] →
     skin = region fallback_mesh fallback_masks "left_eye_region") ∧
    (eye_without_ball fallback_mesh fallback_masks LeftEye ≠ [] →
     skin = eye_without_ball fallback_mesh fallback_masks LeftEye) ∧
    upper ++ lower ≡ₚ skin ∧
    fallback_zones !! "eye_left_upper" = Some (sorted upper) ∧
    fallback_zones !! "eye_left_lower" = Some (sorted lower) ∧
    fallback_zones !! "under_eye_left" = Some (sorted lower) ∧
    (∀ k l, k ∈ ["eye_left_corner_inner"; "eye_left_corner_outer";
                 "tear_trough_left"] →
            fallback_zones !! k = Some l → l ⊆ skin) ∧
    eye_lists_from (vx <$> fallback_mesh) (vy <$> fallback_mesh) LeftEye
      (region fallback_mesh fallback_masks "left_eye_region") skin
      = Some zs ∧
    fallback_zones !! "eye_left_upper" = Some (el_upper zs) ∧
    fallback_zones !! "eye_left_lower" = Some (el_lower zs) ∧
    fallback_zones !! "eye_left_corner_inner" = Some (el_corner_inner zs) ∧
    fallback_zones !! "eye_left_corner_outer" = Some (el_corner_outer zs) ∧
    fallback_zones !! "under_eye_left" = Some (el_under_eye zs) ∧
    fallback_zones !! "tear_trough_left" = Some (el_tear_trough zs).
Proof.
  apply (eye_fallback fallback_mesh fallback_masks fallback_zones LeftEye).
  - exact fallback_run.
  - by vm_compute.
Defined.

(** ** C6: no exception on degraded inputs *)

(** C6.  On a mesh with at least one vertex and a mask dictionary whose
    regions can be used as indices where supplied (boolean masks no
    longer than the mesh, integers in [-N, N)), the subdivider returns a
    zone map.
    An absent region is read as the empty index array, and a zone whose
    index arrays are all empty is empty; when every region is absent or
    empty, every zone is. *)
Theorem subdivide_total v fm :
  v ≠ [] →
  indexable_masks v fm →
  ∃ r, subdivide_flame_masks_to_clinical_zones v fm = Some r ∧
       (∀ key, fm !! key = None → region v fm key = []) ∧
       (∀ k l, k ≠ "full_face" → r !! k = Some l →
          (∀ keys src, (keys, src) ∈ run_sources v fm → k ∈ keys →
                       src = []) →
          l = []) ∧
       ((∀ key, region v fm key = []) → r = init_regions).
Proof.
  intros Hv Hok. destruct (subdivide_is_Some v fm Hv Hok) as [r Hrun].
  exists r. split_and!; [done| | |].
  - intros key Hkey. by rewrite region_lookup, Hkey.
  - intros k l Hk Hl Hsrc.
    apply subdivide_inv in Hrun
      as (_ & nose_med_y & midline_x & r7 & s & Hr7 & -> & _).
    rewrite lookup_insert_ne in Hl by done.
    destruct (run_before_lookup _ _ _ _ _ _ _ Hr7 Hl)
      as [->|(keys & src & Hin & Hz)]; [done|].
    pose proof (zone_from_subseteq _ _ _ _ Hz) as Hsub.
    destruct Hz as [Hkeys _]. rewrite (Hsrc _ _ Hin Hkeys) in Hsub.
    destruct l as [|i l]; [done|].
    exfalso. eapply not_elem_of_nil, Hsub. by left.
  - intros Hempty. rewrite (subdivide_all_empty v fm Hv Hempty) in Hrun.
    by simplify_eq.
Qed.

Lemma subdivide_total_witness :
  ∃ r, subdivide_flame_masks_to_clinical_zones demo_mesh demo_masks = Some r ∧
       (∀ key, demo_masks !! key = None →
               region demo_mesh demo_masks key = []) ∧
       (∀ k l, k ≠ "full_face" → r !! k = Some l →
          (∀ keys src, (keys, src) ∈ run_sources demo_mesh demo_masks →
                       k ∈ keys → src = []) →
          l = []) ∧
       ((∀ key, region demo_mesh demo_masks key = []) → r = init_regions).
Proof.
  apply (subdivide_total demo_mesh demo_masks).
  - by vm_compute.
  - apply (bool_decide_unpack _). vm_compute. exact I.
Defined.

(** ** C7: a range of zero *)

(** C7.  [_compute_vertex_stats] divides by 1 when a range is zero, and
    its normalized coordinates are then zero.  [_position_only_regions]
    has no such fallback: on a single-vertex mesh it divides zero by
    zero, both normalized coordinates of the vertex are nan, and the
    vertex is put into no zone, the neck included, where a normalized
    [y] of zero would have put it.  Nothing is raised. *)
Theorem degenerate_range :
  (∀ v st,
     _compute_vertex_stats v = Some st →
     (¬ (0 < st_y_range st)%Q → Forall (λ q, q == 0)%Q (st_yn st)) ∧
     (¬ (0 < st_x_range st)%Q → Forall (λ q, q == 0)%Q (st_xn st))) ∧
  (∀ p,
     (∃ b, bounding_box [p] = Some b ∧
           norm_y b p = NaN ∧ norm_x b p = NaN) ∧
     _position_only_regions [p] = Some init_regions ∧
     init_regions !! "neck" = Some [] ∧
     ∀ xn r, classify_vertex (Fin 0) xn 0 false init_regions = Some r →
             r !! "neck" = Some [0]).
Proof.
  split; [apply _compute_vertex_stats_degenerate|].
  intros p. split_and!.
  - destruct (single_vertex_box p) as (b & Hb & Hy & Hx & _). by exists b.
  - apply single_vertex_unclassified.
  - vm_compute. reflexivity.
  - intros xn r Hr. rewrite classify_vertex_unfold in Hr.
    change (fltq (Fin 0) 0.10) with true in Hr. cbv iota in Hr.
    unfold zone_append in Hr.
    change (init_regions !! "neck") with (Some ([] : list Z)) in Hr.
    cbn [mbind option_bind] in Hr. simplify_eq.
    by rewrite lookup_insert_eq.
Qed.

(** ** C8: determinism *)

(** C8.  Two runs of the subdivider on the same vertex array and the
    same mask dictionary return the same result, whatever the order in
    which each run iterates over its sets. *)
Theorem subdivide_deterministic set_order1 set_order2 v fm :
  (∀ s, set_order1 s ≡ₚ elements s) →
  (∀ s, set_order2 s ≡ₚ elements s) →
  subdivide_with set_order1 v fm = subdivide_with set_order2 v fm.
Proof.
  intros H1 H2.
  by rewrite (subdivide_with_order set_order1), (subdivide_with_order set_order2).
Qed.

Lemma subdivide_deterministic_witness :
  subdivide_with elements demo_mesh demo_masks =
  subdivide_with (λ s, reverse (elements s)) demo_mesh demo_masks.
Proof.
  apply (subdivide_deterministic elements (λ s, reverse (elements s))).
  - intros s. reflexivity.
  - intros s. apply reverse_Permutation.
Defined.

(** ** C9: the front-facing gate *)

(** C9.  In the position-only classifier a vertex whose [z] is at or
    below the z-midpoint of the bounding box is in no zone but possibly
    [neck]; and a vertex is in [neck] exactly when its normalized [y] is
    below [0.10], whatever its [z]. *)
Theorem back_of_head_only_neck v r :
  _position_only_regions v = Some r →
  ∃ b neck,
    bounding_box v = Some b ∧
    r !! "neck" = Some neck ∧
    ∀ i vert, vertex_at v i = Some vert →
      ((vz vert <= bx_z_mid b)%Q →
       ∀ k l, k ≠ "neck" → r !! k = Some l → i ∉ l) ∧
      (i ∈ neck ↔ fltq (norm_y b vert) 0.10 = true).
Proof.
  intros Hrun. apply _position_only_regions_inv in Hrun as (b & Hb & Hinv).
  destruct (zone_names_lookup r "neck" (inv_dom _ _ _ _ Hinv)) as [neck Hneck];
    [solve_name|].
  exists b, neck. split_and!; [done..|]. intros i vert Hvert. split.
  - intros Hz k l Hk Hl Hi.
    destruct (inv_face _ _ _ _ Hinv _ _ _ Hl Hi Hk)
      as [(vert' & Hvert' & Hfront & _) _].
    rewrite Hvert in Hvert'. simplify_eq.
    rewrite (front_false b vert' Hz) in Hfront. discriminate Hfront.
  - rewrite (inv_neck _ _ _ _ Hinv _ i Hneck). split.
    + intros [_ (vert' & Hvert' & Hy)]. by simplify_eq.
    + intros Hy. split; [|by exists vert].
      unfold vertex_at in Hvert. destruct (0 <=? i) eqn:Hi; [|done].
      apply Z.leb_le in Hi. apply lookup_lt_Some in Hvert. lia.
Qed.

Lemma back_of_head_only_neck_witness :
  ∃ b neck,
    bounding_box demo_mesh = Some b ∧
    demo_position_zones !! "neck" = Some neck ∧
    ∀ i vert, vertex_at demo_mesh i = Some vert →
      ((vz vert <= bx_z_mid b)%Q →
       ∀ k l, k ≠ "neck" → demo_position_zones !! k = Some l → i ∉ l) ∧
      (i ∈ neck ↔ fltq (norm_y b vert) 0.10 = true).
Proof.
  apply (back_of_head_only_neck demo_mesh demo_position_zones).
  exact demo_position_run.
Defined.

(** ** C10: regions supplied as index lists *)

(** An index list with one entry per vertex and no entry above 1 is
    taken for a 0/1 mask: on a mesh of two vertices the index list
    [0; 1] gives the neck zone [1]. *)
Definition two_vertex_mesh : list vertex :=
  [Vertex 0 0 0; Vertex 1 1 1].

Definition whole_neck : gmap string mask_val :=
  {[ "neck" := MaskInt [0; 1] ]}.

Definition whole_neck_zones : zones :=
  Eval vm_compute in
    default ∅ (subdivide_flame_masks_to_clinical_zones
                 two_vertex_mesh whole_neck).

Lemma whole_neck_run :
  subdivide_flame_masks_to_clinical_zones two_vertex_mesh whole_neck =
    Some whole_neck_zones.
Proof. vm_cast_no_check (eq_refl (Some whole_neck_zones)). Qed.

Lemma index_list_counterexample :
  ¬ (∀ v fm r a,
       subdivide_flame_masks_to_clinical_zones v fm = Some r →
       fm !! "neck" = Some (MaskInt a) →
       in_range (length v) a →
       region v fm "neck" = a ∧ r !! "neck" = Some (sorted a)).
Proof.
  intros Hclaim.
  destruct (Hclaim two_vertex_mesh whole_neck whole_neck_zones [0; 1]
              whole_neck_run) as [Habs _].
  - vm_compute. reflexivity.
  - apply (bool_decide_unpack _). vm_compute. exact I.
  - by vm_compute in Habs.
Qed.

(** C10 (amended).  A region supplied as an index list that is not taken
    for a 0/1 mask (its length differs from the number of vertices, or
    one of its entries exceeds 1) is read as exactly that list; and the
    [neck], [ear_left] and [ear_right] zones are the sorted index lists
    supplied as [neck], [left_ear] and [right_ear]. *)
Theorem index_list_regions v fm r :
  subdivide_flame_masks_to_clinical_zones v fm = Some r →
  (∀ key a, fm !! key = Some (MaskInt a) →
            ¬ taken_for_mask (length v) a →
            region v fm key = a) ∧
  (∀ a, fm !! "neck" = Some (MaskInt a) →
        ¬ taken_for_mask (length v) a → r !! "neck" = Some (sorted a)) ∧
  (∀ a, fm !! "left_ear" = Some (MaskInt a) →
        ¬ taken_for_mask (length v) a → r !! "ear_left" = Some (sorted a)) ∧
  (∀ a, fm !! "right_ear" = Some (MaskInt a) →
        ¬ taken_for_mask (length v) a → r !! "ear_right" = Some (sorted a)).
Proof.
  intros Hrun.
  assert (∀ key a, fm !! key = Some (MaskInt a) →
                   ¬ taken_for_mask (length v) a →
                   region v fm key = a) as Hregion.
  { intros key a Hkey Hno. rewrite region_lookup, Hkey.
    by apply index_list_kept. }
  destruct (pass_through v fm r Hrun) as (Hneck & Hleft & Hright).
  split_and!; [done|..]; intros a Hkey Hno.
  - by rewrite Hneck, (Hregion _ _ Hkey Hno).
  - by rewrite Hleft, (Hregion _ _ Hkey Hno).
  - by rewrite Hright, (Hregion _ _ Hkey Hno).
Qed.

Lemma index_list_regions_witness :
  (∀ key a, demo_masks !! key = Some (MaskInt a) →
            ¬ taken_for_mask (length demo_mesh) a →
            region demo_mesh demo_masks key = a) ∧
  (∀ a, demo_masks !! "neck" = Some (MaskInt a) →
        ¬ taken_for_mask (length demo_mesh) a →
        demo_zones !! "neck" = Some (sorted a)) ∧
  (∀ a, demo_masks !! "left_ear" = Some (MaskInt a) →
        ¬ taken_for_mask (length demo_mesh) a →
        demo_zones !! "ear_left" = Some (sorted a)) ∧
  (∀ a, demo_masks !! "right_ear" = Some (MaskInt a) →
        ¬ taken_for_mask (length demo_mesh) a →
        demo_zones !! "ear_right" = Some (sorted a)).
Proof.
  apply (index_list_regions demo_mesh demo_masks demo_zones).
  exact demo_run.
Defined.

Example demo_zones_ear_left : demo_zones !! "ear_left" = Some [0; 4].
Proof. vm_compute. reflexivity. Qed.

(** * Further properties of the code: lemmas *)

(** ** Errors of the two components *)

Lemma np_take_indexable a idx xs :
  np_take a idx = Some xs → indexable (length a) idx.
Proof.
  unfold np_take. revert xs. induction idx as [|i idx IH]; intros xs H.
  { constructor. }
  cbn [mapM] in H. apply bind_Some in H as (q & Hq & H).
  apply bind_Some in H as (qs & Hqs & H). constructor; [|by eapply IH].
  unfold np_index in Hq.
  destruct ((0 <=? i) && (i <? Z.of_nat (length a))) eqn:H1.
  { apply andb_true_iff in H1 as [?%Z.leb_le ?%Z.ltb_lt]. lia. }
  destruct ((- Z.of_nat (length a) <=? i) && (i <? 0)) eqn:H2; [|done].
  apply andb_true_iff in H2 as [?%Z.leb_le ?%Z.ltb_lt]. lia.
Qed.

Lemma np_index_None a i :
  ¬ (- Z.of_nat (length a) ≤ i < Z.of_nat (length a)) → np_index a i = None.
Proof.
  intros Hi. destruct (np_index a i) as [q|] eqn:Hq; [|done].
  exfalso. apply Hi.
  assert (np_take a [i] = Some [q]) as Ht.
  { unfold np_take. cbn [mapM]. rewrite Hq. reflexivity. }
  apply np_take_indexable in Ht. by apply Forall_inv in Ht.
Qed.

Lemma _median_y_indexable y idx m :
  _median_y y idx = Some m → indexable (length y) idx.
Proof.
  unfold _median_y. destruct idx as [|i idx]; [constructor|].
  cbn [nonempty negb]. intros H. apply bind_Some in H as (ys & Hys & _).
  by eapply np_take_indexable.
Qed.

Lemma forehead_stage_indexable x y forehead_idx midline_x r r' :
  forehead_stage x y forehead_idx midline_x r = Some r' →
  indexable (length y) forehead_idx.
Proof.
  unfold forehead_stage. destruct (nonempty forehead_idx) eqn:Hne.
  - intros H. apply bind_Some in H as (m & Hm & _).
    by eapply _median_y_indexable.
  - intros _. apply nonempty_false in Hne as ->. constructor.
Qed.

Lemma eye_turn_indexable x y lb rb side eye_idx pu pl ci co ue tt r r' :
  eye_turn x y lb rb side eye_idx pu pl ci co ue tt r = Some r' →
  indexable (length y) eye_idx.
Proof.
  unfold eye_turn. destruct (nonempty eye_idx) eqn:Hne; cbn [negb].
  - intros H. apply bind_Some in H as (m & Hm & _).
    by eapply _median_y_indexable.
  - intros _. apply nonempty_false in Hne as ->. constructor.
Qed.

Lemma face_stage_indexable x y nose_idx lips_idx face_remainder midline_x r r' :
  face_stage x y nose_idx lips_idx face_remainder midline_x r = Some r' →
  indexable (length y) face_remainder.
Proof.
  unfold face_stage. destruct (nonempty face_remainder) eqn:Hne.
  - intros H. apply bind_Some in H as (fr_y & Hy & _).
    by eapply np_take_indexable.
  - intros _. apply nonempty_false in Hne as ->. constructor.
Qed.

(** The regions whose index arrays are read on every run. *)
Definition always_indexed_keys : list string :=
  ["nose"; "lips"; "forehead"; "left_eye_region"; "right_eye_region"].

Lemma _position_only_regions_None v :
  _position_only_regions v = None ↔ v = [].
Proof.
  split.
  - intros Hnone. destruct v as [|p v]; [done|].
    destruct (_position_only_regions_is_Some (p :: v)) as [r Hr]; [done|].
    congruence.
  - intros ->. reflexivity.
Qed.

(** ** The subdivider reads twelve regions *)

(** The keys of the mask dictionary the subdivider reads. *)
Definition recognised_keys : list string :=
  ["nose"; "lips"; "forehead"; "left_eye_region"; "right_eye_region";
   "face"; "neck"; "left_ear"; "right_ear"; "scalp";
   "left_eyeball"; "right_eyeball"].

(** [specific_regions]: the indices of the specific sub-regions. *)
Definition specific_set (v : list vertex) (fm : gmap string mask_val)
  : gset Z :=
  foldl (λ s key, s ∪ list_to_set (region v fm key)) ∅ specific_keys.

Lemma specific_fold v fm keys (s : gset Z) :
  foldl (λ s key, match index_arrays v fm !! key with
                  | Some a => s ∪ list_to_set a
                  | None => s
                  end) s keys =
  foldl (λ s key, s ∪ list_to_set (region v fm key)) s keys.
Proof.
  revert s. induction keys as [|key keys IH]; intros s; [done|].
  cbn [foldl]. rewrite IH. f_equal. unfold region, fm_get.
  destruct (index_arrays v fm !! key); [done|].
  cbn [default list_to_set]. by rewrite (right_id_L ∅ (∪)).
Qed.

Lemma face_rest_specific_set set_order v fm :
  face_rest set_order v fm =
    if nonempty (region v fm "face")
    then sorted (set_order (list_to_set (region v fm "face")
                            ∖ specific_set v fm))
    else [].
Proof.
  unfold face_rest, specific_set. cbv zeta. by rewrite specific_fold.
Qed.

Lemma elem_of_specific_fold v fm keys (s : gset Z) i :
  i ∈ foldl (λ s key, s ∪ list_to_set (region v fm key)) s keys ↔
  i ∈ s ∨ ∃ key, key ∈ keys ∧ i ∈ region v fm key.
Proof.
  revert s. induction keys as [|key keys IH]; intros s; cbn [foldl].
  - split; [by left|]. intros [?|(key & Hkey & _)]; [done|].
    by apply elem_of_nil in Hkey.
  - rewrite IH, elem_of_union, elem_of_list_to_set. split.
    + intros [[?|?]|(key' & ? & ?)]; [by left|right..].
      * exists key. split; [by left|done].
      * exists key'. split; [by right|done].
    + intros [?|(key' & Hkey' & ?)]; [by left; left|].
      apply elem_of_cons in Hkey' as [->|?]; [by left; right|].
      right. by exists key'.
Qed.

Lemma elem_of_specific_set v fm i :
  i ∈ specific_set v fm ↔ ∃ key, key ∈ specific_keys ∧ i ∈ region v fm key.
Proof.
  unfold specific_set. rewrite elem_of_specific_fold, elem_of_empty. tauto.
Qed.

Lemma specific_set_ext v fm fm' :
  (∀ key, key ∈ recognised_keys → region v fm key = region v fm' key) →
  specific_set v fm = specific_set v fm'.
Proof.
  intros Hreg. apply set_eq. intros i. rewrite !elem_of_specific_set.
  assert (∀ key, key ∈ specific_keys → key ∈ recognised_keys) as Hsub
    by solve_names.
  split; intros (key & Hkey & Hi); exists key; (split; [done|]).
  - by rewrite <-Hreg by auto.
  - by rewrite Hreg by auto.
Qed.

Lemma face_rest_ext set_order v fm fm' :
  (∀ key, key ∈ recognised_keys → region v fm key = region v fm' key) →
  face_rest set_order v fm = face_rest set_order v fm'.
Proof.
  intros Hreg. rewrite !face_rest_specific_set.
  rewrite (specific_set_ext v fm fm' Hreg).
  by rewrite (Hreg "face") by solve_name.
Qed.

Lemma subdivide_with_ext_Some set_order v fm fm' r :
  (∀ key, key ∈ recognised_keys → region v fm key = region v fm' key) →
  subdivide_with set_order v fm = Some r →
  subdivide_with set_order v fm' = Some r.
Proof.
  intros Hreg H. apply subdivide_with_Some.
  apply subdivide_with_Some in H as (Hv & a & b & c & d & H).
  split; [done|]. exists a, b, c, d.
  rewrite <-(face_rest_ext set_order v fm fm' Hreg).
  by rewrite <-!Hreg by solve_name.
Qed.

(** Two mask dictionaries that give the same index arrays for the
    twelve regions give the same result. *)
Lemma subdivide_with_ext set_order v fm fm' :
  (∀ key, key ∈ recognised_keys → region v fm key = region v fm' key) →
  subdivide_with set_order v fm = subdivide_with set_order v fm'.
Proof.
  intros Hreg.
  destruct (subdivide_with set_order v fm) as [r|] eqn:H.
  - symmetry. by eapply subdivide_with_ext_Some.
  - destruct (subdivide_with set_order v fm') as [r|] eqn:H'; [|done].
    apply (subdivide_with_ext_Some _ _ _ fm) in H'; [congruence|].
    intros key Hkey. symmetry. by apply Hreg.
Qed.

Lemma region_insert v fm k mv key :
  region v (<[k := mv]> fm) key =
    if decide (k = key) then _mask_to_indices (length v) mv
    else region v fm key.
Proof.
  rewrite !region_lookup. case_decide as Hk.
  - subst. by rewrite lookup_insert_eq.
  - by rewrite lookup_insert_ne.
Qed.

Lemma region_delete v fm k key :
  region v (delete k fm) key =
    if decide (k = key) then [] else region v fm key.
Proof.
  rewrite !region_lookup. case_decide as Hk.
  - subst. by rewrite lookup_delete_eq.
  - by rewrite lookup_delete_ne.
Qed.

(** ** Where the indices of a zone come from *)

(** The zones of the subdivider with the regions their indices are
    selected from: the temples come from the forehead or from the
    scalp, every other zone from one region. *)
Definition zone_regions : list (list string * list string) :=
  [ (["forehead"; "forehead_left"; "forehead_right"; "forehead_center";
      "brow_left"; "brow_right"; "brow_inner_left"; "brow_inner_right"],
     ["forehead"]);
    (["temple_left"; "temple_right"], ["forehead"; "scalp"]);
    (eye_left_keys, ["left_eye_region"]);
    (eye_right_keys, ["right_eye_region"]);
    (nose_keys, ["nose"]);
    (lips_keys, ["lips"]);
    (face_keys, ["face"]);
    (["ear_left"], ["left_ear"]);
    (["ear_right"], ["right_ear"]);
    (["neck"], ["neck"]) ].

(** The regions of one zone, by [zone_regions]. *)
Definition zone_home (k : string) : list string :=
  match list_find (λ row, k ∈ row.1) zone_regions with
  | Some (_, row) => row.2
  | None => []
  end.

Lemma zone_regions_home keys regs k :
  (keys, regs) ∈ zone_regions → k ∈ keys → zone_home k = regs.
Proof.
  unfold zone_regions. intros Hin Hk.
  repeat (apply elem_of_cons in Hin as [[= -> ->]|Hin];
          [unfold eye_left_keys, eye_right_keys, nose_keys, lips_keys,
             face_keys in Hk;
           repeat (apply elem_of_cons in Hk as [->|Hk];
                   [vm_compute; reflexivity|]);
           by apply elem_of_nil in Hk|]).
  by apply elem_of_nil in Hin.
Qed.

Lemma run_sources_home v fm keys src k i :
  (keys, src) ∈ run_sources v fm → k ∈ keys → i ∈ src →
  ∃ key, key ∈ zone_home k ∧ i ∈ region v fm key.
Proof.
  unfold run_sources, stage_sources. intros Hin Hk Hi.
  repeat (apply elem_of_cons in Hin as [[= -> ->]|Hin];
          [try apply elem_of_face_rest in Hi;
           unfold forehead_keys, eye_left_keys, eye_right_keys, nose_keys,
             lips_keys, face_keys, scalp_keys in Hk;
           repeat (apply elem_of_cons in Hk as [->|Hk];
                   [eexists; split; [|exact Hi]; solve_name|]);
           by apply elem_of_nil in Hk|]).
  by apply elem_of_nil in Hin.
Qed.

Lemma zone_regions_not_full_face keys regs :
  (keys, regs) ∈ zone_regions → "full_face" ∉ keys.
Proof.
  unfold zone_regions. intros Hin.
  repeat (apply elem_of_cons in Hin as [[= -> ->]|Hin]; [solve_name|]).
  by apply elem_of_nil in Hin.
Qed.

(** Every index of a zone other than [full_face] is an index of one of
    the regions of the zone. *)
Lemma zone_within_home v fm r k l i :
  subdivide_flame_masks_to_clinical_zones v fm = Some r →
  k ≠ "full_face" → r !! k = Some l → i ∈ l →
  ∃ key, key ∈ zone_home k ∧ i ∈ region v fm key.
Proof.
  intros Hrun Hk Hl Hi. apply subdivide_inv in Hrun
    as (_ & nose_med_y & midline_x & r7 & s & Hr7 & -> & _).
  rewrite lookup_insert_ne in Hl by done.
  destruct (run_before_lookup _ _ _ _ _ _ _ Hr7 Hl)
    as [->|(keys & src & Hin & Hz)]; [by apply elem_of_nil in Hi|].
  pose proof (zone_from_subseteq _ _ _ _ Hz) as Hsub.
  destruct Hz as [Hkeys _].
  eapply run_sources_home; [done..|]. by apply Hsub.
Qed.

(** The face remainder holds no index of a specific sub-region. *)
Lemma elem_of_face_rest_iff v fm i :
  i ∈ face_rest elements v fm ↔
  i ∈ region v fm "face" ∧
  ∀ key, key ∈ specific_keys → i ∉ region v fm key.
Proof.
  rewrite face_rest_specific_set.
  destruct (region v fm "face") as [|j face] eqn:Hface; cbn [nonempty].
  - rewrite elem_of_nil. tauto.
  - rewrite elem_of_sorted, elem_of_elements, elem_of_difference.
    rewrite elem_of_list_to_set, elem_of_specific_set. split.
    + intros [? Hno]. split; [done|]. intros key Hkey Hi. apply Hno. eauto.
    + intros [? Hno]. split; [done|]. intros (key & Hkey & Hi).
      by eapply Hno.
Qed.

Lemma face_zone_in_rest v fm keys src k :
  (keys, src) ∈ run_sources v fm → k ∈ keys → k ∈ face_keys →
  src = face_rest elements v fm.
Proof.
  unfold run_sources, stage_sources. intros Hin Hk Hface.
  assert (∀ keys', (∀ k', k' ∈ face_keys → k' ∉ keys') →
                   keys = keys' → False) as Hno.
  { intros keys' Hdisj ->. by eapply Hdisj. }
  repeat (apply elem_of_cons in Hin as [[= Hkeys ->]|Hin];
          [first [ done
                 | exfalso; eapply Hno; [|exact Hkeys]; solve_names ]|]).
  by apply elem_of_nil in Hin.
Qed.

(** The regions that are added to [full_face] as they are. *)
Definition raw_face_keys : list string :=
  ["face"; "forehead"; "nose"; "lips"; "left_eye_region"; "right_eye_region"].

Lemma elem_of_run_raw_face_sets v fm i :
  (∃ a, a ∈ run_raw_face_sets v fm ∧ i ∈ a) ↔
  ∃ key, key ∈ raw_face_keys ∧ i ∈ region v fm key.
Proof.
  unfold run_raw_face_sets, raw_face_sets, raw_face_keys. split.
  - intros (a & Ha & Hi).
    repeat (apply elem_of_cons in Ha as [->|Ha];
            [eexists; split; [|exact Hi]; solve_name|]).
    by apply elem_of_nil in Ha.
  - intros (key & Hkey & Hi).
    repeat (apply elem_of_cons in Hkey as [->|Hkey];
            [eexists; split; [|exact Hi]; in_list|]).
    by apply elem_of_nil in Hkey.
Qed.

(** A zone that enters the union of [full_face] holds indices of the
    raw regions only, unless it is a temple. *)
Lemma home_in_face k key :
  k ∈ ALL_CLINICAL_ZONES → k ∉ exclude_from_full →
  key ∈ zone_home k →
  key ∈ raw_face_keys ∨ k ∈ ["temple_left"; "temple_right"].
Proof.
  unfold ALL_CLINICAL_ZONES. intros Hk Hex Hkey.
  repeat (apply elem_of_cons in Hk as [->|Hk];
          [first
             [ (exfalso; apply Hex; solve_name)
             | (right; solve_name)
             | (left; vm_compute in Hkey;
                repeat (apply elem_of_cons in Hkey as [->|Hkey];
                        [solve_name|]);
                by apply elem_of_nil in Hkey) ]|]).
  by apply elem_of_nil in Hk.
Qed.

(** ** The normalized coordinates of [_compute_vertex_stats] *)

Lemma Qgtb_true a b : Qgtb a b = true ↔ (b < a)%Q.
Proof.
  unfold Qgtb, Qltb. rewrite negb_true_iff, <-not_true_iff_false.
  rewrite Qle_bool_iff. split; [apply Qnot_le_lt|apply Qlt_not_le].
Qed.

Lemma Qltb_true a b : Qltb a b = true ↔ (a < b)%Q.
Proof. apply (Qgtb_true b a). Qed.

Lemma Qleb_true a b : Qleb a b = true ↔ (a <= b)%Q.
Proof. apply Qle_bool_iff. Qed.

Lemma Qgeb_true a b : Qgeb a b = true ↔ (b <= a)%Q.
Proof. apply Qle_bool_iff. Qed.

Lemma normalize_unit (a : list Q) lo hi :
  np_min a = Some lo → np_max a = Some hi →
  Forall (λ q, 0 <= q <= 1)%Q
    ((λ v, (v - lo) / (if Qgtb (hi - lo) 0 then hi - lo else 1))%Q <$> a).
Proof.
  intros Hlo Hhi. apply Forall_fmap, Forall_forall. intros e He. simpl.
  pose proof (np_min_le _ _ _ Hlo He) as Hle.
  pose proof (np_max_ge _ _ _ Hhi He) as Hge.
  destruct (Qgtb (hi - lo) 0) eqn:Hr.
  - apply Qgtb_true in Hr. split.
    + apply Qle_shift_div_l; [done|]. lra.
    + apply Qle_shift_div_r; [done|]. lra.
  - assert (¬ (0 < hi - lo)%Q) as Hno.
    { intros H%Qgtb_true. congruence. }
    apply Qnot_lt_le in Hno.
    assert (e == lo)%Q as ->; [apply Qle_antisym; [lra|done]|].
    split; [apply Qle_lteq; right; field|].
    apply (Qle_trans _ 0); [apply Qle_lteq; right; field|done].
Qed.

Lemma np_min_le_max (a : list Q) lo hi :
  np_min a = Some lo → np_max a = Some hi → (lo <= hi)%Q.
Proof.
  intros Hlo Hhi. destruct a as [|q a]; [done|].
  apply (Qle_trans _ q).
  - apply (np_min_le _ _ _ Hlo). by left.
  - apply (np_max_ge _ _ _ Hhi). by left.
Qed.

Lemma _compute_vertex_stats_unit v st :
  _compute_vertex_stats v = Some st →
  length (st_yn st) = length v ∧ length (st_xn st) = length v ∧
  (0 <= st_y_range st)%Q ∧ (0 <= st_x_range st)%Q ∧
  Forall (λ q, 0 <= q <= 1)%Q (st_yn st) ∧
  Forall (λ q, 0 <= q <= 1)%Q (st_xn st).
Proof.
  unfold _compute_vertex_stats. cbv zeta. intros H.
  apply bind_Some in H as (y_min & Hymin & H).
  apply bind_Some in H as (y_max & Hymax & H).
  apply bind_Some in H as (x_min & Hxmin & H).
  apply bind_Some in H as (x_max & Hxmax & H).
  apply bind_Some in H as (z_min & _ & H).
  apply bind_Some in H as (z_max & _ & H).
  simplify_eq. cbn [st_y_range st_x_range st_yn st_xn].
  pose proof (np_min_le_max _ _ _ Hymin Hymax).
  pose proof (np_min_le_max _ _ _ Hxmin Hxmax).
  split_and!; [by rewrite !length_fmap..|lra|lra| |];
    by apply normalize_unit.
Qed.

Lemma _compute_vertex_stats_None v :
  _compute_vertex_stats v = None ↔ v = [].
Proof.
  split.
  - intros Hnone. destruct v as [|p v]; [done|].
    destruct (_compute_vertex_stats_is_Some (p :: v)) as [st Hst]; [done|].
    congruence.
  - intros ->. reflexivity.
Qed.

(** ** Selections by a threshold *)

(** [g(a[i])], and false where [a[i]] would raise. *)
Definition holds_at (a : list Q) (g : Q → bool) (i : Z) : bool :=
  from_option g false (np_index a i).

Lemma np_take_cons a i idx :
  np_take a (i :: idx) =
    q ← np_index a i; qs ← np_take a idx; Some (q :: qs).
Proof. reflexivity. Qed.

Lemma np_take_nil a : np_take a [] = Some [].
Proof. reflexivity. Qed.

(** A selection by a mask computed value by value is a [filter]. *)
Lemma np_select_filter a idx xs (g : Q → bool) :
  np_take a idx = Some xs →
  np_select idx (g <$> xs) = filter (λ i, holds_at a g i) idx.
Proof.
  revert xs. induction idx as [|i idx IH]; intros xs H.
  { by destruct xs. }
  rewrite np_take_cons in H. apply bind_Some in H as (q & Hq & H).
  apply bind_Some in H as (qs & Hqs & H). simplify_eq. cbn [fmap list_fmap np_select].
  rewrite (IH qs Hqs).
  assert (holds_at a g i = g q) as Hi by (unfold holds_at; by rewrite Hq).
  destruct (g q) eqn:Hg.
  - rewrite filter_cons_True; [done|]. by apply Is_true_true_2.
  - rewrite filter_cons_False; [done|]. by apply Is_true_false_2.
Qed.

Lemma np_take_None a idx :
  np_take a idx = None ↔ ¬ indexable (length a) idx.
Proof.
  split.
  - intros Hnone Hidx. destruct (np_take_is_Some a idx Hidx) as [xs Hxs].
    congruence.
  - intros Hno. destruct (np_take a idx) as [xs|] eqn:H; [|done].
    exfalso. apply Hno. by eapply np_take_indexable.
Qed.

Lemma vnot_vgt xs t : vnot (vgt xs t) = vle xs t.
Proof.
  unfold vnot, vgt, vle. rewrite <-list_fmap_compose.
  apply list_fmap_ext. intros _ q _. simpl.
  unfold Qgtb, Qltb, Qleb. apply negb_involutive.
Qed.

Lemma vand_fmap (f g : Q → bool) xs :
  vand (f <$> xs) (g <$> xs) = (λ q, f q && g q) <$> xs.
Proof.
  unfold vand. induction xs as [|q xs IH]; [done|].
  cbn [fmap list_fmap zip_with]. by rewrite <-IH.
Qed.

Lemma filter_complement_Permutation a (g h : Q → bool) idx :
  (∀ q, h q = negb (g q)) → indexable (length a) idx →
  filter (λ i, holds_at a g i) idx ++ filter (λ i, holds_at a h i) idx
    ≡ₚ idx.
Proof.
  intros Hgh Hidx. destruct (np_take_is_Some a idx Hidx) as [xs Hxs].
  rewrite <-!(np_select_filter a idx xs) by done.
  assert (h <$> xs = vnot (g <$> xs)) as ->.
  { unfold vnot. rewrite <-list_fmap_compose. apply list_fmap_ext.
    intros _ q _. apply Hgh. }
  apply np_select_vnot_Permutation. rewrite length_fmap.
  by eapply np_take_length.
Qed.

Lemma _split_upper_lower_eq a idx t :
  _split_upper_lower a idx t = _split_lr a idx t.
Proof. reflexivity. Qed.

Lemma _filter_y_range_eq a idx lo hi :
  _filter_y_range a idx lo hi = _filter_x_range a idx lo hi.
Proof. reflexivity. Qed.

Lemma _split_lr_Some a idx t hi lo :
  _split_lr a idx t = Some (hi, lo) →
  hi = filter (λ i, holds_at a (λ q, Qgtb q t) i) idx ∧
  lo = filter (λ i, holds_at a (λ q, Qleb q t) i) idx ∧
  hi ++ lo ≡ₚ idx.
Proof.
  unfold _split_lr. destruct idx as [|i idx]; cbn [nonempty negb].
  { intros [= <- <-]. done. }
  intros H. apply bind_Some in H as (vs & Hvs & H). simplify_eq.
  rewrite vnot_vgt. unfold vgt, vle.
  rewrite !(np_select_filter a (i :: idx) vs) by done.
  split_and!; [done..|].
  apply filter_complement_Permutation.
  - intros q. unfold Qgtb, Qltb, Qleb. by rewrite negb_involutive.
  - by eapply np_take_indexable.
Qed.

Lemma _split_lr_None a idx t :
  _split_lr a idx t = None ↔ ¬ indexable (length a) idx.
Proof.
  unfold _split_lr. destruct idx as [|i idx]; cbn [nonempty negb].
  { split; [done|]. intros H. exfalso. apply H. constructor. }
  rewrite <-np_take_None. destruct (np_take a (i :: idx)); simpl; done.
Qed.

(** [lo <= q <= hi]. *)
Definition in_closed_range (lo hi : Q) (q : Q) : bool :=
  Qgeb q lo && Qleb q hi.

Lemma _filter_x_range_Some a idx lo hi l :
  _filter_x_range a idx lo hi = Some l →
  l = filter (λ i, holds_at a (in_closed_range lo hi) i) idx.
Proof.
  unfold _filter_x_range. destruct idx as [|i idx]; cbn [nonempty negb].
  { by intros [= <-]. }
  intros H. apply bind_Some in H as (vs & Hvs & H).
  rewrite Hvs in H. cbn [mbind option_bind] in H. simplify_eq.
  unfold vge, vle. rewrite vand_fmap.
  by rewrite (np_select_filter a (i :: idx) vs).
Qed.

Lemma _filter_x_range_None a idx lo hi :
  _filter_x_range a idx lo hi = None ↔ ¬ indexable (length a) idx.
Proof.
  unfold _filter_x_range. destruct idx as [|i idx]; cbn [nonempty negb].
  { split; [done|]. intros H. exfalso. apply H. constructor. }
  rewrite <-np_take_None. destruct (np_take a (i :: idx)); simpl; done.
Qed.

Lemma in_closed_range_empty lo hi q :
  (hi < lo)%Q → in_closed_range lo hi q = false.
Proof.
  intros Hlt. unfold in_closed_range.
  destruct (Qgeb q lo) eqn:H1; [|done]. destruct (Qleb q hi) eqn:H2; [|done].
  apply Qgeb_true in H1. apply Qleb_true in H2. lra.
Qed.

(** ** Medians and percentiles *)

#[local] Instance Qle_transitive : Transitive Qle := Qle_trans.

#[local] Instance Qle_total : Total Qle.
Proof.
  intros a b. destruct (Qlt_le_dec a b); [left|by right].
  by apply Qlt_le_weak.
Qed.

Lemma sorted_Qle (a : list Q) : StronglySorted Qle (merge_sort Qle a).
Proof. apply StronglySorted_merge_sort; apply _. Qed.

Lemma length_merge_sort_Qle (a : list Q) :
  length (merge_sort Qle a) = length a.
Proof. apply Permutation_length, merge_sort_Permutation. Qed.

Lemma nth_elem_of (s : list Q) i : (i < length s)%nat → nth i s 0%Q ∈ s.
Proof. intros Hi. apply list_elem_of_In. by apply nth_In. Qed.

Lemma sorted_nth_le (s : list Q) i j :
  StronglySorted Qle s → (i ≤ j)%nat → (j < length s)%nat →
  (nth i s 0 <= nth j s 0)%Q.
Proof.
  intros Hs. revert i j. induction Hs as [|q s Hs IH Hq]; intros i j Hij Hj.
  { simpl in Hj. lia. }
  destruct i as [|i], j as [|j]; simpl in *; [apply Qle_refl| |lia|].
  - rewrite Forall_forall in Hq. apply Hq, nth_elem_of. lia.
  - apply IH; lia.
Qed.

(** The linear interpolation of [np.percentile] at the position [pos]
    of a sorted array of [n] values. *)
Definition interpolate (s : list Q) (n : Z) (pos : Q) : Q :=
  let j := Qfloor pos in
  let g := (pos - inject_Z j)%Q in
  let lo := nth (Z.to_nat j) s 0%Q in
  let hi := nth (Z.to_nat (Z.min (j + 1) (n - 1))) s 0%Q in
  (lo + g * (hi - lo))%Q.

Lemma np_percentile_interpolate a pct :
  np_percentile a pct =
    interpolate (merge_sort Qle a) (Z.of_nat (length a))
      ((pct # 100) * inject_Z (Z.of_nat (length a) - 1))%Q.
Proof. reflexivity. Qed.

Section Interpolate.
Context (s : list Q) (n : Z).
Context (Hs : StronglySorted Qle s) (Hn : n = Z.of_nat (length s)).

Lemma Qfloor_range pos :
  (0 <= pos)%Q → (pos <= inject_Z (n - 1))%Q →
  0 ≤ Qfloor pos ≤ n - 1.
Proof.
  intros H0 H1. split.
  - change 0 with (Qfloor 0). by apply Qfloor_resp_le.
  - rewrite <-(Qfloor_Z (n - 1)). by apply Qfloor_resp_le.
Qed.

Lemma Qfloor_frac pos :
  (0 <= pos - inject_Z (Qfloor pos))%Q ∧
  (pos - inject_Z (Qfloor pos) <= 1)%Q.
Proof.
  pose proof (Qfloor_le pos). pose proof (Qlt_floor pos) as Hlt.
  rewrite inject_Z_plus in Hlt. change (inject_Z 1) with 1%Q in Hlt.
  split; lra.
Qed.

Lemma interpolate_bounds pos :
  (0 <= pos)%Q → (pos <= inject_Z (n - 1))%Q →
  (nth (Z.to_nat (Qfloor pos)) s 0 <= interpolate s n pos)%Q ∧
  (interpolate s n pos <=
     nth (Z.to_nat (Z.min (Qfloor pos + 1) (n - 1))) s 0)%Q.
Proof.
  intros H0 H1. pose proof (Qfloor_range pos H0 H1) as Hj.
  destruct (Qfloor_frac pos) as [Hg0 Hg1]. unfold interpolate. cbv zeta.
  set (g := (pos - inject_Z (Qfloor pos))%Q) in *.
  assert (nth (Z.to_nat (Qfloor pos)) s 0 <=
          nth (Z.to_nat (Z.min (Qfloor pos + 1) (n - 1))) s 0)%Q as Hle.
  { apply sorted_nth_le; [done|lia|lia]. }
  set (lo := nth (Z.to_nat (Qfloor pos)) s 0%Q) in *.
  set (hi := nth (Z.to_nat (Z.min (Qfloor pos + 1) (n - 1))) s 0%Q) in *.
  split; nra.
Qed.

Lemma interpolate_mono pos1 pos2 :
  (0 <= pos1)%Q → (pos1 <= pos2)%Q → (pos2 <= inject_Z (n - 1))%Q →
  (interpolate s n pos1 <= interpolate s n pos2)%Q.
Proof.
  intros H0 H12 H2.
  assert (0 <= pos2)%Q as H02 by lra.
  assert (pos1 <= inject_Z (n - 1))%Q as H11 by lra.
  pose proof (Qfloor_range pos1 H0 H11) as Hj1.
  pose proof (Qfloor_range pos2 H02 H2) as Hj2.
  pose proof (Qfloor_resp_le _ _ H12) as Hjj.
  destruct (decide (Qfloor pos1 = Qfloor pos2)) as [Heq|Hne].
  - unfold interpolate. cbv zeta. rewrite Heq.
    destruct (Qfloor_frac pos2) as [Hg0 Hg1].
    assert (nth (Z.to_nat (Qfloor pos2)) s 0 <=
            nth (Z.to_nat (Z.min (Qfloor pos2 + 1) (n - 1))) s 0)%Q as Hle.
    { apply sorted_nth_le; [done|lia|lia]. }
    set (lo := nth (Z.to_nat (Qfloor pos2)) s 0%Q) in *.
    set (hi := nth (Z.to_nat (Z.min (Qfloor pos2 + 1) (n - 1))) s 0%Q) in *.
    nra.
  - destruct (interpolate_bounds pos1 H0 H11) as [_ Hup].
    destruct (interpolate_bounds pos2 H02 H2) as [Hlow _].
    eapply Qle_trans; [exact Hup|]. eapply Qle_trans; [|exact Hlow].
    apply sorted_nth_le; [done|lia|lia].
Qed.
End Interpolate.

(** A percentile lies between the least and the greatest value, and a
    higher percentile is not below a lower one. *)
Lemma np_percentile_mono a p q :
  a ≠ [] → 0 ≤ p → p ≤ q → q ≤ 100 →
  (np_percentile a p <= np_percentile a q)%Q.
Proof.
  intros Ha Hp Hpq Hq. rewrite !np_percentile_interpolate.
  assert (1 ≤ Z.of_nat (length a)) as Hlen by (destruct a; simpl in *; [done|lia]).
  assert (0 <= inject_Z (Z.of_nat (length a) - 1))%Q as Hn.
  { change 0%Q with (inject_Z 0). rewrite <-Zle_Qle. lia. }
  apply interpolate_mono.
  - apply sorted_Qle.
  - by rewrite length_merge_sort_Qle.
  - apply Qmult_le_0_compat; [|done]. unfold Qle. simpl. lia.
  - apply Qmult_le_compat_r; [|done]. unfold Qle. simpl. lia.
  - rewrite <-(Qmult_1_l (inject_Z _)) at 2.
    apply Qmult_le_compat_r; [|done]. unfold Qle. simpl. lia.
Qed.

Lemma np_percentile_bounds a p lo hi :
  0 ≤ p → p ≤ 100 → np_min a = Some lo → np_max a = Some hi →
  (lo <= np_percentile a p)%Q ∧ (np_percentile a p <= hi)%Q.
Proof.
  intros Hp0 Hp1 Hlo Hhi.
  assert (a ≠ []) as Ha by (by intros ->).
  assert (1 ≤ Z.of_nat (length a)) as Hlen by (destruct a; simpl in *; [done|lia]).
  assert (0 <= inject_Z (Z.of_nat (length a) - 1))%Q as Hn.
  { change 0%Q with (inject_Z 0). rewrite <-Zle_Qle. lia. }
  rewrite np_percentile_interpolate.
  set (pos := ((p # 100) * inject_Z (Z.of_nat (length a) - 1))%Q).
  assert (0 <= pos)%Q as H0.
  { apply Qmult_le_0_compat; [|done]. unfold Qle. simpl. lia. }
  assert (pos <= inject_Z (Z.of_nat (length a) - 1))%Q as H1.
  { unfold pos. rewrite <-(Qmult_1_l (inject_Z _)) at 2.
    apply Qmult_le_compat_r; [|done]. unfold Qle. simpl. lia. }
  destruct (interpolate_bounds (merge_sort Qle a) (Z.of_nat (length a))
              (sorted_Qle a) (eq_sym (f_equal Z.of_nat (length_merge_sort_Qle a)))
              pos H0 H1) as [Hlow Hup].
  pose proof (Qfloor_range (Z.of_nat (length a)) pos H0 H1) as Hj.
  assert (∀ e, e ∈ merge_sort Qle a → e ∈ a) as Hin.
  { intros e He. by rewrite merge_sort_Permutation in He. }
  split.
  - eapply Qle_trans; [|exact Hlow]. apply (np_min_le a); [done|].
    apply Hin, nth_elem_of. rewrite length_merge_sort_Qle. lia.
  - eapply Qle_trans; [exact Hup|]. apply (np_max_ge a); [done|].
    apply Hin, nth_elem_of. rewrite length_merge_sort_Qle. lia.
Qed.

(** ** The position-only classifier, vertex by vertex *)

(** [regions[k].append(vi)] for the zones [ks] in turn. *)
Definition append_all (vi : Z) (ks : list string) (regions : zones)
  : option zones :=
  for_each (λ regions k, zone_append k vi regions) regions ks.

Lemma append_all_app vi ks1 ks2 r :
  append_all vi (ks1 ++ ks2) r = append_all vi ks1 r ≫= append_all vi ks2.
Proof.
  unfold append_all. revert r. induction ks1 as [|k ks1 IH]; intros r; [done|].
  cbn [app for_each]. destruct (zone_append k vi r) as [r1|]; [|done].
  cbn [mbind option_bind]. apply IH.
Qed.

Lemma append_all_appended vi ks r r' :
  append_all vi ks r = Some r' ↔ appended vi ks r r'.
Proof.
  unfold append_all. revert r. induction ks as [|k ks IH]; intros r.
  - cbn [for_each]. split.
    + intros [= ->]. constructor.
    + by inversion 1.
  - cbn [for_each]. split.
    + intros H. apply bind_Some in H as (r1 & H1 & H).
      unfold zone_append in H1. apply bind_Some in H1 as (l & Hl & H1).
      simplify_eq. econstructor; [done|]. by apply IH.
    + inversion 1 as [|? ? ? l ? Hl Happ]; subst.
      unfold zone_append. rewrite Hl. cbn [mbind option_bind]. by apply IH.
Qed.

(** The zones one turn of the loop appends the vertex to, in the order
    of the source. *)
Section VertexZones.
Local Open Scope Q_scope.
Context (yn xn : fnum).

Definition forehead_zones : list string :=
  if fgtq yn 0.75 then
    "forehead" ::
    (if fgtq xn 0.15 then ["forehead_left"]
     else if fltq xn (-0.15) then ["forehead_right"]
     else ["forehead_center"])
  else [].

Definition brows_zones : list string :=
  if between 0.65 yn 0.75 then
    (if fgtq xn 0.10 then
       "brow_left" :: (if fltq xn 0.30 then ["brow_inner_left"] else [])
     else []) ++
    (if fltq xn (-0.10) then
       "brow_right" :: (if fgtq xn (-0.30) then ["brow_inner_right"] else [])
     else [])
  else [].

Definition eye_left_zones : list string :=
  if between 0.15 xn 0.55 then
    (if fgtq yn 0.62 then ["eye_left_upper"] else ["eye_left_lower"]) ++
    (if fltq xn 0.25 then ["eye_left_corner_inner"] else []) ++
    (if fgtq xn 0.45 then ["eye_left_corner_outer"] else [])
  else [].

Definition eye_right_zones : list string :=
  if between (-0.55) xn (-0.15) then
    (if fgtq yn 0.62 then ["eye_right_upper"] else ["eye_right_lower"]) ++
    (if fgtq xn (-0.25) then ["eye_right_corner_inner"] else []) ++
    (if fltq xn (-0.45) then ["eye_right_corner_outer"] else [])
  else [].

Definition eyes_zones : list string :=
  if between 0.55 yn 0.68 then eye_left_zones ++ eye_right_zones else [].

Definition under_eye_zones : list string :=
  if between 0.48 yn 0.58 then
    (if between 0.10 xn 0.50 then
       "under_eye_left" :: (if fltq xn 0.30 then ["tear_trough_left"] else [])
     else []) ++
    (if between (-0.50) xn (-0.10) then
       "under_eye_right" ::
       (if fgtq xn (-0.30) then ["tear_trough_right"] else [])
     else [])
  else [].

Definition nose_bridge_zones : list string :=
  if between 0.35 yn 0.60 && fltq (fabs xn) 0.15 then
    ["nose_bridge"; "nose_dorsum";
     if fgtq yn 0.48 then "nose_bridge_upper" else "nose_bridge_lower"]
  else [].

Definition nose_tip_zones : list string :=
  if between 0.30 yn 0.40 && fltq (fabs xn) 0.15 then
    ["nose_tip"; if fgtq xn 0 then "nose_tip_left" else "nose_tip_right"]
  else [].

Definition nostrils_zones : list string :=
  if between 0.28 yn 0.38 then
    (if between 0.08 xn 0.22 then ["nostril_left"] else []) ++
    (if between (-0.22) xn (-0.08) then ["nostril_right"] else [])
  else [].

Definition cheeks_zones : list string :=
  if between 0.30 yn 0.55 && fgtq (fabs xn) 0.25 then
    if fgtq xn 0 then
      ["cheek_left";
       if fgtq yn 0.42 then "cheekbone_left" else "cheek_hollow_left"]
    else
      ["cheek_right";
       if fgtq yn 0.42 then "cheekbone_right" else "cheek_hollow_right"]
  else [].

Definition nasolabial_zones : list string :=
  if between 0.28 yn 0.48 && between 0.15 (fabs xn) 0.28 then
    [if fgtq xn 0 then "nasolabial_left" else "nasolabial_right"]
  else [].

Definition lips_zones : list string :=
  if between 0.22 yn 0.32 && fltq (fabs xn) 0.25 then
    (if fgtq yn 0.27 then
       ["lip_upper";
        if fgtq xn 0.06 then "lip_upper_left"
        else if fltq xn (-0.06) then "lip_upper_right"
        else "lip_upper_center"]
     else
       ["lip_lower";
        if fgtq xn 0.06 then "lip_lower_left"
        else if fltq xn (-0.06) then "lip_lower_right"
        else "lip_lower_center"]) ++
    (if fltq (fabs (fsubq yn 0.27)) 0.03 && fgtq (fabs xn) 0.18 then
       [if fgtq xn 0 then "lip_corner_left" else "lip_corner_right"]
     else [])
  else [].

Definition chin_zones : list string :=
  if between 0.12 yn 0.24 && fltq (fabs xn) 0.30 then
    ["chin";
     if fltq (fabs xn) 0.10 then "chin_center"
     else if fgtq xn 0 then "chin_left"
     else "chin_right"]
  else [].

Definition jaw_zones : list string :=
  if between 0.10 yn 0.30 && fgtq (fabs xn) 0.25 then
    if fgtq xn 0 then
      "jaw_left" :: (if fltq yn 0.18 then ["jawline_left"] else [])
    else
      "jaw_right" :: (if fltq yn 0.18 then ["jawline_right"] else [])
  else [].

Definition temples_zones : list string :=
  if between 0.60 yn 0.78 && fgtq (fabs xn) 0.50 then
    [if fgtq xn 0 then "temple_left" else "temple_right"]
  else [].

Definition ears_zones : list string :=
  if between 0.40 yn 0.70 && fgtq (fabs xn) 0.80 then
    [if fgtq xn 0 then "ear_left" else "ear_right"]
  else [].

(** The zones of the feature blocks, from the forehead to the ears. *)
Definition features_zones : list string :=
  forehead_zones ++ brows_zones ++ eyes_zones ++ under_eye_zones ++
  nose_bridge_zones ++ nose_tip_zones ++ nostrils_zones ++ cheeks_zones ++
  nasolabial_zones ++ lips_zones ++ chin_zones ++ jaw_zones ++
  temples_zones ++ ears_zones.

(** The zones of a front-facing vertex above the neck. *)
Definition face_zones : list string :=
  (if fgtq yn 0.10 then ["full_face"] else []) ++ features_zones.

(** The zones of a vertex. *)
Definition vertex_zones (is_front : bool) : list string :=
  if fltq yn 0.10 then ["neck"]
  else if negb is_front then []
  else face_zones.
End VertexZones.

(** The two sides of a block equation differ in the order the tests
    and the appends are made. *)
Ltac same_appends :=
  cbn [append_all for_each app mbind option_bind];
  repeat match goal with
  | |- context [zone_append ?k ?vi ?r] =>
      is_var r; destruct (zone_append k vi r); cbn [mbind option_bind]
  end;
  reflexivity.

Ltac block_zones :=
  repeat match goal with
  | |- context [if ?c then _ else _] => destruct c
  end;
  same_appends.

Section BlockZones.
Context (yn xn : fnum) (vi : Z) (r : zones).

Lemma pos_forehead_zones :
  pos_forehead yn xn vi r = append_all vi (forehead_zones yn xn) r.
Proof. unfold pos_forehead, forehead_zones. block_zones. Qed.

Lemma pos_brows_zones :
  pos_brows yn xn vi r = append_all vi (brows_zones yn xn) r.
Proof. unfold pos_brows, brows_zones. block_zones. Qed.

Lemma pos_eyes_zones :
  pos_eyes yn xn vi r = append_all vi (eyes_zones yn xn) r.
Proof.
  unfold pos_eyes, pos_eye_left, pos_eye_right, eyes_zones,
    eye_left_zones, eye_right_zones.
  block_zones.
Qed.

Lemma pos_under_eye_zones :
  pos_under_eye yn xn vi r = append_all vi (under_eye_zones yn xn) r.
Proof. unfold pos_under_eye, under_eye_zones. block_zones. Qed.

Lemma pos_nose_bridge_zones :
  pos_nose_bridge yn xn vi r = append_all vi (nose_bridge_zones yn xn) r.
Proof. unfold pos_nose_bridge, nose_bridge_zones. block_zones. Qed.

Lemma pos_nose_tip_zones :
  pos_nose_tip yn xn vi r = append_all vi (nose_tip_zones yn xn) r.
Proof. unfold pos_nose_tip, nose_tip_zones. block_zones. Qed.

Lemma pos_nostrils_zones :
  pos_nostrils yn xn vi r = append_all vi (nostrils_zones yn xn) r.
Proof. unfold pos_nostrils, nostrils_zones. block_zones. Qed.

Lemma pos_cheeks_zones :
  pos_cheeks yn xn vi r = append_all vi (cheeks_zones yn xn) r.
Proof. unfold pos_cheeks, cheeks_zones. block_zones. Qed.

Lemma pos_nasolabial_zones :
  pos_nasolabial yn xn vi r = append_all vi (nasolabial_zones yn xn) r.
Proof. unfold pos_nasolabial, nasolabial_zones. block_zones. Qed.

Lemma pos_lips_zones :
  pos_lips yn xn vi r = append_all vi (lips_zones yn xn) r.
Proof. unfold pos_lips, lips_zones. block_zones. Qed.

Lemma pos_chin_zones :
  pos_chin yn xn vi r = append_all vi (chin_zones yn xn) r.
Proof. unfold pos_chin, chin_zones. block_zones. Qed.

Lemma pos_jaw_zones :
  pos_jaw yn xn vi r = append_all vi (jaw_zones yn xn) r.
Proof. unfold pos_jaw, jaw_zones. block_zones. Qed.

Lemma pos_temples_zones :
  pos_temples yn xn vi r = append_all vi (temples_zones yn xn) r.
Proof. unfold pos_temples, temples_zones. block_zones. Qed.

Lemma pos_ears_zones :
  pos_ears yn xn vi r = append_all vi (ears_zones yn xn) r.
Proof. unfold pos_ears, ears_zones. block_zones. Qed.
End BlockZones.

Section ClassifyZones.
Context (yn xn : fnum) (vi : Z).

Lemma classify_features_zones r :
  classify_features yn xn vi r = append_all vi (features_zones yn xn) r.
Proof.
  unfold classify_features, features_zones.
  rewrite pos_forehead_zones, append_all_app.
  destruct (append_all vi (forehead_zones yn xn) r) as [r1|]; [|done].
  cbn [mbind option_bind]. rewrite pos_brows_zones, append_all_app.
  destruct (append_all vi (brows_zones yn xn) r1) as [r2|]; [|done].
  cbn [mbind option_bind]. rewrite pos_eyes_zones, append_all_app.
  destruct (append_all vi (eyes_zones yn xn) r2) as [r3|]; [|done].
  cbn [mbind option_bind]. rewrite pos_under_eye_zones, append_all_app.
  destruct (append_all vi (under_eye_zones yn xn) r3) as [r4|]; [|done].
  cbn [mbind option_bind]. rewrite pos_nose_bridge_zones, append_all_app.
  destruct (append_all vi (nose_bridge_zones yn xn) r4) as [r5|]; [|done].
  cbn [mbind option_bind]. rewrite pos_nose_tip_zones, append_all_app.
  destruct (append_all vi (nose_tip_zones yn xn) r5) as [r6|]; [|done].
  cbn [mbind option_bind]. rewrite pos_nostrils_zones, append_all_app.
  destruct (append_all vi (nostrils_zones yn xn) r6) as [r7|]; [|done].
  cbn [mbind option_bind]. rewrite pos_cheeks_zones, append_all_app.
  destruct (append_all vi (cheeks_zones yn xn) r7) as [r8|]; [|done].
  cbn [mbind option_bind]. rewrite pos_nasolabial_zones, append_all_app.
  destruct (append_all vi (nasolabial_zones yn xn) r8) as [r9|]; [|done].
  cbn [mbind option_bind]. rewrite pos_lips_zones, append_all_app.
  destruct (append_all vi (lips_zones yn xn) r9) as [r10|]; [|done].
  cbn [mbind option_bind]. rewrite pos_chin_zones, append_all_app.
  destruct (append_all vi (chin_zones yn xn) r10) as [r11|]; [|done].
  cbn [mbind option_bind]. rewrite pos_jaw_zones, append_all_app.
  destruct (append_all vi (jaw_zones yn xn) r11) as [r12|]; [|done].
  cbn [mbind option_bind]. rewrite pos_temples_zones, append_all_app.
  destruct (append_all vi (temples_zones yn xn) r12) as [r13|]; [|done].
  cbn [mbind option_bind]. apply pos_ears_zones.
Qed.

Lemma append_all_cons k ks r :
  append_all vi (k :: ks) r = zone_append k vi r ≫= append_all vi ks.
Proof. reflexivity. Qed.

Lemma classify_face_zones r :
  classify_face yn xn vi r = append_all vi (face_zones yn xn) r.
Proof.
  unfold classify_face, face_zones. destruct (fgtq yn 0.10); cbn [app].
  - rewrite append_all_cons.
    destruct (zone_append "full_face" vi r) as [r0|]; [|done].
    cbn [mbind option_bind]. apply classify_features_zones.
  - cbn [mbind option_bind]. apply classify_features_zones.
Qed.

Lemma classify_vertex_zones is_front r :
  classify_vertex yn xn vi is_front r =
    append_all vi (vertex_zones yn xn is_front) r.
Proof.
  rewrite classify_vertex_unfold. unfold vertex_zones.
  destruct (fltq yn 0.10).
  - unfold append_all. cbn [for_each].
    by destruct (zone_append "neck" vi r).
  - destruct (negb is_front); [done|]. apply classify_face_zones.
Qed.
End ClassifyZones.

(** *** The zones of a vertex are distinct zone names *)

Ltac block_order :=
  repeat match goal with
  | |- context [if ?c then _ else _] => destruct c
  end;
  cbn [app]; solve_order.

Section ZonesOrder.
Context (yn xn : fnum).

Lemma forehead_zones_order : sublist (forehead_zones yn xn) forehead_order.
Proof. unfold forehead_zones, forehead_order. block_order. Qed.

Lemma brows_zones_order : sublist (brows_zones yn xn) brows_order.
Proof. unfold brows_zones, brows_order. block_order. Qed.

Lemma eyes_zones_order : sublist (eyes_zones yn xn) eyes_order.
Proof.
  unfold eyes_zones, eye_left_zones, eye_right_zones, eyes_order.
  block_order.
Qed.

Lemma under_eye_zones_order : sublist (under_eye_zones yn xn) under_eye_order.
Proof. unfold under_eye_zones, under_eye_order. block_order. Qed.

Lemma nose_bridge_zones_order :
  sublist (nose_bridge_zones yn xn) nose_bridge_order.
Proof. unfold nose_bridge_zones, nose_bridge_order. block_order. Qed.

Lemma nose_tip_zones_order : sublist (nose_tip_zones yn xn) nose_tip_order.
Proof. unfold nose_tip_zones, nose_tip_order. block_order. Qed.

Lemma nostrils_zones_order : sublist (nostrils_zones yn xn) nostrils_order.
Proof. unfold nostrils_zones, nostrils_order. block_order. Qed.

Lemma cheeks_zones_order : sublist (cheeks_zones yn xn) cheeks_order.
Proof. unfold cheeks_zones, cheeks_order. block_order. Qed.

Lemma nasolabial_zones_order :
  sublist (nasolabial_zones yn xn) nasolabial_order.
Proof. unfold nasolabial_zones, nasolabial_order. block_order. Qed.

Lemma lips_zones_order : sublist (lips_zones yn xn) lips_order.
Proof. unfold lips_zones, lips_order. block_order. Qed.

Lemma chin_zones_order : sublist (chin_zones yn xn) chin_order.
Proof. unfold chin_zones, chin_order. block_order. Qed.

Lemma jaw_zones_order : sublist (jaw_zones yn xn) jaw_order.
Proof. unfold jaw_zones, jaw_order. block_order. Qed.

Lemma temples_zones_order : sublist (temples_zones yn xn) temples_order.
Proof. unfold temples_zones, temples_order. block_order. Qed.

Lemma ears_zones_order : sublist (ears_zones yn xn) ears_order.
Proof. unfold ears_zones, ears_order. block_order. Qed.

Lemma features_zones_order : sublist (features_zones yn xn) features_order.
Proof.
  unfold features_zones, features_order.
  repeat (apply sublist_app;
          [first [ apply forehead_zones_order | apply brows_zones_order
                 | apply eyes_zones_order | apply under_eye_zones_order
                 | apply nose_bridge_zones_order | apply nose_tip_zones_order
                 | apply nostrils_zones_order | apply cheeks_zones_order
                 | apply nasolabial_zones_order | apply lips_zones_order
                 | apply chin_zones_order | apply jaw_zones_order
                 | apply temples_zones_order ]|]).
  apply ears_zones_order.
Qed.

Lemma face_zones_order : sublist (face_zones yn xn) face_order.
Proof.
  unfold face_zones, face_order. destruct (fgtq yn 0.10); cbn [app].
  - apply sublist_skip, features_zones_order.
  - apply sublist_cons, features_zones_order.
Qed.

Lemma vertex_zones_order is_front :
  sublist (vertex_zones yn xn is_front) ("neck" :: face_order).
Proof.
  unfold vertex_zones. destruct (fltq yn 0.10).
  - apply sublist_skip, sublist_nil_l.
  - destruct (negb is_front); [apply sublist_nil_l|].
    apply sublist_cons, face_zones_order.
Qed.

Lemma vertex_zones_NoDup is_front : NoDup (vertex_zones yn xn is_front).
Proof.
  eapply sublist_NoDup; [|apply vertex_zones_order].
  apply (bool_decide_unpack _). by vm_compute.
Qed.

Lemma vertex_zones_names is_front k :
  k ∈ vertex_zones yn xn is_front → k ∈ ALL_CLINICAL_ZONES.
Proof.
  intros Hk. pose proof (elem_of_sublist _ _ _ Hk (vertex_zones_order _)) as Hin.
  assert ("neck" :: face_order ⊆ ALL_CLINICAL_ZONES) as H; [|by apply H].
  apply (bool_decide_unpack _). by vm_compute.
Qed.
End ZonesOrder.

(** *** The loop collects the zones of each vertex *)

(** The zones of the vertex [i] of the mesh. *)
Definition zones_at (v : list vertex) (b : box) (i : Z) : list string :=
  match vertex_at v i with
  | Some vert => vertex_zones (norm_y b vert) (norm_x b vert) (front b vert)
  | None => []
  end.

Lemma append_all_lookup vi ks r r' k :
  append_all vi ks r = Some r' → NoDup ks →
  r' !! k =
    if decide (k ∈ ks) then (λ l, l ++ [vi]) <$> r !! k else r !! k.
Proof.
  intros H%append_all_appended Hnd. case_decide as Hk.
  - by eapply appended_lookup.
  - by eapply appended_lookup_ne.
Qed.

Lemma filter_seqZ_snoc (P : Z → Prop) `{∀ i, Decision (P i)} m :
  0 ≤ m →
  filter P (seqZ 0 (m + 1)) =
    filter P (seqZ 0 m) ++ (if decide (P m) then [m] else []).
Proof.
  intros Hm. rewrite seqZ_app by lia. rewrite filter_app. by f_equal.
Qed.

Section ZonesLoop.
Context (v : list vertex) (b : box).

(** The zone map when the vertices below [m] have been classified. *)
Definition collected (m : Z) (r : zones) : Prop :=
  dom r = zone_names ∧
  ∀ k, k ∈ ALL_CLINICAL_ZONES →
       r !! k = Some (filter (λ i, k ∈ zones_at v b i) (seqZ 0 m)).

Lemma collected_init : collected 0 init_regions.
Proof.
  split; [apply dom_init_regions|]. intros k Hk.
  rewrite init_regions_lookup. by rewrite bool_decide_eq_true_2.
Qed.

Lemma collected_step m r r' :
  0 ≤ m → collected m r → position_loop v b r m = Some r' →
  collected (m + 1) r'.
Proof.
  intros Hm [Hdom Hlists] Hrun. unfold position_loop in Hrun.
  apply bind_Some in Hrun as (vert & Hvert & Hrun).
  rewrite classify_vertex_zones in Hrun.
  assert (zones_at v b m =
          vertex_zones (norm_y b vert) (norm_x b vert) (front b vert)) as Hat.
  { unfold zones_at. by rewrite Hvert. }
  rewrite <-Hat in Hrun. split.
  - apply append_all_appended, appended_dom in Hrun. by rewrite Hrun.
  - intros k Hk.
    rewrite (append_all_lookup _ _ _ _ k Hrun)
      by (rewrite Hat; apply vertex_zones_NoDup).
    rewrite (Hlists k Hk), filter_seqZ_snoc by done.
    case_decide; [done|]. by rewrite (right_id_L [] (++)).
Qed.

Lemma position_loop_collected r :
  for_each (position_loop v b) init_regions
    (seqZ 0 (Z.of_nat (length v))) = Some r →
  collected (Z.of_nat (length v)) r.
Proof.
  intros Hrun.
  apply (for_each_seqZ_inv collected _ _ _ _ 0 Hrun); [apply collected_init|].
  intros i s s' Hi Hs Hstep. apply (collected_step i s s'); [lia|done..].
Qed.
End ZonesLoop.

(** Every zone of the result is the list, in increasing order, of the
    vertices whose own turn of the loop appends to it. *)
Lemma _position_only_regions_zones v r :
  _position_only_regions v = Some r →
  ∃ b, bounding_box v = Some b ∧
       ∀ k, k ∈ ALL_CLINICAL_ZONES →
            r !! k = Some (filter (λ i, k ∈ zones_at v b i)
                             (seqZ 0 (Z.of_nat (length v)))).
Proof.
  intros H. apply _position_only_regions_Some in H as (b & Hb & H).
  exists b. split; [done|]. by apply position_loop_collected.
Qed.

Lemma elem_of_position_zone v r b k l i :
  _position_only_regions v = Some r → bounding_box v = Some b →
  r !! k = Some l →
  i ∈ l ↔ 0 ≤ i < Z.of_nat (length v) ∧ k ∈ zones_at v b i.
Proof.
  intros Hrun Hb Hl.
  pose proof Hrun as Hinv. apply _position_only_regions_inv in Hinv
    as (b' & Hb' & Hinv).
  assert (k ∈ ALL_CLINICAL_ZONES) as Hk.
  { assert (k ∈ dom r) as Hin by (apply elem_of_dom; by eexists).
    rewrite (inv_dom _ _ _ _ Hinv) in Hin.
    by apply elem_of_list_to_set in Hin. }
  apply _position_only_regions_zones in Hrun as (b'' & Hb'' & Hzones).
  simplify_eq. rewrite (Hzones k Hk) in Hl. simplify_eq.
  rewrite list_elem_of_filter, elem_of_seqZ. split; [intros []|intros []]; split; first [done|lia].
Qed.

(** ** The zone tree *)

(** A sub-zone with the zone it lies in. *)
Definition sub_zones : list (string * string) :=
  [ ("forehead_left", "forehead"); ("forehead_right", "forehead");
    ("forehead_center", "forehead");
    ("brow_inner_left", "brow_left"); ("brow_inner_right", "brow_right");
    ("tear_trough_left", "under_eye_left");
    ("tear_trough_right", "under_eye_right");
    ("nose_dorsum", "nose_bridge"); ("nose_bridge", "nose_dorsum");
    ("nose_bridge_upper", "nose_bridge"); ("nose_bridge_lower", "nose_bridge");
    ("nose_tip_left", "nose_tip"); ("nose_tip_right", "nose_tip");
    ("cheekbone_left", "cheek_left"); ("cheek_hollow_left", "cheek_left");
    ("cheekbone_right", "cheek_right"); ("cheek_hollow_right", "cheek_right");
    ("lip_upper_left", "lip_upper"); ("lip_upper_right", "lip_upper");
    ("lip_upper_center", "lip_upper");
    ("lip_lower_left", "lip_lower"); ("lip_lower_right", "lip_lower");
    ("lip_lower_center", "lip_lower");
    ("chin_center", "chin"); ("chin_left", "chin"); ("chin_right", "chin");
    ("jawline_left", "jaw_left"); ("jawline_right", "jaw_right") ].

(** A zone with the sub-zones that divide it. *)
Definition zone_partitions : list (string * list string) :=
  [ ("forehead", ["forehead_left"; "forehead_right"; "forehead_center"]);
    ("nose_bridge", ["nose_dorsum"]);
    ("nose_bridge", ["nose_bridge_upper"; "nose_bridge_lower"]);
    ("nose_tip", ["nose_tip_left"; "nose_tip_right"]);
    ("cheek_left", ["cheekbone_left"; "cheek_hollow_left"]);
    ("cheek_right", ["cheekbone_right"; "cheek_hollow_right"]);
    ("lip_upper", ["lip_upper_left"; "lip_upper_right"; "lip_upper_center"]);
    ("lip_lower", ["lip_lower_left"; "lip_lower_right"; "lip_lower_center"]) ].

(** The position-only classifier also divides the chin. *)
Definition chin_partition : string * list string :=
  ("chin", ["chin_center"; "chin_left"; "chin_right"]).

(** The zones of the left side, and those of the right side. *)
Definition left_zones : list string :=
  [ "forehead_left"; "brow_left"; "brow_inner_left";
    "eye_left_upper"; "eye_left_lower";
    "eye_left_corner_inner"; "eye_left_corner_outer";
    "under_eye_left"; "tear_trough_left";
    "nose_tip_left"; "nostril_left";
    "cheek_left"; "cheekbone_left"; "cheek_hollow_left"; "nasolabial_left";
    "lip_upper_left"; "lip_lower_left"; "lip_corner_left";
    "chin_left"; "jaw_left"; "jawline_left"; "temple_left"; "ear_left" ].

Definition right_zones : list string :=
  [ "forehead_right"; "brow_right"; "brow_inner_right";
    "eye_right_upper"; "eye_right_lower";
    "eye_right_corner_inner"; "eye_right_corner_outer";
    "under_eye_right"; "tear_trough_right";
    "nose_tip_right"; "nostril_right";
    "cheek_right"; "cheekbone_right"; "cheek_hollow_right"; "nasolabial_right";
    "lip_upper_right"; "lip_lower_right"; "lip_corner_right";
    "chin_right"; "jaw_right"; "jawline_right"; "temple_right"; "ear_right" ].

(** *** The zones of one vertex *)

(** With every sub-zone of [ks], its zone is in [ks]. *)
Definition closed_under (table : list (string * string)) (ks : list string)
  : Prop :=
  Forall (λ cp, cp.1 ∈ ks → cp.2 ∈ ks) table.

(** How many names of [names] are in [ks]. *)
Definition count_in (names ks : list string) : nat :=
  length (filter (λ k, k ∈ names) ks).

(** [ks] holds a zone of [table] exactly when it holds one of its
    sub-zones, and then only one. *)
Definition divided_by (table : list (string * list string))
    (ks : list string) : Prop :=
  Forall (λ row, count_in row.2 ks = count_in [row.1] ks) table.

Definition position_partitions : list (string * list string) :=
  zone_partitions ++ [chin_partition].

Lemma closed_under_app table ks1 ks2 :
  closed_under table ks1 → closed_under table ks2 →
  closed_under table (ks1 ++ ks2).
Proof.
  unfold closed_under. rewrite !Forall_forall. intros H1 H2 cp Hcp.
  rewrite !elem_of_app. intros [?|?]; [left; by apply H1|right; by apply H2].
Qed.

Lemma count_in_app names ks1 ks2 :
  count_in names (ks1 ++ ks2) = (count_in names ks1 + count_in names ks2)%nat.
Proof. unfold count_in. by rewrite filter_app, length_app. Qed.

Lemma divided_by_app table ks1 ks2 :
  divided_by table ks1 → divided_by table ks2 →
  divided_by table (ks1 ++ ks2).
Proof.
  unfold divided_by. rewrite !Forall_forall. intros H1 H2 row Hrow.
  rewrite !count_in_app. by rewrite H1, H2.
Qed.

(** A vertex in a zone of the left side has a positive [xn], and one
    in a zone of the right side has not. *)
Definition sided (xn : fnum) (ks : list string) : Prop :=
  (∀ k, k ∈ left_zones → k ∈ ks → fgtq xn 0 = true) ∧
  (∀ k, k ∈ right_zones → k ∈ ks → fgtq xn 0 = false).

Lemma sided_app xn ks1 ks2 :
  sided xn ks1 → sided xn ks2 → sided xn (ks1 ++ ks2).
Proof.
  intros [L1 R1] [L2 R2]. split; intros k Hk; rewrite elem_of_app;
    intros [?|?]; eauto.
Qed.

Lemma fgtq_mono (a : fnum) (lo lo' : Q) :
  fgtq a lo = true → (lo' <= lo)%Q → fgtq a lo' = true.
Proof.
  unfold fgtq, flt. destruct a as [q| | |]; try done.
  rewrite !Qltb_true. intros. lra.
Qed.

Lemma fltq_fgtq_false (a : fnum) (hi lo : Q) :
  fltq a hi = true → (hi <= lo)%Q → fgtq a lo = false.
Proof.
  unfold fltq, fgtq, flt. destruct a as [q| | |]; try done.
  rewrite Qltb_true. intros Hq Hle. apply not_true_iff_false.
  rewrite Qltb_true. lra.
Qed.

(** One case per path through a block, with the tests of the path. *)
Ltac block_cases :=
  repeat match goal with
  | |- context [if ?c then _ else _] => destruct c eqn:?
  end;
  cbn [app].

Ltac split_tests :=
  repeat match goal with
  | H : _ && _ = true |- _ => apply andb_true_iff in H as [? ?]
  | H : between _ _ _ = true |- _ => unfold between in H
  end.

Ltac solve_sided :=
  split; intros k Hside Hk;
  repeat (apply elem_of_cons in Hk as [->|Hk];
          [first
             [ assumption
             | (exfalso; revert Hside; apply (bool_decide_unpack _);
                vm_compute; exact I)
             | match goal with
               | H : fgtq ?a ?c = true |- fgtq ?a 0 = true =>
                   apply (fgtq_mono a c 0 H); by vm_compute
               | H : fltq ?a ?c = true |- fgtq ?a 0 = false =>
                   apply (fltq_fgtq_false a c 0 H); by vm_compute
               end ]|]);
  by apply elem_of_nil in Hk.

Ltac block_facts :=
  block_cases; split_tests;
  (split_and!;
   [ apply (bool_decide_unpack _); vm_compute; exact I
   | apply (bool_decide_unpack _); vm_compute; exact I
   | solve_sided ]).

(** What holds of the zones of each block. *)
Definition zones_ok (xn : fnum) (ks : list string) : Prop :=
  closed_under sub_zones ks ∧ divided_by position_partitions ks ∧ sided xn ks.

Lemma zones_ok_app xn ks1 ks2 :
  zones_ok xn ks1 → zones_ok xn ks2 → zones_ok xn (ks1 ++ ks2).
Proof.
  intros (? & ? & ?) (? & ? & ?). split_and!.
  - by apply closed_under_app.
  - by apply divided_by_app.
  - by apply sided_app.
Qed.

Section ZonesOk.
Context (yn xn : fnum).

Lemma forehead_zones_ok : zones_ok xn (forehead_zones yn xn).
Proof. unfold forehead_zones. block_facts. Qed.

Lemma brows_zones_ok : zones_ok xn (brows_zones yn xn).
Proof. unfold brows_zones. block_facts. Qed.

Lemma eyes_zones_ok : zones_ok xn (eyes_zones yn xn).
Proof. unfold eyes_zones, eye_left_zones, eye_right_zones. block_facts. Qed.

Lemma under_eye_zones_ok : zones_ok xn (under_eye_zones yn xn).
Proof. unfold under_eye_zones. block_facts. Qed.

Lemma nose_bridge_zones_ok : zones_ok xn (nose_bridge_zones yn xn).
Proof. unfold nose_bridge_zones. block_facts. Qed.

Lemma nose_tip_zones_ok : zones_ok xn (nose_tip_zones yn xn).
Proof. unfold nose_tip_zones. block_facts. Qed.

Lemma nostrils_zones_ok : zones_ok xn (nostrils_zones yn xn).
Proof. unfold nostrils_zones. block_facts. Qed.

Lemma cheeks_zones_ok : zones_ok xn (cheeks_zones yn xn).
Proof. unfold cheeks_zones. block_facts. Qed.

Lemma nasolabial_zones_ok : zones_ok xn (nasolabial_zones yn xn).
Proof. unfold nasolabial_zones. block_facts. Qed.

Lemma lips_zones_ok : zones_ok xn (lips_zones yn xn).
Proof. unfold lips_zones. block_facts. Qed.

Lemma chin_zones_ok : zones_ok xn (chin_zones yn xn).
Proof. unfold chin_zones. block_facts. Qed.

Lemma jaw_zones_ok : zones_ok xn (jaw_zones yn xn).
Proof. unfold jaw_zones. block_facts. Qed.

Lemma temples_zones_ok : zones_ok xn (temples_zones yn xn).
Proof. unfold temples_zones. block_facts. Qed.

Lemma ears_zones_ok : zones_ok xn (ears_zones yn xn).
Proof. unfold ears_zones. block_facts. Qed.

Lemma features_zones_ok : zones_ok xn (features_zones yn xn).
Proof.
  unfold features_zones.
  repeat (apply zones_ok_app;
          [first [ apply forehead_zones_ok | apply brows_zones_ok
                 | apply eyes_zones_ok | apply under_eye_zones_ok
                 | apply nose_bridge_zones_ok | apply nose_tip_zones_ok
                 | apply nostrils_zones_ok | apply cheeks_zones_ok
                 | apply nasolabial_zones_ok | apply lips_zones_ok
                 | apply chin_zones_ok | apply jaw_zones_ok
                 | apply temples_zones_ok ]|]).
  apply ears_zones_ok.
Qed.

Lemma vertex_zones_ok is_front : zones_ok xn (vertex_zones yn xn is_front).
Proof.
  unfold vertex_zones, face_zones.
  destruct (fltq yn 0.10); [block_facts|].
  destruct (negb is_front); [block_facts|].
  apply zones_ok_app; [block_facts|apply features_zones_ok].
Qed.
End ZonesOk.

(** *** Counting the zones of a vertex *)

Lemma count_in_singleton p ks :
  NoDup ks → count_in [p] ks = if decide (p ∈ ks) then 1%nat else 0%nat.
Proof.
  unfold count_in. induction 1 as [|k ks Hk Hnd IH]; [done|].
  destruct (decide (k = p)) as [->|Hne].
  - rewrite filter_cons_True by (by left). cbn [length].
    rewrite decide_True by (by left).
    rewrite decide_False in IH by done. by rewrite IH.
  - rewrite filter_cons_False.
    2:{ intros Hin. apply list_elem_of_singleton in Hin. done. }
    rewrite IH. case_decide as H1; case_decide as H2; try done.
    + exfalso. apply H2. by right.
    + apply elem_of_cons in H2 as [?|?]; [by subst|done].
Qed.

Lemma count_in_pos names ks a :
  a ∈ names → a ∈ ks → (1 ≤ count_in names ks)%nat.
Proof.
  intros Hn Hk. unfold count_in.
  assert (a ∈ filter (λ k, k ∈ names) ks) as Hin
    by (by apply list_elem_of_filter).
  destruct (filter _ ks); [by apply elem_of_nil in Hin|simpl; lia].
Qed.

Lemma count_in_two names ks a a' :
  NoDup ks → a ≠ a' → a ∈ names → a' ∈ names → a ∈ ks → a' ∈ ks →
  (2 ≤ count_in names ks)%nat.
Proof.
  intros Hnd Hne Ha Ha' Hk Hk'. unfold count_in.
  change 2%nat with (length [a; a']). apply submseteq_length.
  apply NoDup_submseteq.
  - apply NoDup_cons. split; [|apply NoDup_singleton].
    intros Hin. apply list_elem_of_singleton in Hin. done.
  - intros k Hin. apply list_elem_of_filter.
    apply elem_of_cons in Hin as [->|Hin]; [done|].
    apply list_elem_of_singleton in Hin as ->. done.
Qed.

Lemma count_in_zero names ks :
  count_in names ks = 0%nat → ∀ a, a ∈ names → a ∉ ks.
Proof.
  intros H0 a Ha Hk. pose proof (count_in_pos names ks a Ha Hk). lia.
Qed.

(** When [ks] holds a zone exactly when it holds one of its [parts],
    then at most one of them. *)
Lemma divided_parts p parts ks :
  NoDup ks → count_in parts ks = count_in [p] ks →
  (p ∈ ks ↔ ∃ a, a ∈ parts ∧ a ∈ ks) ∧
  (∀ a a', a ∈ parts → a' ∈ parts → a ∈ ks → a' ∈ ks → a = a').
Proof.
  intros Hnd Hcount. rewrite (count_in_singleton p ks Hnd) in Hcount. split.
  - split.
    + intros Hp. rewrite decide_True in Hcount by done.
      destruct (filter (λ k, k ∈ parts) ks) as [|a rest] eqn:Hf.
      { unfold count_in in Hcount. by rewrite Hf in Hcount. }
      assert (a ∈ filter (λ k, k ∈ parts) ks) as Hin
        by (rewrite Hf; by left).
      apply list_elem_of_filter in Hin as [? ?]. by exists a.
    + intros (a & Ha & Hk). pose proof (count_in_pos parts ks a Ha Hk).
      case_decide; [done|lia].
  - intros a a' Ha Ha' Hk Hk'. destruct (decide (a = a')) as [|Hne]; [done|].
    pose proof (count_in_two parts ks a a' Hnd Hne Ha Ha' Hk Hk').
    case_decide; lia.
Qed.

(** *** The lists of the zones *)

(** The index list of a zone, and the index lists of several zones one
    after the other. *)
Definition zone_list (r : zones) (k : string) : list Z :=
  default [] (r !! k).

Definition zone_lists (r : zones) (names : list string) : list Z :=
  concat (zone_list r <$> names).

Lemma elem_of_zone_lists r names i :
  i ∈ zone_lists r names ↔ ∃ a, a ∈ names ∧ i ∈ zone_list r a.
Proof.
  unfold zone_lists. induction names as [|a names IH]; cbn [fmap list_fmap concat].
  - rewrite elem_of_nil. split; [done|]. intros (a & Ha & _).
    by apply elem_of_nil in Ha.
  - rewrite elem_of_app, IH. split.
    + intros [?|(a' & ? & ?)]; [exists a|exists a']; (split; [|done]);
        [by left|by right].
    + intros (a' & Ha' & ?). apply elem_of_cons in Ha' as [->|?];
        [by left|right; by exists a'].
Qed.

Lemma zone_lists_NoDup r names :
  NoDup names →
  (∀ a, a ∈ names → NoDup (zone_list r a)) →
  (∀ a a' i, a ∈ names → a' ∈ names →
             i ∈ zone_list r a → i ∈ zone_list r a' → a = a') →
  NoDup (zone_lists r names).
Proof.
  unfold zone_lists. induction 1 as [|a names Ha Hnd IH]; intros Hl Hx;
    cbn [fmap list_fmap concat]; [constructor|].
  apply NoDup_app. split_and!.
  - apply Hl. by left.
  - intros i Hi Hin. apply elem_of_zone_lists in Hin as (a' & Ha' & Hi').
    assert (a = a') as <-; [|done].
    eapply Hx; [by left|by right|done..].
  - apply IH.
    + intros a' Ha'. apply Hl. by right.
    + intros a1 a2 i H1 H2. apply Hx; by right.
Qed.

(** *** The zone lists of the position-only classifier *)

Section PositionLists.
Context (v : list vertex) (r : zones) (b : box).
Context (Hrun : _position_only_regions v = Some r).
Context (Hb : bounding_box v = Some b).

Lemma position_zone_list k i :
  i ∈ zone_list r k ↔
  0 ≤ i < Z.of_nat (length v) ∧ k ∈ zones_at v b i.
Proof.
  unfold zone_list. destruct (r !! k) as [l|] eqn:Hl; cbn [default].
  - by apply (elem_of_position_zone v r b k l i).
  - rewrite elem_of_nil. split; [done|]. intros [_ Hk].
    assert (k ∈ ALL_CLINICAL_ZONES) as Hin.
    { unfold zones_at in Hk. destruct (vertex_at v i); [|by apply elem_of_nil in Hk].
      by eapply vertex_zones_names. }
    apply _position_only_regions_zones in Hrun as (b' & _ & Hz).
    rewrite (Hz k Hin) in Hl. done.
Qed.

Lemma position_zone_list_NoDup k : NoDup (zone_list r k).
Proof.
  unfold zone_list. destruct (r !! k) as [l|] eqn:Hl; cbn [default];
    [|constructor].
  apply _position_only_regions_inv in Hrun as (b' & _ & Hinv).
  apply increasing_NoDup. by apply (inv_lists _ _ _ _ Hinv k).
Qed.

Lemma zones_at_NoDup i : NoDup (zones_at v b i).
Proof.
  unfold zones_at. destruct (vertex_at v i); [|constructor].
  apply vertex_zones_NoDup.
Qed.

Lemma zones_at_closed i : closed_under sub_zones (zones_at v b i).
Proof.
  unfold zones_at. destruct (vertex_at v i) as [vert|].
  - apply (vertex_zones_ok (norm_y b vert) (norm_x b vert)).
  - apply (bool_decide_unpack _). by vm_compute.
Qed.

Lemma zones_at_divided i : divided_by position_partitions (zones_at v b i).
Proof.
  unfold zones_at. destruct (vertex_at v i) as [vert|].
  - apply (vertex_zones_ok (norm_y b vert) (norm_x b vert)).
  - apply (bool_decide_unpack _). by vm_compute.
Qed.

Lemma zones_at_one_side i kl kr :
  kl ∈ left_zones → kr ∈ right_zones →
  kl ∈ zones_at v b i → kr ∈ zones_at v b i → False.
Proof.
  unfold zones_at. intros Hl Hr. destruct (vertex_at v i) as [vert|];
    [|by intros ?%elem_of_nil].
  intros Hkl Hkr.
  destruct (vertex_zones_ok (norm_y b vert) (norm_x b vert) (front b vert))
    as (_ & _ & Hleft & Hright).
  rewrite (Hleft kl Hl Hkl) in Hright. by specialize (Hright kr Hr Hkr).
Qed.

Lemma position_sub_zone c p i :
  (c, p) ∈ sub_zones → i ∈ zone_list r c → i ∈ zone_list r p.
Proof.
  intros Hcp. rewrite !position_zone_list. intros [Hi Hc]. split; [done|].
  pose proof (zones_at_closed i) as Hclosed. unfold closed_under in Hclosed.
  rewrite Forall_forall in Hclosed. by apply (Hclosed (c, p)).
Qed.

Lemma position_partition p parts :
  (p, parts) ∈ position_partitions →
  zone_lists r parts ≡ₚ zone_list r p.
Proof.
  intros Hrow.
  assert (NoDup parts) as Hparts.
  { assert (Forall (λ row, NoDup row.2) position_partitions) as Hall.
    { apply (bool_decide_unpack _). by vm_compute. }
    rewrite Forall_forall in Hall. apply (Hall _ Hrow). }
  assert (∀ i, (p ∈ zones_at v b i ↔
                ∃ a, a ∈ parts ∧ a ∈ zones_at v b i) ∧
               (∀ a a', a ∈ parts → a' ∈ parts →
                        a ∈ zones_at v b i → a' ∈ zones_at v b i → a = a'))
    as Hdiv.
  { intros i. apply divided_parts; [apply zones_at_NoDup|].
    pose proof (zones_at_divided i) as Hall. unfold divided_by in Hall.
    rewrite Forall_forall in Hall. apply (Hall _ Hrow). }
  apply NoDup_Permutation.
  - apply zone_lists_NoDup; [done| |].
    + intros a _. apply position_zone_list_NoDup.
    + intros a a' i Ha Ha'. rewrite !position_zone_list.
      intros [_ Hi] [_ Hi']. by apply (Hdiv i).
  - apply position_zone_list_NoDup.
  - intros i. rewrite elem_of_zone_lists, position_zone_list.
    destruct (Hdiv i) as [Hiff _]. rewrite Hiff. split.
    + intros (a & Ha & Hi). apply position_zone_list in Hi as [? ?].
      split; [done|]. by exists a.
    + intros [Hi (a & Ha & Hk)]. exists a. split; [done|].
      by apply position_zone_list.
Qed.

Lemma position_one_side kl kr i :
  kl ∈ left_zones → kr ∈ right_zones →
  i ∈ zone_list r kl → i ∈ zone_list r kr → False.
Proof.
  intros Hl Hr. rewrite !position_zone_list. intros [_ Hkl] [_ Hkr].
  by eapply zones_at_one_side.
Qed.
End PositionLists.

(** *** [full_face] and [neck] of the position-only classifier *)

Lemma fgtq_fltq_false (a : fnum) (c : Q) :
  fgtq a c = true → fltq a c = false.
Proof.
  unfold fltq, fgtq, flt. destruct a as [q| | |]; try done.
  rewrite Qltb_true. intros Hq. apply not_true_iff_false.
  rewrite Qltb_true. lra.
Qed.

Lemma full_face_not_feature yn xn : "full_face" ∉ features_zones yn xn.
Proof.
  intros Hin.
  pose proof (elem_of_sublist _ _ _ Hin (features_zones_order yn xn)) as H.
  revert H. apply (bool_decide_unpack _). by vm_compute.
Qed.

Lemma full_face_vertex_zones yn xn is_front :
  "full_face" ∈ vertex_zones yn xn is_front ↔
  is_front = true ∧ fgtq yn 0.10 = true.
Proof.
  unfold vertex_zones, face_zones.
  destruct (fltq yn 0.10) eqn:Hlt.
  { split.
    - intros Hin. exfalso. revert Hin. apply (bool_decide_unpack _).
      by vm_compute.
    - intros [_ Hgt%fgtq_fltq_false]. congruence. }
  destruct is_front; cbn [negb].
  - destruct (fgtq yn 0.10); cbn [app].
    + split; [done|]. intros _. by left.
    + split; [|by intros [_ ?]]. by intros ?%full_face_not_feature.
  - split; [by intros ?%elem_of_nil|by intros [? _]].
Qed.

Lemma neck_vertex_zones yn xn is_front :
  "neck" ∈ vertex_zones yn xn is_front →
  vertex_zones yn xn is_front = ["neck"].
Proof.
  unfold vertex_zones. destruct (fltq yn 0.10); [done|].
  destruct (negb is_front); [by intros ?%elem_of_nil|].
  intros Hin. exfalso.
  pose proof (elem_of_sublist _ _ _ Hin (face_zones_order yn xn)) as H.
  revert H. apply (bool_decide_unpack _). by vm_compute.
Qed.

(** *** A mesh without height or without width *)

Lemma vertex_zones_nan_y xn is_front : vertex_zones NaN xn is_front = [].
Proof. by destruct is_front. Qed.

Lemma vertex_zones_nan_x yn is_front k :
  k ∈ vertex_zones yn NaN is_front →
  k ∈ ["neck"; "full_face"; "forehead"; "forehead_center"].
Proof.
  unfold vertex_zones, face_zones, features_zones, forehead_zones,
    brows_zones, eyes_zones, eye_left_zones, eye_right_zones,
    under_eye_zones, nose_bridge_zones, nose_tip_zones, nostrils_zones,
    cheeks_zones, nasolabial_zones, lips_zones, chin_zones, jaw_zones,
    temples_zones, ears_zones.
  change (fabs NaN) with NaN.
  repeat match goal with
  | |- context [fgtq NaN ?c] => change (fgtq NaN c) with false
  | |- context [fltq NaN ?c] => change (fltq NaN c) with false
  | |- context [between ?lo NaN ?hi] => change (between lo NaN hi) with false
  end.
  rewrite !andb_false_r. cbn [app].
  repeat match goal with
  | |- context [if ?c then _ else _] => destruct c
  end;
  cbn [app]; intros Hk;
  repeat (apply elem_of_cons in Hk as [->|Hk]; [solve_name|]);
  by apply elem_of_nil in Hk.
Qed.

Lemma foldl_Qmin2_elem q a : foldl Qmin2 q a ∈ q :: a.
Proof.
  revert q. induction a as [|e a IH]; intros q; [by left|].
  cbn [foldl]. specialize (IH (Qmin2 q e)).
  apply elem_of_cons in IH as [->|?]; [|by right; right].
  unfold Qmin2. destruct (Qle_bool q e); [by left|by right; left].
Qed.

Lemma foldl_Qmax2_elem q a : foldl Qmax2 q a ∈ q :: a.
Proof.
  revert q. induction a as [|e a IH]; intros q; [by left|].
  cbn [foldl]. specialize (IH (Qmax2 q e)).
  apply elem_of_cons in IH as [->|?]; [|by right; right].
  unfold Qmax2. destruct (Qle_bool q e); [by right; left|by left].
Qed.

Lemma np_min_elem a m : np_min a = Some m → m ∈ a.
Proof. destruct a; [done|]. intros [= <-]. apply foldl_Qmin2_elem. Qed.

Lemma np_max_elem a m : np_max a = Some m → m ∈ a.
Proof. destruct a; [done|]. intros [= <-]. apply foldl_Qmax2_elem. Qed.

(** When all values of a column are equal, its least and its greatest
    value are that value. *)
Lemma np_min_max_flat (f : vertex → Q) v lo hi :
  (∀ p q, p ∈ v → q ∈ v → (f p == f q)%Q) →
  np_min (f <$> v) = Some lo → np_max (f <$> v) = Some hi →
  ∀ p, p ∈ v → (f p == lo)%Q ∧ (f p == hi)%Q.
Proof.
  intros Hflat Hlo Hhi p Hp.
  apply np_min_elem, list_elem_of_fmap in Hlo as (plo & -> & ?).
  apply np_max_elem, list_elem_of_fmap in Hhi as (phi & -> & ?).
  split; by apply Hflat.
Qed.

Lemma bounding_box_Some v b :
  bounding_box v = Some b →
  ∃ y_min y_max x_min x_max,
    np_min (vy <$> v) = Some y_min ∧ np_max (vy <$> v) = Some y_max ∧
    np_min (vx <$> v) = Some x_min ∧ np_max (vx <$> v) = Some x_max ∧
    bx_y_min b = y_min ∧ bx_y_range b = (y_max - y_min)%Q ∧
    bx_midline b = ((x_min + x_max) / 2.0)%Q ∧
    bx_x_range b = (x_max - x_min)%Q.
Proof.
  unfold bounding_box. cbv zeta. intros H.
  apply bind_Some in H as (y_min & Hymin & H).
  apply bind_Some in H as (y_max & Hymax & H).
  apply bind_Some in H as (x_min & Hxmin & H).
  apply bind_Some in H as (x_max & Hxmax & H).
  apply bind_Some in H as (z_min & _ & H).
  apply bind_Some in H as (z_max & _ & H).
  simplify_eq. by exists y_min, y_max, x_min, x_max.
Qed.

Lemma norm_y_flat v b :
  bounding_box v = Some b →
  (∀ p q, p ∈ v → q ∈ v → (vy p == vy q)%Q) →
  ∀ p, p ∈ v → norm_y b p = NaN.
Proof.
  intros Hb Hflat p Hp. apply bounding_box_Some in Hb
    as (y_min & y_max & _ & _ & Hlo & Hhi & _ & _ & Hmin & Hrange & _).
  destruct (np_min_max_flat vy v y_min y_max Hflat Hlo Hhi p Hp) as [H1 H2].
  unfold norm_y. rewrite Hmin, Hrange. apply fdiv_zero_zero; lra.
Qed.

Lemma norm_x_flat v b :
  bounding_box v = Some b →
  (∀ p q, p ∈ v → q ∈ v → (vx p == vx q)%Q) →
  ∀ p, p ∈ v → norm_x b p = NaN.
Proof.
  intros Hb Hflat p Hp. apply bounding_box_Some in Hb
    as (_ & _ & x_min & x_max & _ & _ & Hlo & Hhi & _ & _ & Hmid & Hrange).
  destruct (np_min_max_flat vx v x_min x_max Hflat Hlo Hhi p Hp) as [H1 H2].
  unfold norm_x. rewrite Hmid, Hrange. apply fdiv_zero_zero.
  - rewrite <-H1, <-H2. field.
  - rewrite <-H1, <-H2. field.
Qed.

Lemma vertex_at_elem_of v i vert : vertex_at v i = Some vert → vert ∈ v.
Proof.
  unfold vertex_at. destruct (0 <=? i); [|done].
  apply list_elem_of_lookup_2.
Qed.

(** ** The zone tree of the subdivider *)

(** Two different zone names. *)
Ltac name_ne := apply (bool_decide_unpack _); vm_compute; exact I.

(** A lookup in a zone map written as a chain of assignments. *)
Ltac lookup_inserts :=
  repeat first
    [ rewrite lookup_insert_eq
    | rewrite lookup_insert_ne by name_ne ].

Lemma where_x_where_y a idx mask : where_x a idx mask = where_y a idx mask.
Proof. reflexivity. Qed.

Lemma where_y_nil a mask : where_y a [] mask = Some [].
Proof. reflexivity. Qed.

(** The selections above and not above a threshold divide the array. *)
Lemma where_y_split a c t up lw :
  where_y a c (λ ys, vgt ys t) = Some up →
  where_y a c (λ ys, vle ys t) = Some lw →
  up ++ lw ≡ₚ c.
Proof.
  unfold where_y. intros H1 H2.
  apply bind_Some in H1 as (ys & Hys & H1). rewrite Hys in H2.
  cbn [mbind option_bind] in H2. simplify_eq. rewrite <-vnot_vgt.
  apply np_select_vnot_Permutation. unfold vgt. rewrite length_fmap.
  by eapply np_take_length.
Qed.

Lemma where_y_filter a c (g : Q → bool) l :
  where_y a c (λ ys, g <$> ys) = Some l →
  l = filter (λ i, holds_at a g i) c ∧ indexable (length a) c.
Proof.
  unfold where_y. intros H. apply bind_Some in H as (ys & Hys & H).
  simplify_eq. split; [by apply np_select_filter|].
  by eapply np_take_indexable.
Qed.

Lemma holds_at_indexable a g i :
  - Z.of_nat (length a) ≤ i < Z.of_nat (length a) →
  ∃ q, np_index a i = Some q ∧ holds_at a g i = g q.
Proof.
  intros Hi. destruct (np_index_is_Some a i Hi) as [q Hq]. exists q.
  split; [done|]. unfold holds_at. by rewrite Hq.
Qed.

(** Three selections of which every value is in exactly one divide the
    array. *)
Lemma filter3_Permutation {A} (P1 P2 P3 : A → Prop)
    `{∀ x, Decision (P1 x)} `{∀ x, Decision (P2 x)} `{∀ x, Decision (P3 x)}
    (l : list A) :
  Forall (λ x, (P1 x ∧ ¬ P2 x ∧ ¬ P3 x) ∨ (¬ P1 x ∧ P2 x ∧ ¬ P3 x) ∨
               (¬ P1 x ∧ ¬ P2 x ∧ P3 x)) l →
  filter P1 l ++ filter P2 l ++ filter P3 l ≡ₚ l.
Proof.
  induction 1 as [|x l Hx Hl IH]; [done|].
  destruct Hx as [(? & ? & ?)|[(? & ? & ?)|(? & ? & ?)]].
  - rewrite (filter_cons_True P1), (filter_cons_False P2),
      (filter_cons_False P3) by done.
    simpl. by rewrite IH.
  - rewrite (filter_cons_False P1), (filter_cons_True P2),
      (filter_cons_False P3) by done.
    cbn [app]. rewrite <-Permutation_middle. by rewrite IH.
  - rewrite (filter_cons_False P1), (filter_cons_False P2),
      (filter_cons_True P3) by done.
    rewrite app_assoc. cbn [app]. rewrite <-Permutation_middle, <-app_assoc.
    by rewrite IH.
Qed.

(** The three bands of [lip_thirds] divide the array when the bounds
    are in order. *)
Lemma where_x_thirds a c lo hi l r m :
  (lo <= hi)%Q →
  where_x a c (λ xs, vgt xs hi) = Some l →
  where_x a c (λ xs, vlt xs lo) = Some r →
  where_x a c (λ xs, vand (vge xs lo) (vle xs hi)) = Some m →
  l ++ r ++ m ≡ₚ c.
Proof.
  intros Hle Hl Hr Hm. rewrite where_x_where_y in Hl, Hr, Hm.
  apply where_y_filter in Hl as [-> Hidx].
  apply where_y_filter in Hr as [-> _].
  assert (where_y a c (λ xs, (λ q, Qgeb q lo && Qleb q hi) <$> xs) = Some m)
    as Hm'.
  { rewrite <-Hm. unfold where_y. destruct (np_take a c); [|done].
    cbn [mbind option_bind]. unfold vge, vle. by rewrite vand_fmap. }
  apply where_y_filter in Hm' as [-> _].
  apply filter3_Permutation. eapply Forall_impl; [exact Hidx|].
  intros i Hi. cbv beta.
  destruct (holds_at_indexable a (λ q, Qgtb q hi) i Hi) as (q & Hq & ->).
  unfold holds_at. rewrite Hq. cbn [from_option].
  rewrite !Is_true_true, andb_true_iff.
  rewrite Qgtb_true, Qltb_true, Qgeb_true, Qleb_true.
  destruct (Qlt_le_dec hi q); [left; lra|].
  destruct (Qlt_le_dec q lo); [right; left; lra|].
  right; right. lra.
Qed.

(** Take a successful run of a stage apart and keep the selections as
    equations. *)
Ltac steps :=
  repeat match goal with
  | H : Some _ = Some _ |- _ => apply (inj Some) in H; subst
  | H : None = Some _ |- _ => discriminate H
  | H : (if negb ?c then _ else _) = Some _ |- _ =>
      destruct c eqn:?; cbn [negb] in H
  | H : (if ?c then _ else _) = Some _ |- _ => destruct c eqn:?
  | H : (_ ≫= _) = Some _ |- _ => apply bind_Some in H as (? & ? & H)
  | H : (let '(_, _) := ?p in _) = Some _ |- _ => destruct p eqn:?
  end.

Lemma zone_list_insert (r : zones) k l : zone_list (<[k := l]> r) k = l.
Proof. unfold zone_list. by rewrite lookup_insert_eq. Qed.

Lemma zone_list_insert_ne (r : zones) k k' l :
  k ≠ k' → zone_list (<[k := l]> r) k' = zone_list r k'.
Proof. intros. unfold zone_list. by rewrite lookup_insert_ne. Qed.

Lemma zone_list_lookup (r : zones) k l : r !! k = Some l → zone_list r k = l.
Proof. unfold zone_list. by intros ->. Qed.

(** The zone list of a literal name in a chain of assignments. *)
Ltac zone_lists_of :=
  unfold zone_lists; cbn [fmap list_fmap concat];
  repeat first
    [ rewrite zone_list_insert
    | rewrite zone_list_insert_ne by name_ne ].

Lemma sorted_sublist_subseteq s l : sublist s l → sorted s ⊆ sorted l.
Proof.
  intros Hs i. rewrite !elem_of_sorted. by apply sublist_subseteq.
Qed.

Section Blocks.
Context (a : list Q).

(** A block that divides [c] in the part above [t] and the rest. *)
Lemma split_block c t ku kl (R R' : zones) :
  (if nonempty c then
     up ← where_y a c (λ ys, vgt ys t);
     lw ← where_y a c (λ ys, vle ys t);
     Some (<[kl := sorted lw]> (<[ku := sorted up]> R))
   else Some R) = Some R' →
  ku ≠ kl → R !! ku = Some [] → R !! kl = Some [] →
  ∃ up lw, R' = <[kl := sorted lw]> (<[ku := sorted up]> R) ∧
           up ++ lw ≡ₚ c.
Proof.
  intros H Hne Hu Hl. destruct c as [|i c]; cbn [nonempty] in H.
  - assert (R' = R) as -> by congruence. exists [], []. split; [|done]. rewrite sorted_nil.
    rewrite (insert_id R ku) by done. by rewrite insert_id.
  - apply bind_Some in H as (up & Hup & H).
    apply bind_Some in H as (lw & Hlw & H). simplify_eq.
    exists up, lw. split; [done|]. by eapply where_y_split.
Qed.

(** A block that selects a part of [c]. *)
Lemma part_block c mask k (R R' : zones) :
  (if nonempty c then
     s ← where_y a c mask; Some (<[k := sorted s]> R)
   else Some R) = Some R' →
  R !! k = Some [] →
  ∃ s, R' = <[k := sorted s]> R ∧ sublist s c.
Proof.
  intros H Hk. destruct c as [|i c]; cbn [nonempty] in H.
  - assert (R' = R) as -> by congruence. exists []. split; [|done]. rewrite sorted_nil.
    by rewrite insert_id.
  - apply bind_Some in H as (s & Hs & H). simplify_eq.
    exists s. split; [done|]. by eapply where_y_sublist.
Qed.

(** The three bands of one lip. *)
Lemma lip_thirds_layout lip lo hi n1 n2 n3 (R R' : zones) :
  lip_thirds a lip lo hi n1 n2 n3 R = Some R' →
  (lo <= hi)%Q → n1 ≠ n2 → n1 ≠ n3 → n2 ≠ n3 →
  R !! n1 = Some [] → R !! n2 = Some [] → R !! n3 = Some [] →
  ∃ l r c,
    R' = <[n3 := sorted c]> (<[n2 := sorted r]> (<[n1 := sorted l]> R)) ∧
    l ++ r ++ c ≡ₚ lip.
Proof.
  unfold lip_thirds. intros H Hle H12 H13 H23 H1 H2 H3.
  destruct lip as [|i lip]; cbn [nonempty] in H.
  - assert (R' = R) as -> by congruence. exists [], [], []. split; [|done]. rewrite sorted_nil.
    rewrite (insert_id R n1) by done. rewrite (insert_id R n2) by done.
    by rewrite insert_id.
  - cbv zeta in H.
    apply bind_Some in H as (l & Hl & H).
    apply bind_Some in H as (r & Hr & H).
    apply bind_Some in H as (c & Hc & H). simplify_eq.
    exists l, r, c. split; [done|]. by eapply where_x_thirds.
Qed.
End Blocks.

(** *** The tree in the zones of one stage *)

(** In [r], every sub-zone of [subs] lies in its zone and every zone of
    [parts] is divided by its sub-zones. *)
Definition tree_holds (subs : list (string * string))
    (parts : list (string * list string)) (r : zones) : Prop :=
  Forall (λ cp, zone_list r cp.1 ⊆ zone_list r cp.2) subs ∧
  Forall (λ row, zone_lists r row.2 ≡ₚ zone_list r row.1) parts.

Definition row_keys (subs : list (string * string))
    (parts : list (string * list string)) : list string :=
  subs.*1 ++ subs.*2 ++ parts.*1 ++ concat parts.*2.

Lemma tree_holds_agree subs parts (r r' : zones) :
  (∀ k, k ∈ row_keys subs parts → r !! k = r' !! k) →
  tree_holds subs parts r' → tree_holds subs parts r.
Proof.
  intros Hagree [Hs Hp].
  assert (∀ k, k ∈ row_keys subs parts → zone_list r k = zone_list r' k)
    as Hzl.
  { intros k Hk. unfold zone_list. by rewrite Hagree. }
  unfold row_keys in Hzl. split.
  - rewrite Forall_forall in Hs |- *. intros [c p] Hcp. cbn [fst snd].
    rewrite !Hzl; [by apply (Hs (c, p))|..].
    + rewrite !elem_of_app. right; left.
      apply list_elem_of_fmap. by exists (c, p).
    + rewrite !elem_of_app. left.
      apply list_elem_of_fmap. by exists (c, p).
  - rewrite Forall_forall in Hp |- *. intros [p ks] Hrow. cbn [fst snd].
    rewrite Hzl.
    2:{ rewrite !elem_of_app. right; right; left.
        apply list_elem_of_fmap. by exists (p, ks). }
    assert (zone_lists r ks = zone_lists r' ks) as ->;
      [|by apply (Hp (p, ks))].
    unfold zone_lists. f_equal. apply list_fmap_ext.
    intros _ k Hk%list_elem_of_lookup_2. apply Hzl.
    rewrite !elem_of_app. right; right; right.
    apply list_elem_of_In, in_concat. exists ks.
    split; apply list_elem_of_In; [|done].
    apply list_elem_of_fmap. by exists (p, ks).
Qed.

Lemma tree_holds_app subs1 subs2 parts1 parts2 r :
  tree_holds subs1 parts1 r → tree_holds subs2 parts2 r →
  tree_holds (subs1 ++ subs2) (parts1 ++ parts2) r.
Proof. intros [??] [??]. split; by apply Forall_app. Qed.

Lemma tree_holds_subseteq subs parts subs' parts' r :
  subs' ⊆ subs → parts' ⊆ parts →
  tree_holds subs parts r → tree_holds subs' parts' r.
Proof.
  intros Hs Hp [H1 H2]. rewrite Forall_forall in H1.
  rewrite Forall_forall in H2.
  split; apply Forall_forall; intros; [apply H1|apply H2]; auto.
Qed.

Lemma Permutation_subseteq_l (l k m : list Z) : l ++ k ≡ₚ m → l ⊆ m.
Proof. intros H i Hi. rewrite <-H. apply elem_of_app. by left. Qed.

Lemma Permutation_subseteq_r (l k m : list Z) : l ++ k ≡ₚ m → k ⊆ m.
Proof. intros H i Hi. rewrite <-H. apply elem_of_app. by right. Qed.

Lemma sorted_app_Permutation l k m :
  l ++ k ≡ₚ m → sorted l ++ sorted k ++ [] ≡ₚ sorted m.
Proof. intros H. by rewrite app_nil_r, !sorted_Permutation. Qed.

Lemma sorted_app3_Permutation l k j m :
  l ++ k ++ j ≡ₚ m → sorted l ++ sorted k ++ sorted j ++ [] ≡ₚ sorted m.
Proof. intros H. by rewrite app_nil_r, !sorted_Permutation. Qed.

Lemma sorted_subseteq_l l k m : l ++ k ≡ₚ m → sorted l ⊆ sorted m.
Proof.
  intros H i. rewrite !elem_of_sorted, <-H, elem_of_app. by left.
Qed.

Lemma sorted_subseteq_r l k m : l ++ k ≡ₚ m → sorted k ⊆ sorted m.
Proof.
  intros H i. rewrite !elem_of_sorted, <-H, elem_of_app. by right.
Qed.

Lemma _percentile_x_mono (x : list Q) idx p q a b :
  _percentile_x x idx p = Some a → _percentile_x x idx q = Some b →
  0 ≤ p → p ≤ q → q ≤ 100 → (a <= b)%Q.
Proof.
  unfold _percentile_x. intros Ha Hb ???.
  destruct idx as [|i idx]; cbn [nonempty negb] in *.
  { simplify_eq. lra. }
  apply bind_Some in Ha as (xs & Hxs & Ha). rewrite Hxs in Hb.
  cbn [mbind option_bind] in Hb. simplify_eq.
  apply np_percentile_mono; [|done..].
  apply np_take_length in Hxs. by destruct xs.
Qed.

Lemma thirds_in_order (lo hi : Q) :
  (lo <= hi)%Q → (lo + (hi - lo) / 3.0 <= hi - (hi - lo) / 3.0)%Q.
Proof.
  intros. assert (/ 3.0 == 1 # 3)%Q as E by (vm_compute; reflexivity).
  unfold Qdiv. rewrite E. lra.
Qed.

Section StageTree.
Context (x y : list Q).
Context (nose_idx lips_idx forehead_idx face_remainder : list Z).
Context (nose_med_y midline_x : Q).

Definition nose_subs : list (string * string) :=
  [ ("nose_dorsum", "nose_bridge"); ("nose_bridge", "nose_dorsum");
    ("nose_bridge_upper", "nose_bridge"); ("nose_bridge_lower", "nose_bridge");
    ("nose_tip_left", "nose_tip"); ("nose_tip_right", "nose_tip") ].

Definition nose_parts : list (string * list string) :=
  [ ("nose_bridge", ["nose_dorsum"]);
    ("nose_bridge", ["nose_bridge_upper"; "nose_bridge_lower"]);
    ("nose_tip", ["nose_tip_left"; "nose_tip_right"]) ].

Lemma nose_stage_tree r r' :
  nose_stage x y nose_idx nose_med_y midline_x r = Some r' →
  (∀ k, k ∈ nose_keys → r !! k = Some []) →
  tree_holds nose_subs nose_parts r'.
Proof.
  unfold nose_stage. intros H Hpre.
  assert (∀ k, k ∈ nose_keys → zone_list r k = []) as Hnil.
  { intros k Hk. apply zone_list_lookup. by apply Hpre. }
  destruct (nonempty nose_idx).
  2:{ assert (r' = r) as -> by congruence.
      split; repeat apply Forall_cons_2; try apply Forall_nil_2;
        cbn [fst snd]; unfold zone_lists; cbn [fmap list_fmap concat];
        rewrite !Hnil by solve_name; done. }
  cbv zeta in H.
  apply bind_Some in H as (nose_y_lo & _ & H).
  apply bind_Some in H as (nose_y_hi & _ & H).
  apply bind_Some in H as (nose_x_lo & _ & H).
  apply bind_Some in H as (nose_x_hi & _ & H).
  apply bind_Some in H as (bridge & _ & H).
  apply bind_Some in H as (bridge_mid_y & _ & H).
  apply bind_Some in H as (r2 & Hb & H).
  apply bind_Some in H as (tip0 & _ & H).
  apply bind_Some in H as (tip & _ & H).
  apply bind_Some in H as (r4 & Ht & H).
  apply bind_Some in H as (nostril & _ & H).
  apply split_block in Hb as (up & lw & -> & Hbridge);
    [|name_ne|lookup_inserts; apply Hpre; solve_name..].
  apply (split_block x) in Ht as (tl & tr & -> & Htip);
    [|name_ne|lookup_inserts; apply Hpre; solve_name..].
  assert (∃ nl nr, r' = <["nostril_right" := nr]> (<["nostril_left" := nl]>
            (<["nose_tip_right" := sorted tr]> (<["nose_tip_left" := sorted tl]>
            (<["nose_tip" := sorted tip]>
            (<["nose_bridge_lower" := sorted lw]>
            (<["nose_bridge_upper" := sorted up]>
            (<["nose_dorsum" := sorted bridge]>
            (<["nose_bridge" := sorted bridge]> r)))))))))
    as (nl & nr & ->).
  { destruct (nonempty nostril).
    - apply bind_Some in H as (nl & _ & H).
      apply bind_Some in H as (nr & _ & H). simplify_eq. eauto.
    - assert (r' = <["nose_tip_right" := sorted tr]>
            (<["nose_tip_left" := sorted tl]>
            (<["nose_tip" := sorted tip]>
            (<["nose_bridge_lower" := sorted lw]>
            (<["nose_bridge_upper" := sorted up]>
            (<["nose_dorsum" := sorted bridge]>
            (<["nose_bridge" := sorted bridge]> r))))))) as -> by congruence.
      exists [], []. set (M := <["nose_tip_right" := _]> _).
      assert (∀ k, k ∈ ["nostril_left"; "nostril_right"] →
                   M !! k = Some []) as HM.
      { intros k Hk. subst M.
        apply elem_of_cons in Hk as [->|Hk];
          [lookup_inserts; apply Hpre; solve_name|].
        apply list_elem_of_singleton in Hk as ->.
        lookup_inserts. apply Hpre. solve_name. }
      rewrite (insert_id M "nostril_left") by (apply HM; solve_name).
      rewrite insert_id; [done|]. apply HM. solve_name. }
  clear H.
  split; repeat apply Forall_cons_2; try apply Forall_nil_2;
    cbn [fst snd]; zone_lists_of.
  - done.
  - done.
  - by eapply sorted_subseteq_l.
  - by eapply sorted_subseteq_r.
  - by eapply sorted_subseteq_l.
  - by eapply sorted_subseteq_r.
  - by rewrite app_nil_r.
  - by apply sorted_app_Permutation.
  - by apply sorted_app_Permutation.
Qed.

Definition lips_subs : list (string * string) :=
  [ ("lip_upper_left", "lip_upper"); ("lip_upper_right", "lip_upper");
    ("lip_upper_center", "lip_upper");
    ("lip_lower_left", "lip_lower"); ("lip_lower_right", "lip_lower");
    ("lip_lower_center", "lip_lower") ].

Definition lips_parts : list (string * list string) :=
  [ ("lip_upper", ["lip_upper_left"; "lip_upper_right"; "lip_upper_center"]);
    ("lip_lower", ["lip_lower_left"; "lip_lower_right"; "lip_lower_center"]) ].

Lemma lips_stage_tree r r' :
  lips_stage x y lips_idx r = Some r' →
  (∀ k, k ∈ lips_keys → r !! k = Some []) →
  tree_holds lips_subs lips_parts r'.
Proof.
  unfold lips_stage. intros H Hpre.
  assert (∀ k, k ∈ lips_keys → zone_list r k = []) as Hnil.
  { intros k Hk. apply zone_list_lookup. by apply Hpre. }
  destruct (nonempty lips_idx).
  2:{ assert (r' = r) as -> by congruence.
      split; repeat apply Forall_cons_2; try apply Forall_nil_2;
        cbn [fst snd]; unfold zone_lists; cbn [fmap list_fmap concat];
        rewrite !Hnil by solve_name; done. }
  cbv zeta in H.
  apply bind_Some in H as (lips_y_med & _ & H).
  apply bind_Some in H as (lips_x_lo & Hlo & H).
  apply bind_Some in H as (lips_x_hi & Hhi & H).
  apply bind_Some in H as ([upper lower] & _ & H).
  apply bind_Some in H as (r2 & Hu & H).
  apply bind_Some in H as (r3 & Hl & H).
  apply bind_Some in H as (lips_y & _ & H).
  apply bind_Some in H as (y_hi & _ & H).
  apply bind_Some in H as (y_lo & _ & H).
  apply bind_Some in H as (corner & _ & H).
  assert (lips_x_lo <= lips_x_hi)%Q as Hle.
  { by apply (_percentile_x_mono x lips_idx 5 95). }
  apply thirds_in_order in Hle.
  apply lip_thirds_layout in Hu as (ul & ur & uc & -> & Hupper);
    [|done|name_ne..|lookup_inserts; apply Hpre; solve_name
     |lookup_inserts; apply Hpre; solve_name
     |lookup_inserts; apply Hpre; solve_name].
  apply lip_thirds_layout in Hl as (ll & lr & lc & -> & Hlower);
    [|done|name_ne..|lookup_inserts; apply Hpre; solve_name
     |lookup_inserts; apply Hpre; solve_name
     |lookup_inserts; apply Hpre; solve_name].
  assert (upper ⊆ upper) as _ by done.
  destruct (nonempty corner).
  - apply bind_Some in H as (hi & _ & H).
    apply bind_Some in H as (lo & _ & H).
    apply bind_Some in H as (cl & _ & H).
    apply bind_Some in H as (cr & _ & H).
    apply (inj Some) in H as <-.
    split; repeat apply Forall_cons_2; try apply Forall_nil_2;
      cbn [fst snd]; zone_lists_of;
      try (by apply sorted_app3_Permutation);
      intros i; rewrite !elem_of_sorted;
      [rewrite <-Hupper|rewrite <-Hupper|rewrite <-Hupper
      |rewrite <-Hlower|rewrite <-Hlower|rewrite <-Hlower];
      rewrite !elem_of_app; tauto.
  - apply (inj Some) in H as <-.
    split; repeat apply Forall_cons_2; try apply Forall_nil_2;
      cbn [fst snd]; zone_lists_of;
      try (by apply sorted_app3_Permutation);
      intros i; rewrite !elem_of_sorted;
      [rewrite <-Hupper|rewrite <-Hupper|rewrite <-Hupper
      |rewrite <-Hlower|rewrite <-Hlower|rewrite <-Hlower];
      rewrite !elem_of_app; tauto.
Qed.
End StageTree.

Lemma insert_nil_id (R : zones) k : R !! k = Some [] → <[k := sorted []]> R = R.
Proof. intros. rewrite sorted_nil. by apply insert_id. Qed.

Lemma snoc_Permutation (A B C : list Z) a :
  A ++ (B ++ [a]) ++ C ≡ₚ (A ++ B ++ C) ++ [a].
Proof.
  rewrite <-!app_assoc. f_equiv. f_equiv. apply Permutation_app_comm.
Qed.

Section StageTree2.
Context (x y : list Q).
Context (nose_idx lips_idx forehead_idx face_remainder : list Z).
Context (left_eyeball_idx right_eyeball_idx : list Z).
Context (midline_x : Q).

(** The forehead loop puts every index in one of the thirds. *)
Lemma forehead_loop_thirds lo hi idx r r' :
  for_each (forehead_loop x y lo hi) r idx = Some r' →
  zone_lists r' forehead_thirds ≡ₚ zone_lists r forehead_thirds ++ idx.
Proof.
  revert r. induction idx as [|a idx IH]; intros r Hrun; simplify_eq/=.
  { by rewrite app_nil_r. }
  apply bind_Some in Hrun as (r1 & Hstep & Hrun).
  apply IH in Hrun. rewrite Hrun. clear IH Hrun.
  rewrite (cons_middle a), (app_assoc _ [a]). f_equiv.
  unfold forehead_loop in Hstep.
  apply bind_Some in Hstep as (vx & _ & Hstep).
  apply bind_Some in Hstep as (vy & _ & Hstep).
  unfold zone_append in Hstep.
  repeat match type of Hstep with
         | (if ?c then _ else _) = Some _ => destruct c
         end;
    apply bind_Some in Hstep as (prev & Hprev & Hstep); simplify_eq;
    apply zone_list_lookup in Hprev;
    unfold forehead_thirds; zone_lists_of; rewrite Hprev;
    first [ apply (snoc_Permutation [])
          | apply snoc_Permutation
          | (rewrite !(app_assoc (zone_list r "forehead_left")
                                 (zone_list r "forehead_right"));
             apply snoc_Permutation) ].
Qed.

Lemma forehead_loop_frame lo hi idx r r' k :
  for_each (forehead_loop x y lo hi) r idx = Some r' →
  k ∉ forehead_thirds → r' !! k = r !! k.
Proof.
  intros H Hk. apply forehead_loop_writes in H.
  eapply writes_frame; [exact H|]. by intros l [? _].
Qed.

Definition forehead_subs : list (string * string) :=
  [ ("forehead_left", "forehead"); ("forehead_right", "forehead");
    ("forehead_center", "forehead");
    ("brow_inner_left", "brow_left"); ("brow_inner_right", "brow_right") ].

Definition forehead_parts : list (string * list string) :=
  [ ("forehead", ["forehead_left"; "forehead_right"; "forehead_center"]) ].

Lemma forehead_stage_tree r r' :
  forehead_stage x y forehead_idx midline_x r = Some r' →
  (∀ k, k ∈ forehead_keys → r !! k = Some []) →
  tree_holds forehead_subs forehead_parts r'.
Proof.
  unfold forehead_stage. intros H Hpre.
  assert (∀ k, k ∈ forehead_keys → zone_list r k = []) as Hnil.
  { intros k Hk. apply zone_list_lookup. by apply Hpre. }
  destruct (nonempty forehead_idx).
  2:{ assert (r' = r) as -> by congruence.
      split; repeat apply Forall_cons_2; try apply Forall_nil_2;
        cbn [fst snd]; unfold zone_lists; cbn [fmap list_fmap concat];
        rewrite !Hnil by solve_name; done. }
  cbv zeta in H.
  apply bind_Some in H as (fh_y_med & _ & H).
  apply bind_Some in H as (fh_y_lo & _ & H).
  apply bind_Some in H as (fh_x_lo & _ & H).
  apply bind_Some in H as (fh_x_hi & _ & H).
  apply bind_Some in H as (r1 & Hloop & H).
  apply bind_Some in H as (brow & _ & H).
  apply bind_Some in H as ([bl br] & _ & H).
  apply bind_Some in H as (r3 & Hbl & H).
  apply bind_Some in H as (r4 & Hbr & H).
  apply bind_Some in H as (t_hi & _ & H).
  apply bind_Some in H as (t_lo & _ & H).
  apply bind_Some in H as (ty_lo & _ & H).
  apply bind_Some in H as (ty_hi & _ & H).
  apply bind_Some in H as (temple & _ & H).
  pose proof (forehead_loop_thirds _ _ _ _ _ Hloop) as Hthirds.
  assert (∀ k, k ∉ forehead_thirds →
            r1 !! k = <["forehead" := sorted forehead_idx]> r !! k) as Hframe.
  { intros k Hk. by eapply forehead_loop_frame. }
  assert (∀ k, k ∉ forehead_thirds → zone_list r1 k =
            zone_list (<["forehead" := sorted forehead_idx]> r) k) as Hzl.
  { intros k Hk. unfold zone_list. by rewrite Hframe. }
  clear Hloop.
  apply (part_block x) in Hbl as (il & -> & Hil).
  2:{ lookup_inserts. rewrite Hframe by name_ne. lookup_inserts.
      apply Hpre. solve_name. }
  apply (part_block x) in Hbr as (ir & -> & Hir).
  2:{ lookup_inserts. rewrite Hframe by name_ne. lookup_inserts.
      apply Hpre. solve_name. }
  revert Hthirds. unfold forehead_thirds. zone_lists_of.
  rewrite !Hnil by solve_name. cbn [app]. intros Hthirds.
  assert (∃ tl tr, r' = <["temple_right" := tr]> (<["temple_left" := tl]>
            (<["brow_inner_right" := sorted ir]>
            (<["brow_inner_left" := sorted il]>
            (<["brow_right" := sorted br]>
            (<["brow_left" := sorted bl]> r1)))))) as (tl & tr & ->).
  { destruct (nonempty temple).
    - apply bind_Some in H as (tl & _ & H).
      apply bind_Some in H as (tr & _ & H). simplify_eq. eauto.
    - apply (inj Some) in H as <-. exists [], [].
      set (M := <["brow_inner_right" := _]> _).
      assert (∀ k, k ∈ ["temple_left"; "temple_right"] →
                   M !! k = Some []) as HM.
      { intros k Hk. subst M.
        apply elem_of_cons in Hk as [->|Hk].
        - lookup_inserts. rewrite Hframe by name_ne. lookup_inserts.
          apply Hpre. solve_name.
        - apply list_elem_of_singleton in Hk as ->.
          lookup_inserts. rewrite Hframe by name_ne. lookup_inserts.
          apply Hpre. solve_name. }
      rewrite (insert_id M "temple_left") by (apply HM; solve_name).
      rewrite insert_id; [done|]. apply HM. solve_name. }
  clear H.
  split; repeat apply Forall_cons_2; try apply Forall_nil_2;
    cbn [fst snd]; zone_lists_of;
    try rewrite (Hzl "forehead") by name_ne; zone_lists_of.
  - intros i Hi. rewrite elem_of_sorted, <-Hthirds, !elem_of_app. tauto.
  - intros i Hi. rewrite elem_of_sorted, <-Hthirds, !elem_of_app. tauto.
  - intros i Hi. rewrite elem_of_sorted, <-Hthirds, !elem_of_app. tauto.
  - by apply sorted_sublist_subseteq.
  - by apply sorted_sublist_subseteq.
  - by rewrite sorted_Permutation.
Qed.

(** The tear trough lies in the under-eye zone. *)
Lemma eye_turn_tree side eye_idx pu pl ci co ue tt r r' :
  eye_turn x y left_eyeball_idx right_eyeball_idx side eye_idx
    pu pl ci co ue tt r = Some r' →
  tt ∉ [pu; pl; ci; co; ue] → r !! tt = Some [] →
  zone_list r' tt ⊆ zone_list r' ue.
Proof.
  unfold eye_turn. intros H Htt Hpre.
  assert (tt ≠ pu ∧ tt ≠ pl ∧ tt ≠ ci ∧ tt ≠ co ∧ tt ≠ ue)
    as (? & ? & ? & ? & ?).
  { split_and!; intros ->; apply Htt; in_list. }
  destruct (nonempty eye_idx); cbn [negb] in H.
  2:{ assert (r' = r) as -> by congruence.
      rewrite (zone_list_lookup r tt []) by done. by intros i ?%elem_of_nil. }
  cbv zeta in H.
  apply bind_Some in H as (eye_med_y & _ & H).
  apply bind_Some in H as (eye_med_x & _ & H).
  apply bind_Some in H as (eye_x_lo & _ & H).
  apply bind_Some in H as (eye_x_hi & _ & H).
  apply bind_Some in H as (eye_y_lo & _ & H).
  apply bind_Some in H as (eye_y_hi & _ & H).
  apply bind_Some in H as ([upper lower] & _ & H).
  apply bind_Some in H as (band & _ & H).
  apply bind_Some in H as (r3 & Hc & H).
  assert (r3 !! tt = Some []) as Htt3.
  { destruct (nonempty band).
    - destruct side;
        apply bind_Some in Hc as (? & _ & Hc);
        apply bind_Some in Hc as (? & _ & Hc);
        apply bind_Some in Hc as (? & _ & Hc);
        apply bind_Some in Hc as (? & _ & Hc);
        apply (inj Some) in Hc as <-;
        by rewrite !lookup_insert_ne by done.
    - apply (inj Some) in Hc as <-. by rewrite !lookup_insert_ne by done. }
  destruct (nonempty lower).
  - apply bind_Some in H as (ue_med_x & _ & H).
    destruct side; apply bind_Some in H as (t & Ht & H);
      apply (inj Some) in H as <-;
      rewrite zone_list_insert, zone_list_insert_ne, zone_list_insert by done;
      apply sorted_sublist_subseteq; by eapply where_x_sublist.
  - apply (inj Some) in H as <-.
    rewrite zone_list_insert_ne by done.
    rewrite (zone_list_lookup r3 tt []) by done. by intros i ?%elem_of_nil.
Qed.

(** The three parts of the chin. *)
Lemma chin_block c f g h (R R' : zones) :
  (if nonempty c then
     ce ← where_x x c f;
     l ← where_x x c g;
     rr ← where_x x c h;
     Some (<["chin_right" := sorted rr]> (<["chin_left" := sorted l]>
          (<["chin_center" := sorted ce]> R)))
   else Some R) = Some R' →
  (∀ k, k ∈ ["chin_center"; "chin_left"; "chin_right"] → R !! k = Some []) →
  ∃ ce l rr,
    R' = <["chin_right" := sorted rr]> (<["chin_left" := sorted l]>
           (<["chin_center" := sorted ce]> R)) ∧
    sublist ce c ∧ sublist l c ∧ sublist rr c.
Proof.
  intros H Hpre. destruct c as [|i c]; cbn [nonempty] in H.
  - assert (R' = R) as -> by congruence. exists [], [], [].
    split; [|done]. rewrite sorted_nil.
    rewrite (insert_id R "chin_center") by (apply Hpre; solve_name).
    rewrite (insert_id R "chin_left") by (apply Hpre; solve_name).
    rewrite insert_id; [done|]. apply Hpre. solve_name.
  - apply bind_Some in H as (ce & Hce & H).
    apply bind_Some in H as (l & Hl & H).
    apply bind_Some in H as (rr & Hrr & H). simplify_eq.
    exists ce, l, rr. split; [done|].
    split_and!; by eapply where_x_sublist.
Qed.

Lemma jawline_layout jaw name (R R' : zones) :
  jawline y jaw name R = Some R' → R !! name = Some [] →
  ∃ s, R' = <[name := sorted s]> R ∧ sublist s jaw.
Proof.
  unfold jawline. intros H Hpre. destruct jaw as [|i jaw]; cbn [nonempty] in H.
  - assert (R' = R) as -> by congruence. exists []. split; [|done].
    rewrite sorted_nil. by rewrite insert_id.
  - apply bind_Some in H as (t & _ & H).
    apply bind_Some in H as (s & Hs & H). simplify_eq.
    exists s. split; [done|]. by eapply where_y_sublist.
Qed.

Definition face_subs : list (string * string) :=
  [ ("cheekbone_left", "cheek_left"); ("cheek_hollow_left", "cheek_left");
    ("cheekbone_right", "cheek_right"); ("cheek_hollow_right", "cheek_right");
    ("chin_center", "chin"); ("chin_left", "chin"); ("chin_right", "chin");
    ("jawline_left", "jaw_left"); ("jawline_right", "jaw_right") ].

Definition face_parts : list (string * list string) :=
  [ ("cheek_left", ["cheekbone_left"; "cheek_hollow_left"]);
    ("cheek_right", ["cheekbone_right"; "cheek_hollow_right"]) ].

Lemma face_stage_tree r r' :
  face_stage x y nose_idx lips_idx face_remainder midline_x r = Some r' →
  (∀ k, k ∈ face_keys → r !! k = Some []) →
  tree_holds face_subs face_parts r'.
Proof.
  unfold face_stage. intros H Hpre.
  assert (∀ k, k ∈ face_keys → zone_list r k = []) as Hnil.
  { intros k Hk. apply zone_list_lookup. by apply Hpre. }
  destruct (nonempty face_remainder).
  2:{ assert (r' = r) as -> by congruence.
      split; repeat apply Forall_cons_2; try apply Forall_nil_2;
        cbn [fst snd]; unfold zone_lists; cbn [fmap list_fmap concat];
        rewrite !Hnil by solve_name; done. }
  cbv zeta in H.
  apply bind_Some in H as (fr_y & _ & H).
  apply bind_Some in H as (fr_x & _ & H).
  apply bind_Some in H as (fr_y_lo & _ & H).
  apply bind_Some in H as (fr_y_hi & _ & H).
  apply bind_Some in H as (fr_x_max & _ & H).
  apply bind_Some in H as (fr_x_min & _ & H).
  apply bind_Some in H as (r2 & Hchin & H).
  apply bind_Some in H as ([jl jr] & _ & H).
  apply bind_Some in H as (r4 & Hjl & H).
  apply bind_Some in H as (r5 & Hjr & H).
  apply bind_Some in H as ([cl cr] & _ & H).
  apply bind_Some in H as (cheek_mid_y & _ & H).
  apply bind_Some in H as (r7 & Hcl & H).
  apply bind_Some in H as (r8 & Hcr & H).
  apply chin_block in Hchin as (ce & l & rr & -> & Hce & Hl & Hrr).
  2:{ intros k Hk. rewrite lookup_insert_ne.
      - apply Hpre. revert k Hk. solve_names.
      - intros <-. revert Hk. apply (bool_decide_unpack _). vm_compute. exact I. }
  apply jawline_layout in Hjl as (sl & -> & Hsl);
    [|lookup_inserts; apply Hpre; solve_name].
  apply jawline_layout in Hjr as (sr & -> & Hsr);
    [|lookup_inserts; apply Hpre; solve_name].
  unfold cheek_split in Hcl, Hcr. cbv zeta in Hcl, Hcr.
  apply split_block in Hcl as (bl & hl & -> & Hleft);
    [|name_ne|lookup_inserts; apply Hpre; solve_name..].
  apply split_block in Hcr as (br & hr & -> & Hright);
    [|name_ne|lookup_inserts; apply Hpre; solve_name..].
  assert (∃ nl nr, r' = <["nasolabial_right" := nr]>
            (<["nasolabial_left" := nl]>
            (<["cheek_hollow_right" := sorted hr]>
            (<["cheekbone_right" := sorted br]>
            (<["cheek_hollow_left" := sorted hl]>
            (<["cheekbone_left" := sorted bl]>
            (<["cheek_right" := sorted cr]>
            (<["cheek_left" := sorted cl]>
            (<["jawline_right" := sorted sr]>
            (<["jawline_left" := sorted sl]>
            (<["jaw_right" := sorted jr]>
            (<["jaw_left" := sorted jl]>
            (<["chin_right" := sorted rr]>
            (<["chin_left" := sorted l]>
            (<["chin_center" := sorted ce]>
            (<["chin" := sorted
                 (np_select face_remainder
                    (vand (vle fr_y (fr_y_lo + (fr_y_hi - fr_y_lo) * 0.25))
                       (vlt (vabsdiff fr_x midline_x)
                          ((fr_x_max - fr_x_min) * 0.25))))]> r))))))))))))))))
    as (nl & nr & ->).
  { destruct (nonempty nose_idx && nonempty lips_idx).
    - apply bind_Some in H as (? & _ & H).
      apply bind_Some in H as (? & _ & H).
      apply bind_Some in H as (? & _ & H).
      apply bind_Some in H as (? & _ & H).
      apply bind_Some in H as ([nl nr] & _ & H).
      apply (inj Some) in H as <-. eauto.
    - apply (inj Some) in H as <-. exists [], [].
      set (M := <["cheek_hollow_right" := _]> _).
      assert (∀ k, k ∈ ["nasolabial_left"; "nasolabial_right"] →
                   M !! k = Some []) as HM.
      { intros k Hk. subst M.
        apply elem_of_cons in Hk as [->|Hk];
          [lookup_inserts; apply Hpre; solve_name|].
        apply list_elem_of_singleton in Hk as ->.
        lookup_inserts. apply Hpre. solve_name. }
      rewrite (insert_id M "nasolabial_left") by (apply HM; solve_name).
      rewrite insert_id; [done|]. apply HM. solve_name. }
  clear H.
  split; repeat apply Forall_cons_2; try apply Forall_nil_2;
    cbn [fst snd]; zone_lists_of.
  - by eapply sorted_subseteq_l.
  - by eapply sorted_subseteq_r.
  - by eapply sorted_subseteq_l.
  - by eapply sorted_subseteq_r.
  - by apply sorted_sublist_subseteq.
  - by apply sorted_sublist_subseteq.
  - by apply sorted_sublist_subseteq.
  - by apply sorted_sublist_subseteq.
  - by apply sorted_sublist_subseteq.
  - by apply sorted_app_Permutation.
  - by apply sorted_app_Permutation.
Qed.
End StageTree2.

(** A zone that the later stages leave alone. *)
Ltac frame_step :=
  match goal with
  | W : writes (zone_from _ _) ?r ?r' |- context [?r' !! ?k] =>
      rewrite (writes_zone_from_frame _ _ r r' k W) by name_ne
  | |- context [pass_stage _ _ _ _ !! _] =>
      unfold pass_stage; cbv zeta; rewrite !lookup_insert_ne by name_ne
  end.

(** One goal per name of a literal list. *)
Ltac each_name tac :=
  let k := fresh "k" in
  let Hk := fresh "Hk" in
  intros k Hk;
  repeat (apply elem_of_cons in Hk as [->|Hk]; [tac|]);
  apply elem_of_nil in Hk; destruct Hk.

Ltac untouched :=
  repeat frame_step; rewrite init_regions_lookup;
  rewrite bool_decide_eq_true_2 by solve_name; reflexivity.

Section Tree.
Context (x y : list Q).
Context (nose_idx lips_idx forehead_idx left_eye_idx right_eye_idx
         neck_idx left_ear_idx right_ear_idx scalp_idx
         left_eyeball_idx right_eyeball_idx face_remainder : list Z).
Context (nose_med_y midline_x : Q).

Definition eye_subs : list (string * string) :=
  [ ("tear_trough_left", "under_eye_left");
    ("tear_trough_right", "under_eye_right") ].

(** The zones before [full_face] form the tree. *)
Lemma before_full_face_tree r7 :
  before_full_face x y nose_idx lips_idx forehead_idx
    left_eye_idx right_eye_idx neck_idx left_ear_idx right_ear_idx
    scalp_idx left_eyeball_idx right_eyeball_idx face_remainder
    nose_med_y midline_x r7 →
  tree_holds sub_zones zone_partitions r7.
Proof.
  intros (r1 & r2 & r3 & r4 & r5 & r6 & H1 & H2 & H3 & H4 & H5 & H6 & H7).
  assert (∀ k, k ∈ forehead_keys → init_regions !! k = Some []) as P1.
  { intros k Hk. rewrite init_regions_lookup.
    rewrite bool_decide_eq_true_2; [done|]. revert k Hk. solve_names. }
  pose proof H1 as W1. apply forehead_stage_writes in W1.
  2:{ intros k Hk. apply P1. revert k Hk. solve_names. }
  pose proof H2 as W2. apply eye_turn_writes in W2.
  pose proof H3 as W3. apply eye_turn_writes in W3.
  pose proof H4 as W4. apply nose_stage_writes in W4.
  pose proof H5 as W5. apply lips_stage_writes in W5.
  pose proof H6 as W6. apply face_stage_writes in W6.
  apply scalp_stage_writes in H7. rename H7 into W7.
  apply forehead_stage_tree in H1; [|done].
  apply eye_turn_tree in H2; [|name_ne|untouched].
  apply eye_turn_tree in H3; [|name_ne|untouched].
  apply nose_stage_tree in H4; [|each_name untouched].
  apply lips_stage_tree in H5; [|each_name untouched].
  apply face_stage_tree in H6; [|each_name untouched].
  assert (tree_holds eye_subs [] r7) as T23.
  { split; [|constructor]. repeat apply Forall_cons_2; [| |constructor];
      cbn [fst snd]; unfold zone_list in *.
    - revert H2. by repeat frame_step.
    - revert H3. by repeat frame_step. }
  apply (tree_holds_agree _ _ r7) in H1.
  2:{ unfold row_keys, forehead_subs, forehead_parts.
      cbn [fmap list_fmap fst snd concat app].
      each_name ltac:(repeat frame_step; reflexivity). }
  apply (tree_holds_agree _ _ r7) in H4.
  2:{ unfold row_keys, nose_subs, nose_parts.
      cbn [fmap list_fmap fst snd concat app].
      each_name ltac:(repeat frame_step; reflexivity). }
  apply (tree_holds_agree _ _ r7) in H5.
  2:{ unfold row_keys, lips_subs, lips_parts.
      cbn [fmap list_fmap fst snd concat app].
      each_name ltac:(repeat frame_step; reflexivity). }
  apply (tree_holds_agree _ _ r7) in H6.
  2:{ unfold row_keys, face_subs, face_parts.
      cbn [fmap list_fmap fst snd concat app].
      each_name ltac:(repeat frame_step; reflexivity). }
  pose proof (tree_holds_app _ _ _ _ _ H1
    (tree_holds_app _ _ _ _ _ T23
      (tree_holds_app _ _ _ _ _ H4
        (tree_holds_app _ _ _ _ _ H5 H6)))) as T.
  eapply tree_holds_subseteq; [| |exact T].
  - apply (bool_decide_unpack _). vm_compute. exact I.
  - apply (bool_decide_unpack _). vm_compute. exact I.
Qed.
End Tree.

(** *** The tree in a run *)

Lemma subdivide_tree v fm r :
  subdivide_flame_masks_to_clinical_zones v fm = Some r →
  tree_holds sub_zones zone_partitions r.
Proof.
  intros H. apply subdivide_inv in H
    as (_ & nose_med_y & midline_x & r7 & s & Hr7 & -> & _).
  apply before_full_face_tree in Hr7.
  eapply tree_holds_agree; [|exact Hr7].
  unfold row_keys, sub_zones, zone_partitions.
  cbn [fmap list_fmap fst snd concat app].
  each_name ltac:(by rewrite lookup_insert_ne by name_ne).
Qed.

Lemma position_tree v r :
  _position_only_regions v = Some r →
  tree_holds sub_zones position_partitions r.
Proof.
  intros Hrun. pose proof Hrun as Hinv.
  apply _position_only_regions_inv in Hinv as (b & Hb & _).
  split; apply Forall_forall.
  - intros [c p] Hcp i. cbn [fst snd]. by apply (position_sub_zone v r b).
  - intros [p parts] Hrow. cbn [fst snd].
    by apply (position_partition v r b).
Qed.

Lemma clinical_regions_tree v masks r :
  clinical_regions v masks = Some r →
  tree_holds sub_zones zone_partitions r.
Proof.
  destruct masks as [fm|]; cbn [clinical_regions]; intros H.
  - by eapply subdivide_tree.
  - apply position_tree in H.
    eapply tree_holds_subseteq; [done| |exact H].
    unfold position_partitions. intros row Hrow. apply elem_of_app. by left.
Qed.

(** *** Index lists without repetition *)

(** A list of distinct indices below [n] has at most [n] entries. *)
Lemma in_range_length n l : NoDup l → in_range n l → (length l ≤ n)%nat.
Proof.
  intros Hnd Hr.
  assert (l ⊆+ seqZ 0 (Z.of_nat n)) as Hsub.
  { apply NoDup_submseteq; [done|]. intros i Hi.
    unfold in_range in Hr. rewrite Forall_forall in Hr.
    apply elem_of_seqZ. specialize (Hr i Hi). lia. }
  apply submseteq_length in Hsub. rewrite length_seqZ in Hsub. lia.
Qed.

(** ** The entries of the region file *)

Lemma zone_entries_fold (r : zones) names
    (entries : gmap string zone_entry) name :
  foldl (λ entries name,
           let indices := default [] (r !! name) in
           <[name := ZoneEntry indices (length indices)]> entries)
        entries names !! name =
    if bool_decide (name ∈ names)
    then Some (ZoneEntry (default [] (r !! name))
                         (length (default [] (r !! name))))
    else entries !! name.
Proof.
  revert entries. induction names as [|k names IH]; intros entries;
    cbn [foldl]; [done|].
  rewrite IH. cbv zeta. case_bool_decide as Hin.
  - by rewrite bool_decide_eq_true_2 by by right.
  - destruct (decide (name = k)) as [->|Hne].
    + rewrite lookup_insert_eq. by rewrite bool_decide_eq_true_2 by by left.
    + rewrite lookup_insert_ne by done.
      rewrite bool_decide_eq_false_2; [done|].
      intros [?|?]%elem_of_cons; done.
Qed.

Lemma zone_entries_lookup (r : zones) name :
  zone_entries r !! name =
    if bool_decide (name ∈ ALL_CLINICAL_ZONES)
    then Some (ZoneEntry (default [] (r !! name))
                         (length (default [] (r !! name))))
    else None.
Proof. unfold zone_entries. by rewrite zone_entries_fold, lookup_empty. Qed.

Lemma dom_zone_entries (r : zones) : dom (zone_entries r) = zone_names.
Proof.
  apply set_eq. intros name. rewrite elem_of_dom, zone_entries_lookup.
  unfold zone_names. rewrite elem_of_list_to_set.
  case_bool_decide; split; try done; try (by eauto); by intros [? ?].
Qed.

(** The zone map of either component has every zone name. *)
Lemma clinical_regions_dom v masks r :
  clinical_regions v masks = Some r → dom r = zone_names.
Proof.
  destruct masks as [fm|]; cbn [clinical_regions]; intros H.
  - by eapply subdivide_dom.
  - apply _position_only_regions_inv in H as (b & _ & Hinv).
    by destruct Hinv.
Qed.

(** With well-formed masks, no zone has more indices than the mesh has
    vertices. *)
Lemma clinical_regions_length v masks r name l :
  from_option (well_formed_masks v) True masks →
  clinical_regions v masks = Some r → r !! name = Some l →
  (length l ≤ length v)%nat.
Proof.
  destruct masks as [fm|]; cbn [clinical_regions from_option];
    intros Hok H Hl.
  - destruct (subdivide_lists_ok v fm Hok r name l H Hl) as (Hr & Hnd & _).
    by apply in_range_length.
  - apply _position_only_regions_inv in H as (b & _ & Hinv).
    destruct (inv_lists _ _ _ _ Hinv _ _ Hl) as [Hinc Hr].
    apply in_range_length; [by apply increasing_NoDup|].
    unfold in_range. eapply Forall_impl; [exact Hr|]. intros i ?. done.
Qed.

(** ** The sides of the subdivider

    The brows, the nose tip, the nostrils and the zones of the face
    remainder are cut at the midline: the median [x] of the nose. *)

Definition midline_left_zones : list string :=
  [ "brow_left"; "brow_inner_left"; "nose_tip_left"; "nostril_left";
    "chin_left"; "jaw_left"; "jawline_left";
    "cheek_left"; "cheekbone_left"; "cheek_hollow_left"; "nasolabial_left" ].

Definition midline_right_zones : list string :=
  [ "brow_right"; "brow_inner_right"; "nose_tip_right"; "nostril_right";
    "chin_right"; "jaw_right"; "jawline_right";
    "cheek_right"; "cheekbone_right"; "cheek_hollow_right";
    "nasolabial_right" ].

(** The coordinate [a[i]] is above [m], or it is not. *)
Definition above (a : list Q) (m : Q) (i : Z) : Prop :=
  ∃ q, np_index a i = Some q ∧ (m < q)%Q.

Definition not_above (a : list Q) (m : Q) (i : Z) : Prop :=
  ∃ q, np_index a i = Some q ∧ (q <= m)%Q.

(** The list [l] may be the zone [k]: on the side of [m] that the name
    says. *)
Definition zone_side (a : list Q) (m : Q) (k : string) (l : list Z) : Prop :=
  (k ∈ midline_left_zones → Forall (above a m) l) ∧
  (k ∈ midline_right_zones → Forall (not_above a m) l).

Lemma above_not_above a m i : above a m i → not_above a m i → False.
Proof.
  intros (q & Hq & Hlt) (q' & Hq' & Hle). rewrite Hq in Hq'.
  apply (inj Some) in Hq' as <-. lra.
Qed.

Lemma Forall_sorted (P : Z → Prop) l : Forall P l → Forall P (sorted l).
Proof. intros H. by rewrite sorted_Permutation. Qed.

Lemma holds_at_true a (g : Q → bool) i :
  holds_at a g i → ∃ q, np_index a i = Some q ∧ g q = true.
Proof.
  unfold holds_at. destruct (np_index a i) as [q|]; cbn [from_option];
    [|done].
  intros H. exists q. split; [done|]. by apply Is_true_true.
Qed.

Lemma where_y_holds a c (g : Q → bool) s :
  where_y a c (λ ys, g <$> ys) = Some s →
  Forall (λ i, ∃ q, np_index a i = Some q ∧ g q = true) s.
Proof.
  intros H. apply where_y_filter in H as [-> _]. apply Forall_forall.
  intros i Hi. apply list_elem_of_filter in Hi as [Hi _].
  by apply holds_at_true.
Qed.

Section Sides.
Context (a : list Q) (m : Q).

Lemma where_gt_above c t s :
  where_x a c (λ xs, vgt xs t) = Some s → (m <= t)%Q → Forall (above a m) s.
Proof.
  intros H Hle. apply (where_y_holds a c (λ q, Qgtb q t)) in H.
  eapply Forall_impl; [exact H|]. intros i (q & Hq & Hg).
  exists q. split; [done|]. apply Qgtb_true in Hg. lra.
Qed.

Lemma where_le_not_above c t s :
  where_x a c (λ xs, vle xs t) = Some s → (t <= m)%Q →
  Forall (not_above a m) s.
Proof.
  intros H Hle. apply (where_y_holds a c (λ q, Qleb q t)) in H.
  eapply Forall_impl; [exact H|]. intros i (q & Hq & Hg).
  exists q. split; [done|]. apply Qleb_true in Hg. lra.
Qed.

Lemma where_lt_not_above c t s :
  where_x a c (λ xs, vlt xs t) = Some s → (t <= m)%Q →
  Forall (not_above a m) s.
Proof.
  intros H Hle. apply (where_y_holds a c (λ q, Qltb q t)) in H.
  eapply Forall_impl; [exact H|]. intros i (q & Hq & Hg).
  exists q. split; [done|]. apply Qltb_true in Hg. lra.
Qed.

Lemma _split_lr_sides c l r :
  _split_lr a c m = Some (l, r) →
  Forall (above a m) l ∧ Forall (not_above a m) r.
Proof.
  intros H. apply _split_lr_Some in H as (-> & -> & _).
  split; apply Forall_forall; intros i Hi;
    apply list_elem_of_filter in Hi as [Hi _];
    apply holds_at_true in Hi as (q & Hq & Hg); exists q; (split; [done|]).
  - by apply Qgtb_true in Hg.
  - by apply Qleb_true in Hg.
Qed.
End Sides.

Lemma where_y_Forall (P : Z → Prop) b c mask s :
  where_y b c mask = Some s → Forall P c → Forall P s.
Proof.
  intros H Hc. apply where_y_sublist in H. by eapply sublist_Forall.
Qed.

Lemma np_select_Forall (P : Z → Prop) c mask :
  Forall P c → Forall P (np_select c mask).
Proof. apply sublist_Forall, np_select_sublist. Qed.

Lemma chin_offset_left (m w : Q) :
  (0 <= w)%Q → (m <= m + w * 0.25 * 2 / 3 / 2)%Q.
Proof.
  intros. assert (/ 3 == 1 # 3)%Q as E3 by reflexivity.
  assert (/ 2 == 1 # 2)%Q as E2 by reflexivity.
  unfold Qdiv. rewrite E3, E2. lra.
Qed.

Lemma chin_offset_right (m w : Q) :
  (0 <= w)%Q → (m - w * 0.25 * 2 / 3 / 2 <= m)%Q.
Proof.
  intros. assert (/ 3 == 1 # 3)%Q as E3 by reflexivity.
  assert (/ 2 == 1 # 2)%Q as E2 by reflexivity.
  unfold Qdiv. rewrite E3, E2. lra.
Qed.

Lemma nostril_offset_left (m lo hi : Q) :
  (lo <= hi)%Q → (m <= m + (hi - lo) * 0.15)%Q.
Proof. intros. lra. Qed.

Lemma nostril_offset_right (m lo hi : Q) :
  (lo <= hi)%Q → (m - (hi - lo) * 0.15 <= m)%Q.
Proof. intros. lra. Qed.

(** A threshold on the side of the midline. *)
Ltac solve_le :=
  lazymatch goal with
  | |- (?m <= ?m)%Q => apply Qle_refl
  | |- (?m <= ?m + (?hi - ?lo) * 0.15)%Q =>
      apply nostril_offset_left; assumption
  | |- (?m - (?hi - ?lo) * 0.15 <= ?m)%Q =>
      apply nostril_offset_right; assumption
  | |- (?m <= ?m + ?w * 0.25 * 2 / 3 / 2)%Q =>
      apply chin_offset_left; assumption
  | |- (?m - ?w * 0.25 * 2 / 3 / 2 <= ?m)%Q =>
      apply chin_offset_right; assumption
  end.

(** The side of every selection of the context. *)
Ltac sides a m :=
  repeat match goal with
  | H : _split_lr a _ m = Some (_, _) |- _ =>
      apply (_split_lr_sides a m) in H as [? ?]
  | H : where_x a ?c (λ xs, vgt xs ?t) = Some ?s |- _ =>
      assert (Forall (above a m) s)
        by (apply (where_gt_above a m c t s H); solve_le);
      clear H
  | H : where_x a ?c (λ xs, vle xs ?t) = Some ?s |- _ =>
      assert (Forall (not_above a m) s)
        by (apply (where_le_not_above a m c t s H); solve_le);
      clear H
  | H : where_x a ?c (λ xs, vlt xs ?t) = Some ?s |- _ =>
      assert (Forall (not_above a m) s)
        by (apply (where_lt_not_above a m c t s H); solve_le);
      clear H
  end.

Ltac solve_forall :=
  first
    [ assumption
    | (apply Forall_sorted; solve_forall)
    | (eapply where_y_Forall; [eassumption|solve_forall])
    | (apply np_select_Forall; solve_forall) ].

Ltac solve_side :=
  split; intros ?Hk;
  first [ (exfalso; revert Hk; name_ne) | solve_forall ].

Ltac solve_beside :=
  repeat first
    [ apply writes_refl
    | assumption
    | (apply writes_insert; [|solve_side])
    | (eapply writes_trans; [|eassumption]) ].

Lemma side_left a m k l :
  k ∈ midline_left_zones → k ∉ midline_right_zones →
  Forall (above a m) l → zone_side a m k l.
Proof. intros ? ? ?. split; [done|]. intros ?. done. Qed.

Lemma side_right a m k l :
  k ∈ midline_right_zones → k ∉ midline_left_zones →
  Forall (not_above a m) l → zone_side a m k l.
Proof. intros ? ? ?. split; [|done]. intros ?. done. Qed.

Section StageSides.
Context (x y : list Q).
Context (nose_idx lips_idx forehead_idx face_remainder : list Z).
Context (nose_med_y midline_x : Q).

Lemma nose_stage_sides r r' :
  nose_stage x y nose_idx nose_med_y midline_x r = Some r' →
  writes (zone_side x midline_x) r r'.
Proof.
  intros Hrun. unfold nose_stage in Hrun. cbv zeta in Hrun.
  destruct (nonempty nose_idx); [|crunch; constructor].
  apply bind_Some in Hrun as (nose_y_lo & _ & Hrun).
  apply bind_Some in Hrun as (nose_y_hi & _ & Hrun).
  apply bind_Some in Hrun as (nose_x_lo & Hlo & Hrun).
  apply bind_Some in Hrun as (nose_x_hi & Hhi & Hrun).
  assert (nose_x_lo <= nose_x_hi)%Q as Hle
    by by apply (_percentile_x_mono x nose_idx 10 90).
  clear Hlo Hhi.
  steps; sides x midline_x; solve_beside.
Qed.

Lemma forehead_stage_sides r r' :
  forehead_stage x y forehead_idx midline_x r = Some r' →
  writes (zone_side x midline_x) r r'.
Proof.
  intros Hrun. unfold forehead_stage in Hrun. cbv zeta in Hrun.
  destruct (nonempty forehead_idx); [|crunch; constructor].
  do 4 (apply bind_Some in Hrun as (? & _ & Hrun)).
  apply bind_Some in Hrun as (r1 & Hloop & Hrun).
  apply forehead_loop_writes in Hloop.
  assert (writes (zone_side x midline_x) r r1) as Hr1.
  { apply (writes_trans _ _ (<["forehead" := sorted forehead_idx]> r));
      [apply writes_insert; [apply writes_refl|solve_side]|].
    eapply writes_mono; [|exact Hloop].
    intros k v (Hk & _). split; intros Hside; exfalso; revert k Hk Hside;
      each_name name_ne. }
  clear Hloop.
  steps; sides x midline_x; solve_beside.
Qed.

Lemma jawline_sides (P : Z → Prop) jaw name r r' :
  jawline y jaw name r = Some r' → Forall P jaw →
  writes (λ k l, k = name ∧ Forall P l) r r'.
Proof.
  intros Hrun HP. unfold jawline in Hrun. cbv zeta in Hrun.
  steps; [|constructor].
  apply writes_insert; [constructor|]. split; [done|].
  apply Forall_sorted. by eapply where_y_Forall.
Qed.

Lemma cheek_split_sides (P : Z → Prop) cheek mid n1 n2 r r' :
  cheek_split y cheek mid n1 n2 r = Some r' → Forall P cheek →
  writes (λ k l, k ∈ [n1; n2] ∧ Forall P l) r r'.
Proof.
  intros Hrun HP. unfold cheek_split in Hrun. cbv zeta in Hrun.
  steps; [|constructor].
  apply writes_insert; [apply writes_insert; [constructor|]|];
    (split; [in_list|]); apply Forall_sorted; by eapply where_y_Forall.
Qed.

Lemma face_stage_sides r r' :
  face_stage x y nose_idx lips_idx face_remainder midline_x r = Some r' →
  writes (zone_side x midline_x) r r'.
Proof.
  intros Hrun. unfold face_stage in Hrun. cbv zeta in Hrun.
  destruct (nonempty face_remainder); [|crunch; constructor].
  apply bind_Some in Hrun as (fr_y & Hy & Hrun).
  apply bind_Some in Hrun as (fr_x & Hx & Hrun).
  apply bind_Some in Hrun as (fr_y_lo & _ & Hrun).
  apply bind_Some in Hrun as (fr_y_hi & _ & Hrun).
  apply bind_Some in Hrun as (fr_x_max & Hmax & Hrun).
  apply bind_Some in Hrun as (fr_x_min & Hmin & Hrun).
  assert (0 <= fr_x_max - fr_x_min)%Q as Hw.
  { pose proof (np_min_le_max fr_x fr_x_min fr_x_max Hmin Hmax). lra. }
  clear Hmax Hmin.
  steps; sides x midline_x;
    repeat match goal with
    | H : jawline _ ?jaw _ _ = Some _, HP : Forall (above _ _) ?jaw |- _ =>
        let W := fresh "W" in
        pose proof (jawline_sides _ _ _ _ _ H HP) as W;
        apply (writes_mono _ (zone_side x midline_x)) in W;
        [clear H|intros ? ? [-> ?]; apply side_left; [solve_name|name_ne|done]]
    | H : jawline _ ?jaw _ _ = Some _, HP : Forall (not_above _ _) ?jaw |- _ =>
        let W := fresh "W" in
        pose proof (jawline_sides _ _ _ _ _ H HP) as W;
        apply (writes_mono _ (zone_side x midline_x)) in W;
        [clear H|intros ? ? [-> ?]; apply side_right; [solve_name|name_ne|done]]
    | H : cheek_split _ ?cheek _ _ _ _ = Some _,
      HP : Forall (above _ _) ?cheek |- _ =>
        let W := fresh "W" in
        pose proof (cheek_split_sides _ _ _ _ _ _ _ H HP) as W;
        apply (writes_mono _ (zone_side x midline_x)) in W;
        [clear H
        |intros k' ? [Hk' ?]; apply side_left;
         [revert k' Hk'; solve_names|revert k' Hk'; each_name name_ne|done]]
    | H : cheek_split _ ?cheek _ _ _ _ = Some _,
      HP : Forall (not_above _ _) ?cheek |- _ =>
        let W := fresh "W" in
        pose proof (cheek_split_sides _ _ _ _ _ _ _ H HP) as W;
        apply (writes_mono _ (zone_side x midline_x)) in W;
        [clear H
        |intros k' ? [Hk' ?]; apply side_right;
         [revert k' Hk'; solve_names|revert k' Hk'; each_name name_ne|done]]
    end;
    solve_beside.
Qed.
End StageSides.

(** A stage that writes no zone of either side. *)
Ltac no_side a m H :=
  apply (writes_mono _ (zone_side a m)) in H;
  [|let k := fresh "k" in
    let Hk := fresh "Hk" in
    let Hs := fresh "Hs" in
    intros k ? [Hk _]; split; intros Hs; exfalso; revert k Hk Hs;
    each_name name_ne].

Section RunSides.
Context (x y : list Q).
Context (nose_idx lips_idx forehead_idx left_eye_idx right_eye_idx
         neck_idx left_ear_idx right_ear_idx scalp_idx
         left_eyeball_idx right_eyeball_idx face_remainder : list Z).
Context (nose_med_y midline_x : Q).

Lemma before_full_face_sides r7 :
  before_full_face x y nose_idx lips_idx forehead_idx
    left_eye_idx right_eye_idx neck_idx left_ear_idx right_ear_idx
    scalp_idx left_eyeball_idx right_eyeball_idx face_remainder
    nose_med_y midline_x r7 →
  writes (zone_side x midline_x) init_regions r7.
Proof.
  intros (r1 & r2 & r3 & r4 & r5 & r6 & H1 & H2 & H3 & H4 & H5 & H6 & H7).
  apply forehead_stage_sides in H1.
  apply eye_turn_writes in H2, H3. no_side x midline_x H2. no_side x midline_x H3.
  apply nose_stage_sides in H4.
  apply lips_stage_writes in H5. no_side x midline_x H5.
  apply face_stage_sides in H6.
  apply scalp_stage_writes in H7. no_side x midline_x H7.
  assert (writes (zone_side x midline_x) r6
            (pass_stage neck_idx left_ear_idx right_ear_idx r6)) as Hp.
  { unfold pass_stage. cbv zeta. solve_beside. }
  repeat (eapply writes_trans; [eassumption|]). apply writes_refl.
Qed.
End RunSides.

Lemma _median_x_midline a idx m :
  (if nonempty idx then xs ← np_take a idx; Some (np_median xs)
   else Some 0%Q) = Some m →
  _median_x a idx = Some m.
Proof. unfold _median_x. by destruct (nonempty idx). Qed.

Lemma subdivide_sides v fm r :
  subdivide_flame_masks_to_clinical_zones v fm = Some r →
  ∃ midline,
    _median_x (vx <$> v) (region v fm "nose") = Some midline ∧
    ∀ k, zone_side (vx <$> v) midline k (zone_list r k).
Proof.
  unfold subdivide_flame_masks_to_clinical_zones. intros H.
  apply subdivide_with_Some in H
    as (Hv & nose_med_y & _ & _ & midline_x & _ & _ & _ & Hm & H).
  apply subdivide_stages_inv in H as (r7 & Hr7 & H).
  apply full_face_stage_inv in H as (s & -> & _).
  exists midline_x. split; [by apply _median_x_midline|].
  apply before_full_face_sides in Hr7. intros k.
  destruct (decide (k = "full_face")) as [->|Hne].
  { split; intros Hs; exfalso; revert Hs; name_ne. }
  rewrite zone_list_insert_ne by done. unfold zone_list.
  destruct (r7 !! k) as [l|] eqn:Hl; cbn [default].
  - destruct (writes_lookup _ _ _ _ _ Hr7 Hl) as [Hinit|Hside]; [|done].
    rewrite init_regions_lookup in Hinit. case_bool_decide; [|done].
    apply (inj Some) in Hinit as <-. by split.
  - by split.
Qed.

(** ** The regions that are divided entirely *)

Definition lip_thirds_names : list string :=
  [ "lip_upper_left"; "lip_upper_right"; "lip_upper_center";
    "lip_lower_left"; "lip_lower_right"; "lip_lower_center" ].

Section StageRegions.
Context (x y : list Q).
Context (lips_idx forehead_idx : list Z).
Context (midline_x : Q).

Lemma forehead_stage_forehead r r' :
  forehead_stage x y forehead_idx midline_x r = Some r' →
  r !! "forehead" = Some [] →
  zone_list r' "forehead" ≡ₚ forehead_idx.
Proof.
  unfold forehead_stage. intros H Hpre.
  destruct (nonempty forehead_idx) eqn:Hne.
  2:{ assert (r' = r) as -> by congruence.
      rewrite (zone_list_lookup r "forehead" []) by done.
      by rewrite (nonempty_false _ Hne). }
  cbv zeta in H.
  do 4 (apply bind_Some in H as (? & _ & H)).
  apply bind_Some in H as (r1 & Hloop & H).
  assert (zone_list r1 "forehead" = sorted forehead_idx) as Hr1.
  { unfold zone_list.
    rewrite (forehead_loop_frame _ _ _ _ _ _ _ _ Hloop) by name_ne.
    by rewrite lookup_insert_eq. }
  clear Hloop.
  steps; zone_lists_of; rewrite Hr1; apply sorted_Permutation.
Qed.

Lemma lips_stage_lips r r' :
  lips_stage x y lips_idx r = Some r' →
  r !! "lip_upper" = Some [] → r !! "lip_lower" = Some [] →
  zone_list r' "lip_upper" ++ zone_list r' "lip_lower" ≡ₚ lips_idx.
Proof.
  unfold lips_stage. intros H Hu Hl.
  destruct (nonempty lips_idx) eqn:Hne.
  2:{ assert (r' = r) as -> by congruence.
      rewrite (zone_list_lookup r "lip_upper" []) by done.
      rewrite (zone_list_lookup r "lip_lower" []) by done.
      by rewrite (nonempty_false _ Hne). }
  cbv zeta in H.
  do 3 (apply bind_Some in H as (? & _ & H)).
  apply bind_Some in H as ([upper lower] & Hsplit & H).
  apply _split_upper_lower_Permutation in Hsplit.
  apply bind_Some in H as (r2 & H2 & H).
  apply bind_Some in H as (r3 & H3 & H).
  apply lip_thirds_writes in H2, H3.
  assert (zone_list r3 "lip_upper" = sorted upper ∧
          zone_list r3 "lip_lower" = sorted lower) as [Hup Hlw].
  { unfold zone_list.
    rewrite !(writes_zone_from_frame _ _ _ _ _ H3) by name_ne.
    rewrite !(writes_zone_from_frame _ _ _ _ _ H2) by name_ne.
    lookup_inserts. done. }
  clear H2 H3.
  steps; zone_lists_of; rewrite Hup, Hlw, !sorted_Permutation; done.
Qed.
End StageRegions.

Lemma subdivide_regions v fm r :
  subdivide_flame_masks_to_clinical_zones v fm = Some r →
  zone_list r "forehead" ≡ₚ region v fm "forehead" ∧
  zone_list r "lip_upper" ++ zone_list r "lip_lower" ≡ₚ region v fm "lips".
Proof.
  intros H. apply subdivide_inv in H
    as (_ & nose_med_y & midline_x & r7 & s & Hr7 & -> & _).
  destruct Hr7
    as (r1 & r2 & r3 & r4 & r5 & r6 & H1 & H2 & H3 & H4 & H5 & H6 & H7).
  assert (∀ k, k ∈ forehead_keys → init_regions !! k = Some []) as P1.
  { intros k Hk. rewrite init_regions_lookup.
    rewrite bool_decide_eq_true_2; [done|]. revert k Hk. solve_names. }
  pose proof H1 as W1. apply forehead_stage_writes in W1.
  2:{ intros k Hk. apply P1. revert k Hk. solve_names. }
  pose proof H2 as W2. apply eye_turn_writes in W2.
  pose proof H3 as W3. apply eye_turn_writes in W3.
  pose proof H4 as W4. apply nose_stage_writes in W4.
  pose proof H5 as W5. apply lips_stage_writes in W5.
  pose proof H6 as W6. apply face_stage_writes in W6.
  apply scalp_stage_writes in H7. rename H7 into W7.
  apply forehead_stage_forehead in H1; [|apply P1; solve_name].
  apply lips_stage_lips in H5; [|untouched..].
  unfold zone_list in *. rewrite !lookup_insert_ne by name_ne. split.
  - revert H1. by repeat frame_step.
  - revert H5. by repeat frame_step.
Qed.

(** ** The scalp *)

Lemma face_rest_no_scalp set_order v fm fm' :
  (∀ key, key ≠ "scalp" → region v fm key = region v fm' key) →
  face_rest set_order v fm = face_rest set_order v fm'.
Proof.
  intros Hreg. rewrite !face_rest_specific_set.
  assert (specific_set v fm = specific_set v fm') as ->.
  { apply set_eq. intros i. rewrite !elem_of_specific_set.
    split; intros (key & Hkey & Hi); exists key; (split; [done|]).
    - rewrite <-Hreg; [done|]. intros ->. revert Hkey. name_ne.
    - rewrite Hreg; [done|]. intros ->. revert Hkey. name_ne. }
  by rewrite (Hreg "face") by done.
Qed.

(** The scalp is not looked at when there is a left temple, nor when it
    is empty. *)
Lemma scalp_stage_skip x y scalp_idx (r : zones) temple_left :
  r !! "temple_left" = Some temple_left →
  temple_left ≠ [] ∨ scalp_idx = [] →
  scalp_stage x y scalp_idx r = Some r.
Proof.
  intros Hl Hskip. unfold scalp_stage. rewrite Hl.
  cbn [mbind option_bind].
  destruct Hskip as [Hne| ->].
  - by destruct temple_left.
  - by rewrite andb_false_r.
Qed.

Lemma subdivide_stages_scalp set_order x y
    nose_idx lips_idx forehead_idx left_eye_idx right_eye_idx
    face_idx neck_idx left_ear_idx right_ear_idx scalp_idx
    left_eyeball_idx right_eyeball_idx face_remainder
    nose_med_y midline_x r :
  subdivide_stages set_order x y
    nose_idx lips_idx forehead_idx left_eye_idx right_eye_idx
    face_idx neck_idx left_ear_idx right_ear_idx []
    left_eyeball_idx right_eyeball_idx face_remainder
    nose_med_y midline_x = Some r →
  zone_list r "temple_left" ≠ [] →
  subdivide_stages set_order x y
    nose_idx lips_idx forehead_idx left_eye_idx right_eye_idx
    face_idx neck_idx left_ear_idx right_ear_idx scalp_idx
    left_eyeball_idx right_eyeball_idx face_remainder
    nose_med_y midline_x = Some r.
Proof.
  intros H Hne. apply subdivide_stages_inv in H as (r7 & Hr7 & Hff).
  apply subdivide_stages_inv. exists r7. split; [|done].
  destruct Hr7
    as (r1 & r2 & r3 & r4 & r5 & r6 & H1 & H2 & H3 & H4 & H5 & H6 & H7).
  exists r1, r2, r3, r4, r5, r6. split_and!; [done..|].
  apply full_face_stage_inv in Hff as (s & -> & _).
  rewrite zone_list_insert_ne in Hne by done.
  unfold scalp_stage in H7.
  apply bind_Some in H7 as (temple_left & Hl & H7).
  rewrite andb_false_r in H7. apply (inj Some) in H7 as <-.
  apply (scalp_stage_skip _ _ _ _ temple_left); [done|]. left.
  by rewrite (zone_list_lookup _ _ _ Hl) in Hne.
Qed.

(** * Further properties of the code: theorems *)

(** ** Samples *)

(** A mesh whose face remainder is not empty, with its zone map. *)
Definition sample_mesh : list vertex :=
  [ Vertex 0 5 1; Vertex 0 0 1; Vertex 2 1 1; Vertex (-2) 1 1;
    Vertex 2 4 1; Vertex (-2) 4 1; Vertex 0.2 0 1; Vertex (-0.9) 0.5 0 ]%Q.

Definition sample_masks : gmap string mask_val :=
  {[ "face" := MaskBool [true; true; true; true; true; true; true; true];
     "nose" := MaskInt [0] ]}.

Definition sample_zones : zones :=
  Eval vm_compute in
    default ∅ (subdivide_flame_masks_to_clinical_zones sample_mesh sample_masks).

Lemma sample_run :
  subdivide_flame_masks_to_clinical_zones sample_mesh sample_masks =
    Some sample_zones.
Proof. vm_cast_no_check (eq_refl (Some sample_zones)). Qed.

(** A mesh with vertices in the chin band of the position-only
    classifier, with its zone map. *)
Definition position_sample : list vertex :=
  [ Vertex (-5) 0 0; Vertex 5 10 1; Vertex 0 1.5 1; Vertex 0.8 1.5 1;
    Vertex (-0.8) 1.5 1; Vertex 0 5 1; Vertex 2 5 1 ]%Q.

Definition position_sample_zones : zones :=
  Eval vm_compute in default ∅ (_position_only_regions position_sample).

Lemma position_sample_run :
  _position_only_regions position_sample = Some position_sample_zones.
Proof. vm_cast_no_check (eq_refl (Some position_sample_zones)). Qed.

(** A mesh of no height and a mesh of no width. *)
Definition flat_y_mesh : list vertex :=
  [ Vertex 0 1 0; Vertex 1 1 1; Vertex (-1) 1 1 ]%Q.

Definition flat_x_mesh : list vertex :=
  [ Vertex 0 0 0; Vertex 0 10 1; Vertex 0 9 1; Vertex 0 5 1 ]%Q.

Definition flat_x_zones : zones :=
  Eval vm_compute in default ∅ (_position_only_regions flat_x_mesh).

Lemma flat_x_run : _position_only_regions flat_x_mesh = Some flat_x_zones.
Proof. vm_cast_no_check (eq_refl (Some flat_x_zones)). Qed.

(** A column of coordinates with two of its percentiles. *)
Definition sample_column : list Q := [4; 0; 3; 1; 2]%Q.

Definition sample_p25 : Q :=
  Eval vm_compute in default 0%Q (_percentile_x sample_column [0; 1; 2; 3; 4] 25).

Definition sample_p75 : Q :=
  Eval vm_compute in default 0%Q (_percentile_x sample_column [0; 1; 2; 3; 4] 75).

(** ** The helpers *)

(** X1.  [_compute_vertex_stats] raises on the empty vertex array and
    on no other.  On every other it returns one normalized [y] and one
    normalized [x] per vertex, each between 0 and 1, and ranges that are
    not negative. *)
Theorem normalised_coordinates_in_unit_interval v :
  (_compute_vertex_stats v = None ↔ v = []) ∧
  (v ≠ [] → is_Some (_compute_vertex_stats v)) ∧
  ∀ st, _compute_vertex_stats v = Some st →
    length (st_yn st) = length v ∧ length (st_xn st) = length v ∧
    (0 <= st_y_range st)%Q ∧ (0 <= st_x_range st)%Q ∧
    Forall (λ q, 0 <= q <= 1)%Q (st_yn st) ∧
    Forall (λ q, 0 <= q <= 1)%Q (st_xn st).
Proof.
  split; [apply _compute_vertex_stats_None|]. split.
  - apply _compute_vertex_stats_is_Some.
  - intros st H. by apply _compute_vertex_stats_unit.
Qed.

(** The empty vertex array raises; a vertex array with one vertex does
    not. *)
Example _compute_vertex_stats_empty :
  _compute_vertex_stats [] = None ∧
  is_Some (_compute_vertex_stats [Vertex 0 0 0]).
Proof. split; [reflexivity|]. vm_compute. by eexists. Qed.

(** X2.  [_split_lr] raises exactly when an index is outside [-N, N).
    Otherwise its first result is the indices with a coordinate above
    the threshold and its second those with a coordinate at or below
    it, both in the order of the index array, so that the two divide
    the array.  [_split_upper_lower] is the same function of the other
    column. *)
Theorem split_lr_by_threshold (a : list Q) idx t :
  match _split_lr a idx t with
  | Some (over, rest) =>
      over = filter (λ i, holds_at a (λ q, Qgtb q t) i) idx ∧
      rest = filter (λ i, holds_at a (λ q, Qleb q t) i) idx ∧
      over ++ rest ≡ₚ idx
  | None => ¬ indexable (length a) idx
  end ∧
  _split_upper_lower a idx t = _split_lr a idx t.
Proof.
  split; [|apply _split_upper_lower_eq].
  destruct (_split_lr a idx t) as [[over rest]|] eqn:H.
  - by apply _split_lr_Some.
  - by apply _split_lr_None in H.
Qed.

(** X3.  [_filter_x_range] raises exactly when an index is outside
    [-N, N).  Otherwise it returns, in the order of the index array,
    the indices whose coordinate lies in the closed interval from
    [x_lo] to [x_hi]: none when [x_hi] is below [x_lo].
    [_filter_y_range] is the same function of the other column. *)
Theorem filter_range_closed_interval (a : list Q) idx lo hi :
  (_filter_x_range a idx lo hi = None ↔ ¬ indexable (length a) idx) ∧
  (∀ l, _filter_x_range a idx lo hi = Some l →
        l = filter (λ i, holds_at a (in_closed_range lo hi) i) idx ∧
        ((hi < lo)%Q → l = [])) ∧
  _filter_y_range a idx lo hi = _filter_x_range a idx lo hi.
Proof.
  split; [apply _filter_x_range_None|].
  split; [|apply _filter_y_range_eq].
  intros l H. apply _filter_x_range_Some in H as ->. split; [done|].
  intros Hlt. induction idx as [|i idx IH]; [done|].
  rewrite filter_cons_False; [done|].
  intros Hh. unfold holds_at in Hh.
  destruct (np_index a i) as [q|]; cbn [from_option] in Hh; [|done].
  by rewrite in_closed_range_empty in Hh.
Qed.

(** An index outside the array raises; without it the indices of the
    interval are returned in the order of the index array. *)
Example _filter_x_range_ex :
  _filter_x_range [0; 5; 2; 7]%Q [0; 9] 0 3 = None ∧
  _filter_x_range [0; 5; 2; 7]%Q [3; 2; 0; -3] 0 5 = Some [2; 0; -3].
Proof. split; vm_compute; reflexivity. Qed.

(** X4.  A higher percentile of the coordinates of an index array is
    not below a lower one, and both lie between the least and the
    greatest of these coordinates. *)
Theorem percentiles_ordered (a : list Q) idx p q lo hi :
  0 ≤ p → p ≤ q → q ≤ 100 →
  _percentile_x a idx p = Some lo → _percentile_x a idx q = Some hi →
  (lo <= hi)%Q ∧
  ∀ xs least greatest,
    np_take a idx = Some xs →
    np_min xs = Some least → np_max xs = Some greatest →
    (least <= lo)%Q ∧ (hi <= greatest)%Q.
Proof.
  intros Hp Hpq Hq Hlo Hhi. split; [by eapply _percentile_x_mono|].
  intros xs least greatest Hxs Hmin Hmax.
  unfold _percentile_x in Hlo, Hhi.
  destruct idx as [|i idx]; cbn [nonempty negb] in *.
  { rewrite np_take_nil in Hxs. by simplify_eq. }
  rewrite Hxs in Hlo, Hhi. cbn [mbind option_bind] in Hlo, Hhi.
  simplify_eq.
  split; eapply np_percentile_bounds; try done; lia.
Qed.

Lemma percentiles_ordered_witness :
  (sample_p25 <= sample_p75)%Q ∧
  ∀ xs least greatest,
    np_take sample_column [0; 1; 2; 3; 4] = Some xs →
    np_min xs = Some least → np_max xs = Some greatest →
    (least <= sample_p25)%Q ∧ (sample_p75 <= greatest)%Q.
Proof.
  apply (percentiles_ordered sample_column [0; 1; 2; 3; 4] 25 75
           sample_p25 sample_p75).
  - lia.
  - lia.
  - lia.
  - vm_compute. reflexivity.
  - vm_compute. reflexivity.
Defined.

(** ** Errors *)

(** X5.  An empty vertex array is an error in both components, whatever
    the masks ([min] of an empty array), and the position-only
    classifier raises on no other input. *)
Theorem empty_mesh_raises v :
  (∀ masks, clinical_regions [] masks = None) ∧
  (_position_only_regions v = None ↔ v = []).
Proof.
  split; [|apply _position_only_regions_None].
  intros [fm|]; reflexivity.
Qed.

(** X6.  When the subdivider returns, the mesh has a vertex and every
    index of the nose, lips, forehead and eye regions and of the face
    remainder lies in [-N, N): an index outside raises. *)
Theorem subdivide_needs_valid_indices v fm r :
  subdivide_flame_masks_to_clinical_zones v fm = Some r →
  v ≠ [] ∧
  (∀ key, key ∈ always_indexed_keys →
          indexable (length v) (region v fm key)) ∧
  indexable (length v) (face_rest elements v fm).
Proof.
  unfold subdivide_flame_masks_to_clinical_zones. intros H.
  apply subdivide_with_Some in H
    as (Hv & nose_med_y & _ & lips_med_y & midline_x & Hn & _ & Hl & _ & H).
  apply subdivide_stages_inv in H as (r7 & Hr7 & _).
  destruct Hr7
    as (r1 & r2 & r3 & r4 & r5 & r6 & H1 & H2 & H3 & _ & _ & H6 & _).
  apply _median_y_indexable in Hn, Hl.
  apply forehead_stage_indexable in H1.
  apply eye_turn_indexable in H2, H3.
  apply face_stage_indexable in H6.
  rewrite length_fmap in *.
  split_and!; [done| |done].
  intros key Hkey. unfold always_indexed_keys in Hkey.
  repeat (apply elem_of_cons in Hkey as [->|Hkey]; [done|]).
  by apply elem_of_nil in Hkey.
Qed.

Lemma subdivide_needs_valid_indices_witness :
  demo_mesh ≠ [] ∧
  (∀ key, key ∈ always_indexed_keys →
          indexable (length demo_mesh) (region demo_mesh demo_masks key)) ∧
  indexable (length demo_mesh) (face_rest elements demo_mesh demo_masks).
Proof.
  exact (subdivide_needs_valid_indices demo_mesh demo_masks demo_zones
           demo_run).
Defined.

(** An index of the nose region outside [-N, N) is an [IndexError]. *)
Example nose_index_out_of_range :
  subdivide_flame_masks_to_clinical_zones demo_mesh
    {[ "nose" := MaskInt [5] ]} = None.
Proof. vm_compute. reflexivity. Qed.

(** ** The mask dictionary *)

(** X7.  The result of the subdivider depends on the mask dictionary
    only through the index arrays of the twelve regions it reads: two
    dictionaries that give the same index array for each of them give
    the same zone map, or both raise. *)
Theorem subdivide_reads_twelve_regions v fm fm' :
  (∀ key, key ∈ recognised_keys → region v fm key = region v fm' key) →
  subdivide_flame_masks_to_clinical_zones v fm =
  subdivide_flame_masks_to_clinical_zones v fm'.
Proof. apply subdivide_with_ext. Qed.

(** The masks of the example with the nose as a boolean mask instead of
    an index list. *)
Definition demo_masks_nose_mask : gmap string mask_val :=
  <["nose" := MaskBool [false; true; false; false; false]]> demo_masks.

Lemma subdivide_reads_twelve_regions_witness :
  subdivide_flame_masks_to_clinical_zones demo_mesh demo_masks =
  subdivide_flame_masks_to_clinical_zones demo_mesh demo_masks_nose_mask.
Proof.
  apply (subdivide_reads_twelve_regions demo_mesh demo_masks
           demo_masks_nose_mask).
  intros key Hkey. unfold recognised_keys in Hkey.
  repeat (apply elem_of_cons in Hkey as [->|Hkey];
          [vm_compute; reflexivity|]).
  by apply elem_of_nil in Hkey.
Defined.

(** X8.  A key the subdivider does not read is ignored, and a region
    given as [None], as an empty array or as an all-false mask is the
    same as an absent region. *)
Theorem unread_or_empty_region_is_absent v fm k mv :
  k ∉ recognised_keys ∨ _mask_to_indices (length v) mv = [] →
  subdivide_flame_masks_to_clinical_zones v (<[k := mv]> fm) =
  subdivide_flame_masks_to_clinical_zones v (delete k fm).
Proof.
  intros Hk. apply subdivide_with_ext. intros key Hkey.
  rewrite region_insert, region_delete. case_decide as Heq; [|done].
  subst. by destruct Hk.
Qed.

Lemma unread_or_empty_region_is_absent_witness :
  subdivide_flame_masks_to_clinical_zones demo_mesh
    (<["lips" := MaskBool [false; false; false]]> demo_masks) =
  subdivide_flame_masks_to_clinical_zones demo_mesh
    (delete "lips" demo_masks).
Proof.
  apply (unread_or_empty_region_is_absent demo_mesh demo_masks
           "lips" (MaskBool [false; false; false])).
  right. vm_compute. reflexivity.
Defined.

(** ** Zones and regions *)

(** X9.  Every index of a zone of the subdivider other than [full_face]
    is an index of the region the zone is selected from
    ([zone_regions]): of the forehead or the scalp for a temple, of one
    region for every other zone. *)
Theorem zone_within_region v fm r keys regs k l i :
  subdivide_flame_masks_to_clinical_zones v fm = Some r →
  (keys, regs) ∈ zone_regions → k ∈ keys →
  r !! k = Some l → i ∈ l →
  ∃ key, key ∈ regs ∧ i ∈ region v fm key.
Proof.
  intros Hrun Hrow Hk Hl Hi.
  rewrite <-(zone_regions_home keys regs k Hrow Hk).
  eapply zone_within_home; [done| |done..].
  intros ->. by apply (zone_regions_not_full_face keys regs).
Qed.

Lemma zone_within_region_witness :
  ∃ key, key ∈ ["forehead"; "scalp"] ∧
         2 ∈ region demo_mesh demo_masks key.
Proof.
  apply (zone_within_region demo_mesh demo_masks demo_zones
           ["temple_left"; "temple_right"] ["forehead"; "scalp"]
           "temple_right" [2] 2).
  - exact demo_run.
  - apply (bool_decide_unpack _). vm_compute. exact I.
  - apply (bool_decide_unpack _). vm_compute. exact I.
  - vm_compute. reflexivity.
  - apply (bool_decide_unpack _). vm_compute. exact I.
Defined.

(** X10.  The zones selected from the face (chin, jaw, jawline, cheeks,
    nasolabial folds) hold only indices of the [face] region that are
    in none of the specific regions: nose, lips, forehead, eye regions,
    neck, ears and eyeballs. *)
Theorem face_zones_outside_specific_regions v fm r k l i :
  subdivide_flame_masks_to_clinical_zones v fm = Some r →
  k ∈ face_keys → r !! k = Some l → i ∈ l →
  i ∈ region v fm "face" ∧
  ∀ key, key ∈ specific_keys → i ∉ region v fm key.
Proof.
  intros Hrun Hk Hl Hi. apply elem_of_face_rest_iff.
  apply subdivide_inv in Hrun
    as (_ & nose_med_y & midline_x & r7 & s & Hr7 & -> & _).
  rewrite lookup_insert_ne in Hl.
  2:{ intros <-. revert Hk. apply (bool_decide_unpack _). vm_compute. exact I. }
  destruct (run_before_lookup _ _ _ _ _ _ _ Hr7 Hl)
    as [->|(keys & src & Hin & Hz)]; [by apply elem_of_nil in Hi|].
  pose proof (zone_from_subseteq _ _ _ _ Hz) as Hsub.
  destruct Hz as [Hkeys _].
  rewrite <-(face_zone_in_rest v fm keys src k Hin Hkeys Hk).
  by apply Hsub.
Qed.

Lemma face_zones_outside_specific_regions_witness :
  7 ∈ region sample_mesh sample_masks "face" ∧
  ∀ key, key ∈ specific_keys → 7 ∉ region sample_mesh sample_masks key.
Proof.
  apply (face_zones_outside_specific_regions sample_mesh sample_masks
           sample_zones "chin" [1; 6; 7] 7).
  - exact sample_run.
  - apply (bool_decide_unpack _). vm_compute. exact I.
  - vm_compute. reflexivity.
  - apply (bool_decide_unpack _). vm_compute. exact I.
Defined.

(** X11.  [full_face] of the subdivider is strictly increasing and
    holds exactly the indices of the face, forehead, nose, lips and eye
    regions and those of the two temples. *)
Theorem subdivide_full_face_exact v fm r :
  subdivide_flame_masks_to_clinical_zones v fm = Some r →
  ∃ ff, r !! "full_face" = Some ff ∧ increasing ff ∧
    ∀ i, i ∈ ff ↔
      (∃ key, key ∈ raw_face_keys ∧ i ∈ region v fm key) ∨
      (∃ k l, k ∈ ["temple_left"; "temple_right"] ∧
              r !! k = Some l ∧ i ∈ l).
Proof.
  intros Hrun. apply subdivide_inv in Hrun
    as (_ & nose_med_y & midline_x & r7 & s & Hr7 & -> & Hs).
  exists (sorted (elements s)). split_and!.
  - by rewrite lookup_insert_eq.
  - apply sorted_increasing, NoDup_elements.
  - intros i. rewrite elem_of_sorted, elem_of_elements, Hs.
    rewrite elem_of_run_raw_face_sets. split.
    + intros [(k & l & Hk & Hex & Hl & Hi)|?]; [|by left].
      destruct (run_before_lookup _ _ _ _ _ _ _ Hr7 Hl)
        as [->|(keys & src & Hin & Hz)]; [by apply elem_of_nil in Hi|].
      pose proof (zone_from_subseteq _ _ _ _ Hz) as Hsub.
      destruct Hz as [Hkeys _].
      destruct (run_sources_home v fm keys src k i Hin Hkeys)
        as (key & Hkey & Hreg); [by apply Hsub|].
      destruct (home_in_face k key Hk Hex Hkey) as [?|Htemple].
      * left. by exists key.
      * right. exists k, l. split; [done|]. split; [|done].
        rewrite lookup_insert_ne; [done|]. intros <-. apply Hex. solve_name.
    + intros [?|(k & l & Hk & Hl & Hi)]; [by right|].
      left. exists k, l.
      repeat (apply elem_of_cons in Hk as [->|Hk];
              [rewrite lookup_insert_ne in Hl by done;
               split_and!; [solve_name|solve_name|done..]|]).
      by apply elem_of_nil in Hk.
Qed.

Lemma subdivide_full_face_exact_witness :
  ∃ ff, demo_zones !! "full_face" = Some ff ∧ increasing ff ∧
    ∀ i, i ∈ ff ↔
      (∃ key, key ∈ raw_face_keys ∧ i ∈ region demo_mesh demo_masks key) ∨
      (∃ k l, k ∈ ["temple_left"; "temple_right"] ∧
              demo_zones !! k = Some l ∧ i ∈ l).
Proof.
  exact (subdivide_full_face_exact demo_mesh demo_masks demo_zones demo_run).
Defined.

(** ** The zone tree *)

(** X12.  In the zone map of either component, every index of a
    sub-zone is an index of its zone ([sub_zones]): of the forehead for
    a forehead third, of the brow for an inner brow, of the under-eye
    zone for a tear trough, of the cheek for a cheekbone or a cheek
    hollow, and so on. *)
Theorem sub_zone_within_zone v masks r c p i :
  clinical_regions v masks = Some r →
  (c, p) ∈ sub_zones →
  i ∈ zone_list r c → i ∈ zone_list r p.
Proof.
  intros Hrun Hcp. apply clinical_regions_tree in Hrun as [Hsub _].
  rewrite Forall_forall in Hsub. apply (Hsub (c, p) Hcp).
Qed.

Lemma sub_zone_within_zone_witness : 3 ∈ zone_list demo_zones "forehead".
Proof.
  apply (sub_zone_within_zone demo_mesh (Some demo_masks) demo_zones
           "forehead_left" "forehead" 3).
  - exact demo_run.
  - apply (bool_decide_unpack _). vm_compute. exact I.
  - apply (bool_decide_unpack _). vm_compute. exact I.
Defined.

(** X13.  In the zone map of either component, the sub-zones of a row
    of [zone_partitions] divide their zone: the index lists of the
    sub-zones, one after the other, are a rearrangement of the index
    list of the zone.  So the three forehead thirds divide the
    forehead, the upper and the lower bridge the nose bridge, the
    cheekbone and the cheek hollow the cheek, the three lip thirds each
    lip. *)
Theorem zone_divided_by_sub_zones v masks r p parts :
  clinical_regions v masks = Some r →
  (p, parts) ∈ zone_partitions →
  zone_lists r parts ≡ₚ zone_list r p.
Proof.
  intros Hrun Hrow. apply clinical_regions_tree in Hrun as [_ Hparts].
  rewrite Forall_forall in Hparts. apply (Hparts (p, parts) Hrow).
Qed.

Lemma zone_divided_by_sub_zones_witness :
  zone_lists sample_zones ["cheekbone_left"; "cheek_hollow_left"] ≡ₚ
  zone_list sample_zones "cheek_left".
Proof.
  apply (zone_divided_by_sub_zones sample_mesh (Some sample_masks)
           sample_zones "cheek_left" ["cheekbone_left"; "cheek_hollow_left"]).
  - exact sample_run.
  - apply (bool_decide_unpack _). vm_compute. exact I.
Defined.

(** ** The position-only classifier *)

(** X14.  The position-only classifier divides the chin as well: the
    index lists of [chin_center], [chin_left] and [chin_right], one
    after the other, are a rearrangement of the index list of [chin]. *)
Theorem position_chin_divided v r :
  _position_only_regions v = Some r →
  zone_lists r chin_partition.2 ≡ₚ zone_list r chin_partition.1.
Proof.
  intros Hrun. apply position_tree in Hrun as [_ Hparts].
  rewrite Forall_forall in Hparts. apply (Hparts chin_partition).
  unfold position_partitions. apply elem_of_app. right. by left.
Qed.

Lemma position_chin_divided_witness :
  zone_lists position_sample_zones chin_partition.2 ≡ₚ
  zone_list position_sample_zones chin_partition.1.
Proof.
  exact (position_chin_divided position_sample position_sample_zones
           position_sample_run).
Defined.

(** X15.  The position-only classifier puts no vertex into a zone of
    the left side and a zone of the right side. *)
Theorem position_zones_one_side v r kl kr i :
  _position_only_regions v = Some r →
  kl ∈ left_zones → kr ∈ right_zones →
  i ∈ zone_list r kl → i ∉ zone_list r kr.
Proof.
  intros Hrun Hl Hr Hil Hir. pose proof Hrun as Hinv.
  apply _position_only_regions_inv in Hinv as (b & Hb & _).
  by eapply (position_one_side v r b Hrun Hb kl kr i).
Qed.

Lemma position_zones_one_side_witness :
  3 ∉ zone_list position_sample_zones "jaw_right".
Proof.
  apply (position_zones_one_side position_sample position_sample_zones
           "chin_left" "jaw_right" 3).
  - exact position_sample_run.
  - apply (bool_decide_unpack _). vm_compute. exact I.
  - apply (bool_decide_unpack _). vm_compute. exact I.
  - apply (bool_decide_unpack _). vm_compute. exact I.
Defined.

(** X16.  In the position-only classifier [full_face] holds exactly the
    front-facing vertices with a normalized [y] above 0.10, and a
    vertex of the neck is in no other zone. *)
Theorem position_full_face_and_neck v r :
  _position_only_regions v = Some r →
  ∃ b, bounding_box v = Some b ∧
    (∀ i vert, vertex_at v i = Some vert →
       (i ∈ zone_list r "full_face" ↔
        front b vert = true ∧ fgtq (norm_y b vert) 0.10 = true)) ∧
    (∀ i k, i ∈ zone_list r "neck" → i ∈ zone_list r k → k = "neck").
Proof.
  intros Hrun. pose proof Hrun as Hinv.
  apply _position_only_regions_inv in Hinv as (b & Hb & _).
  exists b. split; [done|]. split.
  - intros i vert Hvert. rewrite (position_zone_list v r b Hrun Hb).
    unfold zones_at. rewrite Hvert. rewrite full_face_vertex_zones.
    split; [by intros [_ ?]|]. intros H. split; [|done].
    unfold vertex_at in Hvert. destruct (0 <=? i) eqn:Hi; [|done].
    apply lookup_lt_Some in Hvert. lia.
  - intros i k. rewrite !(position_zone_list v r b Hrun Hb).
    unfold zones_at. intros [_ Hneck] [_ Hk].
    destruct (vertex_at v i) as [vert|]; [|by apply elem_of_nil in Hk].
    rewrite (neck_vertex_zones _ _ _ Hneck) in Hk.
    by apply list_elem_of_singleton in Hk.
Qed.

Lemma position_full_face_and_neck_witness :
  ∃ b, bounding_box position_sample = Some b ∧
    (∀ i vert, vertex_at position_sample i = Some vert →
       (i ∈ zone_list position_sample_zones "full_face" ↔
        front b vert = true ∧ fgtq (norm_y b vert) 0.10 = true)) ∧
    (∀ i k, i ∈ zone_list position_sample_zones "neck" →
            i ∈ zone_list position_sample_zones k → k = "neck").
Proof.
  exact (position_full_face_and_neck position_sample position_sample_zones
           position_sample_run).
Defined.

(** X17.  On a mesh all of whose vertices have the same height the
    position-only classifier returns every zone empty: the normalized
    [y] of every vertex is nan and no test on it holds. *)
Theorem flat_mesh_unclassified v :
  v ≠ [] → (∀ p q, p ∈ v → q ∈ v → (vy p == vy q)%Q) →
  _position_only_regions v = Some init_regions.
Proof.
  intros Hv Hflat.
  destruct (_position_only_regions_is_Some v Hv) as [r Hrun].
  rewrite Hrun. f_equal. pose proof Hrun as Hinv.
  apply _position_only_regions_inv in Hinv as (b & Hb & Hinv).
  apply _position_only_regions_zones in Hrun as (b' & Hb' & Hz).
  assert (b' = b) as -> by congruence.
  apply map_eq. intros k. rewrite init_regions_lookup.
  case_bool_decide as Hk.
  - rewrite (Hz k Hk). f_equal.
    assert (∀ i, zones_at v b i = []) as Hnone.
    { intros i. unfold zones_at.
      destruct (vertex_at v i) as [vert|] eqn:Hvert; [|done].
      rewrite (norm_y_flat v b Hb Hflat vert)
        by (by eapply vertex_at_elem_of).
      apply vertex_zones_nan_y. }
    clear Hz. generalize (seqZ 0 (Z.of_nat (length v))). intros l.
    induction l as [|i l IH]; [done|].
    rewrite filter_cons_False; [exact IH|]. rewrite Hnone.
    apply not_elem_of_nil.
  - apply not_elem_of_dom. rewrite (inv_dom _ _ _ _ Hinv).
    intros Hin. by apply elem_of_list_to_set in Hin.
Qed.

Lemma flat_mesh_unclassified_witness :
  _position_only_regions flat_y_mesh = Some init_regions.
Proof.
  apply (flat_mesh_unclassified flat_y_mesh); [done|].
  intros p q Hp Hq. unfold flat_y_mesh in Hp, Hq.
  repeat (apply elem_of_cons in Hp as [->|Hp]);
    try (by apply elem_of_nil in Hp);
    repeat (apply elem_of_cons in Hq as [->|Hq]);
    try (by apply elem_of_nil in Hq); reflexivity.
Defined.

(** X18.  On a mesh all of whose vertices have the same [x] the
    position-only classifier fills no zone but [neck], [full_face],
    [forehead] and [forehead_center]: the normalized [x] of every
    vertex is nan, and these are the zones that are given without a
    test on it that holds. *)
Theorem narrow_mesh_zones v r k l :
  (∀ p q, p ∈ v → q ∈ v → (vx p == vx q)%Q) →
  _position_only_regions v = Some r →
  r !! k = Some l → l ≠ [] →
  k ∈ ["neck"; "full_face"; "forehead"; "forehead_center"].
Proof.
  intros Hflat Hrun Hl Hne. pose proof Hrun as Hinv.
  apply _position_only_regions_inv in Hinv as (b & Hb & Hinv).
  destruct l as [|i l]; [done|].
  assert (i ∈ i :: l) as Hi by (by left).
  apply (elem_of_position_zone v r b k _ i Hrun Hb Hl) in Hi as [_ Hk].
  unfold zones_at in Hk.
  destruct (vertex_at v i) as [vert|] eqn:Hvert;
    [|by apply elem_of_nil in Hk].
  rewrite (norm_x_flat v b Hb Hflat vert) in Hk
    by (by eapply vertex_at_elem_of).
  by eapply vertex_zones_nan_x.
Qed.

Lemma narrow_mesh_zones_witness :
  "forehead_center" ∈ ["neck"; "full_face"; "forehead"; "forehead_center"].
Proof.
  apply (narrow_mesh_zones flat_x_mesh flat_x_zones "forehead_center" [1; 2]).
  - intros p q Hp Hq. unfold flat_x_mesh in Hp, Hq.
    repeat (apply elem_of_cons in Hp as [->|Hp]);
      try (by apply elem_of_nil in Hp);
      repeat (apply elem_of_cons in Hq as [->|Hq]);
      try (by apply elem_of_nil in Hq); reflexivity.
  - exact flat_x_run.
  - vm_compute. reflexivity.
  - done.
Defined.

(** ** The region file *)

(** X19.  When a component returns, the region file has an entry for
    each of the 61 zone names and no other: the index list the component
    returned for the name (the default of [get] is never used) and its
    length, which with well-formed masks is at most the number of
    vertices in the file. *)
Theorem regions_file_entries v masks r :
  clinical_regions v masks = Some r →
  ∃ f, regions_json v masks = Some f ∧
    zone_count f = 61%nat ∧ vertex_count f = length v ∧
    dom (file_zones f) = zone_names ∧
    ∀ name, name ∈ ALL_CLINICAL_ZONES →
      ∃ l, r !! name = Some l ∧
           file_zones f !! name = Some (ZoneEntry l (length l)) ∧
           (from_option (well_formed_masks v) True masks →
            (length l ≤ vertex_count f)%nat).
Proof.
  intros Hrun. unfold regions_json. rewrite Hrun.
  cbn [mbind option_bind]. eexists. split; [done|].
  cbn [zone_count vertex_count file_zones].
  split; [by vm_compute|]. split; [done|]. split; [apply dom_zone_entries|].
  intros name Hname.
  destruct (zone_names_lookup r name) as [l Hl];
    [by eapply clinical_regions_dom|done|].
  exists l. split; [done|]. rewrite zone_entries_lookup.
  rewrite bool_decide_eq_true_2 by done. rewrite Hl. cbn [default].
  split; [done|]. intros Hok. by eapply clinical_regions_length.
Qed.

Lemma regions_file_entries_witness :
  ∃ f, regions_json sample_mesh (Some sample_masks) = Some f ∧
    zone_count f = 61%nat ∧ vertex_count f = length sample_mesh ∧
    dom (file_zones f) = zone_names ∧
    ∀ name, name ∈ ALL_CLINICAL_ZONES →
      ∃ l, sample_zones !! name = Some l ∧
           file_zones f !! name = Some (ZoneEntry l (length l)) ∧
           (from_option (well_formed_masks sample_mesh) True
              (Some sample_masks) →
            (length l ≤ vertex_count f)%nat).
Proof.
  exact (regions_file_entries sample_mesh (Some sample_masks) sample_zones
           sample_run).
Defined.

(** ** The sides and the thirds of the subdivider *)

(** X20.  The subdivider cuts the brows, the nose tip, the nostrils and
    the zones of the face remainder at the median [x] of the nose (0
    without a nose): every vertex of a left zone of these has an [x]
    above it and every vertex of a right zone an [x] at or below it, so
    that no vertex is in a left and in a right zone of them. *)
Theorem zones_beside_midline v fm r :
  subdivide_flame_masks_to_clinical_zones v fm = Some r →
  ∃ midline,
    _median_x (vx <$> v) (region v fm "nose") = Some midline ∧
    (∀ k i, k ∈ midline_left_zones → i ∈ zone_list r k →
            above (vx <$> v) midline i) ∧
    (∀ k i, k ∈ midline_right_zones → i ∈ zone_list r k →
            not_above (vx <$> v) midline i) ∧
    (∀ kl kr i, kl ∈ midline_left_zones → kr ∈ midline_right_zones →
                i ∈ zone_list r kl → i ∉ zone_list r kr).
Proof.
  intros H. apply subdivide_sides in H as (midline & Hm & Hside).
  exists midline. split; [done|].
  assert (∀ k i, k ∈ midline_left_zones → i ∈ zone_list r k →
                 above (vx <$> v) midline i) as Hleft.
  { intros k i Hk Hi. destruct (Hside k) as [Hl _].
    specialize (Hl Hk). rewrite Forall_forall in Hl. by apply Hl. }
  assert (∀ k i, k ∈ midline_right_zones → i ∈ zone_list r k →
                 not_above (vx <$> v) midline i) as Hright.
  { intros k i Hk Hi. destruct (Hside k) as [_ Hr].
    specialize (Hr Hk). rewrite Forall_forall in Hr. by apply Hr. }
  split; [done|]. split; [done|].
  intros kl kr i Hkl Hkr Hil Hir.
  eapply above_not_above; [by eapply Hleft|by eapply Hright].
Qed.

Lemma zones_beside_midline_witness :
  ∃ midline,
    _median_x (vx <$> sample_mesh) (region sample_mesh sample_masks "nose")
      = Some midline ∧
    (∀ k i, k ∈ midline_left_zones → i ∈ zone_list sample_zones k →
            above (vx <$> sample_mesh) midline i) ∧
    (∀ k i, k ∈ midline_right_zones → i ∈ zone_list sample_zones k →
            not_above (vx <$> sample_mesh) midline i) ∧
    (∀ kl kr i, kl ∈ midline_left_zones → kr ∈ midline_right_zones →
                i ∈ zone_list sample_zones kl →
                i ∉ zone_list sample_zones kr).
Proof.
  exact (zones_beside_midline sample_mesh sample_masks sample_zones
           sample_run).
Defined.

(** X21.  The subdivider divides the forehead region among the three
    forehead thirds and the lips region among the six lip thirds: the
    index lists of the thirds, one after the other, are a rearrangement
    of the index array of the region. *)
Theorem forehead_and_lips_divided v fm r :
  subdivide_flame_masks_to_clinical_zones v fm = Some r →
  zone_lists r forehead_thirds ≡ₚ region v fm "forehead" ∧
  zone_lists r lip_thirds_names ≡ₚ region v fm "lips".
Proof.
  intros H. destruct (subdivide_regions v fm r H) as [Hf Hl].
  apply subdivide_tree in H as [_ Hparts].
  rewrite Forall_forall in Hparts.
  assert (∀ p parts, (p, parts) ∈ zone_partitions →
                     zone_lists r parts ≡ₚ zone_list r p) as Hrow.
  { intros p parts Hin. apply (Hparts (p, parts) Hin). }
  split.
  - rewrite <-Hf. apply Hrow. solve_name.
  - rewrite <-Hl.
    rewrite <-(Hrow "lip_upper"
      ["lip_upper_left"; "lip_upper_right"; "lip_upper_center"])
      by solve_name.
    rewrite <-(Hrow "lip_lower"
      ["lip_lower_left"; "lip_lower_right"; "lip_lower_center"])
      by solve_name.
    unfold zone_lists, lip_thirds_names. cbn [fmap list_fmap concat].
    by rewrite <-!app_assoc.
Qed.

Lemma forehead_and_lips_divided_witness :
  zone_lists demo_zones forehead_thirds ≡ₚ
    region demo_mesh demo_masks "forehead" ∧
  zone_lists demo_zones lip_thirds_names ≡ₚ
    region demo_mesh demo_masks "lips".
Proof.
  exact (forehead_and_lips_divided demo_mesh demo_masks demo_zones demo_run).
Defined.

(** ** The scalp and the temples *)

(** A mesh whose forehead gives a left temple, with its zone map when
    no scalp is supplied. *)
Definition temple_mesh : list vertex :=
  [ Vertex 0 0 1; Vertex 1 1 1; Vertex 2 2 1; Vertex 3 3 1;
    Vertex 10 1.5 1 ]%Q.

Definition temple_masks : gmap string mask_val :=
  {[ "forehead" := MaskBool [true; true; true; true; true] ]}.

Definition temple_zones : zones :=
  Eval vm_compute in
    default ∅ (subdivide_flame_masks_to_clinical_zones temple_mesh
                 (delete "scalp" temple_masks)).

Lemma temple_run :
  subdivide_flame_masks_to_clinical_zones temple_mesh
    (delete "scalp" temple_masks) = Some temple_zones.
Proof. vm_cast_no_check (eq_refl (Some temple_zones)). Qed.

(** X22.  When the forehead gives a left temple the scalp is not looked
    at: whatever is supplied as [scalp], a usable region or not, the
    subdivider returns the zone map it returns without it. *)
Theorem scalp_unused_with_left_temple v fm r mv :
  subdivide_flame_masks_to_clinical_zones v (delete "scalp" fm) = Some r →
  zone_list r "temple_left" ≠ [] →
  subdivide_flame_masks_to_clinical_zones v (<["scalp" := mv]> fm) = Some r.
Proof.
  unfold subdivide_flame_masks_to_clinical_zones. intros H Hne.
  apply subdivide_with_Some in H
    as (Hv & a & b & c & d & Ha & Hb & Hc & Hd & H).
  assert (∀ key, key ≠ "scalp" →
            region v (<["scalp" := mv]> fm) key =
            region v (delete "scalp" fm) key) as Hreg.
  { intros key Hkey. rewrite region_insert, region_delete.
    by rewrite !decide_False by done. }
  apply subdivide_with_Some. split; [done|]. exists a, b, c, d.
  rewrite (face_rest_no_scalp _ v _ _ Hreg).
  rewrite !Hreg by done.
  rewrite (Hreg "left_eyeball"), (Hreg "right_eyeball") by done.
  split_and!; [done..|].
  rewrite (region_delete v fm "scalp" "scalp") in H.
  rewrite decide_True in H by done.
  by apply subdivide_stages_scalp.
Qed.

Lemma scalp_unused_with_left_temple_witness :
  subdivide_flame_masks_to_clinical_zones temple_mesh
    (<["scalp" := MaskInt [0; 1; 7]]> temple_masks) = Some temple_zones.
Proof.
  apply (scalp_unused_with_left_temple temple_mesh temple_masks temple_zones
           (MaskInt [0; 1; 7])).
  - exact temple_run.
  - apply (bool_decide_unpack _). vm_compute. exact I.
Defined.

(** The test is on the left temple alone.  On the example the forehead
    gives a right temple and no left one; with a scalp both temples are
    assigned again from the scalp, and the right temple of the forehead
    is lost. *)
Definition demo_masks_scalp : gmap string mask_val :=
  <["scalp" := MaskInt [0; 3; 4]]> demo_masks.

Definition demo_zones_scalp : zones :=
  Eval vm_compute in
    default ∅ (subdivide_flame_masks_to_clinical_zones demo_mesh
                 demo_masks_scalp).

Lemma demo_run_scalp :
  subdivide_flame_masks_to_clinical_zones demo_mesh demo_masks_scalp =
    Some demo_zones_scalp.
Proof. vm_cast_no_check (eq_refl (Some demo_zones_scalp)). Qed.

Example scalp_replaces_right_temple :
  demo_zones !! "temple_right" = Some [2] ∧
  demo_zones_scalp !! "temple_left" = Some [] ∧
  demo_zones_scalp !! "temple_right" = Some [].
Proof. split_and!; vm_compute; reflexivity. Qed.
